(** * cashflow.py: category and journal parsers, registry, roll-up of totals

    A shallow embedding of [src/cashflow.py].  Text is [string]; Python
    integers are [nat] (indices, counters, levels) or [Z] (month, day, year);
    Python floats are the kernel's binary64 numbers ([PrimFloat.float]); the
    dictionary [cat_dict] is a [gmap string nat]; the lists [cat_list] and
    [journal_list] are lists updated by index.  [sys.exit] becomes an error
    result.

    The text is ASCII text: [str.isdigit] is the test for '0'..'9',
    [str.rstrip] strips the ASCII white space characters, [int] and [float]
    take every digit character, and [len] and the widths of [format] count
    the characters of a [string].  Outside ASCII Python differs on each of
    these points ([str.isdigit] holds of other digit characters, some of
    which [int] and [float] refuse with a ValueError; [str.rstrip] strips
    other white space such as the no-break space; a character is not one
    unit of an encoded text), so the statements that rest on them are stated
    for the texts that pass [ascii_text]. *)

From Stdlib Require Import ZArith Lia List String Ascii Bool.
From Stdlib Require Import Floats Sorting.Permutation Sorting.Sorted.
From stdpp Require Import gmap strings list.

Open Scope string_scope.
Set Default Proof Using "Type".
Set Warnings "-inexact-float".

(** ** Python's string operations *)

(** The newline character, and the string literals that contain it. *)
Definition newline : ascii := "010"%char.
Definition hash_or_newline : string := String "#" (String newline "").
Definition comma_or_newline : string := String "," (String newline "").
Definition space_or_newline : string := String " " (String newline "").

(** [c in s] for a one-character [c]. *)
Fixpoint in_str (c : ascii) (s : string) : bool :=
  match s with
  | "" => false
  | String x s' => Ascii.eqb c x || in_str c s'
  end.

(** The characters of ASCII, the texts made of them, and the files whose
    lines are such texts. *)
Definition is_ascii (c : ascii) : bool :=
  match c with
  | Ascii _ _ _ _ _ _ _ b7 => negb b7
  end.

Fixpoint ascii_text (s : string) : bool :=
  match s with
  | "" => true
  | String c s' => is_ascii c && ascii_text s'
  end.

Definition ascii_file (lines : list string) : bool := forallb ascii_text lines.

(** [c.isdigit()] on ASCII text. *)
Definition isdigit (c : ascii) : bool :=
  (48 <=? nat_of_ascii c)%nat && (nat_of_ascii c <=? 57)%nat.

(** [int(c)] for an ASCII digit character. *)
Definition int_of_char (c : ascii) : Z := Z.of_nat (nat_of_ascii c - 48).

(** [c.isspace()] on ASCII text: blank, tab to carriage return, and the four
    separators 28 to 31. *)
Definition isspace (c : ascii) : bool :=
  let n := nat_of_ascii c in
  (n =? 32)%nat || ((9 <=? n)%nat && (n <=? 13)%nat) || ((28 <=? n)%nat && (n <=? 31)%nat).

(** [s.rstrip()] on ASCII text. *)
Fixpoint rstrip (s : string) : string :=
  match s with
  | "" => ""
  | String c s' =>
      match rstrip s' with
      | "" => if isspace c then "" else String c ""
      | t => String c t
      end
  end.

(** [s[lo:hi]] for [0 <= lo], [0 <= hi]. *)
Definition slice (s : string) (lo hi : nat) : string := substring lo (hi - lo) s.

(** [s.rfind(c)]: the index of the last [c], or [-1]. *)
Fixpoint rfind_from (c : ascii) (s : string) (i : nat) (last : Z) : Z :=
  match s with
  | "" => last
  | String x s' => rfind_from c s' (S i) (if Ascii.eqb x c then Z.of_nat i else last)
  end.

Definition rfind (c : ascii) (s : string) : Z := rfind_from c s 0 (-1).

(** [s[0:pos]] for any integer [pos]: a negative [pos] counts from the end. *)
Definition slice_to (s : string) (pos : Z) : string :=
  let hi := if (pos <? 0)%Z then Z.max 0 (Z.of_nat (String.length s) + pos) else pos in
  substring 0 (Z.to_nat hi) s.

(** [" " * n]. *)
Fixpoint spaces (n : nat) : string :=
  match n with
  | O => ""
  | S n' => String " " (spaces n')
  end.

(** ** The category file parser ([parse_cat_file_line]) *)

(** [class CS(Enum)]: the states of the parser, with the local variables of
    [parse_cat_file_line]. *)
Module CS.

Inductive state : Set :=
| START
| LEVEL1
| LEVEL234A
| LEVEL234B
| START_DESCR
| END_DESCR
| END_COMMENT.

Record vars : Set := mk {
  parse_state : state;
  start_idx : nat;
  level : nat;
  digit_count : nat;
  cat_code : string;
  descr_start : nat;
  descr : string;
  comment_start : nat
}.

Definition init : vars := mk START 0 0 0 "" 0 "" 0.

Definition set_parse_state (s : state) (v : vars) : vars :=
  mk s (start_idx v) (level v) (digit_count v) (cat_code v)
    (descr_start v) (descr v) (comment_start v).
Definition set_start_idx (n : nat) (v : vars) : vars :=
  mk (parse_state v) n (level v) (digit_count v) (cat_code v)
    (descr_start v) (descr v) (comment_start v).
Definition set_level (n : nat) (v : vars) : vars :=
  mk (parse_state v) (start_idx v) n (digit_count v) (cat_code v)
    (descr_start v) (descr v) (comment_start v).
Definition set_digit_count (n : nat) (v : vars) : vars :=
  mk (parse_state v) (start_idx v) (level v) n (cat_code v)
    (descr_start v) (descr v) (comment_start v).
Definition set_cat_code (s : string) (v : vars) : vars :=
  mk (parse_state v) (start_idx v) (level v) (digit_count v) s
    (descr_start v) (descr v) (comment_start v).
Definition set_descr_start (n : nat) (v : vars) : vars :=
  mk (parse_state v) (start_idx v) (level v) (digit_count v) (cat_code v)
    n (descr v) (comment_start v).
Definition set_descr (s : string) (v : vars) : vars :=
  mk (parse_state v) (start_idx v) (level v) (digit_count v) (cat_code v)
    (descr_start v) s (comment_start v).
Definition set_comment_start (n : nat) (v : vars) : vars :=
  mk (parse_state v) (start_idx v) (level v) (digit_count v) (cat_code v)
    (descr_start v) (descr v) n.

End CS.

(** What [parse_cat_file_line] returns: the tuple
    [(error_msg, cat_code, descr, comment, level)] is all [None] for a blank or
    comment line, carries only the message on an error, and the four fields
    otherwise. *)
Inductive cat_result : Set :=
| CatSkip
| CatError (error_msg : string)
| CatLine (code description comment : string) (lvl : nat).

Definition cat_format_error : string := "Error, invalid category file format".

(** One turn of the [for idx, char in enumerate(cat_file_line)] loop, for a
    character of ASCII text: [inl] is [continue] with the updated variables,
    [inr] is [return]. *)
Definition cat_step (cat_file_line : string) (idx : nat) (char : ascii)
    (v : CS.vars) : CS.vars + cat_result :=
  match CS.parse_state v with
  | CS.START =>
      if Ascii.eqb char " " then inl v
      else if in_str char hash_or_newline then inr CatSkip
      else if in_str char "123456789" then
        inl (CS.set_parse_state CS.LEVEL1 (CS.set_level 1 (CS.set_start_idx idx v)))
      else inr (CatError cat_format_error)
  | CS.LEVEL1 =>
      if Ascii.eqb char "." then
        inl (CS.set_parse_state CS.LEVEL234A (CS.set_level 2 v))
      else if Ascii.eqb char " " then
        inl (CS.set_parse_state CS.START_DESCR
               (CS.set_cat_code (slice cat_file_line (CS.start_idx v) idx) v))
      else inr (CatError cat_format_error)
  | CS.LEVEL234A =>
      if in_str char "123456789" then
        inl (CS.set_digit_count 1 (CS.set_parse_state CS.LEVEL234B v))
      else inr (CatError cat_format_error)
  | CS.LEVEL234B =>
      if isdigit char then
        let v := CS.set_digit_count (CS.digit_count v + 1) v in
        if (CS.digit_count v <=? 2)%nat then inl v
        else inr (CatError "Error, invalid category code, too many digits")
      else if Ascii.eqb char "." then
        let v := CS.set_level (CS.level v + 1) v in
        if (CS.level v <=? 4)%nat then inl (CS.set_parse_state CS.LEVEL234A v)
        else inr (CatError "Error, invalid category code, level nested too deeply")
      else if Ascii.eqb char " " then
        inl (CS.set_parse_state CS.START_DESCR
               (CS.set_cat_code (slice cat_file_line (CS.start_idx v) idx) v))
      else inr (CatError cat_format_error)
  | CS.START_DESCR =>
      if Ascii.eqb char " " then inl v
      else if in_str char hash_or_newline then
        inr (CatError "Error, invalid category file format, missing description")
      else inl (CS.set_parse_state CS.END_DESCR (CS.set_descr_start idx v))
  | CS.END_DESCR =>
      if in_str char hash_or_newline then
        let v := CS.set_descr (rstrip (slice cat_file_line (CS.descr_start v) idx)) v in
        if Ascii.eqb char newline then
          inr (CatLine (CS.cat_code v) (CS.descr v) "" (CS.level v))
        else inl (CS.set_parse_state CS.END_COMMENT (CS.set_comment_start idx v))
      else inl v
  | CS.END_COMMENT =>
      if Ascii.eqb char newline then
        inr (CatLine (CS.cat_code v) (CS.descr v)
               (rstrip (slice cat_file_line (CS.comment_start v) idx)) (CS.level v))
      else inl v
  end.

(** The loop over the characters [rest] that follow position [idx]: [inl] when
    the loop drops out at the end of the line, [inr] when a turn returned. *)
Fixpoint cat_loop (cat_file_line : string) (idx : nat) (rest : string)
    (v : CS.vars) : CS.vars + cat_result :=
  match rest with
  | "" => inl v
  | String char rest' =>
      match cat_step cat_file_line idx char v with
      | inl v' => cat_loop cat_file_line (S idx) rest' v'
      | inr r => inr r
      end
  end.

(** The code after the loop. *)
Definition cat_after_loop (v : CS.vars) : cat_result :=
  match CS.parse_state v with
  | CS.START => CatSkip
  | _ => CatError cat_format_error
  end.

Definition parse_cat_file_line (cat_file_line : string) : cat_result :=
  match cat_loop cat_file_line 0 cat_file_line CS.init with
  | inl v => cat_after_loop v
  | inr r => r
  end.

(** A line of text followed by its newline. *)
Definition ln (s : string) : string := s +:+ String newline "".

(** ** The journal file parser ([parse_journal_file_line]) *)

(** [float(c)] for an ASCII digit character. *)
Definition float_of_char (c : ascii) : float :=
  PrimFloat.of_uint63 (Uint63.of_Z (int_of_char c)).

(** [calendar.isleap]. *)
Definition isleap (year : Z) : bool :=
  ((year mod 4 =? 0) && (negb (year mod 100 =? 0) || (year mod 400 =? 0)))%Z.

(** Table giving the maximum date for each month, 29 days for February. *)
Definition MAX_DATE : list Z := [0; 31; 29; 31; 30; 31; 30; 31; 31; 30; 31; 30; 31]%Z.

(** [str(n)] for [0 <= n]. *)
Definition digit_char (d : Z) : ascii := ascii_of_nat (48 + Z.to_nat d).

Fixpoint str_of_Z_fuel (fuel : nat) (n : Z) (acc : string) : string :=
  match fuel with
  | O => acc
  | S fuel' =>
      let acc' := String (digit_char (n mod 10)) acc in
      if (n <? 10)%Z then acc' else str_of_Z_fuel fuel' (n / 10) acc'
  end.

Definition str_of_Z (n : Z) : string :=
  str_of_Z_fuel (S (Z.to_nat (Z.log2 n))) n "".

Fixpoint zeros (n : nat) : string :=
  match n with
  | O => ""
  | S n' => String "0" (zeros n')
  end.

(** ["{0:0wd}".format(z)]: the sign, then the digits padded with zeros up to
    the width [w]. *)
Definition format_0d (w : nat) (z : Z) : string :=
  let sign := if (z <? 0)%Z then "-" else "" in
  let digits := str_of_Z (Z.abs z) in
  sign +:+ zeros (w - String.length sign - String.length digits) +:+ digits.

(** ["{0:02d}/{1:02d}/{2:04d}".format(month_value, date_value, journal_year)]. *)
Definition expand_date (month_value date_value journal_year : Z) : string :=
  format_0d 2 month_value +:+ "/" +:+ format_0d 2 date_value +:+ "/"
    +:+ format_0d 4 journal_year.

(** [class TJ(Enum)]: the states of the parser, with the local variables of
    [parse_journal_file_line]. *)
Module TJ.

Inductive state : Set :=
| START
| MONTH
| DATE
| START_DESCR
| END_DESCR
| START_AMT
| DOLLARS
| CENTS
| START_TYPE
| END_TYPE
| START_CAT
| END_CAT.

Record vars : Set := mk {
  parse_state : state;
  month_value : Z;
  digit_ctr : nat;
  date_value : Z;
  jdate : string;
  descr_start : nat;
  jdescr : string;
  sign_flag : bool;
  dollars : float;
  cents : float;
  jamt : float;
  type_start : nat;
  jtype : string;
  cat_start : nat
}.

Definition init : vars :=
  mk START 0 0 0 "" 0 "" false 0%float 0%float 0%float 0 "" 0.

Definition set_parse_state (s : state) (v : vars) : vars :=
  mk s (month_value v) (digit_ctr v) (date_value v) (jdate v) (descr_start v)
    (jdescr v) (sign_flag v) (dollars v) (cents v) (jamt v) (type_start v)
    (jtype v) (cat_start v).
Definition set_month_value (z : Z) (v : vars) : vars :=
  mk (parse_state v) z (digit_ctr v) (date_value v) (jdate v) (descr_start v)
    (jdescr v) (sign_flag v) (dollars v) (cents v) (jamt v) (type_start v)
    (jtype v) (cat_start v).
Definition set_digit_ctr (n : nat) (v : vars) : vars :=
  mk (parse_state v) (month_value v) n (date_value v) (jdate v) (descr_start v)
    (jdescr v) (sign_flag v) (dollars v) (cents v) (jamt v) (type_start v)
    (jtype v) (cat_start v).
Definition set_date_value (z : Z) (v : vars) : vars :=
  mk (parse_state v) (month_value v) (digit_ctr v) z (jdate v) (descr_start v)
    (jdescr v) (sign_flag v) (dollars v) (cents v) (jamt v) (type_start v)
    (jtype v) (cat_start v).
Definition set_jdate (s : string) (v : vars) : vars :=
  mk (parse_state v) (month_value v) (digit_ctr v) (date_value v) s (descr_start v)
    (jdescr v) (sign_flag v) (dollars v) (cents v) (jamt v) (type_start v)
    (jtype v) (cat_start v).
Definition set_descr_start (n : nat) (v : vars) : vars :=
  mk (parse_state v) (month_value v) (digit_ctr v) (date_value v) (jdate v) n
    (jdescr v) (sign_flag v) (dollars v) (cents v) (jamt v) (type_start v)
    (jtype v) (cat_start v).
Definition set_jdescr (s : string) (v : vars) : vars :=
  mk (parse_state v) (month_value v) (digit_ctr v) (date_value v) (jdate v)
    (descr_start v) s (sign_flag v) (dollars v) (cents v) (jamt v) (type_start v)
    (jtype v) (cat_start v).
Definition set_sign_flag (b : bool) (v : vars) : vars :=
  mk (parse_state v) (month_value v) (digit_ctr v) (date_value v) (jdate v)
    (descr_start v) (jdescr v) b (dollars v) (cents v) (jamt v) (type_start v)
    (jtype v) (cat_start v).
Definition set_dollars (x : float) (v : vars) : vars :=
  mk (parse_state v) (month_value v) (digit_ctr v) (date_value v) (jdate v)
    (descr_start v) (jdescr v) (sign_flag v) x (cents v) (jamt v) (type_start v)
    (jtype v) (cat_start v).
Definition set_cents (x : float) (v : vars) : vars :=
  mk (parse_state v) (month_value v) (digit_ctr v) (date_value v) (jdate v)
    (descr_start v) (jdescr v) (sign_flag v) (dollars v) x (jamt v) (type_start v)
    (jtype v) (cat_start v).
Definition set_jamt (x : float) (v : vars) : vars :=
  mk (parse_state v) (month_value v) (digit_ctr v) (date_value v) (jdate v)
    (descr_start v) (jdescr v) (sign_flag v) (dollars v) (cents v) x (type_start v)
    (jtype v) (cat_start v).
Definition set_type_start (n : nat) (v : vars) : vars :=
  mk (parse_state v) (month_value v) (digit_ctr v) (date_value v) (jdate v)
    (descr_start v) (jdescr v) (sign_flag v) (dollars v) (cents v) (jamt v) n
    (jtype v) (cat_start v).
Definition set_jtype (s : string) (v : vars) : vars :=
  mk (parse_state v) (month_value v) (digit_ctr v) (date_value v) (jdate v)
    (descr_start v) (jdescr v) (sign_flag v) (dollars v) (cents v) (jamt v)
    (type_start v) s (cat_start v).
Definition set_cat_start (n : nat) (v : vars) : vars :=
  mk (parse_state v) (month_value v) (digit_ctr v) (date_value v) (jdate v)
    (descr_start v) (jdescr v) (sign_flag v) (dollars v) (cents v) (jamt v)
    (type_start v) (jtype v) n.

End TJ.

(** What [parse_journal_file_line] returns: the tuple
    [(jerror, jdate, jdescr, jamt, jtype, jcat_code)] is all [None] for a blank
    or comment line, carries only the message on an error, and the five fields
    otherwise.  The type of the amount is a parameter; the parser returns
    floats. *)
Inductive journal_result (A : Type) : Type :=
| JSkip
| JError (jerror : string)
| JLine (jdate jdescr : string) (jamt : A) (jtype jcat_code : string).

Arguments JSkip {A}.
Arguments JError {A} jerror.
Arguments JLine {A} jdate jdescr jamt jtype jcat_code.

Definition journal_format_error : string := "Error, invalid journal file format".
Definition month_error : string := "Error, invalid month in journal file".
Definition date_error : string := "Error, invalid date in journal file".
Definition leap_error : string := "Error, invalid leap year date in journal file".
Definition descr_error : string := "Error, invalid description in journal file".
Definition amount_error : string := "Error, invalid amount in journal file".
Definition type_error : string := "Error, invalid transaction type in journal file".
Definition cat_code_error : string := "Error, invalid category code in journal file".

(** One turn of the [for idx, char in enumerate(journal_file_line)] loop, for
    a character of ASCII text: there [int(char)] and [float(char)] are called
    on the digits '0'..'9' only and raise nothing. *)
Definition journal_step (journal_file_line : string) (journal_year : Z)
    (idx : nat) (char : ascii) (v : TJ.vars) : TJ.vars + journal_result float :=
  match TJ.parse_state v with
  | TJ.START =>
      if Ascii.eqb char " " then inl v
      else if in_str char hash_or_newline then inr JSkip
      else if isdigit char then
        inl (TJ.set_parse_state TJ.MONTH
               (TJ.set_digit_ctr 1 (TJ.set_month_value (int_of_char char) v)))
      else inr (JError journal_format_error)
  | TJ.MONTH =>
      if isdigit char then
        let v := TJ.set_month_value (TJ.month_value v * 10 + int_of_char char) v in
        let v := TJ.set_digit_ctr (TJ.digit_ctr v + 1) v in
        if (TJ.digit_ctr v <=? 2)%nat then inl v
        else inr (JError month_error)
      else if Ascii.eqb char "/"
              && ((1 <=? TJ.month_value v)%Z && (TJ.month_value v <=? 12)%Z) then
        inl (TJ.set_parse_state TJ.DATE (TJ.set_date_value 0 (TJ.set_digit_ctr 0 v)))
      else inr (JError month_error)
  | TJ.DATE =>
      if isdigit char then
        let v := TJ.set_date_value (TJ.date_value v * 10 + int_of_char char) v in
        let v := TJ.set_digit_ctr (TJ.digit_ctr v + 1) v in
        if (TJ.digit_ctr v <=? 2)%nat then inl v
        else inr (JError date_error)
      else if Ascii.eqb char ","
              && ((1 <=? TJ.date_value v)%Z
                  && (TJ.date_value v <=? nth (Z.to_nat (TJ.month_value v)) MAX_DATE 0)%Z) then
        if ((TJ.month_value v =? 2)%Z && (TJ.date_value v =? 29)%Z)
           && negb (isleap journal_year) then
          inr (JError leap_error)
        else
          inl (TJ.set_parse_state TJ.START_DESCR
                 (TJ.set_jdate
                    (expand_date (TJ.month_value v) (TJ.date_value v) journal_year) v))
      else inr (JError date_error)
  | TJ.START_DESCR =>
      if Ascii.eqb char " " then inl v
      else if negb (in_str char comma_or_newline) then
        inl (TJ.set_parse_state TJ.END_DESCR (TJ.set_descr_start idx v))
      else inr (JError descr_error)
  | TJ.END_DESCR =>
      if Ascii.eqb char "," then
        inl (TJ.set_parse_state TJ.START_AMT
               (TJ.set_sign_flag false
                  (TJ.set_jdescr
                     (rstrip (slice journal_file_line (TJ.descr_start v) idx)) v)))
      else inl v
  | TJ.START_AMT =>
      if Ascii.eqb char " " then inl v
      else if Ascii.eqb char "-" then
        inl (TJ.set_parse_state TJ.DOLLARS
               (TJ.set_dollars 0%float (TJ.set_digit_ctr 0 (TJ.set_sign_flag true v))))
      else if isdigit char then
        inl (TJ.set_parse_state TJ.DOLLARS
               (TJ.set_dollars (float_of_char char) (TJ.set_digit_ctr 1 v)))
      else inr (JError amount_error)
  | TJ.DOLLARS =>
      if isdigit char then
        inl (TJ.set_dollars (TJ.dollars v * 10 + float_of_char char)%float
               (TJ.set_digit_ctr (TJ.digit_ctr v + 1) v))
      else if Ascii.eqb char "." && negb (TJ.digit_ctr v =? 0)%nat then
        inl (TJ.set_parse_state TJ.CENTS (TJ.set_cents 0%float (TJ.set_digit_ctr 0 v)))
      else inr (JError amount_error)
  | TJ.CENTS =>
      if isdigit char then
        inl (TJ.set_cents (TJ.cents v * 10 + float_of_char char)%float
               (TJ.set_digit_ctr (TJ.digit_ctr v + 1) v))
      else if Ascii.eqb char "," && (TJ.digit_ctr v =? 2)%nat then
        let jamt := (TJ.dollars v + TJ.cents v / 100)%float in
        let jamt := if TJ.sign_flag v then (- jamt)%float else jamt in
        inl (TJ.set_parse_state TJ.START_TYPE (TJ.set_jamt jamt v))
      else inr (JError amount_error)
  | TJ.START_TYPE =>
      if Ascii.eqb char " " then inl v
      else if negb (in_str char comma_or_newline) then
        inl (TJ.set_parse_state TJ.END_TYPE (TJ.set_type_start idx v))
      else inr (JError type_error)
  | TJ.END_TYPE =>
      if Ascii.eqb char "," then
        inl (TJ.set_parse_state TJ.START_CAT
               (TJ.set_jtype (rstrip (slice journal_file_line (TJ.type_start v) idx)) v))
      else inl v
  | TJ.START_CAT =>
      if Ascii.eqb char " " then inl v
      else if isdigit char then
        inl (TJ.set_parse_state TJ.END_CAT (TJ.set_cat_start idx v))
      else inr (JError cat_code_error)
  | TJ.END_CAT =>
      if isdigit char || Ascii.eqb char "." then inl v
      else if in_str char space_or_newline then
        inr (JLine (TJ.jdate v) (TJ.jdescr v) (TJ.jamt v) (TJ.jtype v)
               (slice journal_file_line (TJ.cat_start v) idx))
      else inr (JError cat_code_error)
  end.

Fixpoint journal_loop (journal_file_line : string) (journal_year : Z) (idx : nat)
    (rest : string) (v : TJ.vars) : TJ.vars + journal_result float :=
  match rest with
  | "" => inl v
  | String char rest' =>
      match journal_step journal_file_line journal_year idx char v with
      | inl v' => journal_loop journal_file_line journal_year (S idx) rest' v'
      | inr r => inr r
      end
  end.

(** The code after the loop. *)
Definition journal_after_loop (v : TJ.vars) : journal_result float :=
  match TJ.parse_state v with
  | TJ.START => JSkip
  | _ => JError journal_format_error
  end.

Definition parse_journal_file_line (journal_file_line : string) (journal_year : Z)
    : journal_result float :=
  match journal_loop journal_file_line journal_year 0 journal_file_line TJ.init with
  | inl v => journal_after_loop v
  | inr r => r
  end.

(** ** The classes and the global variables *)

(** [class CatCode]: one category of [cat_list].  [A] is the type of the dollar
    values, [float] in the program. *)
Module CatCode.

Record t (A : Type) : Type := mk {
  cat_str : string;
  descr : string;
  comment : string;
  level : nat;
  line_nbr : nat;
  parent : option nat;
  children : list nat;
  total : A;
  nested_total : A;
  monthly : list A;
  nested_monthly : list A;
  journal : list nat;
  longest : nat
}.

Arguments mk {A}.
Arguments cat_str {A}.
Arguments descr {A}.
Arguments comment {A}.
Arguments level {A}.
Arguments line_nbr {A}.
Arguments parent {A}.
Arguments children {A}.
Arguments total {A}.
Arguments nested_total {A}.
Arguments monthly {A}.
Arguments nested_monthly {A}.
Arguments journal {A}.
Arguments longest {A}.

(** [__init__]; [zero] is [0.0]. *)
Definition new {A : Type} (zero : A) (cat_code descr comment : string)
    (level line_num : nat) : t A :=
  mk cat_code descr comment level line_num None [] zero zero
    (replicate 12 zero) (replicate 12 zero) [] 0.

Definition set_parent {A : Type} (p : option nat) (c : t A) : t A :=
  mk (cat_str c) (descr c) (comment c) (level c) (line_nbr c) p (children c)
    (total c) (nested_total c) (monthly c) (nested_monthly c) (journal c) (longest c).
Definition set_children {A : Type} (l : list nat) (c : t A) : t A :=
  mk (cat_str c) (descr c) (comment c) (level c) (line_nbr c) (parent c) l
    (total c) (nested_total c) (monthly c) (nested_monthly c) (journal c) (longest c).
Definition set_total {A : Type} (x : A) (c : t A) : t A :=
  mk (cat_str c) (descr c) (comment c) (level c) (line_nbr c) (parent c) (children c)
    x (nested_total c) (monthly c) (nested_monthly c) (journal c) (longest c).
Definition set_nested_total {A : Type} (x : A) (c : t A) : t A :=
  mk (cat_str c) (descr c) (comment c) (level c) (line_nbr c) (parent c) (children c)
    (total c) x (monthly c) (nested_monthly c) (journal c) (longest c).
Definition set_monthly {A : Type} (l : list A) (c : t A) : t A :=
  mk (cat_str c) (descr c) (comment c) (level c) (line_nbr c) (parent c) (children c)
    (total c) (nested_total c) l (nested_monthly c) (journal c) (longest c).
Definition set_nested_monthly {A : Type} (l : list A) (c : t A) : t A :=
  mk (cat_str c) (descr c) (comment c) (level c) (line_nbr c) (parent c) (children c)
    (total c) (nested_total c) (monthly c) l (journal c) (longest c).
Definition set_journal {A : Type} (l : list nat) (c : t A) : t A :=
  mk (cat_str c) (descr c) (comment c) (level c) (line_nbr c) (parent c) (children c)
    (total c) (nested_total c) (monthly c) (nested_monthly c) l (longest c).
Definition set_longest {A : Type} (n : nat) (c : t A) : t A :=
  mk (cat_str c) (descr c) (comment c) (level c) (line_nbr c) (parent c) (children c)
    (total c) (nested_total c) (monthly c) (nested_monthly c) (journal c) n.

End CatCode.

(** [class Journal]: one transaction of [journal_list]. *)
Module Journal.

Record t (A : Type) : Type := mk {
  date : string;
  descr : string;
  amt : A;
  type : string;
  cat_code : string;
  cat_idx : nat;
  line_nbr : nat
}.

Arguments mk {A}.
Arguments date {A}.
Arguments descr {A}.
Arguments amt {A}.
Arguments type {A}.
Arguments cat_code {A}.
Arguments cat_idx {A}.
Arguments line_nbr {A}.

End Journal.

(** The global variables of the program. *)
Record globals (A : Type) : Type := mk_globals {
  cat_list : list (CatCode.t A);
  cat_dict : gmap string nat;
  journal_list : list (Journal.t A)
}.

Arguments mk_globals {A}.
Arguments cat_list {A}.
Arguments cat_dict {A}.
Arguments journal_list {A}.

Definition globals_init {A : Type} : globals A := mk_globals [] ∅ [].

(** ** Errors: [sys.exit] and uncaught exceptions *)

(** Why the program printed an error and called [sys.exit(1)]. *)
Inductive exit_reason : Set :=
| CategoryFileError (error_msg : string) (line_nbr : nat)
| DuplicateCategory (line_nbr : nat)
| EmptyCategoryFile
| MissingParent (parent_code full_code : string)
| JournalFileError (error_msg : string) (line_nbr : nat)
| UndefinedCategory (line_nbr : nat)
| EmptyJournalFile.

(** A step of the program ends normally, exits, or raises an exception that
    nothing catches. *)
Inductive outcome (X : Type) : Type :=
| Done (x : X)
| Exit (why : exit_reason)
| Raise (exception : string).

Arguments Done {X} x.
Arguments Exit {X} why.
Arguments Raise {X} exception.

#[export] Instance outcome_ret : MRet outcome := fun X x => Done x.
#[export] Instance outcome_bind : MBind outcome := fun X Y k m =>
  match m with
  | Done x => k x
  | Exit why => Exit why
  | Raise e => Raise e
  end.

(** [l[i]] for [0 <= i]. *)
Definition index {X : Type} (l : list X) (i : nat) : outcome X :=
  match l !! i with
  | Some x => Done x
  | None => Raise "IndexError"
  end.

(** The position [l[i]] names for any integer [i]: a negative [i] counts from
    the end. *)
Definition position {X : Type} (l : list X) (i : Z) : outcome nat :=
  if ((0 <=? i)%Z && (i <? Z.of_nat (length l))%Z) then Done (Z.to_nat i)
  else if ((i <? 0)%Z && (- Z.of_nat (length l) <=? i)%Z) then
    Done (Z.to_nat (Z.of_nat (length l) + i))
  else Raise "IndexError".

(** [int(s)] for a string of digits. *)
Fixpoint int_of_digits (s : string) (acc : Z) : option Z :=
  match s with
  | "" => Some acc
  | String c s' => if isdigit c then int_of_digits s' (acc * 10 + int_of_char c) else None
  end.

Definition int (s : string) : outcome Z :=
  match s with
  | "" => Raise "ValueError"
  | _ => match int_of_digits s 0 with Some z => Done z | None => Raise "ValueError" end
  end.

(** [for x in xs: body], where [body] may exit. *)
Fixpoint for_each {X S : Type} (xs : list X) (body : X → S → outcome S) (s : S)
    : outcome S :=
  match xs with
  | [] => Done s
  | x :: xs' => s' ← body x s; for_each xs' body s'
  end.

(** A string is true when it is not empty. *)
Definition truthy (s : string) : bool := negb (String.eqb s "").

(** ** Reading the files, the hierarchy, the roll-up *)

Section Program.

Context {A : Type}.
(** [0.0] and [+] on dollar values. *)
Variable zero : A.
Variable add : A → A → A.
(** The journal line parser, [parse_journal_file_line] in the program. *)
Variable parse_journal_line : string → Z → journal_result A.

(** The body of the loop of [read_and_parse_cat_file]; [idx] is the local
    index into [cat_list]. *)
Definition cat_file_turn (line_nbr : nat) (line : string)
    (s : globals A * nat) : outcome (globals A * nat) :=
  let '(g, idx) := s in
  match parse_cat_file_line line with
  | CatError error_msg => Exit (CategoryFileError error_msg line_nbr)
  | CatSkip => Done (g, idx)
  | CatLine cat_code descr comment level =>
      if truthy cat_code then
        match cat_dict g !! cat_code with
        | Some _ => Exit (DuplicateCategory line_nbr)
        | None =>
            let cat_obj := CatCode.new zero cat_code descr comment level line_nbr in
            Done (mk_globals (cat_list g ++ [cat_obj])
                    (<[cat_code := idx]> (cat_dict g)) (journal_list g),
                  idx + 1)
        end
      else Done (g, idx)
  end.

(** [for line_nbr, line in enumerate(file, 1)]. *)
Fixpoint enumerate_from {X : Type} (n : nat) (l : list X) : list (nat * X) :=
  match l with
  | [] => []
  | x :: l' => (n, x) :: enumerate_from (S n) l'
  end.

Definition read_and_parse_cat_file (cat_file : list string) (g : globals A)
    : outcome (globals A) :=
  s ← for_each (enumerate_from 1 cat_file)
        (fun '(line_nbr, line) s => cat_file_turn line_nbr line s) (g, 0);
  if (length (cat_list (fst s)) =? 0)%nat then Exit EmptyCategoryFile
  else Done (fst s).

(** The body of the loop of [prc_cat_file_hierarchy]. *)
Definition hierarchy_turn (idx : nat) (g : globals A) : outcome (globals A) :=
  c ← index (cat_list g) idx;
  if (1 <? CatCode.level c)%nat then
    let full_code := CatCode.cat_str c in
    let pos := rfind "." full_code in
    let parent_code := slice_to full_code pos in
    match cat_dict g !! parent_code with
    | None => Exit (MissingParent parent_code full_code)
    | Some parent_idx =>
        p ← index (cat_list g) parent_idx;
        let l := <[parent_idx := CatCode.set_children (CatCode.children p ++ [idx]) p]>
                   (cat_list g) in
        c ← index l idx;
        Done (mk_globals (<[idx := CatCode.set_parent (Some parent_idx) c]> l)
                (cat_dict g) (journal_list g))
    end
  else Done g.

Definition prc_cat_file_hierarchy (g : globals A) : outcome (globals A) :=
  for_each (seq 0 (length (cat_list g))) hierarchy_turn g.

(** The body of the loop of [read_and_parse_journal_file]; [idx] is the local
    index into [journal_list]; [len(descr)] is the length of the [string],
    the number of characters of an ASCII text. *)
Definition journal_file_turn (journal_year : Z) (line_nbr : nat) (line : string)
    (s : globals A * nat) : outcome (globals A * nat) :=
  let '(g, idx) := s in
  match parse_journal_line line journal_year with
  | JError error_msg => Exit (JournalFileError error_msg line_nbr)
  | JSkip => Done (g, idx)
  | JLine date descr amt type cat_code =>
      if truthy cat_code then
        match cat_dict g !! cat_code with
        | None => Exit (UndefinedCategory line_nbr)
        | Some cat_idx =>
            let journal_obj := Journal.mk date descr amt type cat_code cat_idx line_nbr in
            c ← index (cat_list g) cat_idx;
            let c := CatCode.set_journal (CatCode.journal c ++ [idx]) c in
            let c := CatCode.set_total (add (CatCode.total c) amt) c in
            month ← int (slice (Journal.date journal_obj) 0 2);
            mon_idx ← position (CatCode.monthly c) (month - 1);
            old ← index (CatCode.monthly c) mon_idx;
            let c := CatCode.set_monthly (<[mon_idx := add old amt]> (CatCode.monthly c)) c in
            let c := if (CatCode.longest c <? String.length descr)%nat
                     then CatCode.set_longest (String.length descr) c else c in
            Done (mk_globals (<[cat_idx := c]> (cat_list g)) (cat_dict g)
                    (journal_list g ++ [journal_obj]),
                  idx + 1)
        end
      else Done (g, idx)
  end.

Definition read_and_parse_journal_file (journal_file : list string)
    (journal_year : Z) (g : globals A) : outcome (globals A) :=
  s ← for_each (enumerate_from 1 journal_file)
        (fun '(line_nbr, line) s => journal_file_turn journal_year line_nbr line s)
        (g, 0);
  if (length (journal_list (fst s)) =? 0)%nat then Exit EmptyJournalFile
  else Done (fst s).

(** [generate_cashflow_report], the roll-up of the totals: the body of the
    loop over [mon_idx] for the pair [cidx], [pidx]. *)
Definition month_turn (cidx pidx mon_idx : nat) (l : list (CatCode.t A))
    : outcome (list (CatCode.t A)) :=
  p ← index l pidx;
  old ← index (CatCode.nested_monthly p) mon_idx;
  c ← index l cidx;
  m ← index (CatCode.monthly c) mon_idx;
  nm ← index (CatCode.nested_monthly c) mon_idx;
  Done (<[pidx := CatCode.set_nested_monthly
                    (<[mon_idx := add old (add m nm)]> (CatCode.nested_monthly p)) p]> l).

(** The body of the loop over [cidx] for the level [lvl]. *)
Definition rollup_turn (lvl cidx : nat) (l : list (CatCode.t A))
    : outcome (list (CatCode.t A)) :=
  c ← index l cidx;
  if (CatCode.level c =? lvl)%nat then
    match CatCode.parent c with
    | None => Raise "TypeError"
    | Some pidx =>
        p ← index l pidx;
        let l := <[pidx := CatCode.set_nested_total
                             (add (CatCode.nested_total p)
                                (add (CatCode.total c) (CatCode.nested_total c))) p]> l in
        for_each (seq 0 12) (month_turn cidx pidx) l
    end
  else Done l.

(** [for lvl in range(4,1,-1): for cidx in range(len(cat_list)): ...]. *)
Definition rollup_level (lvl : nat) (l : list (CatCode.t A))
    : outcome (list (CatCode.t A)) :=
  for_each (seq 0 (length l)) (rollup_turn lvl) l.

Definition rollup (g : globals A) : outcome (globals A) :=
  l ← for_each [4; 3; 2] rollup_level (cat_list g);
  Done (mk_globals l (cat_dict g) (journal_list g)).

(** [main], from the two files read as lists of lines up to the roll-up at
    the start of [generate_cashflow_report]. *)
Definition main (cat_file journal_file : list string) (journal_year : Z)
    : outcome (globals A) :=
  g ← read_and_parse_cat_file cat_file globals_init;
  g ← prc_cat_file_hierarchy g;
  g ← read_and_parse_journal_file journal_file journal_year g;
  rollup g.

End Program.

(** The program itself: floats and the journal parser above. *)
Definition cashflow (cat_file journal_file : list string) (journal_year : Z)
    : outcome (globals float) :=
  main 0%float PrimFloat.add parse_journal_file_line cat_file journal_file journal_year.

(** * The vocabulary of the properties *)

(** ** Vocabulary of the statements *)

(** A digit 1 to 9. *)
Definition digit19 (c : ascii) : bool := in_str c "123456789".

(** [s.split(sep)]. *)
Fixpoint split_on (sep : ascii) (s : string) : list string :=
  match s with
  | "" => [""]
  | String c s' =>
      if Ascii.eqb c sep then "" :: split_on sep s'
      else match split_on sep s' with
           | seg :: segs => String c seg :: segs
           | [] => [String c ""]
           end
  end.

(** The dot-separated segments of a category code. *)
Definition segments (code : string) : list string := split_on "." code.

(** The first segment: one digit 1 to 9. *)
Definition first_segment_ok (seg : string) : bool :=
  match seg with
  | String c "" => digit19 c
  | _ => false
  end.

(** A deeper segment: one digit 1 to 9, or such a digit and one more digit. *)
Definition deeper_segment_ok (seg : string) : bool :=
  match seg with
  | String c "" => digit19 c
  | String c (String d "") => digit19 c && isdigit d
  | _ => false
  end.

(** A category code: one to four segments of these shapes. *)
Definition cat_code_ok (code : string) : bool :=
  match segments code with
  | seg :: segs =>
      first_segment_ok seg && forallb deeper_segment_ok segs && (length segs <=? 3)%nat
  | [] => false
  end.

(** Every character of [s] passes [p]. *)
Fixpoint all_chars (p : ascii → bool) (s : string) : bool :=
  match s with
  | "" => true
  | String c s' => p c && all_chars p s'
  end.

Definition not_space (c : ascii) : bool := negb (Ascii.eqb c " ").

(** ** The category parser: what the variables hold along a line *)

(** [code] is a category code of [lvl] segments. *)
Definition code_ok (code : string) (lvl : nat) : Prop :=
  cat_code_ok code = true ∧ length (segments code) = lvl ∧ (1 ≤ lvl ≤ 4)%nat
  ∧ all_chars not_space code = true ∧ code ≠ "".

(** The variables after the characters [pre] of the line. *)
Definition cat_inv (pre : string) (v : CS.vars) : Prop :=
  match CS.parse_state v with
  | CS.START => ∃ n, pre = spaces n
  | CS.LEVEL1 =>
      ∃ n c, pre = spaces n +:+ String c "" ∧ digit19 c = true
             ∧ CS.start_idx v = n ∧ CS.level v = 1%nat
  | CS.LEVEL234A =>
      ∃ n code, pre = spaces n +:+ code +:+ "." ∧ code_ok code (CS.level v - 1)
                ∧ CS.start_idx v = n ∧ (2 ≤ CS.level v ≤ 4)%nat
  | CS.LEVEL234B =>
      ∃ n code seg, pre = spaces n +:+ code +:+ "." +:+ seg
                    ∧ code_ok code (CS.level v - 1)
                    ∧ deeper_segment_ok seg = true
                    ∧ CS.digit_count v = String.length seg
                    ∧ CS.start_idx v = n ∧ (2 ≤ CS.level v ≤ 4)%nat
  | _ =>
      ∃ n more, pre = spaces n +:+ CS.cat_code v +:+ String " " more
                ∧ code_ok (CS.cat_code v) (CS.level v)
  end.

(** The first word of a line is determined by the line. *)
Definition starts_record (tok : string) : bool :=
  match tok with
  | "" => false
  | String c _ => negb (in_str c hash_or_newline)
  end.

(** ** Vocabulary for the journal parser *)

(** The number a string of digits denotes. *)
Fixpoint decimal_from (acc : Z) (s : string) : Z :=
  match s with
  | "" => acc
  | String c s' => decimal_from (acc * 10 + int_of_char c) s'
  end.

Definition decimal (s : string) : Z := decimal_from 0 s.

(** The days of each month, February with 29. *)
Definition days_in_month (m : Z) : Z :=
  match m with
  | 1 => 31 | 2 => 29 | 3 => 31 | 4 => 30 | 5 => 31 | 6 => 30
  | 7 => 31 | 8 => 31 | 9 => 30 | 10 => 31 | 11 => 30 | 12 => 31
  | _ => 0
  end%Z.

(** Divisible by 4, and a century only when divisible by 400. *)
Definition leap_year (y : Z) : Prop :=
  (4 | y)%Z ∧ ((100 | y)%Z → (400 | y)%Z).

(** A date of the year [y]. *)
Definition valid_date (y m d : Z) : Prop :=
  (1 ≤ m ≤ 12)%Z ∧ (1 ≤ d ≤ days_in_month m)%Z ∧ (m = 2%Z → d = 29%Z → leap_year y).

(** Two and four decimal digits, with leading zeros. *)
Definition two_digits (n : Z) : string :=
  String (digit_char (n / 10)) (String (digit_char (n mod 10)) "").

Definition four_digits (n : Z) : string :=
  String (digit_char (n / 1000)) (String (digit_char (n / 100 mod 10))
    (String (digit_char (n / 10 mod 10)) (String (digit_char (n mod 10)) ""))).

(** MM/DD/YYYY. *)
Definition canonical_date (m d y : Z) : string :=
  two_digits m +:+ "/" +:+ two_digits d +:+ "/" +:+ four_digits y.

(** ** The journal parser: dates *)

(** The variables when the month has been read. *)
Definition after_month (m : Z) : TJ.vars :=
  TJ.mk TJ.DATE m 0 0 "" 0 "" false 0%float 0%float 0%float 0 "" 0.

(** The variables when the date has been read. *)
Definition after_date (y m d : Z) (ndigits : nat) : TJ.vars :=
  TJ.mk TJ.START_DESCR m ndigits d (expand_date m d y) 0 "" false
    0%float 0%float 0%float 0 "" 0.

(** Past the date field the parser keeps the date it has expanded. *)
Definition past_date (s : TJ.state) : Prop :=
  s ≠ TJ.START ∧ s ≠ TJ.MONTH ∧ s ≠ TJ.DATE.

(** ** Vocabulary: amounts *)

(** The float the program accumulates from a string of digits. *)
Fixpoint float_of_digits_from (acc : float) (s : string) : float :=
  match s with
  | "" => acc
  | String c s' => float_of_digits_from (acc * 10 + float_of_char c)%float s'
  end.

Definition float_of_digits (s : string) : float := float_of_digits_from 0%float s.

(** The text of an amount: sign, dollars, point, two cents digits. *)
Definition amount_text (neg : bool) (ds : string) (c1 c2 : ascii) : string :=
  (if neg then "-" else "") +:+ ds +:+ "." +:+ String c1 (String c2 "").

(** sign × (dollars + cents/100), in floats. *)
Definition amount_value (neg : bool) (ds : string) (c1 c2 : ascii) : float :=
  let a := (float_of_digits ds + float_of_digits (String c1 (String c2 "")) / 100)%float in
  if neg then (- a)%float else a.

(** [w] is an amount: an optional '-', at least one dollar digit, a point
    and exactly two cents digits. *)
Definition is_amount (w : string) : Prop :=
  ∃ neg ds c1 c2,
    w = amount_text neg ds c1 c2 ∧ ds ≠ "" ∧ all_chars isdigit ds = true
    ∧ isdigit c1 = true ∧ isdigit c2 = true.

(** ** The journal parser: amounts *)

(** The dollars digits up to the point: the dollars, the number of digits and
    what follows the point. *)
Fixpoint dollars_run (dollars : float) (ctr : nat) (s : string)
    : option (float * string) :=
  match s with
  | "" => None
  | String c s' =>
      if isdigit c then dollars_run (dollars * 10 + float_of_char c)%float (ctr + 1) s'
      else if Ascii.eqb c "." && negb (ctr =? 0)%nat then Some (dollars, s')
      else None
  end.

(** The cents digits: the cents and the number of digits. *)
Fixpoint cents_run (cents : float) (ctr : nat) (s : string) : option (float * nat) :=
  match s with
  | "" => Some (cents, ctr)
  | String c s' =>
      if isdigit c then cents_run (cents * 10 + float_of_char c)%float (ctr + 1) s'
      else None
  end.

Definition no_comma (s : string) : bool := all_chars (fun c => negb (Ascii.eqb c ",")) s.

Definition signed (neg : bool) (a : float) : float := if neg then (- a)%float else a.

(** The variables when the amount has been read. *)
Definition after_amount (v : TJ.vars) (cents : float) : TJ.vars :=
  TJ.set_parse_state TJ.START_TYPE
    (TJ.set_jamt (signed (TJ.sign_flag v) (TJ.dollars v + cents / 100)%float)
       (TJ.set_cents cents (TJ.set_digit_ctr 2 v))).

(** The amount as a whole: the sign, the dollars and the cents. *)
Definition amount_parse (w : string) : option (bool * float * float) :=
  let start :=
    match w with
    | "" => None
    | String c s =>
        if Ascii.eqb c "-" then Some (true, 0%float, 0%nat, s)
        else if isdigit c then Some (false, float_of_char c, 1%nat, s)
        else None
    end in
  match start with
  | None => None
  | Some (neg, d0, k0, s) =>
      match dollars_run d0 k0 s with
      | None => None
      | Some (dollars, s') =>
          match cents_run 0%float 0 s' with
          | Some (cents, ctr) => if (ctr =? 2)%nat then Some (neg, dollars, cents) else None
          | None => None
          end
      end
  end.

Definition starts_field (w : string) : bool :=
  match w with
  | "" => true
  | String c _ => not_space c
  end.

(** The variables when the amount [w] has been read from [v0]. *)
Definition after_amount_field (v0 : TJ.vars) (neg : bool) (dollars cents : float)
    : TJ.vars :=
  TJ.set_parse_state TJ.START_TYPE
    (TJ.set_jamt (signed (neg || TJ.sign_flag v0) (dollars + cents / 100)%float)
       (TJ.set_cents cents (TJ.set_dollars dollars
          (TJ.set_digit_ctr 2 (TJ.set_sign_flag (neg || TJ.sign_flag v0) v0))))).

(** Past the amount field the parser keeps the amount it has computed. *)
Definition past_amount (s : TJ.state) : Prop :=
  s = TJ.START_TYPE ∨ s = TJ.END_TYPE ∨ s = TJ.START_CAT ∨ s = TJ.END_CAT.

(** ** The end of the line *)

(** What decides the turns of the category parser: the state and the two
    counters, not the text cut out of the line. *)
Definition cat_control (v : CS.vars) : CS.state * nat * nat :=
  (CS.parse_state v, CS.level v, CS.digit_count v).

(** Two results of the same kind. *)
Definition cat_same_kind (r1 r2 : cat_result) : Prop :=
  match r1, r2 with
  | CatSkip, CatSkip => True
  | CatError m1, CatError m2 => m1 = m2
  | CatLine _ _ _ l1, CatLine _ _ _ l2 => l1 = l2
  | _, _ => False
  end.

Definition code_chars (code : string) : bool :=
  match code with
  | "" => false
  | String c s => isdigit c && all_chars (fun x => isdigit x || Ascii.eqb x ".") s
  end.

(** ** The frame of each pass *)

(** The fields that hold the category tree and the text of a category. *)
Definition same_node {A : Type} (c c' : CatCode.t A) : Prop :=
  CatCode.cat_str c' = CatCode.cat_str c ∧ CatCode.descr c' = CatCode.descr c
  ∧ CatCode.comment c' = CatCode.comment c ∧ CatCode.level c' = CatCode.level c
  ∧ CatCode.line_nbr c' = CatCode.line_nbr c ∧ CatCode.parent c' = CatCode.parent c
  ∧ CatCode.children c' = CatCode.children c.

(** [c'] is [c] but for the direct fields. *)
Definition nested_unchanged {A : Type} (c c' : CatCode.t A) : Prop :=
  same_node c c' ∧ CatCode.nested_total c' = CatCode.nested_total c
  ∧ CatCode.nested_monthly c' = CatCode.nested_monthly c.

(** [c'] is [c] but for the nested fields. *)
Definition direct_unchanged {A : Type} (c c' : CatCode.t A) : Prop :=
  same_node c c' ∧ CatCode.total c' = CatCode.total c
  ∧ CatCode.monthly c' = CatCode.monthly c
  ∧ CatCode.journal c' = CatCode.journal c ∧ CatCode.longest c' = CatCode.longest c.

(** [c'] is [c] but for the parent and the children. *)
Definition accumulators_unchanged {A : Type} (c c' : CatCode.t A) : Prop :=
  CatCode.total c' = CatCode.total c ∧ CatCode.nested_total c' = CatCode.nested_total c
  ∧ CatCode.monthly c' = CatCode.monthly c
  ∧ CatCode.nested_monthly c' = CatCode.nested_monthly c.

(** The accumulators of a category are all zero. *)
Definition accumulators_zero {A : Type} (zero : A) (c : CatCode.t A) : Prop :=
  CatCode.total c = zero ∧ CatCode.nested_total c = zero
  ∧ CatCode.monthly c = replicate 12 zero
  ∧ CatCode.nested_monthly c = replicate 12 zero.

(** ** The parent code *)

Definition no_dot (s : string) : bool := all_chars (fun c => negb (Ascii.eqb c ".")) s.

(** ** The category tree *)

(** The registry after the category file: every category has a code of as
    many segments as its level, and the dictionary maps each code to the
    index of its category. *)
Definition registry_ok {A : Type} (g : globals A) : Prop :=
  (∀ i c, cat_list g !! i = Some c →
          code_ok (CatCode.cat_str c) (CatCode.level c)
          ∧ cat_dict g !! CatCode.cat_str c = Some i)
  ∧ (∀ code i, cat_dict g !! code = Some i →
               ∃ c, cat_list g !! i = Some c ∧ CatCode.cat_str c = code).

(** The months of a category. *)
Definition months_ok {A : Type} (c : CatCode.t A) : Prop :=
  length (CatCode.monthly c) = 12%nat ∧ length (CatCode.nested_monthly c) = 12%nat.

(** The parent of a category, when it has one, is one level above it. *)
Definition parent_ok {A : Type} (l : list (CatCode.t A)) (c : CatCode.t A) : Prop :=
  ∀ p, CatCode.parent c = Some p →
       ∃ cp, l !! p = Some cp ∧ CatCode.level c = S (CatCode.level cp).

(** The category tree the roll-up works on. *)
Definition tree_ok {A : Type} (l : list (CatCode.t A)) : Prop :=
  ∀ i c, l !! i = Some c →
         (1 ≤ CatCode.level c ≤ 4)%nat
         ∧ ((1 < CatCode.level c)%nat → is_Some (CatCode.parent c))
         ∧ parent_ok l c ∧ months_ok c.

(** The hierarchy pass, after the indices below [k]. *)
Definition hierarchy_inv {A : Type} (n k : nat) (g : globals A) : Prop :=
  length (cat_list g) = n ∧ registry_ok g
  ∧ (∀ i c, cat_list g !! i = Some c →
            parent_ok (cat_list g) c ∧ months_ok c
            ∧ ((i < k)%nat → (1 < CatCode.level c)%nat → is_Some (CatCode.parent c))).

(** ** Sums over the categories that pass a test *)

(** The sum of a list of dollar values. *)
Definition sum_list {A : Type} (zero : A) (add : A → A → A) (xs : list A) : A := foldr add zero xs.

(** The sum of [f j] over the [j] of [js] that pass [P]. *)
Definition sum_where {A : Type} (zero : A) (add : A → A → A) (P : nat → bool) (f : nat → A) (js : list nat) : A :=
  sum_list zero add (map f (List.filter P js)).

(** ** Ancestors in a tree given by its parent function *)

(** Going up from [j] for at most [fuel] steps: when the node whose parent
    is [i] is found, the answer is [proc] of that node. *)
Fixpoint reach (par : nat → option nat) (proc : nat → bool) (fuel : nat) (i j : nat) : bool :=
  match fuel with
  | O => false
  | S fuel' =>
      match par j with
      | Some p => if (p =? i)%nat then proc j else reach par proc fuel' i p
      | None => false
      end
  end.

(** [i] is an ancestor of [j], within [fuel] steps. *)
Definition ancestor (par : nat → option nat) (fuel : nat) (i j : nat) : bool := reach par (fun _ => true) fuel i j.

(** ** The roll-up, one category at a time *)

(** The year-to-date figure, or the figure of a month. *)
Inductive bucket : Set :=
| YTD
| Month (m : nat).

Definition bucket_ok (b : bucket) : Prop :=
  match b with
  | YTD => True
  | Month m => (m < 12)%nat
  end.

(** The direct and the nested figure of a category. *)
Definition direct {A : Type} (zero : A) (b : bucket) (c : CatCode.t A) : A :=
  match b with
  | YTD => CatCode.total c
  | Month m => nth m (CatCode.monthly c) zero
  end.

Definition nested {A : Type} (zero : A) (b : bucket) (c : CatCode.t A) : A :=
  match b with
  | YTD => CatCode.nested_total c
  | Month m => nth m (CatCode.nested_monthly c) zero
  end.

(** The same, by index in the list. *)
Definition direct_of {A : Type} (zero : A) (b : bucket) (l : list (CatCode.t A)) (j : nat) : A :=
  match l !! j with
  | Some c => direct zero b c
  | None => zero
  end.

Definition nested_of {A : Type} (zero : A) (b : bucket) (l : list (CatCode.t A)) (j : nat) : A :=
  match l !! j with
  | Some c => nested zero b c
  | None => zero
  end.

Definition parent_of {A : Type} (l : list (CatCode.t A)) (j : nat) : option nat :=
  match l !! j with
  | Some c => CatCode.parent c
  | None => None
  end.

Definition level_of {A : Type} (l : list (CatCode.t A)) (j : nat) : nat :=
  match l !! j with
  | Some c => CatCode.level c
  | None => 0
  end.

(** The months of the pair [cidx], [pidx]: after the months below [k]. *)
Definition months_inv {A : Type} (zero : A) (add : A → A → A) (l1 : list (CatCode.t A)) (c p1 : CatCode.t A) (pidx k : nat)
    (l : list (CatCode.t A)) : Prop :=
  length l = length l1
  ∧ (∀ j, j ≠ pidx → l !! j = l1 !! j)
  ∧ ∃ p', l !! pidx = Some p' ∧ direct_unchanged p1 p'
          ∧ CatCode.nested_total p' = CatCode.nested_total p1
          ∧ length (CatCode.nested_monthly p') = 12%nat
          ∧ ∀ m, nth m (CatCode.nested_monthly p') zero
                 = if (m <? k)%nat
                   then add (nth m (CatCode.nested_monthly p1) zero)
                          (add (nth m (CatCode.monthly c) zero)
                             (nth m (CatCode.nested_monthly c) zero))
                   else nth m (CatCode.nested_monthly p1) zero.

(** ** The roll-up as a whole *)

(** [j] is a strict descendant of [i]: [i] is met going up from [j] (four
    levels bound the way up). *)
Definition strict_descendant {A : Type} (l : list (CatCode.t A)) (i j : nat) : bool :=
  ancestor (parent_of l) 4 i j.

(** The same as a relation: [j] is a child of [i], or the child of a
    descendant of [i]. *)
Inductive descends {A : Type} (l : list (CatCode.t A)) : nat → nat → Prop :=
| descends_child (j i : nat) : parent_of l j = Some i → descends l j i
| descends_step (j p i : nat) :
    parent_of l j = Some p → descends l p i → descends l j i.

(** The sum of the direct figures of the strict descendants of [i]. *)
Definition descendants_total {A : Type} (zero : A) (add : A → A → A) (b : bucket)
    (l : list (CatCode.t A)) (i : nat) : A :=
  sum_where zero add (strict_descendant l i) (direct_of zero b l) (seq 0 (length l)).

(** The categories folded into their parent when the pass of level [lvl] is
    at the index [k]: those of a deeper level, and those of this level below
    [k]. *)
Definition folded (lev : nat → nat) (lvl k : nat) (x : nat) : bool :=
  (lvl <? lev x)%nat || ((lev x =? lvl)%nat && (x <? k)%nat).

(** The state of the roll-up of the list [l0]. *)
Definition rollup_inv {A : Type} (zero : A) (add : A → A → A) (l0 : list (CatCode.t A)) (lvl k : nat)
    (l : list (CatCode.t A)) : Prop :=
  Forall2 direct_unchanged l0 l ∧ tree_ok l
  ∧ ∀ b, bucket_ok b → ∀ i, (i < length l0)%nat →
      nested_of zero b l i
      = sum_where zero add
          (reach (parent_of l0) (folded (level_of l0) lvl k) 4 i)
          (direct_of zero b l0) (seq 0 (length l0)).

(** ** From the files to the roll-up *)

(** [c'] has the place of [c] in the tree and as many months. *)
Definition same_shape {A : Type} (c c' : CatCode.t A) : Prop :=
  CatCode.level c' = CatCode.level c ∧ CatCode.parent c' = CatCode.parent c
  ∧ length (CatCode.monthly c') = length (CatCode.monthly c)
  ∧ length (CatCode.nested_monthly c') = length (CatCode.nested_monthly c).

(** The categories of level 4 have nested figures zero. *)
Definition deepest_zero {A : Type} (zero : A) (l : list (CatCode.t A)) : Prop :=
  ∀ i c, l !! i = Some c → CatCode.level c = 4%nat →
         CatCode.nested_total c = zero
         ∧ CatCode.nested_monthly c = replicate 12 zero.

(** The three passes before the roll-up. *)
Definition loaded {A : Type} (zero : A) (add : A → A → A) (parse_journal_line : string → Z → journal_result A) (cat_file journal_file : list string) (y : Z) (g : globals A) : Prop :=
  ∃ g1 g2,
    read_and_parse_cat_file zero cat_file globals_init = Done g1
    ∧ prc_cat_file_hierarchy g1 = Done g2
    ∧ read_and_parse_journal_file add parse_journal_line journal_file y g2 = Done g.

(** ** Formatting a dollar value *)

(** [m × 2^e] rounded to the nearest integer, ties to the even one. *)
Definition round_half_even (m e : Z) : Z :=
  if (0 <=? e)%Z then (m * 2 ^ e)%Z
  else
    let d := (2 ^ (- e))%Z in
    let q := (m / d)%Z in
    let r := (m mod d)%Z in
    match (2 * r ?= d)%Z with
    | Lt => q
    | Gt => (q + 1)%Z
    | Eq => if Z.even q then q else (q + 1)%Z
    end.

(** ["{0:.2f}".format(x)]: the sign, the value rounded to hundredths (the
    exact binary value is rounded, ties to even), with two decimals. *)
Definition format_2f (x : float) : string :=
  match Prim2SF x with
  | S754_nan => "nan"
  | S754_infinity s => (if s then "-" else "") +:+ "inf"
  | S754_zero s => (if s then "-" else "") +:+ "0.00"
  | S754_finite s m e =>
      let n := round_half_even (Zpos m * 100) e in
      (if s then "-" else "") +:+ str_of_Z (n / 100) +:+ "." +:+ format_0d 2 (n mod 100)
  end.

(** The decimal digits. *)
Definition digits : list ascii :=
  ["0"; "1"; "2"; "3"; "4"; "5"; "6"; "7"; "8"; "9"]%char.

(** A numeral without leading zeros: a zero comes first only when it is
    alone. *)
Definition no_leading_zero (ds : string) : bool :=
  match ds with
  | String "0" (String _ _) => false
  | _ => true
  end.

(** The amount in hundredths: the cents of a dollar value. *)
Definition cents_of (x : float) : Z :=
  match Prim2SF x with
  | S754_finite s m e =>
      let n := round_half_even (Zpos m * 100) e in
      if s then (- n)%Z else n
  | _ => 0%Z
  end.

(** The journal parser with the amount counted in cents, an integer. *)
Definition parse_journal_file_line_cents (line : string) (journal_year : Z)
    : journal_result Z :=
  match parse_journal_file_line line journal_year with
  | JSkip => JSkip
  | JError msg => JError msg
  | JLine jdate jdescr jamt jtype jcat_code =>
      JLine jdate jdescr (cents_of jamt) jtype jcat_code
  end.

(** The program with dollar values counted in cents. *)
Definition cashflow_cents (cat_file journal_file : list string) (journal_year : Z)
    : outcome (globals Z) :=
  main 0%Z Z.add parse_journal_file_line_cents cat_file journal_file journal_year.

(** ** Example files *)

(** A category file with four levels. *)
Definition household_cat_file : list string :=
  [ ln "# household categories";
    ln "1 Income";
    ln "1.1 Salary # paychecks";
    ln "2 Expenses";
    ln "2.1 Housing";
    ln "2.1.1 Utilities";
    ln "2.1.1.1 Electric";
    ln "2.1.1.2 Water";
    ln "2.2 Food" ].

Definition household_journal_file : list string :=
  [ ln "3/9, Paycheck, 1000.00, dep, 1.1";
    ln "3/12, Rappahannock Electric, -292.03, xfr, 2.1.1.1";
    ln "4/2, Water bill, -41.50, chk, 2.1.1.2";
    ln "4/5, Plumber, -120.00, chk, 2.1.1";
    ln "4/9, Groceries, -88.17, deb, 2.2" ].

Definition result_of {A : Type} (o : outcome (globals A)) : globals A :=
  match o with
  | Done g => g
  | _ => globals_init
  end.

Definition household_cents : globals Z :=
  Eval vm_compute in
    result_of (cashflow_cents household_cat_file household_journal_file 2015).

(** The household files after each pass. *)
Definition household_registry : globals float :=
  Eval vm_compute in
    result_of (read_and_parse_cat_file 0%float household_cat_file globals_init).

Definition household_tree : globals float :=
  Eval vm_compute in result_of (prc_cat_file_hierarchy household_registry).

Definition household_loaded : globals float :=
  Eval vm_compute in
    result_of (read_and_parse_journal_file PrimFloat.add parse_journal_file_line
                 household_journal_file 2015 household_tree).

Definition household : globals float :=
  Eval vm_compute in
    result_of (cashflow household_cat_file household_journal_file 2015).

(** Two branches whose leaves hold 0.10, 0.10, 1.10 and 3.30. *)
Definition branches_cat_file : list string :=
  [ ln "1 Top";
    ln "1.1 Left";
    ln "1.1.1 Left one";
    ln "1.1.2 Left two";
    ln "1.2 Right";
    ln "1.2.1 Right one";
    ln "1.2.2 Right two" ].

Definition branches_journal_file : list string :=
  [ ln "1/5, first, 0.10, chk, 1.1.1";
    ln "1/6, second, 0.10, chk, 1.1.2";
    ln "1/7, third, 1.10, chk, 1.2.1";
    ln "1/8, fourth, 3.30, chk, 1.2.2" ].

Definition branches : globals float :=
  Eval vm_compute in
    result_of (cashflow branches_cat_file branches_journal_file 2015).

(** A category file where a child comes before its parent. *)
Definition child_first_cat_file : list string :=
  [ ln "3 Auto"; ln "3.2.6 Tires"; ln "3.2 Maintenance" ].

(** A category file where a parent is missing. *)
Definition orphan_cat_file : list string :=
  [ ln "3 Auto"; ln "3.2.6 Tires" ].

(** ** Rounding in binary64 *)

(** [m / 2^n] rounded to the nearest integer, ties to the even one. *)
Definition rhe (m n : Z) : Z := round_half_even m (- n).

(** The binary64 number of a natural number below 2^53. *)
Definition float_int (d : Z) : spec_float :=
  if (d =? 0)%Z then S754_zero false
  else S754_finite false (Z.to_pos (d * 2 ^ (52 - Z.log2 d))) (Z.log2 d - 52).

(** ** The cents *)

(** The cents as the parser computes them: the two digits over 100. *)
Definition cents_float (c1 c2 : ascii) : float :=
  (float_of_digits (String c1 (String c2 "")) / 100)%float.

(** The cents [c1 c2] added to dollars of [k + 1] bits are rounded to a
    multiple of 2^(k - 52) from which the two decimals are found again. *)
Definition cents_ok (k : Z) (c1 c2 : ascii) : bool :=
  let c := (int_of_char c1 * 10 + int_of_char c2)%Z in
  match Prim2SF (cents_float c1 c2) with
  | S754_zero false => (c =? 0)%Z
  | S754_finite false my ey =>
      let r := rhe (Zpos my) (k - 52 - ey) in
      (ey <=? -53)%Z && (Zpos my <? 2 ^ (- ey))%Z && (r <? 2 ^ (52 - k))%Z
      && (round_half_even (100 * r) (k - 52) =? c)%Z
  | _ => false
  end.

(** ** The category file, line by line *)

(** The category a line of the file defines, if it defines one. *)
Definition cat_record {A : Type} (zero : A) (line_nbr : nat) (line : string)
    : option (CatCode.t A) :=
  match parse_cat_file_line line with
  | CatLine code d cm l => Some (CatCode.new zero code d cm l line_nbr)
  | _ => None
  end.

(** The categories the lines define, the first line having the number [n]. *)
Fixpoint cat_records {A : Type} (zero : A) (n : nat) (lines : list string)
    : list (CatCode.t A) :=
  match lines with
  | [] => []
  | line :: rest =>
      match cat_record zero n line with
      | Some c => c :: cat_records zero (S n) rest
      | None => cat_records zero (S n) rest
      end
  end.

(** The line is not one the category parser refuses. *)
Definition cat_line_ok (line : string) : Prop :=
  ∀ msg, parse_cat_file_line line ≠ CatError msg.

(** The dictionary and the list say the same: a code is mapped to [i] exactly
    when the category at [i] has this code. *)
Definition dict_ok {A : Type} (g : globals A) : Prop :=
  ∀ code i, cat_dict g !! code = Some i
            ↔ (CatCode.cat_str <$> cat_list g !! i) = Some code.

(** What an exit of the category file loop says about the lines, the first
    one having the number [n], when [seen] are the codes read before. *)
Definition cat_exit_reason (n : nat) (seen : list string) (lines : list string)
    (why : exit_reason) : Prop :=
  match why with
  | CategoryFileError msg k =>
      ∃ pre line post, lines = (pre ++ line :: post)%list ∧ k = (n + length pre)%nat
                       ∧ parse_cat_file_line line = CatError msg
                       ∧ Forall cat_line_ok pre
  | DuplicateCategory k =>
      ∃ pre line post code d cm l,
        lines = (pre ++ line :: post)%list ∧ k = (n + length pre)%nat
        ∧ parse_cat_file_line line = CatLine code d cm l
        ∧ In code (seen ++ map (@CatCode.cat_str unit) (cat_records tt n pre))%list
        ∧ Forall cat_line_ok pre
  | _ => False
  end.

(** What an exit of [read_and_parse_cat_file] says about the file. *)
Definition cat_file_exit (cat_file : list string) (why : exit_reason) : Prop :=
  match why with
  | EmptyCategoryFile => Forall (fun line => parse_cat_file_line line = CatSkip) cat_file
  | _ => cat_exit_reason 1 [] cat_file why
  end.

(** Example category files: a code defined twice, and a line that is no
    category. *)
Definition twice_cat_file : list string :=
  [ ln "1 Income"; ln "# salary and the like"; ln "1.1 Salary"; ln "1 Revenue" ].

Definition broken_cat_file : list string :=
  [ ln "1 Income"; ln "1.1 Salary"; ln "Expenses" ].

(** ** The hierarchy pass in closed form *)

(** [full_code[0:full_code.rfind(".")]]. *)
Definition parent_code (full_code : string) : string :=
  slice_to full_code (rfind "." full_code).

(** The index the hierarchy pass looks up for a category: none at level 1,
    otherwise what the dictionary holds for the parent code. *)
Definition parent_index {A : Type} (g : globals A) (c : CatCode.t A) : option nat :=
  if (1 <? CatCode.level c)%nat then cat_dict g !! parent_code (CatCode.cat_str c)
  else None.

(** The category at [j] names [i] as its parent. *)
Definition is_child {A : Type} (g : globals A) (i j : nat) : bool :=
  match cat_list g !! j with
  | Some c => match parent_index g c with
              | Some p => (p =? i)%nat
              | None => false
              end
  | None => false
  end.

(** The children of [i] among the first [k] categories, in the order of the
    list. *)
Definition kids {A : Type} (g : globals A) (k i : nat) : list nat :=
  List.filter (is_child g i) (seq 0 k).

(** The category at [i] after the pass has worked on the first [k]. *)
Definition linked_upto {A : Type} (g : globals A) (k i : nat) (c : CatCode.t A)
    : CatCode.t A :=
  CatCode.set_children (kids g k i)
    (CatCode.set_parent (if (i <? k)%nat then parent_index g c else None) c).

(** The category at [i] after the whole pass. *)
Definition linked {A : Type} (g : globals A) (i : nat) (c : CatCode.t A) : CatCode.t A :=
  CatCode.set_children (kids g (length (cat_list g)) i)
    (CatCode.set_parent (parent_index g c) c).

(** The category needs no parent or its parent code is defined. *)
Definition has_parent {A : Type} (g : globals A) (c : CatCode.t A) : Prop :=
  (1 < CatCode.level c)%nat → is_Some (cat_dict g !! parent_code (CatCode.cat_str c)).

(** A new category: no parent and no children yet. *)
Definition unlinked {A : Type} (c : CatCode.t A) : Prop :=
  CatCode.parent c = None ∧ CatCode.children c = [].

(** The state of the hierarchy loop before the index [k]. *)
Definition links_upto {A : Type} (g : globals A) (k : nat) (g' : globals A) : Prop :=
  cat_dict g' = cat_dict g ∧ journal_list g' = journal_list g
  ∧ length (cat_list g') = length (cat_list g)
  ∧ ∀ i c, cat_list g !! i = Some c → cat_list g' !! i = Some (linked_upto g k i c).

(** The registry of the file where a parent is missing, and of the file
    where a child comes first. *)
Definition orphan_registry : globals float :=
  Eval vm_compute in
    result_of (read_and_parse_cat_file 0%float orphan_cat_file globals_init).

Definition child_first_registry : globals float :=
  Eval vm_compute in
    result_of (read_and_parse_cat_file 0%float child_first_cat_file globals_init).

(** ** The grammar of a transaction line *)

(** A description or a type: it starts with a character that is no blank, no
    comma and no newline, and it holds no comma. *)
Definition text_field (w : string) : bool :=
  match w with
  | "" => false
  | String c s =>
      negb (Ascii.eqb c " ") && negb (in_str c comma_or_newline) && no_comma s
  end.

(** The parts of a transaction line: the blanks before each field, the digits
    of the month and of the day, the description, the sign, the dollars and
    the two cents digits, the type, the category code and the character that
    ends the code. *)
Record journal_text : Set := mk_journal_text {
  jt_lead : nat;
  jt_month : string;
  jt_day : string;
  jt_descr_lead : nat;
  jt_descr : string;
  jt_amt_lead : nat;
  jt_neg : bool;
  jt_dollars : string;
  jt_cent1 : ascii;
  jt_cent2 : ascii;
  jt_type_lead : nat;
  jt_type : string;
  jt_cat_lead : nat;
  jt_cat : string;
  jt_end : ascii
}.

(** The text of the parts. *)
Definition journal_text_str (x : journal_text) : string :=
  spaces (jt_lead x) +:+ jt_month x +:+ "/" +:+ jt_day x +:+ ","
  +:+ spaces (jt_descr_lead x) +:+ jt_descr x +:+ ","
  +:+ spaces (jt_amt_lead x)
  +:+ amount_text (jt_neg x) (jt_dollars x) (jt_cent1 x) (jt_cent2 x) +:+ ","
  +:+ spaces (jt_type_lead x) +:+ jt_type x +:+ ","
  +:+ spaces (jt_cat_lead x) +:+ jt_cat x +:+ String (jt_end x) "".

(** The parts are those of a transaction of the year [y]. *)
Definition journal_text_ok (y : Z) (x : journal_text) : Prop :=
  all_chars isdigit (jt_month x) = true ∧ (1 ≤ String.length (jt_month x) ≤ 2)%nat
  ∧ all_chars isdigit (jt_day x) = true ∧ (String.length (jt_day x) ≤ 2)%nat
  ∧ valid_date y (decimal (jt_month x)) (decimal (jt_day x))
  ∧ text_field (jt_descr x) = true
  ∧ jt_dollars x ≠ "" ∧ all_chars isdigit (jt_dollars x) = true
  ∧ isdigit (jt_cent1 x) = true ∧ isdigit (jt_cent2 x) = true
  ∧ text_field (jt_type x) = true
  ∧ code_chars (jt_cat x) = true
  ∧ in_str (jt_end x) space_or_newline = true.

(** The fields the parser returns for the parts. *)
Definition journal_text_value (y : Z) (x : journal_text) : journal_result float :=
  JLine (expand_date (decimal (jt_month x)) (decimal (jt_day x)) y)
    (rstrip (jt_descr x))
    (amount_value (jt_neg x) (jt_dollars x) (jt_cent1 x) (jt_cent2 x))
    (rstrip (jt_type x))
    (jt_cat x).

(** The variables when the description, and when the type, has been read. *)
Definition descr_done (v : TJ.vars) (start : nat) (d : string) : TJ.vars :=
  TJ.set_parse_state TJ.START_AMT
    (TJ.set_sign_flag false (TJ.set_jdescr d (TJ.set_descr_start start v))).

Definition type_done (v : TJ.vars) (start : nat) (t : string) : TJ.vars :=
  TJ.set_parse_state TJ.START_CAT (TJ.set_jtype t (TJ.set_type_start start v)).

(** The states where blanks are skipped. *)
Definition skips_blanks (s : TJ.state) : Prop :=
  s = TJ.START ∨ s = TJ.START_DESCR ∨ s = TJ.START_AMT ∨ s = TJ.START_TYPE
  ∨ s = TJ.START_CAT.

(** The states before the category code. *)
Definition before_cat (s : TJ.state) : Prop := s ≠ TJ.START_CAT ∧ s ≠ TJ.END_CAT.

(** ** The grammar of a category line *)

(** No '#' and no newline. *)
Definition no_hash_newline (s : string) : bool :=
  all_chars (fun c => negb (in_str c hash_or_newline)) s.

(** No newline. *)
Definition no_newline (s : string) : bool :=
  all_chars (fun c => negb (Ascii.eqb c newline)) s.

(** The text of a description: it starts with a character that is no blank,
    no '#' and no newline, and it holds no '#' and no newline. *)
Definition cat_text (w : string) : bool :=
  match w with
  | "" => false
  | String c s =>
      negb (Ascii.eqb c " ") && negb (in_str c hash_or_newline) && no_hash_newline s
  end.

(** The segments after the first one, each with its point. *)
Fixpoint dotted (segs : list string) : string :=
  match segs with
  | [] => ""
  | seg :: rest => "." +:+ seg +:+ dotted rest
  end.

(** The variables when the '#' of a comment has been read. *)
Definition comment_state (v : CS.vars) (descr_start : nat) (d : string)
    (comment_start : nat) : CS.vars :=
  CS.set_parse_state CS.END_COMMENT
    (CS.set_comment_start comment_start
       (CS.set_descr d (CS.set_descr_start descr_start v))).

(** ** The journal file, line by line *)

(** The transaction a line of the journal defines, if it defines one whose
    category the dictionary knows. *)
Definition journal_record {A : Type} (parse_journal_line : string → Z → journal_result A)
    (dict : gmap string nat) (y : Z) (line_nbr : nat) (line : string)
    : option (Journal.t A) :=
  match parse_journal_line line y with
  | JLine date descr amt type cat_code =>
      if truthy cat_code then
        match dict !! cat_code with
        | Some cat_idx => Some (Journal.mk date descr amt type cat_code cat_idx line_nbr)
        | None => None
        end
      else None
  | _ => None
  end.

(** The transactions the lines define, the first line having the number [n]. *)
Fixpoint journal_records {A : Type} (parse_journal_line : string → Z → journal_result A)
    (dict : gmap string nat) (y : Z) (n : nat) (lines : list string)
    : list (Journal.t A) :=
  match lines with
  | [] => []
  | line :: rest =>
      match journal_record parse_journal_line dict y n line with
      | Some j => j :: journal_records parse_journal_line dict y (S n) rest
      | None => journal_records parse_journal_line dict y (S n) rest
      end
  end.

(** [int(date[:2]) - 1] as an index into the twelve monthly figures. *)
Definition month_slot (date : string) : outcome nat :=
  month ← int (slice date 0 2); position (replicate 12 ()) (month - 1).

(** The transaction falls into the monthly figure [m]. *)
Definition in_slot {A : Type} (m : nat) (j : Journal.t A) : bool :=
  match month_slot (Journal.date j) with
  | Done k => (k =? m)%nat
  | _ => false
  end.

(** The transaction belongs to the category at [i]. *)
Definition owned_by {A : Type} (i : nat) (j : Journal.t A) : bool :=
  (Journal.cat_idx j =? i)%nat.

(** The month the date starts with. *)
Definition in_month {A : Type} (month : nat) (j : Journal.t A) : bool :=
  (decimal (slice (Journal.date j) 0 2) =? Z.of_nat month)%Z.

(** The category at [i] when the transaction [j], the one of index [idx], has
    been credited. *)
Definition credit {A : Type} (add : A → A → A) (i idx : nat) (j : Journal.t A)
    (c : CatCode.t A) : CatCode.t A :=
  if owned_by i j then
    let c := CatCode.set_journal (CatCode.journal c ++ [idx]) c in
    let c := CatCode.set_total (add (CatCode.total c) (Journal.amt j)) c in
    let c := match month_slot (Journal.date j) with
             | Done k =>
                 match CatCode.monthly c !! k with
                 | Some old =>
                     CatCode.set_monthly
                       (<[k := add old (Journal.amt j)]> (CatCode.monthly c)) c
                 | None => c
                 end
             | _ => c
             end in
    CatCode.set_longest
      (Nat.max (CatCode.longest c) (String.length (Journal.descr j))) c
  else c.

(** The category at [i] when the transactions [js], of the indices from
    [idx] on, have been credited. *)
Fixpoint credits {A : Type} (add : A → A → A) (i idx : nat) (js : list (Journal.t A))
    (c : CatCode.t A) : CatCode.t A :=
  match js with
  | [] => c
  | j :: rest => credits add i (S idx) rest (credit add i idx j c)
  end.

(** The indices, from [idx] on, of the transactions of the category at [i]. *)
Fixpoint owned_from {A : Type} (i idx : nat) (js : list (Journal.t A)) : list nat :=
  match js with
  | [] => []
  | j :: rest =>
      if owned_by i j then idx :: owned_from i (S idx) rest
      else owned_from i (S idx) rest
  end.

(** The line is one the journal loader goes past: the parser does not refuse
    it and the dictionary knows its category. *)
Definition journal_line_ok {A : Type} (parse_journal_line : string → Z → journal_result A)
    (dict : gmap string nat) (y : Z) (line : string) : Prop :=
  match parse_journal_line line y with
  | JSkip => True
  | JError _ => False
  | JLine _ _ _ _ cat_code => truthy cat_code = true → is_Some (dict !! cat_code)
  end.

(** What an exit of the journal file loop says about the lines, the first one
    having the number [n]. *)
Definition journal_exit_reason {A : Type}
    (parse_journal_line : string → Z → journal_result A) (dict : gmap string nat)
    (y : Z) (n : nat) (lines : list string) (why : exit_reason) : Prop :=
  match why with
  | JournalFileError msg k =>
      ∃ pre line post, lines = (pre ++ line :: post)%list ∧ k = (n + length pre)%nat
        ∧ parse_journal_line line y = JError msg
        ∧ Forall (journal_line_ok parse_journal_line dict y) pre
  | UndefinedCategory k =>
      ∃ pre line post date descr amt type cat_code,
        lines = (pre ++ line :: post)%list ∧ k = (n + length pre)%nat
        ∧ parse_journal_line line y = JLine date descr amt type cat_code
        ∧ cat_code ≠ "" ∧ dict !! cat_code = None
        ∧ Forall (journal_line_ok parse_journal_line dict y) pre
  | _ => False
  end.

(** What an exit of [read_and_parse_journal_file] says about the file. *)
Definition journal_file_exit {A : Type}
    (parse_journal_line : string → Z → journal_result A) (dict : gmap string nat)
    (y : Z) (journal_file : list string) (why : exit_reason) : Prop :=
  match why with
  | EmptyJournalFile =>
      journal_records parse_journal_line dict y 1 journal_file = []
      ∧ Forall (journal_line_ok parse_journal_line dict y) journal_file
  | _ => journal_exit_reason parse_journal_line dict y 1 journal_file why
  end.

(** The dictionary leads into the list, and every category has its twelve
    monthly figures. *)
Definition ledger_ok {A : Type} (g : globals A) : Prop :=
  (∀ code i, cat_dict g !! code = Some i → (i < length (cat_list g))%nat)
  ∧ Forall (fun c => length (CatCode.monthly c) = 12%nat) (cat_list g).

(** A category that no transaction has been credited to. *)
Definition no_credit {A : Type} (zero : A) (c : CatCode.t A) : Prop :=
  CatCode.total c = zero ∧ CatCode.monthly c = replicate 12 zero
  ∧ CatCode.journal c = [] ∧ CatCode.longest c = 0%nat.

(** ** Example journals *)

(** A journal with a category that the category file does not define, and a
    journal with a month that does not exist. *)
Definition undefined_journal_file : list string :=
  [ ln "3/9, Paycheck, 1000.00, dep, 1.1"; ln "3/12, Mystery, -5.00, chk, 9.9" ].

Definition bad_month_journal_file : list string :=
  [ ln "# 2015"; ln "13/1, Nothing, 1.00, chk, 1.1" ].

(** ** The report *)

(** What [generate_cashflow_report] takes from outside the program: the
    fields of [datetime.datetime.now()] and the three paths that [abspath]
    returns. *)
Record report_env : Set := mk_report_env {
  now_month : Z;
  now_day : Z;
  now_year : Z;
  now_hour : Z;
  now_minute : Z;
  cat_file_abspath : string;
  journal_file_abspath : string;
  output_file_abspath : string
}.

(** [calendar.month_name]: the program does not set a locale. *)
Definition month_name : list string :=
  [ ""; "January"; "February"; "March"; "April"; "May"; "June"; "July"; "August";
    "September"; "October"; "November"; "December" ].

Definition nl : string := String newline "".

(** [n] times the character [c]. *)
Fixpoint fill (c : ascii) (n : nat) : string :=
  match n with
  | O => ""
  | S n' => String c (fill c n')
  end.

(** ["{0:c<w}".format(s)] and ["{0:>w}".format(s)]; the width counts the
    characters of the text, for ASCII text the length of the [string]. *)
Definition ljust (c : ascii) (w : nat) (s : string) : string :=
  s +:+ fill c (w - String.length s).

Definition rjust (w : nat) (s : string) : string :=
  fill " " (w - String.length s) +:+ s.

(** ["{0:wd}".format(z)]. *)
Definition format_d (w : nat) (z : Z) : string :=
  rjust w ((if (z <? 0)%Z then "-" else "") +:+ str_of_Z (Z.abs z)).

(** [print(a, b, ..., file=outfile)]: what the call writes. *)
Fixpoint join_args (args : list string) : string :=
  match args with
  | [] => ""
  | [a] => a
  | a :: rest => a +:+ " " +:+ join_args rest
  end.

Definition print (args : list string) : string := join_args args +:+ nl.

(** [x != 0] for a float. *)
Definition nonzero (x : float) : bool := negb (PrimFloat.eqb x 0%float).

(** [x / months] for a float and an int. *)
Definition truediv (x : float) (months : nat) : outcome float :=
  if (months =? 0)%nat then Raise "ZeroDivisionError"
  else Done (x / PrimFloat.of_uint63 (Uint63.of_Z (Z.of_nat months)))%float.

(** [l[i] = x]. *)
Definition assign {X : Type} (l : list X) (i : nat) (x : X) : outcome (list X) :=
  if (i <? length l)%nat then Done (<[i := x]> l) else Raise "IndexError".

(** [[f(x) for x in xs]], where [f] may raise. *)
Fixpoint map_each {X Y : Type} (f : X → outcome Y) (xs : list X) : outcome (list Y) :=
  match xs with
  | [] => Done []
  | x :: xs' => y ← f x; ys ← map_each f xs'; Done (y :: ys)
  end.

(** [list.sort(key=...)] on the keys computed beforehand: the sort is stable,
    an item goes behind the items whose key is not greater than its own. *)
Fixpoint insert_by_key {X : Type} (x : string * X) (l : list (string * X))
    : list (string * X) :=
  match l with
  | [] => [x]
  | y :: l' =>
      if String.ltb (fst x) (fst y) then x :: y :: l' else y :: insert_by_key x l'
  end.

Definition sort_by_key {X : Type} (l : list (string * X)) : list (string * X) :=
  fold_left (fun sorted x => insert_by_key x sorted) l [].

(** [key = lambda obj: journal_list[obj].date], paired with [obj]. *)
Definition date_key (journal_list : list (Journal.t float)) (obj : nat)
    : outcome (string * nat) :=
  j ← index journal_list obj; Done (Journal.date j, obj).

Definition separator : string :=
  nl +:+ fill "#" 92.

Definition summary_heading : string :=
  fill " " 58 +:+ "Transactions   Nested     Total".

Definition average_heading : string :=
  fill " " 58 +:+ "     Total    Average".

(** The first five calls of [print]. *)
Definition report_head (env : report_env) : list string :=
  let now_str := format_0d 2 (now_month env) +:+ "/" +:+ format_0d 2 (now_day env)
                 +:+ "/" +:+ format_d 4 (now_year env) +:+ ", "
                 +:+ format_0d 2 (now_hour env) +:+ ":" +:+ format_0d 2 (now_minute env)
                 +:+ "," in
  [ print ["Cashflow program detailed output - Journal transactions for each category code"];
    print [nl +:+ "Report generated on"; now_str; "using files:"];
    print ["   Category:"; cat_file_abspath env];
    print ["   Journal: "; journal_file_abspath env];
    print ["   Report:  "; output_file_abspath env] ].

(** The line of a transaction in the detailed part. *)
Definition transaction_line (max_width : nat) (jobj : Journal.t float) : string :=
  print [ "   "; Journal.date jobj; ljust "." max_width (Journal.descr jobj);
          "$" +:+ rjust 8 (format_2f (Journal.amt jobj)); Journal.type jobj ].

(** The body of the loop over [cjidx]. *)
Definition transaction_turn (journal_list : list (Journal.t float))
    (journal : list nat) (max_width : nat) (cjidx : nat) (out : list string)
    : outcome (list string) :=
  jidx ← index journal cjidx;
  jobj ← index journal_list jidx;
  Done (out ++ [transaction_line max_width jobj])%list.

(** The first line of a category in the detailed part. *)
Definition category_line (c : CatCode.t float) : string :=
  print [ nl +:+ "Category"; CatCode.cat_str c; CatCode.descr c;
          "   Transactions:"; "$" +:+ format_2f (CatCode.total c) +:+ ",";
          " Nested:"; "$" +:+ format_2f (CatCode.nested_total c) +:+ ",";
          " Total:"; "$" +:+ format_2f (CatCode.total c + CatCode.nested_total c)%float ].

(** The body of the loop of the detailed part: [cat_list[cidx]] is the same
    object all through the turn, its journal is sorted in place. *)
Definition detail_turn (cidx : nat) (s : globals float * list string)
    : outcome (globals float * list string) :=
  let '(g, out) := s in
  c ← index (cat_list g) cidx;
  let out := (out ++ [category_line c])%list in
  let out := if (0 <? length (CatCode.journal c))%nat then (out ++ [print []])%list else out in
  keyed ← map_each (date_key (journal_list g)) (CatCode.journal c);
  let c := CatCode.set_journal (map snd (sort_by_key keyed)) c in
  let g := mk_globals (<[cidx := c]> (cat_list g)) (cat_dict g) (journal_list g) in
  let max_width := CatCode.longest c in
  out ← for_each (seq 0 (length (CatCode.journal c)))
          (transaction_turn (journal_list g) (CatCode.journal c) max_width) out;
  Done (g, out).

(** The line of a category in a summary: the three figures are the
    transactions, the nested figure and their sum. *)
Definition summary_line (c : CatCode.t float) (x nested : float) : string :=
  print [ "Category"; ljust "." 10 (CatCode.cat_str c); ljust "." 40 (CatCode.descr c);
          rjust 9 (format_2f x) +:+ " "; rjust 9 (format_2f nested) +:+ " ";
          rjust 9 (format_2f (x + nested)%float) ].

(** The body of the loop of the year-to-date summary. *)
Definition year_turn (l : list (CatCode.t float)) (cidx : nat) (out : list string)
    : outcome (list string) :=
  c ← index l cidx;
  if nonzero (CatCode.total c + CatCode.nested_total c)%float then
    Done (out ++ [summary_line c (CatCode.total c) (CatCode.nested_total c)])%list
  else Done out.

(** The loop that finds the months to print: the body for [month]. *)
Definition todo_turn (c : CatCode.t float) (month : nat) (todo : list bool)
    : outcome (list bool) :=
  m ← index (CatCode.monthly c) month;
  nm ← index (CatCode.nested_monthly c) month;
  if nonzero (m + nm)%float then assign todo month true else Done todo.

Definition todo_of (l : list (CatCode.t float)) : outcome (list bool) :=
  for_each (seq 0 (length l))
    (fun cidx todo => c ← index l cidx; for_each (seq 0 12) (todo_turn c) todo)
    (replicate 12 false).

(** The body of the loop over the categories in the summary of [month]. *)
Definition month_line_turn (l : list (CatCode.t float)) (month cidx : nat)
    (out : list string) : outcome (list string) :=
  c ← index l cidx;
  m ← index (CatCode.monthly c) month;
  nm ← index (CatCode.nested_monthly c) month;
  if nonzero (m + nm)%float then Done (out ++ [summary_line c m nm])%list else Done out.

(** The body of the loop over the months. *)
Definition month_summary_turn (l : list (CatCode.t float)) (todo : list bool)
    (month : nat) (out : list string) : outcome (list string) :=
  t ← index todo month;
  if t : bool then
    name ← index month_name (month + 1);
    let out := (out ++ [ print [separator];
                         print [ nl +:+ "Cashflow program summary output for"; name; nl;
                                 summary_heading ] ])%list in
    for_each (seq 0 (length l)) (month_line_turn l month) out
  else Done out.

(** The line of a category in the monthly average. *)
Definition average_line (c : CatCode.t float) (average : float) : string :=
  print [ "Category"; ljust "." 10 (CatCode.cat_str c); ljust "." 40 (CatCode.descr c);
          rjust 9 (format_2f (CatCode.total c + CatCode.nested_total c)%float);
          rjust 9 (format_2f average) ].

(** The body of the loop of the monthly average. *)
Definition average_turn (l : list (CatCode.t float)) (months : nat) (cidx : nat)
    (out : list string) : outcome (list string) :=
  c ← index l cidx;
  if nonzero (CatCode.total c + CatCode.nested_total c)%float then
    average ← truediv (CatCode.total c + CatCode.nested_total c)%float months;
    Done (out ++ [average_line c average])%list
  else Done out.

(** [sum(todo)]. *)
Definition count_true (todo : list bool) : nat := length (List.filter id todo).

(** [generate_cashflow_report] after the roll-up: the detailed part, the
    year-to-date summary, the summaries of the months and the monthly
    average.  The result is the global variables and what the calls of
    [print] wrote to the output file, one string for each call. *)
Definition report_after_rollup (env : report_env) (g : globals float)
    : outcome (globals float * list string) :=
  s ← for_each (seq 0 (length (cat_list g))) detail_turn (g, report_head env);
  let '(g, out) := s in
  let l := cat_list g in
  let out := (out ++ [ print [separator];
                       print [ nl +:+ "Cashflow program year-to-date summary output - "
                                 +:+ "Categories only (omit all-zero categories)" +:+ nl;
                               summary_heading ] ])%list in
  out ← for_each (seq 0 (length l)) (year_turn l) out;
  todo ← todo_of l;
  out ← for_each (seq 0 12) (month_summary_turn l todo) out;
  let months := count_true todo in
  let out := (out ++ [ print [separator];
                       print [ nl +:+ "Cashflow program summary output, monthly average for";
                               str_of_Z (Z.of_nat months); "months" +:+ nl;
                               average_heading ] ])%list in
  out ← for_each (seq 0 (length l)) (average_turn l months) out;
  Done (g, out).

(** [generate_cashflow_report] on the global variables that the journal
    loader leaves.  The program writes the head before the roll-up; the
    roll-up writes nothing. *)
Definition generate_cashflow_report (env : report_env) (g : globals float)
    : outcome (globals float * list string) :=
  g ← rollup PrimFloat.add g; report_after_rollup env g.

(** [main] with the report: from the two files to the text of the report. *)
Definition cashflow_report (env : report_env) (cat_file journal_file : list string)
    (journal_year : Z) : outcome (globals float * list string) :=
  g ← read_and_parse_cat_file 0%float cat_file globals_init;
  g ← prc_cat_file_hierarchy g;
  g ← read_and_parse_journal_file PrimFloat.add parse_journal_file_line
        journal_file journal_year g;
  generate_cashflow_report env g.

(** ** What the report holds *)

(** The date of the transaction of index [k]. *)
Definition date_of (jl : list (Journal.t float)) (k : nat) : string :=
  match jl !! k with
  | Some j => Journal.date j
  | None => ""
  end.

(** The indices [ks] sorted by the date of their transactions. *)
Definition by_date (jl : list (Journal.t float)) (ks : list nat) : list nat :=
  map snd (sort_by_key (map (fun k => (date_of jl k, k)) ks)).

(** The category with its transactions sorted by date, and the global
    variables where every category is so. *)
Definition sorted_category (jl : list (Journal.t float)) (c : CatCode.t float)
    : CatCode.t float :=
  CatCode.set_journal (by_date jl (CatCode.journal c)) c.

Definition sorted_globals (g : globals float) : globals float :=
  mk_globals (map (sorted_category (journal_list g)) (cat_list g)) (cat_dict g)
    (journal_list g).

(** The lines of a category in the detailed part. *)
Definition transaction_lines (jl : list (Journal.t float)) (c : CatCode.t float)
    : list string :=
  flat_map (fun k => match jl !! k with
                     | Some j => [transaction_line (CatCode.longest c) j]
                     | None => []
                     end) (CatCode.journal c).

Definition detail_block (jl : list (Journal.t float)) (c : CatCode.t float)
    : list string :=
  (category_line c
   :: (if (0 <? length (CatCode.journal c))%nat then [print []] else []))
  ++ transaction_lines jl c.

(** [monthly[m] + nested_monthly[m]]. *)
Definition figure (c : CatCode.t float) (m : nat) : float :=
  (nth m (CatCode.monthly c) 0 + nth m (CatCode.nested_monthly c) 0)%float.

(** The month [m] has activity in some category. *)
Definition active (l : list (CatCode.t float)) (m : nat) : bool :=
  existsb (fun c => nonzero (figure c m)) l.

(** The months with activity. *)
Definition months_of (l : list (CatCode.t float)) : list nat :=
  List.filter (active l) (seq 0 12).

(** The category is in the year-to-date summary and in the monthly average. *)
Definition in_summary (c : CatCode.t float) : bool :=
  nonzero (CatCode.total c + CatCode.nested_total c)%float.

Definition year_text (l : list (CatCode.t float)) : list string :=
  [ print [separator];
    print [ nl +:+ "Cashflow program year-to-date summary output - "
              +:+ "Categories only (omit all-zero categories)" +:+ nl;
            summary_heading ] ]
  ++ map (fun c => summary_line c (CatCode.total c) (CatCode.nested_total c))
       (List.filter in_summary l).

Definition month_text (l : list (CatCode.t float)) (m : nat) : list string :=
  [ print [separator];
    print [ nl +:+ "Cashflow program summary output for"; nth (m + 1) month_name "";
            nl; summary_heading ] ]
  ++ map (fun c => summary_line c (nth m (CatCode.monthly c) 0%float)
                     (nth m (CatCode.nested_monthly c) 0%float))
       (List.filter (fun c => nonzero (figure c m)) l).

Definition average_text (l : list (CatCode.t float)) : list string :=
  let months := length (months_of l) in
  [ print [separator];
    print [ nl +:+ "Cashflow program summary output, monthly average for";
            str_of_Z (Z.of_nat months); "months" +:+ nl; average_heading ] ]
  ++ map (fun c => average_line c
                     ((CatCode.total c + CatCode.nested_total c)
                      / PrimFloat.of_uint63 (Uint63.of_Z (Z.of_nat months)))%float)
       (List.filter in_summary l).

(** The text of the report for the transactions [jl] and the categories [l],
    sorted. *)
Definition report_text (env : report_env) (jl : list (Journal.t float))
    (l : list (CatCode.t float)) : list string :=
  report_head env ++ flat_map (detail_block jl) l ++ year_text l
  ++ flat_map (month_text l) (months_of l) ++ average_text l.

(** The state of the program when the report starts, for the journal of the
    year [y]: twelve figures in every category, every transaction with a date
    of the year and the index of a category, and in every category the
    indices of its own transactions in the order of the journal. *)
Definition report_ready (y : Z) (g : globals float) : Prop :=
  Forall months_ok (cat_list g)
  ∧ (∀ k j, journal_list g !! k = Some j →
       (∃ mo d, valid_date y mo d ∧ Journal.date j = expand_date mo d y)
       ∧ (Journal.cat_idx j < length (cat_list g))%nat)
  ∧ ∀ i c, cat_list g !! i = Some c →
      CatCode.journal c
      = List.filter (fun k => match journal_list g !! k with
                              | Some j => owned_by i j
                              | None => false
                              end) (seq 0 (length (journal_list g))).

(** The month and the day as one number. *)
Definition day_number (mo d : Z) : Z := (mo * 100 + d)%Z.

(** The order of the detailed part: by date, and on the same date by the
    place in the journal. *)
Definition printed_before (y : Z) (jl : list (Journal.t float)) (a b : nat) : Prop :=
  ∃ ja jb mo1 d1 mo2 d2,
    jl !! a = Some ja ∧ jl !! b = Some jb
    ∧ valid_date y mo1 d1 ∧ Journal.date ja = expand_date mo1 d1 y
    ∧ valid_date y mo2 d2 ∧ Journal.date jb = expand_date mo2 d2 y
    ∧ ((mo1 < mo2)%Z ∨ (mo1 = mo2 ∧ (d1 < d2)%Z) ∨ (mo1 = mo2 ∧ d1 = d2 ∧ (a < b)%nat)).

(** A journal where a payment of one month is taken back in another month. *)
Definition refund_cat_file : list string := [ ln "1 Deposits" ].

Definition refund_journal_file : list string :=
  [ ln "1/5, Deposit, 0.10, dep, 1";
    ln "2/5, Deposit, 0.20, dep, 1";
    ln "1/6, Taken back, -0.10, dep, 1";
    ln "2/6, Taken back, -0.20, dep, 1" ].

(** A journal that is not in the order of the dates. *)
Definition unsorted_journal_file : list string :=
  [ ln "4/9, Groceries, -88.17, deb, 2.2";
    ln "2/28, Snack, -2.67, cash, 2.2";
    ln "4/9, Refund, 8.10, deb, 2.2";
    ln "4/2, Water bill, -41.50, chk, 2.1.1.2" ].

Definition example_env : report_env :=
  mk_report_env 11 4 2026 17 8 "/home/cats.txt" "/home/2015_cashflow_journal.txt"
    "/home/20261104_cashflow_report.txt".

(** ** The detailed part *)

(** The journals name transactions that exist. *)
Definition journals_ok (jl : list (Journal.t float)) (l : list (CatCode.t float)) : Prop :=
  Forall (fun c => Forall (fun k => (k < length jl)%nat) (CatCode.journal c)) l.

(** ** The sort is stable *)

(** The order of the sort: by key, and for one key by the second part. *)
Definition key_before (x y : string * nat) : Prop :=
  String.compare (fst x) (fst y) = Lt ∨ (fst x = fst y ∧ (snd x < snd y)%nat).

(** ** Every transaction in one category *)

(** The class of a transaction: the index of its category. *)
Definition cat_idx_of (jl : list (Journal.t float)) (k : nat) : nat :=
  match jl !! k with
  | Some j => Journal.cat_idx j
  | None => 0
  end.

(** ** Example reports *)

Definition report_of (o : outcome (globals float * list string))
    : globals float * list string :=
  match o with
  | Done s => s
  | _ => (globals_init, [])
  end.

(** The report of the household files, and of the household categories with
    the journal that is not in the order of the dates. *)
Definition household_report : globals float * list string :=
  Eval vm_compute in
    report_of (cashflow_report example_env household_cat_file household_journal_file 2015).

Definition unsorted_report : globals float * list string :=
  Eval vm_compute in
    report_of (cashflow_report example_env household_cat_file unsorted_journal_file 2015).

(** The global variables after the journal where every payment is taken
    back. *)
Definition refund_globals : globals float :=
  Eval vm_compute in result_of (cashflow refund_cat_file refund_journal_file 2015).

(** ** The lines that are passed over *)

(** A line of blanks, or blanks followed by a '#' or a newline. *)
Definition blank_or_comment (line : string) : Prop :=
  ∃ n rest, line = spaces n +:+ rest
            ∧ (rest = "" ∨ ∃ x r, rest = String x r ∧ in_str x hash_or_newline = true).

(** * The properties *)

(** ** Strings *)

Lemma append_cons (c : ascii) (a b : string) : String c a +:+ b = String c (a +:+ b).
Proof. reflexivity. Qed.

Lemma append_nil_l (a : string) : "" +:+ a = a.
Proof. reflexivity. Qed.

Lemma append_nil_r (s : string) : s +:+ "" = s.
Proof. induction s as [|c s IH]; [reflexivity | now rewrite append_cons, IH]. Qed.

Lemma append_assoc (a b c : string) : (a +:+ b) +:+ c = a +:+ (b +:+ c).
Proof. induction a as [|x a IH]; [reflexivity | now rewrite !append_cons, IH]. Qed.

Lemma length_append (a b : string) :
  String.length (a +:+ b) = (String.length a + String.length b)%nat.
Proof. induction a as [|x a IH]; [reflexivity | rewrite append_cons; simpl; now rewrite IH]. Qed.

Lemma length_spaces (n : nat) : String.length (spaces n) = n.
Proof. induction n as [|n IH]; simpl; [reflexivity | now rewrite IH]. Qed.

Lemma substring_skip (a b : string) (n : nat) :
  substring (String.length a) n (a +:+ b) = substring 0 n b.
Proof. induction a as [|x a IH]; [reflexivity | rewrite append_cons; simpl; exact IH]. Qed.

Lemma substring_take (a b : string) : substring 0 (String.length a) (a +:+ b) = a.
Proof.
  induction a as [|x a IH].
  - rewrite append_nil_l. destruct b; reflexivity.
  - rewrite append_cons. simpl. now rewrite IH.
Qed.

Lemma slice_mid (a b c : string) :
  slice (a +:+ b +:+ c) (String.length a) (String.length a + String.length b) = b.
Proof.
  unfold slice. rewrite substring_skip.
  replace (String.length a + String.length b - String.length a)%nat
    with (String.length b) by lia.
  apply substring_take.
Qed.

Lemma spaces_snoc (n : nat) : spaces n +:+ " " = spaces (S n).
Proof.
  induction n as [|n IH]; [reflexivity |].
  simpl spaces. rewrite append_cons. simpl spaces in IH. now rewrite IH.
Qed.

Lemma all_chars_append (p : ascii → bool) (a b : string) :
  all_chars p (a +:+ b) = all_chars p a && all_chars p b.
Proof.
  induction a as [|x a IH]; [reflexivity |].
  rewrite append_cons. simpl. rewrite IH. now rewrite andb_assoc.
Qed.

Lemma split_on_nonempty (sep : ascii) (s : string) : split_on sep s ≠ [].
Proof.
  induction s as [|c s IH]; simpl; [discriminate |].
  destruct (Ascii.eqb c sep); [discriminate |].
  destruct (split_on sep s); discriminate.
Qed.

Lemma split_on_append (sep : ascii) (a b : string) :
  split_on sep (a +:+ String sep b) = (split_on sep a ++ split_on sep b)%list.
Proof.
  induction a as [|c a IH].
  - rewrite append_nil_l. simpl. now rewrite Ascii.eqb_refl.
  - rewrite append_cons. simpl.
    destruct (Ascii.eqb c sep); [now rewrite IH |].
    rewrite IH. pose proof (split_on_nonempty sep a) as Hne.
    destruct (split_on sep a); [contradiction | reflexivity].
Qed.

Lemma split_on_single (sep : ascii) (s : string) :
  all_chars (fun c => negb (Ascii.eqb c sep)) s = true → split_on sep s = [s].
Proof.
  induction s as [|c s IH]; simpl; [reflexivity |].
  intros H. apply andb_prop in H as [Hc Hs].
  apply negb_true_iff in Hc. rewrite Hc, (IH Hs). reflexivity.
Qed.

(** Facts about single characters, by enumeration of the 256 characters. *)
Ltac ascii_cases c :=
  destruct c as [[] [] [] [] [] [] [] []]; vm_compute; try discriminate; try reflexivity;
  try tauto; try (repeat split; discriminate).

Lemma digit19_isdigit (c : ascii) : digit19 c = true → isdigit c = true.
Proof. ascii_cases c. Qed.

Lemma isdigit_not_dot (c : ascii) : isdigit c = true → Ascii.eqb c "." = false.
Proof. ascii_cases c. Qed.

Lemma isdigit_not_space (c : ascii) : isdigit c = true → Ascii.eqb c " " = false.
Proof. ascii_cases c. Qed.

Lemma isdigit_not_hash_newline (c : ascii) :
  isdigit c = true → in_str c hash_or_newline = false.
Proof. ascii_cases c. Qed.

Lemma digit19_not_dot (c : ascii) : digit19 c = true → Ascii.eqb c "." = false.
Proof. ascii_cases c. Qed.

Lemma digit19_not_space (c : ascii) : digit19 c = true → Ascii.eqb c " " = false.
Proof. ascii_cases c. Qed.

(** ** The category parser: what the variables hold along a line *)

Lemma code_ok_first (c : ascii) : digit19 c = true → code_ok (String c "") 1.
Proof.
  intros H. unfold code_ok, cat_code_ok, segments. simpl.
  rewrite (digit19_not_dot c H). simpl. rewrite H.
  unfold not_space. rewrite (digit19_not_space c H). simpl.
  repeat split; try lia. discriminate.
Qed.

Lemma deeper_segment_chars (seg : string) :
  deeper_segment_ok seg = true →
  all_chars (fun c => negb (Ascii.eqb c ".")) seg = true
  ∧ all_chars not_space seg = true ∧ (1 ≤ String.length seg ≤ 2)%nat.
Proof.
  destruct seg as [|c [|d [|e seg]]]; simpl; try discriminate.
  - intros H. unfold not_space.
    rewrite (digit19_not_dot c H), (digit19_not_space c H). simpl. repeat split; lia.
  - intros H. apply andb_prop in H as [Hc Hd]. unfold not_space.
    rewrite (digit19_not_dot c Hc), (digit19_not_space c Hc),
      (isdigit_not_dot d Hd), (isdigit_not_space d Hd). simpl. repeat split; lia.
Qed.

Lemma code_ok_extend (code seg : string) (lvl : nat) :
  code_ok code lvl → deeper_segment_ok seg = true → (lvl < 4)%nat →
  code_ok (code +:+ "." +:+ seg) (S lvl).
Proof.
  intros (Hok & Hlen & Hlvl & Hsp & Hne) Hseg Hlt.
  destruct (deeper_segment_chars seg Hseg) as (Hnd & Hns & _).
  unfold code_ok, cat_code_ok, segments in *.
  change ("." +:+ seg) with (String "." seg).
  rewrite split_on_append, (split_on_single _ _ Hnd).
  destruct (split_on "." code) as [|s1 segs] eqn:E; [discriminate |].
  simpl in Hlen. simpl.
  apply andb_prop in Hok as [Hok H3]. apply andb_prop in Hok as [H1 H2].
  rewrite H1, forallb_app, H2. simpl. rewrite Hseg. simpl.
  rewrite length_app. simpl.
  repeat split.
  - apply Nat.leb_le. lia.
  - lia.
  - lia.
  - lia.
  - rewrite all_chars_append, Hsp. simpl. exact Hns.
  - destruct code; [congruence | discriminate].
Qed.

Ltac splits := repeat match goal with |- _ ∧ _ => split end.

Lemma cat_step_inv (line pre rest : string) (c : ascii) (v v' : CS.vars) :
  line = pre +:+ String c rest →
  cat_inv pre v →
  cat_step line (String.length pre) c v = inl v' →
  cat_inv (pre +:+ String c "") v'.
Proof.
  intros Hline Hinv Hstep. unfold cat_step in Hstep. unfold cat_inv in *.
  destruct (CS.parse_state v) eqn:Est.
  - (* START *)
    destruct Hinv as [n ->].
    destruct (Ascii.eqb c " ") eqn:E1.
    + apply Ascii.eqb_eq in E1. subst c. inversion Hstep; subst v'. rewrite Est.
      exists (S n). apply spaces_snoc.
    + destruct (in_str c hash_or_newline); [discriminate |].
      destruct (in_str c "123456789") eqn:E3; [| discriminate].
      inversion Hstep; subst v'. simpl.
      exists n, c. rewrite length_spaces. splits; auto.
  - (* LEVEL1 *)
    destruct Hinv as (n & d & -> & Hd & Hs & Hl).
    destruct (Ascii.eqb c ".") eqn:E1.
    + apply Ascii.eqb_eq in E1. subst c. inversion Hstep; subst v'. simpl.
      exists n, (String d ""). rewrite append_assoc.
      splits; try lia; try apply (code_ok_first d Hd); auto.
    + destruct (Ascii.eqb c " ") eqn:E2; [| discriminate].
      apply Ascii.eqb_eq in E2. subst c. inversion Hstep; subst v'. simpl.
      assert (Hcode : slice line (CS.start_idx v) (String.length (spaces n +:+ String d ""))
                      = String d "").
      { rewrite Hline, Hs, append_assoc, length_append, length_spaces.
        rewrite <- (length_spaces n) at 2 3. apply slice_mid. }
      rewrite Hcode. exists n, "". rewrite Hl, append_assoc.
      split; [reflexivity | apply (code_ok_first d Hd)].
  - (* LEVEL234A *)
    destruct Hinv as (n & code & -> & Hok & Hs & Hl).
    destruct (in_str c "123456789") eqn:E1; [| discriminate].
    inversion Hstep; subst v'. simpl.
    exists n, code, (String c ""). rewrite !append_assoc. simpl.
    change (digit19 c = true) in E1. rewrite E1. splits; auto; lia.
  - (* LEVEL234B *)
    destruct Hinv as (n & code & seg & -> & Hok & Hseg & Hdc & Hs & Hl).
    destruct (deeper_segment_chars seg Hseg) as (_ & _ & Hlen).
    destruct (isdigit c) eqn:E1.
    + simpl in Hstep.
      destruct (CS.digit_count v + 1 <=? 2)%nat eqn:E2; [| discriminate].
      apply Nat.leb_le in E2. inversion Hstep; subst v'. simpl. rewrite Est.
      exists n, code, (seg +:+ String c ""). rewrite !append_assoc.
      splits; auto; try lia.
      * destruct seg as [|a [|b seg]]; simpl in *; try lia.
        rewrite Hseg, E1. reflexivity.
      * rewrite length_append. simpl. lia.
    + destruct (Ascii.eqb c ".") eqn:E2.
      * apply Ascii.eqb_eq in E2. subst c. simpl in Hstep.
        destruct (CS.level v + 1 <=? 4)%nat eqn:E3; [| discriminate].
        apply Nat.leb_le in E3. inversion Hstep; subst v'. simpl.
        exists n, (code +:+ "." +:+ seg). rewrite !append_assoc.
        splits; auto; try lia.
        replace (CS.level v + 1 - 1)%nat with (S (CS.level v - 1)) by lia.
        apply code_ok_extend; auto. lia.
      * destruct (Ascii.eqb c " ") eqn:E3; [| discriminate].
        apply Ascii.eqb_eq in E3. subst c. inversion Hstep; subst v'. simpl.
        assert (Hcode : slice line (CS.start_idx v)
                          (String.length (spaces n +:+ code +:+ "." +:+ seg))
                        = code +:+ "." +:+ seg).
        { rewrite Hline, Hs. rewrite !length_append, length_spaces.
          rewrite <- !length_append. rewrite <- (length_spaces n) at 2 3.
          rewrite <- !append_assoc. rewrite (append_assoc (spaces n)).
          rewrite (append_assoc (spaces n)). rewrite append_assoc.
          apply slice_mid. }
        rewrite Hcode. exists n, "". split.
        -- now rewrite !append_assoc.
        -- replace (CS.level v) with (S (CS.level v - 1)) by lia.
           apply code_ok_extend; auto. lia.
  - (* START_DESCR *)
    destruct Hinv as (n & more & -> & Hok).
    destruct (Ascii.eqb c " ").
    + inversion Hstep; subst v'. rewrite Est.
      exists n, (more +:+ String c ""). now rewrite !append_assoc.
    + destruct (in_str c hash_or_newline); [discriminate |].
      inversion Hstep; subst v'. simpl.
      exists n, (more +:+ String c ""). now rewrite !append_assoc.
  - (* END_DESCR *)
    destruct Hinv as (n & more & -> & Hok).
    destruct (in_str c hash_or_newline).
    + simpl in Hstep. destruct (Ascii.eqb c newline); [discriminate |].
      inversion Hstep; subst v'. simpl.
      exists n, (more +:+ String c ""). now rewrite !append_assoc.
    + inversion Hstep; subst v'. rewrite Est.
      exists n, (more +:+ String c ""). now rewrite !append_assoc.
  - (* END_COMMENT *)
    destruct Hinv as (n & more & -> & Hok).
    destruct (Ascii.eqb c newline); [discriminate |].
    inversion Hstep; subst v'. rewrite Est.
    exists n, (more +:+ String c ""). now rewrite !append_assoc.
Qed.

Lemma cat_loop_app (line a b : string) : ∀ (idx : nat) (v : CS.vars),
  cat_loop line idx (a +:+ b) v =
  match cat_loop line idx a v with
  | inl v' => cat_loop line (idx + String.length a) b v'
  | inr r => inr r
  end.
Proof.
  induction a as [|c a IH]; intros idx v.
  - rewrite append_nil_l. simpl. now rewrite Nat.add_0_r.
  - rewrite append_cons. simpl. destruct (cat_step line idx c v); [| reflexivity].
    rewrite IH. now replace (S idx + String.length a)%nat with (idx + S (String.length a))%nat by lia.
Qed.

Lemma cat_step_line (line : string) (idx : nat) (c : ascii) (v : CS.vars)
    (code d cm : string) (l : nat) :
  cat_step line idx c v = inr (CatLine code d cm l) →
  code = CS.cat_code v ∧ l = CS.level v
  ∧ (CS.parse_state v = CS.END_DESCR ∨ CS.parse_state v = CS.END_COMMENT).
Proof.
  unfold cat_step.
  destruct (CS.parse_state v);
    repeat match goal with
           | |- context [if ?b then _ else _] => destruct b; simpl
           end; intros H; try discriminate; inversion H; auto.
Qed.

Lemma cat_loop_sound (line : string) : ∀ (rest pre : string) (v : CS.vars),
  line = pre +:+ rest → cat_inv pre v →
  ∀ code d cm l, cat_loop line (String.length pre) rest v = inr (CatLine code d cm l) →
  ∃ n more, line = spaces n +:+ code +:+ String " " more ∧ code_ok code l.
Proof.
  induction rest as [|c rest IH]; intros pre v Hline Hinv code d cm l Hloop.
  - discriminate.
  - simpl in Hloop.
    destruct (cat_step line (String.length pre) c v) as [v'|r] eqn:Hstep.
    + apply (IH (pre +:+ String c "") v') with (d := d) (cm := cm).
      * now rewrite append_assoc.
      * eapply cat_step_inv; eauto.
      * rewrite length_append. simpl. now rewrite Nat.add_1_r.
    + inversion Hloop; subst r.
      destruct (cat_step_line _ _ _ _ _ _ _ _ Hstep) as (-> & -> & Hst).
      unfold cat_inv in Hinv.
      destruct Hst as [Hst | Hst]; rewrite Hst in Hinv;
        destruct Hinv as (n & more & -> & Hok);
        exists n, (more +:+ String c rest); (split; [| exact Hok]);
        now rewrite Hline, !append_assoc.
Qed.

(** A line that is accepted starts, after blanks, with its code and a blank. *)
Lemma parse_cat_file_line_sound (line code d cm : string) (l : nat) :
  parse_cat_file_line line = CatLine code d cm l →
  ∃ n more, line = spaces n +:+ code +:+ String " " more ∧ code_ok code l.
Proof.
  unfold parse_cat_file_line. intros H.
  destruct (cat_loop line 0 line CS.init) as [v|r] eqn:Hloop.
  - unfold cat_after_loop in H. destruct (CS.parse_state v); discriminate.
  - subst r. apply (cat_loop_sound line line "" CS.init) with (d := d) (cm := cm); auto.
    exists 0%nat. reflexivity.
Qed.

(** Once the parser has left [START] it never answers "skip" and never comes
    back. *)
Lemma cat_step_started (line : string) (idx : nat) (c : ascii) (v : CS.vars) :
  CS.parse_state v ≠ CS.START →
  cat_step line idx c v ≠ inr CatSkip
  ∧ ∀ v', cat_step line idx c v = inl v' → CS.parse_state v' ≠ CS.START.
Proof.
  intros Hst. unfold cat_step.
  destruct (CS.parse_state v) eqn:E; [congruence | ..];
    repeat match goal with
           | |- context [if ?b then _ else _] => destruct b; simpl
           end;
    (split; [discriminate | intros v' H; inversion H; subst v'; simpl; congruence]).
Qed.

Lemma cat_loop_started (line : string) : ∀ (rest : string) (idx : nat) (v : CS.vars),
  CS.parse_state v ≠ CS.START →
  cat_loop line idx rest v ≠ inr CatSkip
  ∧ ∀ v', cat_loop line idx rest v = inl v' → CS.parse_state v' ≠ CS.START.
Proof.
  induction rest as [|c rest IH]; intros idx v Hst; simpl.
  - split; [discriminate | intros v' H; inversion H; now subst v'].
  - destruct (cat_step_started line idx c v Hst) as [H1 H2].
    destruct (cat_step line idx c v) as [v1|r] eqn:E.
    + apply IH. now apply H2.
    + split; [congruence | discriminate].
Qed.

(** From [START]: "skip" is answered at a '#' or a newline after blanks only,
    and the loop drops out in [START] on blanks only. *)
Lemma cat_loop_start (line : string) : ∀ (rest : string) (idx : nat) (v : CS.vars),
  CS.parse_state v = CS.START →
  (cat_loop line idx rest v = inr CatSkip →
   ∃ k c r, rest = spaces k +:+ String c r ∧ in_str c hash_or_newline = true)
  ∧ (∀ v', cat_loop line idx rest v = inl v' → CS.parse_state v' = CS.START →
           rest = spaces (String.length rest)).
Proof.
  induction rest as [|c rest IH]; intros idx v Hst; simpl.
  - split; [discriminate | reflexivity].
  - unfold cat_step. rewrite Hst.
    destruct (Ascii.eqb c " ") eqn:E1.
    + apply Ascii.eqb_eq in E1. subst c.
      destruct (IH (S idx) v Hst) as [H1 H2]. split.
      * intros H. destruct (H1 H) as (k & c & r & -> & Hc).
        exists (S k), c, r. split; [reflexivity | exact Hc].
      * intros v' H Hv'. now rewrite <- (H2 v' H Hv').
    + destruct (in_str c hash_or_newline) eqn:E2.
      * split; [| discriminate]. intros _. exists 0%nat, c, rest. auto.
      * destruct (in_str c "123456789").
        -- match goal with |- context [cat_loop line (S idx) rest ?w] =>
             destruct (cat_loop_started line rest (S idx) w) as [H1 H2];
             [simpl; discriminate |] end.
           split; [intros H; contradiction | intros v' H Hv'].
           now apply H2 in H.
        -- split; discriminate.
Qed.

Lemma parse_cat_file_line_skip (line : string) :
  parse_cat_file_line line = CatSkip →
  line = spaces (String.length line)
  ∨ ∃ k c r, line = spaces k +:+ String c r ∧ in_str c hash_or_newline = true.
Proof.
  unfold parse_cat_file_line. intros H.
  destruct (cat_loop_start line line 0 CS.init eq_refl) as [H1 H2].
  destruct (cat_loop line 0 line CS.init) as [v|r] eqn:Hloop.
  - left. apply (H2 v eq_refl). unfold cat_after_loop in H.
    destruct (CS.parse_state v); congruence.
  - subst r. right. now apply H1.
Qed.

Lemma first_word_unique_0 (tok code r r' : string) :
  all_chars not_space tok = true → all_chars not_space code = true →
  tok +:+ String " " r = code +:+ String " " r' → tok = code.
Proof.
  revert code. induction tok as [|c tok IH]; intros code Ht Hc H.
  - destruct code as [|x code]; [reflexivity |].
    rewrite append_nil_l, append_cons in H. inversion H; subst x.
    simpl in Hc. discriminate.
  - destruct code as [|x code].
    + rewrite append_nil_l, append_cons in H. inversion H; subst c.
      simpl in Ht. discriminate.
    + rewrite !append_cons in H. inversion H; subst x.
      simpl in Ht, Hc. apply andb_prop in Ht as [_ Ht]. apply andb_prop in Hc as [_ Hc].
      f_equal. eapply IH; eauto.
Qed.

Lemma first_word_unique (n n' : nat) (tok code r r' : string) :
  tok ≠ "" → code ≠ "" →
  all_chars not_space tok = true → all_chars not_space code = true →
  spaces n +:+ tok +:+ String " " r = spaces n' +:+ code +:+ String " " r' →
  tok = code.
Proof.
  revert n'. induction n as [|n IH]; intros n' Ht Hc Hts Hcs H.
  - destruct n' as [|n'].
    + simpl in H. rewrite !append_nil_l in H. eapply first_word_unique_0; eauto.
    + destruct tok as [|c tok]; [congruence |].
      simpl in H. rewrite append_nil_l, !append_cons in H. inversion H; subst c.
      simpl in Hts. discriminate.
  - destruct n' as [|n'].
    + destruct code as [|c code]; [congruence |].
      simpl in H. rewrite append_nil_l, !append_cons in H. inversion H; subst c.
      simpl in Hcs. discriminate.
    + simpl in H. rewrite !append_cons in H. inversion H. eapply IH; eauto.
Qed.

Lemma spaces_first_word (m n : nat) (tok r : string) :
  starts_record tok = true → all_chars not_space tok = true →
  spaces m ≠ spaces n +:+ tok +:+ r.
Proof.
  revert m. induction n as [|n IH]; intros m Hs Hns H.
  - destruct tok as [|c tok]; [discriminate |].
    simpl in H. rewrite append_nil_l, append_cons in H.
    destruct m; [discriminate |]. simpl in H. inversion H; subst c.
    simpl in Hns. discriminate.
  - destruct m; [discriminate |]. simpl in H. rewrite append_cons in H.
    inversion H. eapply IH; eauto.
Qed.

Lemma first_char_unique (k n : nat) (c : ascii) (tok r r' : string) :
  starts_record tok = true → all_chars not_space tok = true →
  in_str c hash_or_newline = true →
  spaces k +:+ String c r ≠ spaces n +:+ tok +:+ r'.
Proof.
  revert k. induction n as [|n IH]; intros k Hs Hns Hc H.
  - destruct tok as [|x tok]; [discriminate |].
    simpl in H. rewrite append_nil_l, append_cons in H.
    destruct k.
    + simpl in H. rewrite append_nil_l in H. inversion H; subst x.
      unfold starts_record in Hs. rewrite Hc in Hs. discriminate.
    + simpl in H. rewrite append_cons in H. inversion H; subst x.
      simpl in Hns. discriminate.
  - destruct k.
    + simpl in H. rewrite append_nil_l, append_cons in H. inversion H; subst c.
      vm_compute in Hc. discriminate.
    + simpl in H. rewrite !append_cons in H. inversion H. eapply IH; eauto.
Qed.

(** A line whose first word is not a category code is an error. *)
Lemma parse_cat_file_line_bad_code (n : nat) (tok more : string) :
  starts_record tok = true → all_chars not_space tok = true →
  cat_code_ok tok = false →
  ∃ msg, parse_cat_file_line (spaces n +:+ tok +:+ String " " more) = CatError msg.
Proof.
  intros Hs Hns Hbad.
  destruct (parse_cat_file_line (spaces n +:+ tok +:+ String " " more)) as [|msg|code d cm l] eqn:E.
  - exfalso. apply parse_cat_file_line_skip in E as [E | (k & c & r & E & Hc)].
    + symmetry in E. revert E. now apply spaces_first_word.
    + symmetry in E. revert E. now apply first_char_unique.
  - now exists msg.
  - exfalso. apply parse_cat_file_line_sound in E as (n' & more' & E & Hok & _ & _ & Hcs & Hne).
    assert (tok = code).
    { eapply first_word_unique; eauto. destruct tok; [discriminate | discriminate]. }
    congruence.
Qed.

Arguments in_str : simpl never.

Lemma cat_loop_spaces (line : string) (n idx : nat) (v : CS.vars) :
  CS.parse_state v = CS.START → cat_loop line idx (spaces n) v = inl v.
Proof.
  intros Hst. revert idx. induction n as [|n IH]; intros idx; simpl; [reflexivity |].
  unfold cat_step. rewrite Hst. simpl. apply IH.
Qed.

Lemma digit19_not_hash_newline (c : ascii) :
  digit19 c = true → in_str c hash_or_newline = false.
Proof. ascii_cases c. Qed.

(** After blanks and a first digit 1 to 9 the parser is in [LEVEL1]. *)
Lemma cat_loop_first_digit (line : string) (n : nat) (c : ascii) :
  digit19 c = true →
  cat_loop line 0 (spaces n +:+ String c "") CS.init
  = inl (CS.set_parse_state CS.LEVEL1 (CS.set_level 1 (CS.set_start_idx n CS.init))).
Proof.
  intros Hc. rewrite cat_loop_app, cat_loop_spaces by reflexivity.
  rewrite length_spaces. simpl. unfold cat_step. simpl.
  rewrite (digit19_not_space c Hc), (digit19_not_hash_newline c Hc).
  change (in_str c "123456789") with (digit19 c). now rewrite Hc.
Qed.

Lemma segments_long_segment (tok seg : string) :
  In seg (segments tok) → (3 ≤ String.length seg)%nat → cat_code_ok tok = false.
Proof.
  unfold cat_code_ok. intros Hin Hlen.
  destruct (segments tok) as [|s1 segs]; [reflexivity |].
  destruct Hin as [-> | Hin].
  - destruct seg as [|a [|b seg]]; simpl in Hlen; try lia. reflexivity.
  - destruct (forallb deeper_segment_ok segs) eqn:E.
    + rewrite forallb_forall in E. specialize (E seg Hin).
      destruct seg as [|a [|b [|c seg]]]; simpl in Hlen; try lia. discriminate.
    + now rewrite andb_false_r.
Qed.

Lemma segments_too_many (tok : string) :
  (5 ≤ length (segments tok))%nat → cat_code_ok tok = false.
Proof.
  unfold cat_code_ok. intros Hlen.
  destruct (segments tok) as [|s1 segs]; [reflexivity |].
  simpl in Hlen. assert (E : (length segs <=? 3)%nat = false) by (apply Nat.leb_gt; lia).
  rewrite E. apply andb_false_r.
Qed.

Lemma segments_leading_zero (tok rest : string) :
  In (String "0" rest) (segments tok) → cat_code_ok tok = false.
Proof.
  unfold cat_code_ok. intros Hin.
  destruct (segments tok) as [|s1 segs]; [reflexivity |].
  destruct Hin as [-> | Hin].
  - destruct rest; reflexivity.
  - destruct (forallb deeper_segment_ok segs) eqn:E.
    + rewrite forallb_forall in E. specialize (E _ Hin).
      destruct rest as [|a [|b rest]]; discriminate.
    + now rewrite andb_false_r.
Qed.

(** C3. For every category line of ASCII characters accepted by
    [parse_cat_file_line], the level returned is the number of dot-separated
    segments of the code returned and lies between 1 and 4, and the code has
    the shape [cat_code_ok]: a first segment of one digit 1 to 9, then
    segments of one or two digits that start with a digit 1 to 9; the code is
    the first word of the line.  A line whose first word, of ASCII
    characters, is not such a code is a format error: so are a segment of
    three or more characters, a fifth segment and a segment with a leading
    zero ("08" is rejected, "8", "80" and "99" are accepted). *)
Theorem parse_cat_file_line_code_and_level :
  (∀ line code d cm lvl,
     ascii_text line = true →
     parse_cat_file_line line = CatLine code d cm lvl →
     lvl = length (segments code) ∧ (1 ≤ lvl ≤ 4)%nat ∧ cat_code_ok code = true
     ∧ ∃ n more, line = spaces n +:+ code +:+ String " " more)
  ∧ (∀ n tok more,
       ascii_text tok = true →
       starts_record tok = true → all_chars not_space tok = true →
       cat_code_ok tok = false →
       ∃ msg, parse_cat_file_line (spaces n +:+ tok +:+ String " " more) = CatError msg)
  ∧ (∀ tok seg, In seg (segments tok) → (3 ≤ String.length seg)%nat →
                cat_code_ok tok = false)
  ∧ (∀ tok, (5 ≤ length (segments tok))%nat → cat_code_ok tok = false)
  ∧ (∀ tok rest, In (String "0" rest) (segments tok) → cat_code_ok tok = false)
  ∧ parse_cat_file_line (ln "1.08 Fuel") = CatError cat_format_error
  ∧ parse_cat_file_line (ln "1.8 Fuel") = CatLine "1.8" "Fuel" "" 2
  ∧ parse_cat_file_line (ln "1.80 Fuel") = CatLine "1.80" "Fuel" "" 2
  ∧ parse_cat_file_line (ln "1.99 Fuel") = CatLine "1.99" "Fuel" "" 2
  ∧ parse_cat_file_line (ln "1.123 Fuel")
    = CatError "Error, invalid category code, too many digits"
  ∧ parse_cat_file_line (ln "1.2.3.4.5 Fuel")
    = CatError "Error, invalid category code, level nested too deeply".
Proof.
  split; [| split; [| split; [| split; [| split]]]].
  - intros line code d cm lvl _ H.
    apply parse_cat_file_line_sound in H as (n & more & Hline & Hok & Hlen & Hlvl & _).
    splits; eauto; lia.
  - intros n tok more _. apply parse_cat_file_line_bad_code.
  - apply segments_long_segment.
  - apply segments_too_many.
  - apply segments_leading_zero.
  - repeat split; vm_compute; reflexivity.
Qed.

Lemma parse_cat_file_line_code_and_level_witness :
  4%nat = length (segments "2.1.2.1") ∧ (1 ≤ 4 ≤ 4)%nat ∧ cat_code_ok "2.1.2.1" = true
  ∧ ∃ n more, ln "2.1.2.1 Grounds maintenance # lawn"
              = spaces n +:+ "2.1.2.1" +:+ String " " more.
Proof.
  exact (proj1 parse_cat_file_line_code_and_level
           (ln "2.1.2.1 Grounds maintenance # lawn") "2.1.2.1"
           "Grounds maintenance" "# lawn" 4%nat eq_refl eq_refl).
Defined.

(** C4. In [LEVEL1], the state reached right after the first digit 1 to 9 of
    a code, a '.' starts the second segment and a blank closes the code; any
    other character, a second digit included, is a format error, so the line
    "12 Foo" is rejected. *)
Theorem level1_next_character (n : nat) (c1 c2 : ascii) (rest : string) :
  digit19 c1 = true →
  let line := spaces n +:+ String c1 (String c2 rest) in
  (∃ v, cat_loop line 0 (spaces n +:+ String c1 "") CS.init = inl v
        ∧ CS.parse_state v = CS.LEVEL1)
  ∧ (c2 = "."%char →
     ∃ v, cat_loop line 0 (spaces n +:+ String c1 (String c2 "")) CS.init = inl v
          ∧ CS.parse_state v = CS.LEVEL234A ∧ CS.level v = 2%nat)
  ∧ (c2 = " "%char →
     ∃ v, cat_loop line 0 (spaces n +:+ String c1 (String c2 "")) CS.init = inl v
          ∧ CS.parse_state v = CS.START_DESCR ∧ CS.cat_code v = String c1 ""
          ∧ CS.level v = 1%nat)
  ∧ (c2 ≠ "."%char → c2 ≠ " "%char →
     parse_cat_file_line line = CatError cat_format_error)
  ∧ parse_cat_file_line (ln "12 Foo") = CatError cat_format_error.
Proof.
  intros Hc1 line.
  assert (Hpre : ∀ r, spaces n +:+ String c1 r = (spaces n +:+ String c1 "") +:+ r).
  { intros r. now rewrite append_assoc. }
  splits.
  - eexists. split; [apply cat_loop_first_digit; exact Hc1 | reflexivity].
  - intros ->. eexists. rewrite Hpre, cat_loop_app, cat_loop_first_digit by exact Hc1.
    simpl. split; [reflexivity | split; reflexivity].
  - intros ->. eexists. rewrite Hpre, cat_loop_app, cat_loop_first_digit by exact Hc1.
    rewrite length_append, length_spaces. simpl. unfold cat_step. simpl.
    split; [reflexivity |]. splits; try reflexivity.
    unfold line. rewrite Hpre. rewrite <- (length_spaces n) at 2 3.
    replace (String.length (spaces n) + 1)%nat
      with (String.length (spaces n) + String.length (String c1 ""))%nat by reflexivity.
    rewrite append_assoc. apply slice_mid.
  - intros Hdot Hsp. unfold parse_cat_file_line, line.
    rewrite Hpre at 2. rewrite cat_loop_app, cat_loop_first_digit by exact Hc1.
    simpl. unfold cat_step. simpl.
    apply Ascii.eqb_neq in Hdot, Hsp. now rewrite Hdot, Hsp.
  - vm_compute. reflexivity.
Qed.

Lemma level1_next_character_witness :
  parse_cat_file_line (spaces 2 +:+ String "3" (String "7" " Misc"))
  = CatError cat_format_error.
Proof.
  refine (proj1 (proj2 (proj2 (proj2
            (level1_next_character 2 "3" "7" " Misc" eq_refl)))) _ _); discriminate.
Defined.

(** ** The journal parser: dates *)

Lemma journal_loop_app (line : string) (y : Z) (a b : string) :
  ∀ (idx : nat) (v : TJ.vars),
  journal_loop line y idx (a +:+ b) v =
  match journal_loop line y idx a v with
  | inl v' => journal_loop line y (idx + String.length a) b v'
  | inr r => inr r
  end.
Proof.
  induction a as [|c a IH]; intros idx v.
  - rewrite append_nil_l. simpl. now rewrite Nat.add_0_r.
  - rewrite append_cons. simpl. destruct (journal_step line y idx c v); [| reflexivity].
    rewrite IH.
    now replace (S idx + String.length a)%nat with (idx + S (String.length a))%nat by lia.
Qed.

Lemma journal_loop_spaces (line : string) (y : Z) (n idx : nat) (v : TJ.vars) :
  TJ.parse_state v = TJ.START ∨ TJ.parse_state v = TJ.START_DESCR
  ∨ TJ.parse_state v = TJ.START_AMT ∨ TJ.parse_state v = TJ.START_TYPE
  ∨ TJ.parse_state v = TJ.START_CAT →
  journal_loop line y idx (spaces n) v = inl v.
Proof.
  intros Hst. revert idx. induction n as [|n IH]; intros idx; simpl; [reflexivity |].
  unfold journal_step.
  destruct Hst as [H | [H | [H | [H | H]]]]; rewrite H; simpl; apply IH.
Qed.

Lemma isdigit_int_of_char (c : ascii) :
  isdigit c = true → (0 ≤ int_of_char c ≤ 9)%Z.
Proof. ascii_cases c; lia. Qed.

Lemma Zrange_forallb (f : Z → bool) (n : Z) :
  forallb f (map Z.of_nat (seq 0 (Z.to_nat n))) = true →
  ∀ z, (0 ≤ z < n)%Z → f z = true.
Proof.
  intros H z Hz. rewrite forallb_forall in H. apply H.
  apply in_map_iff. exists (Z.to_nat z). split; [lia |].
  apply in_seq. lia.
Qed.

Lemma format_0d_two (n : Z) : (0 ≤ n < 100)%Z → format_0d 2 n = two_digits n.
Proof.
  intros H.
  apply String.eqb_eq.
  apply (Zrange_forallb (fun n => String.eqb (format_0d 2 n) (two_digits n)) 100);
    [vm_compute; reflexivity | lia].
Qed.

Lemma format_0d_four (n : Z) : (0 ≤ n < 10000)%Z → format_0d 4 n = four_digits n.
Proof.
  intros H.
  apply String.eqb_eq.
  apply (Zrange_forallb (fun n => String.eqb (format_0d 4 n) (four_digits n)) 10000);
    [vm_compute; reflexivity | lia].
Qed.

Lemma days_in_month_bounds (m : Z) : (0 ≤ days_in_month m ≤ 31)%Z.
Proof.
  unfold days_in_month.
  destruct m as [|p|p]; try lia.
  do 4 (destruct p; try lia).
Qed.

Lemma expand_date_canonical (m d y : Z) :
  (1 ≤ m ≤ 12)%Z → (1 ≤ d ≤ days_in_month m)%Z → (0 ≤ y ≤ 9999)%Z →
  expand_date m d y = canonical_date m d y.
Proof.
  intros Hm Hd Hy. pose proof (days_in_month_bounds m).
  unfold expand_date, canonical_date.
  rewrite !format_0d_two, format_0d_four by lia. reflexivity.
Qed.

Lemma MAX_DATE_days_in_month (m : Z) :
  (1 ≤ m ≤ 12)%Z → nth (Z.to_nat m) MAX_DATE 0%Z = days_in_month m.
Proof.
  intros H.
  assert (E : (m = 1 ∨ m = 2 ∨ m = 3 ∨ m = 4 ∨ m = 5 ∨ m = 6 ∨ m = 7 ∨ m = 8
              ∨ m = 9 ∨ m = 10 ∨ m = 11 ∨ m = 12)%Z) by lia.
  intuition (subst m; reflexivity).
Qed.

Lemma isleap_leap_year (y : Z) : isleap y = true ↔ leap_year y.
Proof.
  unfold isleap, leap_year.
  rewrite andb_true_iff, orb_true_iff, negb_true_iff, !Z.eqb_eq, Z.eqb_neq.
  rewrite <- !Z.mod_divide by lia.
  split.
  - intros [H4 [H | H]]; split; auto. intros; contradiction.
  - intros [H4 H]. split; [exact H4 |].
    destruct (Z.eq_dec (y mod 100)%Z 0%Z); [right; auto | left; auto].
Qed.

Arguments isdigit : simpl never.
Arguments int_of_char : simpl never.
Arguments expand_date : simpl never.
Arguments isleap : simpl never.
Arguments MAX_DATE : simpl never.
Arguments nth : simpl never.
Arguments Z.mul : simpl never.
Arguments Z.add : simpl never.
Arguments Z.leb : simpl never.
Arguments Z.eqb : simpl never.

Lemma month_part (line : string) (y : Z) (idx : nat) (ms : string) :
  all_chars isdigit ms = true → (1 ≤ String.length ms ≤ 2)%nat →
  journal_loop line y idx (ms +:+ "/") TJ.init
  = if ((1 <=? decimal ms)%Z && (decimal ms <=? 12)%Z)
    then inl (after_month (decimal ms))
    else inr (JError month_error).
Proof.
  intros Hd Hlen.
  destruct ms as [|a [|b [|c ms]]]; simpl in Hlen; try lia; simpl in Hd.
  - rewrite andb_true_r in Hd.
    rewrite append_cons, append_nil_l. simpl. unfold journal_step. simpl.
    rewrite (isdigit_not_space a Hd), (isdigit_not_hash_newline a Hd), Hd. simpl.
    unfold decimal. simpl. replace (0 * 10 + int_of_char a)%Z with (int_of_char a) by lia.
    destruct ((1 <=? int_of_char a)%Z && (int_of_char a <=? 12)%Z); reflexivity.
  - rewrite andb_true_r in Hd. apply andb_prop in Hd as [Ha Hb].
    rewrite !append_cons, append_nil_l. simpl. unfold journal_step. simpl.
    rewrite (isdigit_not_space a Ha), (isdigit_not_hash_newline a Ha), Ha, Hb. simpl.
    unfold decimal. simpl.
    replace ((0 * 10 + int_of_char a) * 10 + int_of_char b)%Z
      with (int_of_char a * 10 + int_of_char b)%Z by lia.
    destruct ((1 <=? int_of_char a * 10 + int_of_char b)%Z
              && (int_of_char a * 10 + int_of_char b <=? 12)%Z); reflexivity.
Qed.

Lemma date_part (line : string) (y m : Z) (idx : nat) (ds : string) :
  all_chars isdigit ds = true → (String.length ds ≤ 2)%nat →
  journal_loop line y idx (ds +:+ ",") (after_month m)
  = if ((1 <=? decimal ds)%Z && (decimal ds <=? nth (Z.to_nat m) MAX_DATE 0)%Z)
    then
      if ((m =? 2)%Z && (decimal ds =? 29)%Z) && negb (isleap y)
      then inr (JError leap_error)
      else inl (after_date y m (decimal ds) (String.length ds))
    else inr (JError date_error).
Proof.
  intros Hd Hlen.
  destruct ds as [|a [|b [|c ds]]]; simpl in Hlen; try lia; simpl in Hd.
  - rewrite append_nil_l. simpl. unfold journal_step. simpl. reflexivity.
  - rewrite andb_true_r in Hd.
    rewrite append_cons, append_nil_l. simpl. unfold journal_step. simpl.
    rewrite Hd. simpl.
    unfold decimal. simpl. replace (0 * 10 + int_of_char a)%Z with (int_of_char a) by lia.
    destruct ((1 <=? int_of_char a)%Z
              && (int_of_char a <=? nth (Z.to_nat m) MAX_DATE 0)%Z); [| reflexivity].
    destruct ((m =? 2)%Z && (int_of_char a =? 29)%Z && negb (isleap y)); reflexivity.
  - rewrite andb_true_r in Hd. apply andb_prop in Hd as [Ha Hb].
    rewrite !append_cons, append_nil_l. simpl. unfold journal_step. simpl.
    rewrite Ha, Hb. simpl.
    unfold decimal. simpl.
    replace ((0 * 10 + int_of_char a) * 10 + int_of_char b)%Z
      with (int_of_char a * 10 + int_of_char b)%Z by lia.
    destruct ((1 <=? int_of_char a * 10 + int_of_char b)%Z
              && (int_of_char a * 10 + int_of_char b
                  <=? nth (Z.to_nat m) MAX_DATE 0)%Z); [| reflexivity].
    destruct ((m =? 2)%Z && (int_of_char a * 10 + int_of_char b =? 29)%Z
              && negb (isleap y)); reflexivity.
Qed.

(** The date field as a whole, from the start of the line. *)
Lemma date_field (line : string) (y : Z) (n : nat) (ms ds : string) :
  all_chars isdigit ms = true → (1 ≤ String.length ms ≤ 2)%nat →
  all_chars isdigit ds = true → (String.length ds ≤ 2)%nat →
  journal_loop line y 0 (spaces n +:+ ms +:+ "/" +:+ ds +:+ ",") TJ.init
  = if ((1 <=? decimal ms)%Z && (decimal ms <=? 12)%Z)
    then
      if ((1 <=? decimal ds)%Z
          && (decimal ds <=? nth (Z.to_nat (decimal ms)) MAX_DATE 0)%Z)
      then
        if ((decimal ms =? 2)%Z && (decimal ds =? 29)%Z) && negb (isleap y)
        then inr (JError leap_error)
        else inl (after_date y (decimal ms) (decimal ds) (String.length ds))
      else inr (JError date_error)
    else inr (JError month_error).
Proof.
  intros Hm Hml Hd Hdl.
  rewrite journal_loop_app, journal_loop_spaces by (left; reflexivity).
  rewrite <- append_assoc, journal_loop_app, month_part by assumption.
  destruct ((1 <=? decimal ms)%Z && (decimal ms <=? 12)%Z); [| reflexivity].
  now apply date_part.
Qed.

Lemma journal_step_past_date (line : string) (y : Z) (idx : nat) (c : ascii)
    (v : TJ.vars) :
  past_date (TJ.parse_state v) →
  match journal_step line y idx c v with
  | inl v' => past_date (TJ.parse_state v') ∧ TJ.jdate v' = TJ.jdate v
  | inr (JLine jd _ _ _ _) => jd = TJ.jdate v
  | inr _ => True
  end.
Proof.
  intros (H1 & H2 & H3). unfold journal_step.
  destruct (TJ.parse_state v) eqn:E; try congruence;
    repeat match goal with
           | |- context [if ?b then _ else _] => destruct b; simpl
           end;
    try exact I; try reflexivity;
    try (split; [| reflexivity]);
    try (rewrite ?E; unfold past_date; splits; discriminate).
Qed.

Lemma journal_loop_past_date (line : string) (y : Z) :
  ∀ (rest : string) (idx : nat) (v : TJ.vars),
  past_date (TJ.parse_state v) →
  ∀ jd de a t c, journal_loop line y idx rest v = inr (JLine jd de a t c) →
  jd = TJ.jdate v.
Proof.
  induction rest as [|x rest IH]; intros idx v Hp jd de a t c H; simpl in H.
  - discriminate.
  - pose proof (journal_step_past_date line y idx x v Hp) as Hs.
    destruct (journal_step line y idx x v) as [v'|r].
    + destruct Hs as [Hp' <-]. eapply IH; eauto.
    + inversion H; subst r. exact Hs.
Qed.

Lemma valid_date_dec (y m d : Z) :
  valid_date y m d ↔
  ((1 <=? m)%Z && (m <=? 12)%Z) = true
  ∧ ((1 <=? d)%Z && (d <=? nth (Z.to_nat m) MAX_DATE 0)%Z) = true
  ∧ (((m =? 2)%Z && (d =? 29)%Z) && negb (isleap y)) = false.
Proof.
  unfold valid_date. split.
  - intros (Hm & Hd & Hl). rewrite MAX_DATE_days_in_month by exact Hm.
    splits; try (apply andb_true_iff; split; apply Z.leb_le; lia).
    destruct (m =? 2)%Z eqn:E1; [| reflexivity].
    destruct (d =? 29)%Z eqn:E2; [| reflexivity].
    apply Z.eqb_eq in E1, E2. simpl. apply negb_false_iff.
    apply isleap_leap_year. auto.
  - intros (Hm & Hd & Hl).
    apply andb_true_iff in Hm as [Hm1 Hm2]. apply Z.leb_le in Hm1, Hm2.
    rewrite MAX_DATE_days_in_month in Hd by lia.
    apply andb_true_iff in Hd as [Hd1 Hd2]. apply Z.leb_le in Hd1, Hd2.
    splits; try lia. intros -> ->. simpl in Hl.
    apply negb_false_iff in Hl. now apply isleap_leap_year.
Qed.

(** C5. The date field of a transaction line, one or two month digits, '/',
    up to two day digits and the comma, is accepted iff the month is 1 to 12
    and the day is 1 to the number of days of the month (February with 29),
    the 29th of February only in a leap year; the date is then expanded to
    MM/DD/YYYY with two-digit month and day and the four-digit year, and
    otherwise an error is reported. *)
Theorem date_field_accepted_iff_valid (line : string) (y : Z) (n : nat)
    (ms ds : string) :
  all_chars isdigit ms = true → (1 ≤ String.length ms ≤ 2)%nat →
  all_chars isdigit ds = true → (String.length ds ≤ 2)%nat →
  (0 ≤ y ≤ 9999)%Z →
  let m := decimal ms in
  let d := decimal ds in
  let field := spaces n +:+ ms +:+ "/" +:+ ds +:+ "," in
  ((∃ v, journal_loop line y 0 field TJ.init = inl v) ↔ valid_date y m d)
  ∧ (valid_date y m d →
     ∃ v, journal_loop line y 0 field TJ.init = inl v
          ∧ TJ.parse_state v = TJ.START_DESCR
          ∧ TJ.jdate v = canonical_date m d y)
  ∧ (¬ valid_date y m d →
     ∃ msg, journal_loop line y 0 field TJ.init = inr (JError msg))
  ∧ (∀ rest jd de a t c,
       parse_journal_file_line (field +:+ rest) y = JLine jd de a t c →
       valid_date y m d ∧ jd = canonical_date m d y).
Proof.
  intros Hm Hml Hd Hdl Hy m d field.
  pose proof (date_field line y n ms ds Hm Hml Hd Hdl) as Hrun.
  pose proof (valid_date_dec y m d) as Hdec.
  fold m d field in Hrun.
  assert (Hok : valid_date y m d →
                journal_loop line y 0 field TJ.init
                = inl (after_date y m d (String.length ds))).
  { intros Hv. apply Hdec in Hv as (E1 & E2 & E3). now rewrite Hrun, E1, E2, E3. }
  assert (Hbad : ¬ valid_date y m d →
                 ∃ msg, journal_loop line y 0 field TJ.init = inr (JError msg)).
  { intros Hv. rewrite Hrun.
    destruct ((1 <=? m)%Z && (m <=? 12)%Z) eqn:E1; [| eauto].
    destruct ((1 <=? d)%Z && (d <=? nth (Z.to_nat m) MAX_DATE 0)%Z) eqn:E2; [| eauto].
    destruct (((m =? 2)%Z && (d =? 29)%Z) && negb (isleap y)) eqn:E3; [eauto |].
    exfalso. apply Hv, Hdec. auto. }
  assert (Hiff : (∃ v, journal_loop line y 0 field TJ.init = inl v) → valid_date y m d).
  { intros [v Hv]. apply Hdec. rewrite Hrun in Hv.
    destruct ((1 <=? m)%Z && (m <=? 12)%Z); [| discriminate].
    destruct ((1 <=? d)%Z && (d <=? nth (Z.to_nat m) MAX_DATE 0)%Z); [| discriminate].
    destruct (((m =? 2)%Z && (d =? 29)%Z) && negb (isleap y)); [discriminate |].
    auto. }
  splits.
  - split; [exact Hiff | intros Hv; eexists; apply (Hok Hv)].
  - intros Hv. eexists. split; [apply (Hok Hv) |]. split; [reflexivity |].
    simpl. destruct Hv as (H1 & H2 & _). now apply expand_date_canonical.
  - exact Hbad.
  - intros rest jd de a t c Hp. unfold parse_journal_file_line in Hp.
    rewrite journal_loop_app in Hp.
    pose proof (date_field (field +:+ rest) y n ms ds Hm Hml Hd Hdl) as Hrun'.
    fold m d field in Hrun'. rewrite Hrun' in Hp.
    destruct ((1 <=? m)%Z && (m <=? 12)%Z) eqn:E1; [| discriminate].
    destruct ((1 <=? d)%Z && (d <=? nth (Z.to_nat m) MAX_DATE 0)%Z) eqn:E2;
      [| discriminate].
    destruct (((m =? 2)%Z && (d =? 29)%Z) && negb (isleap y)) eqn:E3; [discriminate |].
    assert (Hv : valid_date y m d) by (apply Hdec; auto).
    split; [exact Hv |].
    destruct (journal_loop (field +:+ rest) y (0 + String.length field) rest
                (after_date y m d (String.length ds))) as [v|r] eqn:E'.
    + unfold journal_after_loop in Hp. destruct (TJ.parse_state v); discriminate.
    + subst r. apply journal_loop_past_date in E'.
      * rewrite E'. simpl. destruct Hv as (H1 & H2 & _).
        now apply expand_date_canonical.
      * simpl. unfold past_date. splits; discriminate.
Qed.

Lemma date_field_accepted_iff_valid_witness :
  ∃ v, journal_loop "3/9, Paycheck, 1000.00, dep, 1.1" 2015 0
         (spaces 0 +:+ "3" +:+ "/" +:+ "9" +:+ ",") TJ.init = inl v
       ∧ TJ.parse_state v = TJ.START_DESCR
       ∧ TJ.jdate v = "03/09/2015".
Proof.
  refine (proj1 (proj2 (date_field_accepted_iff_valid
           "3/9, Paycheck, 1000.00, dep, 1.1" 2015 0 "3" "9"
           eq_refl _ eq_refl _ _)) _).
  - simpl; lia.
  - simpl; lia.
  - lia.
  - unfold valid_date. vm_compute. splits; try discriminate.
Defined.

Arguments isdigit : simpl never.
Arguments in_str : simpl never.

(** ** The journal parser: amounts *)

Lemma isdigit_not_comma (c : ascii) : isdigit c = true → Ascii.eqb c "," = false.
Proof. ascii_cases c. Qed.

Lemma isdigit_not_minus (c : ascii) : isdigit c = true → Ascii.eqb c "-" = false.
Proof. ascii_cases c. Qed.

Lemma float_of_first_digit (c : ascii) :
  isdigit c = true → (0 * 10 + float_of_char c)%float = float_of_char c.
Proof.
  destruct c as [[] [] [] [] [] [] [] []]; vm_compute; intros H;
    try discriminate; reflexivity.
Qed.

Lemma cents_part (line : string) (y : Z) : ∀ (s : string) (idx : nat) (v : TJ.vars),
  TJ.parse_state v = TJ.CENTS → no_comma s = true →
  journal_loop line y idx (s +:+ ",") v
  = match cents_run (TJ.cents v) (TJ.digit_ctr v) s with
    | Some (cents, ctr) =>
        if (ctr =? 2)%nat then inl (after_amount v cents)
        else inr (JError amount_error)
    | None => inr (JError amount_error)
    end.
Proof.
  induction s as [|c s IH]; intros idx v Hst Hnc.
  - rewrite append_nil_l. simpl. unfold journal_step. rewrite Hst. simpl.
    destruct (TJ.digit_ctr v =? 2)%nat eqn:E; [| reflexivity].
    apply Nat.eqb_eq in E. unfold after_amount. rewrite <- E.
    destruct v; reflexivity.
  - rewrite append_cons. simpl in Hnc. apply andb_prop in Hnc as [Hc Hnc].
    apply negb_true_iff in Hc. simpl. unfold journal_step at 1. rewrite Hst.
    destruct (isdigit c) eqn:Ec.
    + rewrite IH by (auto; simpl; exact Hst). simpl.
      destruct (cents_run _ _ s) as [[cents ctr]|]; reflexivity.
    + rewrite Hc. reflexivity.
Qed.

Lemma dollars_part (line : string) (y : Z) : ∀ (s : string) (idx : nat) (v : TJ.vars),
  TJ.parse_state v = TJ.DOLLARS → no_comma s = true →
  journal_loop line y idx (s +:+ ",") v
  = match dollars_run (TJ.dollars v) (TJ.digit_ctr v) s with
    | Some (dollars, s') =>
        match cents_run 0%float 0 s' with
        | Some (cents, ctr) =>
            if (ctr =? 2)%nat then inl (after_amount (TJ.set_dollars dollars v) cents)
            else inr (JError amount_error)
        | None => inr (JError amount_error)
        end
    | None => inr (JError amount_error)
    end.
Proof.
  induction s as [|c s IH]; intros idx v Hst Hnc.
  - rewrite append_nil_l. simpl. unfold journal_step. rewrite Hst. reflexivity.
  - rewrite append_cons. simpl in Hnc. apply andb_prop in Hnc as [Hc Hnc].
    apply negb_true_iff in Hc. simpl. unfold journal_step at 1. rewrite Hst.
    destruct (isdigit c) eqn:Ec.
    + rewrite IH by (auto; simpl; exact Hst). simpl.
      destruct (dollars_run _ _ s) as [[dollars s']|]; [| reflexivity].
      destruct (cents_run _ _ s') as [[cents ctr]|]; reflexivity.
    + destruct (Ascii.eqb c "." && negb (TJ.digit_ctr v =? 0)%nat) eqn:E.
      * rewrite cents_part by (auto; simpl; exact Hst). simpl.
        destruct (cents_run _ _ s) as [[cents ctr]|]; [| reflexivity].
        destruct (ctr =? 2)%nat; [| reflexivity].
        unfold after_amount. destruct v; reflexivity.
      * reflexivity.
Qed.

Lemma amount_field (line : string) (y : Z) (idx n : nat) (w : string) (v0 : TJ.vars) :
  TJ.parse_state v0 = TJ.START_AMT → no_comma w = true → starts_field w = true →
  journal_loop line y idx (spaces n +:+ w +:+ ",") v0
  = match amount_parse w with
    | Some (neg, dollars, cents) => inl (after_amount_field v0 neg dollars cents)
    | None => inr (JError amount_error)
    end.
Proof.
  intros Hst Hnc Hsf.
  rewrite journal_loop_app, journal_loop_spaces by tauto.
  unfold amount_parse. destruct w as [|c s].
  - rewrite append_nil_l. simpl. unfold journal_step. rewrite Hst. reflexivity.
  - rewrite append_cons. simpl in Hnc. apply andb_prop in Hnc as [Hc Hnc].
    simpl in Hsf. unfold not_space in Hsf. apply negb_true_iff in Hsf.
    simpl. unfold journal_step at 1. rewrite Hst, Hsf.
    destruct (Ascii.eqb c "-") eqn:E1.
    + rewrite dollars_part by (auto; reflexivity). simpl.
      destruct (dollars_run _ _ s) as [[dollars s']|]; [| reflexivity].
      destruct (cents_run _ _ s') as [[cents ctr]|]; [| reflexivity].
      destruct (ctr =? 2)%nat; [| reflexivity].
      unfold after_amount, after_amount_field. destruct v0; reflexivity.
    + destruct (isdigit c) eqn:E2; [| reflexivity].
      rewrite dollars_part by (auto; reflexivity). simpl.
      destruct (dollars_run _ _ s) as [[dollars s']|]; [| reflexivity].
      destruct (cents_run _ _ s') as [[cents ctr]|]; [| reflexivity].
      destruct (ctr =? 2)%nat; [| reflexivity].
      unfold after_amount, after_amount_field. destruct v0; reflexivity.
Qed.

Lemma cents_run_spec (s : string) : ∀ (c : float) (k : nat) (c' : float) (k' : nat),
  cents_run c k s = Some (c', k') ↔
  all_chars isdigit s = true ∧ c' = float_of_digits_from c s
  ∧ k' = (k + String.length s)%nat.
Proof.
  induction s as [|x s IH]; intros c k c' k'; simpl.
  - split.
    + intros H. inversion H. splits; auto.
    + intros (_ & -> & ->). now rewrite Nat.add_0_r.
  - destruct (isdigit x); simpl.
    + rewrite IH. replace (k + 1 + String.length s)%nat
        with (k + S (String.length s))%nat by lia. tauto.
    + split; [discriminate | intros (H & _); discriminate].
Qed.

Lemma dollars_run_spec (s : string) : ∀ (d : float) (k : nat) (d' : float) (s' : string),
  dollars_run d k s = Some (d', s') ↔
  ∃ ds, s = ds +:+ String "." s' ∧ all_chars isdigit ds = true
        ∧ d' = float_of_digits_from d ds ∧ (k + String.length ds)%nat ≠ 0%nat.
Proof.
  induction s as [|x s IH]; intros d k d' s'; simpl.
  - split; [discriminate |]. intros (ds & H & _). destruct ds; discriminate.
  - destruct (isdigit x) eqn:Ex.
    + rewrite IH. split.
      * intros (ds & -> & Hd & -> & Hk). exists (String x ds). simpl.
        rewrite Ex. splits; auto. lia.
      * intros (ds & H & Hd & -> & Hk). destruct ds as [|a ds].
        -- rewrite append_nil_l in H. inversion H; subst x. discriminate.
        -- rewrite append_cons in H. inversion H; subst a s.
           simpl in Hd. apply andb_prop in Hd as [_ Hd].
           exists ds. splits; auto. simpl in Hk. lia.
    + destruct (Ascii.eqb x ".") eqn:E1; simpl.
      * apply Ascii.eqb_eq in E1. subst x.
        destruct (k =? 0)%nat eqn:E2; simpl.
        -- apply Nat.eqb_eq in E2. subst k. split; [discriminate |].
           intros (ds & H & Hd & _ & Hk). destruct ds as [|a ds].
           ++ simpl in Hk. lia.
           ++ rewrite append_cons in H. inversion H; subst a.
              simpl in Hd; rewrite ?Ex in Hd; discriminate.
        -- apply Nat.eqb_neq in E2. split.
           ++ intros H. inversion H; subst. exists "". splits; auto. simpl. lia.
           ++ intros (ds & H & Hd & -> & Hk). destruct ds as [|a ds].
              ** rewrite append_nil_l in H. inversion H. reflexivity.
              ** rewrite append_cons in H. inversion H; subst a.
                 simpl in Hd; rewrite ?Ex in Hd; discriminate.
      * split; [discriminate |]. intros (ds & H & Hd & _). destruct ds as [|a ds].
        -- rewrite append_nil_l in H. inversion H; subst x. discriminate.
        -- rewrite append_cons in H. inversion H; subst a.
           simpl in Hd; rewrite ?Ex in Hd; discriminate.
Qed.

Lemma amount_parse_complete (neg : bool) (ds : string) (c1 c2 : ascii) :
  ds ≠ "" → all_chars isdigit ds = true → isdigit c1 = true → isdigit c2 = true →
  amount_parse (amount_text neg ds c1 c2)
  = Some (neg, float_of_digits ds, float_of_digits (String c1 (String c2 ""))).
Proof.
  intros Hne Hd H1 H2.
  assert (Hc : cents_run 0 0 (String c1 (String c2 ""))
               = Some (float_of_digits (String c1 (String c2 "")), 2%nat)).
  { apply cents_run_spec. simpl. rewrite H1, H2. auto. }
  unfold amount_parse, amount_text. destruct neg.
  - rewrite append_cons, append_nil_l. simpl.
    assert (Hr : dollars_run 0 0 (ds +:+ "." +:+ String c1 (String c2 ""))
                 = Some (float_of_digits ds, String c1 (String c2 ""))).
    { apply dollars_run_spec. exists ds. splits; auto.
      destruct ds; [congruence | simpl; lia]. }
    rewrite Hr, Hc. reflexivity.
  - rewrite append_nil_l. destruct ds as [|a ds]; [congruence |].
    rewrite append_cons. simpl in Hd. apply andb_prop in Hd as [Ha Hd].
    rewrite (isdigit_not_minus a Ha), Ha.
    assert (Hr : dollars_run (float_of_char a) 1 (ds +:+ "." +:+ String c1 (String c2 ""))
                 = Some (float_of_digits (String a ds), String c1 (String c2 ""))).
    { apply dollars_run_spec. exists ds. splits; auto; try lia.
      unfold float_of_digits. simpl. now rewrite float_of_first_digit. }
    rewrite Hr, Hc. reflexivity.
Qed.

Lemma amount_parse_sound (w : string) (neg : bool) (d c : float) :
  amount_parse w = Some (neg, d, c) →
  ∃ ds c1 c2, w = amount_text neg ds c1 c2 ∧ ds ≠ "" ∧ all_chars isdigit ds = true
              ∧ isdigit c1 = true ∧ isdigit c2 = true
              ∧ d = float_of_digits ds
              ∧ c = float_of_digits (String c1 (String c2 "")).
Proof.
  unfold amount_parse. destruct w as [|x s]; [discriminate |].
  assert (Hcents : ∀ s' cents ctr, cents_run 0 0 s' = Some (cents, ctr) →
                   (ctr =? 2)%nat = true →
                   ∃ c1 c2, s' = String c1 (String c2 "") ∧ isdigit c1 = true
                            ∧ isdigit c2 = true
                            ∧ cents = float_of_digits (String c1 (String c2 ""))).
  { intros s' cents ctr H E. apply cents_run_spec in H as (Hd & -> & ->).
    apply Nat.eqb_eq in E. destruct s' as [|c1 [|c2 [|c3 s']]]; simpl in E; try lia.
    simpl in Hd. rewrite andb_true_r in Hd. apply andb_prop in Hd as [H1 H2].
    exists c1, c2. auto. }
  destruct (Ascii.eqb x "-") eqn:E1.
  - apply Ascii.eqb_eq in E1. subst x.
    destruct (dollars_run 0 0 s) as [[dollars s']|] eqn:Hr; [| discriminate].
    destruct (cents_run 0 0 s') as [[cents ctr]|] eqn:Hc; [| discriminate].
    destruct (ctr =? 2)%nat eqn:E; [| discriminate].
    intros H. inversion H; subst neg d c.
    apply dollars_run_spec in Hr as (ds & -> & Hd & -> & Hk).
    destruct (Hcents _ _ _ Hc E) as (c1 & c2 & -> & H1 & H2 & ->).
    exists ds, c1, c2. splits; auto.
    destruct ds; [simpl in Hk; lia | discriminate].
  - destruct (isdigit x) eqn:E2; [| discriminate].
    destruct (dollars_run (float_of_char x) 1 s) as [[dollars s']|] eqn:Hr; [| discriminate].
    destruct (cents_run 0 0 s') as [[cents ctr]|] eqn:Hc; [| discriminate].
    destruct (ctr =? 2)%nat eqn:E; [| discriminate].
    intros H. inversion H; subst neg d c.
    apply dollars_run_spec in Hr as (ds & -> & Hd & -> & Hk).
    destruct (Hcents _ _ _ Hc E) as (c1 & c2 & -> & H1 & H2 & ->).
    exists (String x ds), c1, c2. splits; auto.
    + simpl. now rewrite E2, Hd.
    + unfold float_of_digits. simpl. now rewrite float_of_first_digit.
Qed.

(** [START_AMT] is entered with [sign_flag] false. *)
Lemma journal_step_sign_flag (line : string) (y : Z) (idx : nat) (c : ascii)
    (v v' : TJ.vars) :
  (TJ.parse_state v = TJ.START_AMT → TJ.sign_flag v = false) →
  journal_step line y idx c v = inl v' →
  TJ.parse_state v' = TJ.START_AMT → TJ.sign_flag v' = false.
Proof.
  intros Hv. unfold journal_step.
  destruct (TJ.parse_state v) eqn:E;
    repeat match goal with
           | |- context [if ?b then _ else _] => destruct b; simpl
           end;
    intros H; inversion H; subst v'; simpl; try congruence; auto.
Qed.

Lemma journal_loop_sign_flag (line : string) (y : Z) :
  ∀ (pre : string) (idx : nat) (v v' : TJ.vars),
  (TJ.parse_state v = TJ.START_AMT → TJ.sign_flag v = false) →
  journal_loop line y idx pre v = inl v' →
  TJ.parse_state v' = TJ.START_AMT → TJ.sign_flag v' = false.
Proof.
  induction pre as [|c pre IH]; intros idx v v' Hv H; simpl in H.
  - inversion H; subst v'. exact Hv.
  - destruct (journal_step line y idx c v) as [v1|r] eqn:E; [| discriminate].
    eapply IH; [| exact H]. eapply journal_step_sign_flag; eauto.
Qed.

Lemma journal_step_past_amount (line : string) (y : Z) (idx : nat) (c : ascii)
    (v : TJ.vars) :
  past_amount (TJ.parse_state v) →
  match journal_step line y idx c v with
  | inl v' => past_amount (TJ.parse_state v') ∧ TJ.jamt v' = TJ.jamt v
  | inr (JLine _ _ a _ _) => a = TJ.jamt v
  | inr _ => True
  end.
Proof.
  unfold past_amount, journal_step.
  intros [H | [H | [H | H]]]; rewrite H;
    repeat match goal with
           | |- context [if ?b then _ else _] => destruct b; simpl
           end;
    try exact I; try reflexivity; try (split; [| reflexivity]); tauto.
Qed.

Lemma journal_loop_past_amount (line : string) (y : Z) :
  ∀ (rest : string) (idx : nat) (v : TJ.vars),
  past_amount (TJ.parse_state v) →
  ∀ jd de a t c, journal_loop line y idx rest v = inr (JLine jd de a t c) →
  a = TJ.jamt v.
Proof.
  induction rest as [|x rest IH]; intros idx v Hp jd de a t c H; simpl in H.
  - discriminate.
  - pose proof (journal_step_past_amount line y idx x v Hp) as Hs.
    destruct (journal_step line y idx x v) as [v'|r].
    + destruct Hs as [Hp' <-]. eapply IH; eauto.
    + inversion H; subst r. exact Hs.
Qed.

(** A line that is accepted past an amount field: the field is an amount and
    the line returns its value. *)
Lemma accepted_amount (line : string) (y : Z) (pre : string) (v0 : TJ.vars)
    (n : nat) (w rest : string) (jd de : string) (a : float) (t c : string) :
  journal_loop line y 0 pre TJ.init = inl v0 →
  TJ.parse_state v0 = TJ.START_AMT →
  no_comma w = true → starts_field w = true →
  journal_loop line y (String.length pre) ((spaces n +:+ w +:+ ",") +:+ rest) v0
  = inr (JLine jd de a t c) →
  ∃ neg ds c1 c2,
    w = amount_text neg ds c1 c2 ∧ ds ≠ "" ∧ all_chars isdigit ds = true
    ∧ isdigit c1 = true ∧ isdigit c2 = true
    ∧ a = amount_value neg ds c1 c2.
Proof.
  intros Hpre Hst Hnc Hsf H.
  assert (Hsign : TJ.sign_flag v0 = false).
  { eapply journal_loop_sign_flag; [| exact Hpre | exact Hst]. discriminate. }
  rewrite journal_loop_app, amount_field in H by assumption.
  destruct (amount_parse w) as [[[neg d] cs]|] eqn:E; [| discriminate].
  apply journal_loop_past_amount in H; [| simpl; unfold past_amount; tauto].
  apply amount_parse_sound in E as (ds & c1 & c2 & Hw & Hne & Hd & H1 & H2 & -> & ->).
  exists neg, ds, c1, c2. splits; auto.
  rewrite H. simpl. rewrite Hsign, orb_false_r. reflexivity.
Qed.

(** C6. When the parser waits for the amount after a text [pre] of ASCII
    characters, the amount field (the text [w] of ASCII characters after the
    blanks, up to the comma) is accepted iff it is an optional '-', at least
    one dollar digit, a point and exactly two cents digits; the amount is
    then sign × (dollars + cents/100), computed in floats, and it is the
    amount the line returns; any other field is the error "invalid
    amount". *)
Theorem amount_field_accepted_iff (line : string) (y : Z) (pre : string)
    (v0 : TJ.vars) (n : nat) (w : string) :
  ascii_text pre = true → ascii_text w = true →
  journal_loop line y 0 pre TJ.init = inl v0 →
  TJ.parse_state v0 = TJ.START_AMT →
  no_comma w = true → starts_field w = true →
  let field := spaces n +:+ w +:+ "," in
  ((∃ v, journal_loop line y (String.length pre) field v0 = inl v) ↔ is_amount w)
  ∧ (∀ neg ds c1 c2,
       w = amount_text neg ds c1 c2 → ds ≠ "" → all_chars isdigit ds = true →
       isdigit c1 = true → isdigit c2 = true →
       ∃ v, journal_loop line y (String.length pre) field v0 = inl v
            ∧ TJ.parse_state v = TJ.START_TYPE
            ∧ TJ.jamt v = amount_value neg ds c1 c2)
  ∧ (¬ is_amount w →
     journal_loop line y (String.length pre) field v0 = inr (JError amount_error))
  ∧ (∀ rest jd de a t c,
       journal_loop line y (String.length pre) (field +:+ rest) v0
       = inr (JLine jd de a t c) →
       ∃ neg ds c1 c2,
         w = amount_text neg ds c1 c2 ∧ ds ≠ "" ∧ all_chars isdigit ds = true
         ∧ isdigit c1 = true ∧ isdigit c2 = true
         ∧ a = amount_value neg ds c1 c2).
Proof.
  intros _ _ Hpre Hst Hnc Hsf field.
  assert (Hsign : TJ.sign_flag v0 = false).
  { eapply journal_loop_sign_flag; [| exact Hpre | exact Hst]. discriminate. }
  assert (Hrun : ∀ l idx, journal_loop l y idx field v0
                 = match amount_parse w with
                   | Some (neg, dollars, cents) =>
                       inl (after_amount_field v0 neg dollars cents)
                   | None => inr (JError amount_error)
                   end).
  { intros l idx. now apply amount_field. }
  assert (Hsound : ∀ neg d c, amount_parse w = Some (neg, d, c) → is_amount w).
  { intros neg d c H. apply amount_parse_sound in H as (ds & c1 & c2 & H).
    exists neg, ds, c1, c2. tauto. }
  assert (Hval : ∀ neg ds c1 c2,
            w = amount_text neg ds c1 c2 → ds ≠ "" → all_chars isdigit ds = true →
            isdigit c1 = true → isdigit c2 = true →
            journal_loop line y (String.length pre) field v0
            = inl (after_amount_field v0 neg (float_of_digits ds)
                     (float_of_digits (String c1 (String c2 ""))))).
  { intros neg ds c1 c2 -> Hne Hd H1 H2.
    now rewrite Hrun, amount_parse_complete. }
  splits.
  - split.
    + intros [v Hv]. rewrite Hrun in Hv.
      destruct (amount_parse w) as [[[neg d] c]|] eqn:E; [| discriminate].
      eapply Hsound; eauto.
    + intros (neg & ds & c1 & c2 & Hw & Hne & Hd & H1 & H2).
      eexists. apply (Hval neg ds c1 c2); auto.
  - intros neg ds c1 c2 Hw Hne Hd H1 H2.
    eexists. split; [apply (Hval neg ds c1 c2); auto |].
    split; [reflexivity |]. simpl. rewrite Hsign, orb_false_r. reflexivity.
  - intros Hno. rewrite Hrun.
    destruct (amount_parse w) as [[[neg d] c]|] eqn:E; [| reflexivity].
    exfalso. eapply Hno, Hsound; eauto.
  - intros rest jd de a t c H. eapply accepted_amount; eauto.
Qed.

Lemma amount_field_accepted_iff_witness :
  ∃ v, journal_loop (ln "3/9, Rappahannock Electric (Union chk), 292.03, xfr, 2.2.1")
         2015 (String.length "3/9, Rappahannock Electric (Union chk),")
         (spaces 1 +:+ "292.03" +:+ ",")
         (TJ.mk TJ.START_AMT 3 1 9 "03/09/2015" 5 "Rappahannock Electric (Union chk)"
            false 0 0 0 0 "" 0) = inl v
       ∧ TJ.parse_state v = TJ.START_TYPE
       ∧ TJ.jamt v = amount_value false "292" "0"%char "3"%char.
Proof.
  exact (proj1 (proj2 (amount_field_accepted_iff
           (ln "3/9, Rappahannock Electric (Union chk), 292.03, xfr, 2.2.1") 2015
           "3/9, Rappahannock Electric (Union chk),"
           (TJ.mk TJ.START_AMT 3 1 9 "03/09/2015" 5 "Rappahannock Electric (Union chk)"
              false 0 0 0 0 "" 0)
           1 "292.03" eq_refl eq_refl eq_refl eq_refl eq_refl eq_refl))
         false "292" "0"%char "3"%char eq_refl ltac:(discriminate) eq_refl eq_refl eq_refl).
Defined.

Arguments isdigit : simpl never.
Arguments in_str : simpl never.

(** ** The end of the line *)

Lemma cat_step_control (l1 l2 : string) (i1 i2 : nat) (c : ascii) (v1 v2 : CS.vars) :
  cat_control v1 = cat_control v2 →
  match cat_step l1 i1 c v1, cat_step l2 i2 c v2 with
  | inl a, inl b => cat_control a = cat_control b
  | inr r1, inr r2 => cat_same_kind r1 r2
  | _, _ => False
  end.
Proof.
  unfold cat_control. intros H. inversion H as [[Hs Hl Hd]].
  unfold cat_step. rewrite Hs.
  destruct (CS.parse_state v2) eqn:E2; simpl; rewrite ?Hl, ?Hd;
    repeat match goal with
           | |- context [if ?b then _ else _] => destruct b; simpl
           end;
    rewrite ?Hs, ?Hl, ?Hd;
    try reflexivity; try exact I; try (f_equal; congruence); congruence.
Qed.

Lemma cat_loop_control (l1 l2 : string) :
  ∀ (s : string) (i1 i2 : nat) (v1 v2 : CS.vars),
  cat_control v1 = cat_control v2 →
  match cat_loop l1 i1 s v1, cat_loop l2 i2 s v2 with
  | inl a, inl b => cat_control a = cat_control b
  | inr r1, inr r2 => cat_same_kind r1 r2
  | _, _ => False
  end.
Proof.
  induction s as [|c s IH]; intros i1 i2 v1 v2 H; simpl; [exact H |].
  pose proof (cat_step_control l1 l2 i1 i2 c v1 v2 H) as Hs.
  destruct (cat_step l1 i1 c v1) as [a|r1], (cat_step l2 i2 c v2) as [b|r2];
    try contradiction; [now apply IH | exact Hs].
Qed.

(** A category line is returned at a newline only. *)
Lemma cat_step_line_newline (line : string) (idx : nat) (c : ascii) (v : CS.vars)
    (code d cm : string) (l : nat) :
  cat_step line idx c v = inr (CatLine code d cm l) → c = newline.
Proof.
  unfold cat_step.
  destruct (CS.parse_state v);
    repeat match goal with
           | |- context [if ?b then _ else _] =>
               let E := fresh "E" in destruct b eqn:E; simpl
           end; intros H; try discriminate;
    match goal with E : Ascii.eqb c newline = true |- _ =>
      now apply Ascii.eqb_eq in E end.
Qed.

Lemma cat_loop_line_newline (line : string) :
  ∀ (s : string) (idx : nat) (v : CS.vars) (code d cm : string) (l : nat),
  cat_loop line idx s v = inr (CatLine code d cm l) → in_str newline s = true.
Proof.
  induction s as [|c s IH]; intros idx v code d cm l H; simpl in H; [discriminate |].
  unfold in_str; fold in_str.
  destruct (cat_step line idx c v) as [v'|r] eqn:E.
  - rewrite (IH _ _ _ _ _ _ H). apply orb_true_r.
  - inversion H; subst r. apply cat_step_line_newline in E. subst c.
    reflexivity.
Qed.

(** The journal parser, from [START]. *)
Lemma journal_step_started (line : string) (y : Z) (idx : nat) (c : ascii)
    (v : TJ.vars) :
  TJ.parse_state v ≠ TJ.START →
  ∀ v', journal_step line y idx c v = inl v' → TJ.parse_state v' ≠ TJ.START.
Proof.
  intros Hst. unfold journal_step.
  destruct (TJ.parse_state v) eqn:E; [congruence | ..];
    repeat match goal with
           | |- context [if ?b then _ else _] => destruct b; simpl
           end;
    intros v' H; inversion H; subst v'; simpl; congruence.
Qed.

Lemma journal_loop_started (line : string) (y : Z) :
  ∀ (rest : string) (idx : nat) (v : TJ.vars),
  TJ.parse_state v ≠ TJ.START →
  ∀ v', journal_loop line y idx rest v = inl v' → TJ.parse_state v' ≠ TJ.START.
Proof.
  induction rest as [|c rest IH]; intros idx v Hst v' H; simpl in H.
  - inversion H; now subst v'.
  - destruct (journal_step line y idx c v) as [v1|r] eqn:E; [| discriminate].
    eapply IH; [| exact H]. eapply journal_step_started; eauto.
Qed.

Lemma journal_loop_start (line : string) (y : Z) :
  ∀ (rest : string) (idx : nat) (v : TJ.vars),
  TJ.parse_state v = TJ.START →
  ∀ v', journal_loop line y idx rest v = inl v' → TJ.parse_state v' = TJ.START →
        rest = spaces (String.length rest).
Proof.
  induction rest as [|c rest IH]; intros idx v Hst v' H Hv'; simpl in *.
  - reflexivity.
  - unfold journal_step in H. rewrite Hst in H.
    destruct (Ascii.eqb c " ") eqn:E1.
    + apply Ascii.eqb_eq in E1. subst c. now rewrite <- (IH _ _ Hst _ H Hv').
    + destruct (in_str c hash_or_newline); [discriminate |].
      destruct (isdigit c); [| discriminate].
      apply journal_loop_started in H; [contradiction | simpl; discriminate].
Qed.

Lemma journal_loop_end_cat (line : string) (y : Z) :
  ∀ (s : string) (idx : nat) (v : TJ.vars),
  TJ.parse_state v = TJ.END_CAT →
  all_chars (fun x => isdigit x || Ascii.eqb x ".") s = true →
  journal_loop line y idx s v = inl v.
Proof.
  induction s as [|c s IH]; intros idx v Hst Hs; simpl; [reflexivity |].
  simpl in Hs. apply andb_prop in Hs as [Hc Hs].
  unfold journal_step. rewrite Hst, Hc. now apply IH.
Qed.

(** C7. In both parsers a line of blanks without a newline is a "skip", and
    every other line on which the loop runs out of characters is the format
    error: so is a well-formed category line without its newline, and so is a
    journal line whose category code is cut by the end of the input. *)
Theorem end_of_input_without_newline :
  (∀ n, parse_cat_file_line (spaces n) = CatSkip)
  ∧ (∀ n y, parse_journal_file_line (spaces n) y = JSkip)
  ∧ (∀ line v,
       cat_loop line 0 line CS.init = inl v → line ≠ spaces (String.length line) →
       parse_cat_file_line line = CatError cat_format_error)
  ∧ (∀ line y v,
       journal_loop line y 0 line TJ.init = inl v → line ≠ spaces (String.length line) →
       parse_journal_file_line line y = JError journal_format_error)
  ∧ (∀ line code d cm l,
       parse_cat_file_line (ln line) = CatLine code d cm l →
       in_str newline line = false →
       parse_cat_file_line line = CatError cat_format_error)
  ∧ (∀ y pre v n code,
       journal_loop (pre +:+ spaces n +:+ code) y 0 pre TJ.init = inl v →
       TJ.parse_state v = TJ.START_CAT → code_chars code = true →
       parse_journal_file_line (pre +:+ spaces n +:+ code) y
       = JError journal_format_error)
  ∧ parse_cat_file_line "2.1 Housing" = CatError cat_format_error
  ∧ parse_journal_file_line "3/9, Paycheck, 1000.00, dep, 1.1" 2015
    = JError journal_format_error.
Proof.
  splits.
  - intros n. unfold parse_cat_file_line. now rewrite cat_loop_spaces.
  - intros n y. unfold parse_journal_file_line.
    now rewrite journal_loop_spaces by tauto.
  - intros line v H Hne. unfold parse_cat_file_line. rewrite H.
    destruct (cat_loop_start line line 0 CS.init eq_refl) as [_ H2].
    unfold cat_after_loop. destruct (CS.parse_state v) eqn:E; try reflexivity.
    exfalso. apply Hne. now apply (H2 v).
  - intros line y v H Hne. unfold parse_journal_file_line. rewrite H.
    unfold journal_after_loop. destruct (TJ.parse_state v) eqn:E; try reflexivity.
    exfalso. apply Hne. now apply (journal_loop_start line y line 0 TJ.init eq_refl v).
  - intros line code d cm l H Hnl. unfold parse_cat_file_line in *. unfold ln in H.
    rewrite cat_loop_app in H.
    pose proof (cat_loop_control (line +:+ String newline "") line line 0 0
                  CS.init CS.init eq_refl) as Hc.
    destruct (cat_loop (line +:+ String newline "") 0 line CS.init) as [v1|r1] eqn:E1.
    + destruct (cat_loop line 0 line CS.init) as [v2|r2]; [| contradiction].
      simpl in H.
      destruct (cat_step (line +:+ String newline "") (String.length line)
                  newline v1) as [v3|r3] eqn:E3.
      * unfold cat_after_loop in H. destruct (CS.parse_state v3); discriminate.
      * subst r3. apply cat_step_line in E3 as (_ & _ & Hst).
        unfold cat_control in Hc. inversion Hc as [[Hs Hl Hd]].
        unfold cat_after_loop. rewrite <- Hs.
        destruct Hst as [-> | ->]; reflexivity.
    + subst r1. apply cat_loop_line_newline in E1. congruence.
  - intros y pre v n code H Hst Hcode. unfold parse_journal_file_line.
    rewrite journal_loop_app, H, journal_loop_app, journal_loop_spaces by tauto.
    destruct code as [|c s]; [discriminate |]. simpl in Hcode.
    apply andb_prop in Hcode as [Hc Hs].
    simpl. unfold journal_step at 1. rewrite Hst, (isdigit_not_space c Hc), Hc.
    now rewrite journal_loop_end_cat.
  - vm_compute. reflexivity.
  - vm_compute. reflexivity.
Qed.

Lemma end_of_input_without_newline_witness :
  parse_cat_file_line "2 Expenses # money going out" = CatError cat_format_error.
Proof.
  exact (proj1 (proj2 (proj2 (proj2 (proj2 end_of_input_without_newline))))
           "2 Expenses # money going out" "2" "Expenses" "# money going out" 1%nat
           eq_refl eq_refl).
Defined.

(** ** Steps that end normally *)

Lemma bind_Done {X Y : Type} (m : outcome X) (k : X → outcome Y) (y : Y) :
  (x ← m; k x) = Done y → ∃ x, m = Done x ∧ k x = Done y.
Proof. destruct m as [x| |]; simpl; [eauto | discriminate | discriminate]. Qed.

Lemma index_Done {X : Type} (l : list X) (i : nat) (x : X) :
  index l i = Done x ↔ l !! i = Some x.
Proof.
  unfold index. destruct (l !! i); split; intros H; inversion H; reflexivity.
Qed.

Lemma index_lookup {X : Type} (l : list X) (i : nat) (x : X) :
  l !! i = Some x → index l i = Done x.
Proof. apply index_Done. Qed.

(** A property that every turn of a loop keeps holds after the loop. *)
Lemma for_each_invariant {X S : Type} (I : S → Prop) (body : X → S → outcome S) :
  ∀ (xs : list X) (s s' : S),
  (∀ x s1 s2, In x xs → I s1 → body x s1 = Done s2 → I s2) →
  I s → for_each xs body s = Done s' → I s'.
Proof.
  induction xs as [|x xs IH]; intros s s' Hbody Hs H; simpl in H.
  - inversion H; now subst.
  - apply bind_Done in H as (s1 & H1 & H2).
    apply (IH s1 s'); auto.
    + intros y a b Hy. apply Hbody. now right.
    + apply (Hbody x s s1); auto. now left.
Qed.

Ltac inv_bind H :=
  repeat match type of H with
         | (_ ≫= _) = Done _ =>
             let x := fresh "x" in
             let H1 := fresh "Hb" in
             apply bind_Done in H as (x & H1 & H);
             try (apply index_Done in H1)
         end.

(** Lists of categories related node by node. *)
Lemma Forall2_update {X : Type} (R : X → X → Prop) (l : list X) (i : nat) (x y : X) :
  (∀ z, R z z) → l !! i = Some x → R x y → Forall2 R l (<[i:=y]> l).
Proof.
  intros Hrefl Hi Hxy.
  rewrite <- (list_insert_id l i x Hi) at 1.
  apply Forall2_insert; [| exact Hxy].
  apply Forall2_same_length_lookup_2; [reflexivity |].
  intros j a b Ha Hb. rewrite Ha in Hb. inversion Hb. apply Hrefl.
Qed.

Lemma Forall2_refl_on {X : Type} (R : X → X → Prop) (l : list X) :
  (∀ z, R z z) → Forall2 R l l.
Proof.
  intros Hrefl. apply Forall2_same_length_lookup_2; [reflexivity |].
  intros j a b Ha Hb. rewrite Ha in Hb. inversion Hb. apply Hrefl.
Qed.

Lemma Forall2_chain {X : Type} (R : X → X → Prop) (l1 l2 l3 : list X) :
  (∀ a b c, R a b → R b c → R a c) →
  Forall2 R l1 l2 → Forall2 R l2 l3 → Forall2 R l1 l3.
Proof. intros Htrans. apply Forall2_trans. exact Htrans. Qed.

(** ** The frame of each pass *)

Lemma same_node_refl {A : Type} (c : CatCode.t A) : same_node c c.
Proof. unfold same_node. tauto. Qed.

Lemma same_node_trans {A : Type} (a b c : CatCode.t A) :
  same_node a b → same_node b c → same_node a c.
Proof. unfold same_node. intuition congruence. Qed.

Lemma nested_unchanged_refl {A : Type} (c : CatCode.t A) : nested_unchanged c c.
Proof. unfold nested_unchanged. auto using same_node_refl. Qed.

Lemma nested_unchanged_trans {A : Type} (a b c : CatCode.t A) :
  nested_unchanged a b → nested_unchanged b c → nested_unchanged a c.
Proof.
  unfold nested_unchanged. intros (H1 & H2 & H3) (H4 & H5 & H6).
  split; [eapply same_node_trans; eauto | split; congruence].
Qed.

Lemma direct_unchanged_refl {A : Type} (c : CatCode.t A) : direct_unchanged c c.
Proof. unfold direct_unchanged. auto using same_node_refl. Qed.

Lemma direct_unchanged_trans {A : Type} (a b c : CatCode.t A) :
  direct_unchanged a b → direct_unchanged b c → direct_unchanged a c.
Proof.
  unfold direct_unchanged. intros (H1 & H2 & H3 & H4 & H5) (H6 & H7 & H8 & H9 & H10).
  split; [eapply same_node_trans; eauto | repeat split; congruence].
Qed.

Lemma accumulators_unchanged_refl {A : Type} (c : CatCode.t A) : accumulators_unchanged c c.
Proof. unfold accumulators_unchanged. tauto. Qed.

Lemma accumulators_unchanged_trans {A : Type} (a b c : CatCode.t A) :
  accumulators_unchanged a b → accumulators_unchanged b c → accumulators_unchanged a c.
Proof. unfold accumulators_unchanged. intuition congruence. Qed.

Section Frames.

Context {A : Type}.
Variable zero : A.
Variable add : A → A → A.
Variable parse_journal_line : string → Z → journal_result A.

(** Reading the category file: every category is new. *)
Lemma cat_file_turn_zero (line_nbr : nat) (line : string) (g g' : globals A)
    (idx idx' : nat) :
  Forall (accumulators_zero zero) (cat_list g) →
  cat_file_turn zero line_nbr line (g, idx) = Done (g', idx') →
  Forall (accumulators_zero zero) (cat_list g').
Proof.
  intros Hg. unfold cat_file_turn.
  destruct (parse_cat_file_line line) as [|msg|code d cm l]; try discriminate.
  - intros H; inversion H; now subst.
  - destruct (truthy code); [| intros H; inversion H; now subst].
    destruct (cat_dict g !! code); [discriminate |].
    intros H; inversion H; subst g' idx'. simpl.
    apply Forall_app. split; [exact Hg |].
    constructor; [| constructor]. unfold accumulators_zero. simpl. repeat split.
Qed.

Lemma read_and_parse_cat_file_zero (cat_file : list string) (g g' : globals A) :
  Forall (accumulators_zero zero) (cat_list g) →
  read_and_parse_cat_file zero cat_file g = Done g' →
  Forall (accumulators_zero zero) (cat_list g').
Proof.
  intros Hg H. unfold read_and_parse_cat_file in H.
  apply bind_Done in H as ([g1 i1] & Hloop & H). simpl in H.
  destruct (length (cat_list g1) =? 0)%nat; [discriminate |].
  inversion H; subst g'.
  apply (for_each_invariant (fun s => Forall (accumulators_zero zero) (cat_list (fst s))))
    in Hloop; auto.
  intros [n line] [ga ia] [gb ib] _ Ha Hturn. simpl in *.
  eapply cat_file_turn_zero; eauto.
Qed.

(** The hierarchy pass leaves the accumulators alone. *)
Lemma hierarchy_turn_frame (idx : nat) (g g' : globals A) :
  hierarchy_turn idx g = Done g' →
  Forall2 accumulators_unchanged (cat_list g) (cat_list g').
Proof.
  unfold hierarchy_turn. intros H.
  apply bind_Done in H as (c & Hc & H). apply index_Done in Hc.
  destruct (1 <? CatCode.level c)%nat.
  - destruct (cat_dict g !! _) as [pidx|]; [| discriminate].
    apply bind_Done in H as (p & Hp & H). apply index_Done in Hp.
    apply bind_Done in H as (c' & Hc' & H). apply index_Done in Hc'.
    inversion H; subst g'. simpl.
    apply Forall2_chain
      with (l2 := <[pidx:=CatCode.set_children (CatCode.children p ++ [idx]) p]>
                    (cat_list g));
      [apply accumulators_unchanged_trans | |].
    + eapply Forall2_update; [apply accumulators_unchanged_refl | exact Hp |].
      unfold accumulators_unchanged. simpl. repeat split.
    + eapply Forall2_update; [apply accumulators_unchanged_refl | exact Hc' |].
      unfold accumulators_unchanged. simpl. repeat split.
  - inversion H; subst g'. apply Forall2_refl_on, accumulators_unchanged_refl.
Qed.

Lemma prc_cat_file_hierarchy_frame (g g' : globals A) :
  prc_cat_file_hierarchy g = Done g' →
  Forall2 accumulators_unchanged (cat_list g) (cat_list g').
Proof.
  unfold prc_cat_file_hierarchy. intros H.
  apply (for_each_invariant
           (fun s => Forall2 accumulators_unchanged (cat_list g) (cat_list s)))
    in H; auto.
  - intros i g1 g2 _ H1 Hturn.
    eapply Forall2_chain; [apply accumulators_unchanged_trans | exact H1 |].
    eapply hierarchy_turn_frame; eauto.
  - apply Forall2_refl_on, accumulators_unchanged_refl.
Qed.

(** Loading the journal changes direct fields only. *)
Lemma journal_file_turn_frame (y : Z) (line_nbr : nat) (line : string)
    (g g' : globals A) (idx idx' : nat) :
  journal_file_turn add parse_journal_line y line_nbr line (g, idx) = Done (g', idx') →
  Forall2 nested_unchanged (cat_list g) (cat_list g').
Proof.
  unfold journal_file_turn.
  destruct (parse_journal_line line y) as [|msg|date de amt ty code]; try discriminate.
  - intros H; inversion H; subst. apply Forall2_refl_on, nested_unchanged_refl.
  - destruct (truthy code);
      [| intros H; inversion H; subst; apply Forall2_refl_on, nested_unchanged_refl].
    destruct (cat_dict g !! code) as [cat_idx|]; [| discriminate].
    intros H.
    apply bind_Done in H as (c & Hc & H). apply index_Done in Hc.
    apply bind_Done in H as (month & Hm & H).
    apply bind_Done in H as (mon_idx & Hmi & H).
    apply bind_Done in H as (old & Hold & H).
    inversion H; subst g' idx'. simpl.
    eapply Forall2_update; [apply nested_unchanged_refl | exact Hc |].
    unfold nested_unchanged, same_node.
    destruct (CatCode.longest _ <? _)%nat; simpl; repeat split.
Qed.

Lemma read_and_parse_journal_file_frame (journal_file : list string) (y : Z)
    (g g' : globals A) :
  read_and_parse_journal_file add parse_journal_line journal_file y g = Done g' →
  Forall2 nested_unchanged (cat_list g) (cat_list g').
Proof.
  intros H. unfold read_and_parse_journal_file in H.
  apply bind_Done in H as ([g1 i1] & Hloop & H). simpl in H.
  destruct (length (journal_list g1) =? 0)%nat; [discriminate |].
  inversion H; subst g'.
  apply (for_each_invariant
           (fun s => Forall2 nested_unchanged (cat_list g) (cat_list (fst s))))
    in Hloop; auto.
  - intros [n line] [ga ia] [gb ib] _ Ha Hturn. simpl in *.
    eapply Forall2_chain; [apply nested_unchanged_trans | exact Ha |].
    eapply journal_file_turn_frame; eauto.
  - apply Forall2_refl_on, nested_unchanged_refl.
Qed.

(** The roll-up changes nested fields only. *)
Lemma month_turn_frame (cidx pidx mon_idx : nat) (l l' : list (CatCode.t A)) :
  month_turn add cidx pidx mon_idx l = Done l' → Forall2 direct_unchanged l l'.
Proof.
  unfold month_turn. intros H.
  apply bind_Done in H as (p & Hp & H). apply index_Done in Hp.
  apply bind_Done in H as (old & Hold & H).
  apply bind_Done in H as (c & Hc & H).
  apply bind_Done in H as (m & Hm & H).
  apply bind_Done in H as (nm & Hnm & H).
  inversion H; subst l'.
  eapply Forall2_update; [apply direct_unchanged_refl | exact Hp |].
  unfold direct_unchanged, same_node. simpl. repeat split.
Qed.

Lemma rollup_turn_frame (lvl cidx : nat) (l l' : list (CatCode.t A)) :
  rollup_turn add lvl cidx l = Done l' → Forall2 direct_unchanged l l'.
Proof.
  unfold rollup_turn. intros H.
  apply bind_Done in H as (c & Hc & H). apply index_Done in Hc.
  destruct (CatCode.level c =? lvl)%nat.
  - destruct (CatCode.parent c) as [pidx|]; [| discriminate].
    apply bind_Done in H as (p & Hp & H). apply index_Done in Hp.
    apply Forall2_chain
      with (l2 := <[pidx := CatCode.set_nested_total
                      (add (CatCode.nested_total p)
                         (add (CatCode.total c) (CatCode.nested_total c))) p]> l);
      [apply direct_unchanged_trans | |].
    + eapply Forall2_update; [apply direct_unchanged_refl | exact Hp |].
      unfold direct_unchanged, same_node. simpl. repeat split.
    + apply (for_each_invariant
               (fun s => Forall2 direct_unchanged
                           (<[pidx := CatCode.set_nested_total
                                (add (CatCode.nested_total p)
                                   (add (CatCode.total c) (CatCode.nested_total c))) p]> l)
                           s)) in H; auto.
      * intros m l1 l2 _ H1 Hturn.
        eapply Forall2_chain; [apply direct_unchanged_trans | exact H1 |].
        eapply month_turn_frame; eauto.
      * apply Forall2_refl_on, direct_unchanged_refl.
  - inversion H; subst l'. apply Forall2_refl_on, direct_unchanged_refl.
Qed.

Lemma rollup_level_frame (lvl : nat) (l l' : list (CatCode.t A)) :
  rollup_level add lvl l = Done l' → Forall2 direct_unchanged l l'.
Proof.
  unfold rollup_level. intros H.
  apply (for_each_invariant (fun s => Forall2 direct_unchanged l s)) in H; auto.
  - intros i l1 l2 _ H1 Hturn.
    eapply Forall2_chain; [apply direct_unchanged_trans | exact H1 |].
    eapply rollup_turn_frame; eauto.
  - apply Forall2_refl_on, direct_unchanged_refl.
Qed.

Lemma rollup_frame (g g' : globals A) :
  rollup add g = Done g' → Forall2 direct_unchanged (cat_list g) (cat_list g').
Proof.
  unfold rollup. intros H.
  apply bind_Done in H as (l & Hl & H). inversion H; subst g'. simpl.
  apply (for_each_invariant (fun s => Forall2 direct_unchanged (cat_list g) s)) in Hl;
    auto.
  - intros i l1 l2 _ H1 Hturn.
    eapply Forall2_chain; [apply direct_unchanged_trans | exact H1 |].
    eapply rollup_level_frame; eauto.
  - apply Forall2_refl_on, direct_unchanged_refl.
Qed.

(** C9. The accumulators of a category are zero when it is created and
    still zero when the category file and its hierarchy have been read;
    loading the journal leaves the nested fields of every category as they
    were, and the roll-up leaves the direct fields of every category as they
    were. *)
Theorem accumulator_frames :
  (∀ code d cm lvl n, accumulators_zero zero (CatCode.new zero code d cm lvl n))
  ∧ (∀ cat_file g g',
       read_and_parse_cat_file zero cat_file globals_init = Done g →
       prc_cat_file_hierarchy g = Done g' →
       Forall (accumulators_zero zero) (cat_list g'))
  ∧ (∀ journal_file y g g',
       read_and_parse_journal_file add parse_journal_line journal_file y g = Done g' →
       Forall2 nested_unchanged (cat_list g) (cat_list g'))
  ∧ (∀ g g',
       rollup add g = Done g' →
       Forall2 direct_unchanged (cat_list g) (cat_list g')).
Proof.
  splits.
  - intros. unfold accumulators_zero. simpl. repeat split.
  - intros cat_file g g' H1 H2.
    apply read_and_parse_cat_file_zero in H1; [| constructor].
    apply prc_cat_file_hierarchy_frame in H2.
    apply Forall_lookup. intros i c' Hc'.
    destruct (Forall2_lookup_r _ _ _ _ _ H2 Hc') as (c & Hc & Hacc).
    rewrite Forall_lookup in H1. specialize (H1 i c Hc).
    destruct H1 as (Z1 & Z2 & Z3 & Z4). destruct Hacc as (U1 & U2 & U3 & U4).
    unfold accumulators_zero. repeat split; congruence.
  - apply read_and_parse_journal_file_frame.
  - apply rollup_frame.
Qed.

End Frames.

(** ** The parent code *)

Lemma split_on_single_inv (s x : string) :
  split_on "." s = [x] → s = x ∧ no_dot x = true.
Proof.
  revert x. induction s as [|c s IH]; intros x H; simpl in H.
  - inversion H. split; reflexivity.
  - destruct (Ascii.eqb c ".") eqn:E.
    + inversion H as [[H1 H2]]. exfalso. now apply (split_on_nonempty "." s).
    + destruct (split_on "." s) as [|h t] eqn:Es; [inversion H; subst; now destruct (split_on_nonempty "." s) |].
      inversion H; subst x t. destruct (IH h eq_refl) as [-> Hh].
      split; [reflexivity |]. unfold no_dot in *. simpl. now rewrite E, Hh.
Qed.

(** A code of two segments or more is its parent code, a point and its last
    segment. *)
Lemma split_on_last (s : string) : ∀ (segs : list string) (lst : string),
  split_on "." s = (segs ++ [lst])%list → segs ≠ [] →
  ∃ p, s = p +:+ String "." lst ∧ split_on "." p = segs ∧ no_dot lst = true.
Proof.
  induction s as [|c s IH]; intros segs lst H Hne; simpl in H.
  - destruct segs as [|a [|b segs]]; try congruence; inversion H.
  - destruct (Ascii.eqb c ".") eqn:E.
    + apply Ascii.eqb_eq in E. subst c.
      destruct segs as [|a segs]; [congruence |]. inversion H as [[Ha Hs]].
      destruct segs as [|b segs].
      * apply split_on_single_inv in Hs as [-> Hl]. exists "". auto.
      * destruct (IH (b :: segs) lst Hs) as (p & -> & Hp & Hl); [discriminate |].
        exists (String "." p). rewrite append_cons. simpl. now rewrite Hp.
    + destruct (split_on "." s) as [|h t] eqn:Es;
        [now destruct (split_on_nonempty "." s) |].
      destruct segs as [|a segs]; [congruence |]. inversion H as [[Ha Hs]].
      destruct (IH (h :: segs) lst) as (p & -> & Hp & Hl);
        [now rewrite Hs | discriminate |].
      exists (String c p). rewrite append_cons. simpl. now rewrite E, Hp.
Qed.

Lemma rfind_from_no (c : ascii) (s : string) : ∀ (i : nat) (last : Z),
  all_chars (fun x => negb (Ascii.eqb x c)) s = true → rfind_from c s i last = last.
Proof.
  induction s as [|x s IH]; intros i last H; simpl in *; [reflexivity |].
  apply andb_prop in H as [Hx Hs]. apply negb_true_iff in Hx. rewrite Hx. now apply IH.
Qed.

Lemma rfind_from_app (c : ascii) (a b : string) : ∀ (i : nat) (last : Z),
  rfind_from c (a +:+ b) i last
  = rfind_from c b (i + String.length a) (rfind_from c a i last).
Proof.
  induction a as [|x a IH]; intros i last.
  - rewrite append_nil_l. simpl. now rewrite Nat.add_0_r.
  - rewrite append_cons. simpl. rewrite IH. f_equal. lia.
Qed.

Lemma rfind_last_dot (p lst : string) :
  no_dot lst = true → rfind "." (p +:+ String "." lst) = Z.of_nat (String.length p).
Proof.
  intros H. unfold rfind. rewrite rfind_from_app. simpl.
  now rewrite rfind_from_no.
Qed.

Lemma slice_to_prefix (p r : string) :
  slice_to (p +:+ r) (Z.of_nat (String.length p)) = p.
Proof.
  unfold slice_to.
  destruct (Z.of_nat (String.length p) <? 0)%Z eqn:E; [apply Z.ltb_lt in E; lia |].
  rewrite Nat2Z.id. apply substring_take.
Qed.

(** The parent code of a code of [S (S l)] segments has [S l] segments. *)
Lemma parent_code_segments (code : string) (l : nat) :
  length (segments code) = S (S l) →
  length (segments (slice_to code (rfind "." code))) = S l.
Proof.
  unfold segments. intros H.
  destruct (split_on "." code) as [|a segs] eqn:E; [discriminate |].
  destruct (exists_last (l := a :: segs)) as (segs' & lst & E'); [discriminate |].
  rewrite E' in E.
  destruct (split_on_last code segs' lst E) as (p & -> & Hp & Hl).
  { intros ->. rewrite E' in H. simpl in H. lia. }
  rewrite rfind_last_dot, slice_to_prefix by exact Hl.
  rewrite Hp. rewrite E', length_app in H. simpl in H. lia.
Qed.

(** A loop over [seq a n] whose turns keep a property of the index. *)
Lemma for_each_seq_invariant {S : Type} (I : nat → S → Prop) (body : nat → S → outcome S) :
  ∀ (n a : nat) (s s' : S),
  (∀ k s1 s2, (a ≤ k < a + n)%nat → I k s1 → body k s1 = Done s2 → I (Datatypes.S k) s2) →
  I a s → for_each (seq a n) body s = Done s' → I (a + n)%nat s'.
Proof.
  induction n as [|n IH]; intros a s s' Hbody Hs H; simpl in H.
  - inversion H; subst. now rewrite Nat.add_0_r.
  - apply bind_Done in H as (s1 & H1 & H2).
    replace (a + Datatypes.S n)%nat with (Datatypes.S a + n)%nat by lia.
    apply (IH (Datatypes.S a) s1 s'); auto.
    + intros k x y Hk. apply Hbody. lia.
    + apply (Hbody a s s1); auto. lia.
Qed.

Lemma for_each_enumerate_invariant {X S : Type} (I : S → Prop)
    (body : nat * X → S → outcome S) (xs : list X) (n : nat) (s s' : S) :
  (∀ x s1 s2, I s1 → body x s1 = Done s2 → I s2) →
  I s → for_each (enumerate_from n xs) body s = Done s' → I s'.
Proof.
  intros Hbody. apply for_each_invariant. intros x s1 s2 _. apply Hbody.
Qed.

(** ** The category tree *)

Section Tree.

Context {A : Type}.
Variable zero : A.

Lemma cat_file_turn_registry (line_nbr : nat) (line : string) (g g' : globals A)
    (idx idx' : nat) :
  registry_ok g ∧ idx = length (cat_list g)
  ∧ Forall (fun c => CatCode.parent c = None ∧ months_ok c) (cat_list g) →
  cat_file_turn zero line_nbr line (g, idx) = Done (g', idx') →
  registry_ok g' ∧ idx' = length (cat_list g')
  ∧ Forall (fun c => CatCode.parent c = None ∧ months_ok c) (cat_list g').
Proof.
  intros ((Ha & Hb) & Hidx & Hp). unfold cat_file_turn.
  destruct (parse_cat_file_line line) as [|msg|code d cm l] eqn:Eparse; try discriminate.
  - intros H; inversion H; subst.
    split; [split; assumption | split; [reflexivity | assumption]].
  - destruct (truthy code);
      [| intros H; inversion H; subst;
         split; [split; assumption | split; [reflexivity | assumption]]].
    destruct (cat_dict g !! code) eqn:Edict; [discriminate |].
    intros H; inversion H; subst g' idx'. simpl.
    apply parse_cat_file_line_sound in Eparse as (n & more & _ & Hok).
    unfold registry_ok. simpl. splits.
    + intros i c Hi. apply lookup_app_Some in Hi as [Hi | [Hlen Hi]].
      * destruct (Ha i c Hi) as [H1 H2]. split; [exact H1 |].
        rewrite lookup_insert_ne; [exact H2 |]. intros E. congruence.
      * destruct (i - length (cat_list g))%nat as [|k] eqn:Ek;
          [| destruct k; discriminate].
        inversion Hi; subst c. simpl. split; [exact Hok |].
        rewrite lookup_insert_eq. f_equal. lia.
    + intros code' i Hi. destruct (decide (code = code')) as [<- | Hne].
      * rewrite lookup_insert_eq in Hi. inversion Hi; subst i.
        exists (CatCode.new zero code d cm l line_nbr). split; [| reflexivity].
        rewrite lookup_app_r by lia. rewrite Hidx. now rewrite Nat.sub_diag.
      * rewrite lookup_insert_ne in Hi by exact Hne.
        destruct (Hb code' i Hi) as (c & Hc & Hs). exists c. split; [| exact Hs].
        now apply lookup_app_l_Some.
    + rewrite length_app. simpl. lia.
    + apply Forall_app. split; [exact Hp |].
      constructor; [| constructor]. unfold months_ok. simpl. auto.
Qed.

Lemma read_and_parse_cat_file_registry (cat_file : list string) (g : globals A) :
  read_and_parse_cat_file zero cat_file globals_init = Done g →
  registry_ok g
  ∧ Forall (fun c => CatCode.parent c = None ∧ months_ok c) (cat_list g).
Proof.
  intros H. unfold read_and_parse_cat_file in H.
  apply bind_Done in H as ([g1 i1] & Hloop & H). simpl in H.
  destruct (length (cat_list g1) =? 0)%nat; [discriminate |].
  inversion H; subst g.
  apply (for_each_enumerate_invariant
           (fun s => registry_ok (fst s) ∧ snd s = length (cat_list (fst s))
                     ∧ Forall (fun c => CatCode.parent c = None ∧ months_ok c)
                         (cat_list (fst s)))) in Hloop.
  - simpl in Hloop. destruct Hloop as (R1 & _ & R3). split; assumption.
  - intros [n line] [ga ia] [gb ib] Ha Hturn. simpl in *.
    eapply cat_file_turn_registry; eauto.
  - simpl. splits; try reflexivity; try constructor.
    + intros i c Hi. first [discriminate | rewrite lookup_nil in Hi; discriminate].
    + intros code i Hi.
      first [discriminate | rewrite lookup_empty in Hi; discriminate].
Qed.

Lemma hierarchy_turn_inv (n k : nat) (g g' : globals A) :
  hierarchy_inv n k g → hierarchy_turn k g = Done g' → hierarchy_inv n (S k) g'.
Proof.
  intros (Hlen & (Ha & Hb) & Hn) H. unfold hierarchy_turn in H.
  apply bind_Done in H as (c & Hc & H). apply index_Done in Hc.
  destruct (1 <? CatCode.level c)%nat eqn:Elvl.
  - apply Nat.ltb_lt in Elvl.
    destruct (cat_dict g !! _) as [pidx|] eqn:Edict; [| discriminate].
    apply bind_Done in H as (p & Hp & H). apply index_Done in Hp.
    apply bind_Done in H as (c' & Hc' & H). apply index_Done in Hc'.
    inversion H; subst g'. clear H.
    (* the parent is one level above *)
    destruct (Hb _ _ Edict) as (p0 & Hp0 & Hpcode). rewrite Hp in Hp0.
    inversion Hp0; subst p0. clear Hp0.
    destruct (Ha k c Hc) as [(_ & Hclen & _) _].
    destruct (Ha pidx p Hp) as [(_ & Hplen & _) _].
    assert (Hlevel : CatCode.level c = S (CatCode.level p)).
    { destruct (CatCode.level c) as [|[|l]] eqn:El; try lia.
      rewrite Hpcode in Hplen. rewrite (parent_code_segments _ l Hclen) in Hplen.
      congruence. }
    assert (Hne : pidx ≠ k).
    { intros ->. rewrite Hc in Hp. inversion Hp; subst p. lia. }
    rewrite list_lookup_insert_ne in Hc' by exact Hne.
    rewrite Hc in Hc'. inversion Hc'; subst c'. clear Hc'.
    set (p' := CatCode.set_children (CatCode.children p ++ [k]) p).
    set (c' := CatCode.set_parent (Some pidx) c).
    assert (Hlook : ∀ i x, (<[k:=c']> (<[pidx:=p']> (cat_list g))) !! i = Some x →
              ∃ x0, cat_list g !! i = Some x0
                    ∧ CatCode.cat_str x = CatCode.cat_str x0
                    ∧ CatCode.level x = CatCode.level x0
                    ∧ (months_ok x0 → months_ok x)
                    ∧ ((i ≠ k → CatCode.parent x = CatCode.parent x0)
                       ∧ (i = k → CatCode.parent x = Some pidx))).
    { intros i x Hi. destruct (decide (i = k)) as [-> | Hik].
      - rewrite list_lookup_insert_eq in Hi
          by (rewrite length_insert; eapply lookup_lt_Some; eauto).
        inversion Hi; subst x. exists c. splits; auto; try reflexivity. congruence.
      - rewrite list_lookup_insert_ne in Hi by auto.
        destruct (decide (i = pidx)) as [-> | Hip].
        + rewrite list_lookup_insert_eq in Hi by (eapply lookup_lt_Some; eauto).
          inversion Hi; subst x. exists p. splits; auto; try reflexivity. congruence.
        + rewrite list_lookup_insert_ne in Hi by auto.
          exists x. splits; auto. congruence. }
    assert (Hback : ∀ i x0, cat_list g !! i = Some x0 →
              ∃ x, (<[k:=c']> (<[pidx:=p']> (cat_list g))) !! i = Some x
                   ∧ CatCode.level x = CatCode.level x0).
    { intros i x0 Hi. destruct (decide (i = k)) as [-> | Hik].
      - exists c'. rewrite list_lookup_insert_eq
          by (rewrite length_insert; eapply lookup_lt_Some; eauto).
        rewrite Hc in Hi. inversion Hi; subst x0. auto.
      - rewrite list_lookup_insert_ne by auto.
        destruct (decide (i = pidx)) as [-> | Hip].
        + exists p'. rewrite list_lookup_insert_eq by (eapply lookup_lt_Some; eauto).
          rewrite Hp in Hi. inversion Hi; subst x0. auto.
        + exists x0. rewrite list_lookup_insert_ne by auto. auto. }
    unfold hierarchy_inv, registry_ok. simpl. splits.
    + now rewrite !length_insert.
    + intros i x Hi. destruct (Hlook i x Hi) as (x0 & Hx0 & Hs & Hl & _).
      rewrite Hs, Hl. apply (Ha i x0 Hx0).
    + intros code i Hi. destruct (Hb code i Hi) as (x0 & Hx0 & Hs).
      destruct (decide (i = k)) as [-> | Hik].
      * exists c'. rewrite list_lookup_insert_eq
          by (rewrite length_insert; eapply lookup_lt_Some; eauto).
        rewrite Hc in Hx0. inversion Hx0; subst x0. auto.
      * rewrite list_lookup_insert_ne by auto.
        destruct (decide (i = pidx)) as [-> | Hip].
        -- exists p'. rewrite list_lookup_insert_eq by (eapply lookup_lt_Some; eauto).
           rewrite Hp in Hx0. inversion Hx0; subst x0. auto.
        -- exists x0. rewrite list_lookup_insert_ne by auto. auto.
    + intros i x Hi. destruct (Hlook i x Hi) as (x0 & Hx0 & Hs & Hl & Hm & Hpar1 & Hpar2).
      destruct (Hn i x0 Hx0) as (Hpok & Hmok & Hsome). splits.
      * intros q Hq. destruct (decide (i = k)) as [-> | Hik].
        -- rewrite (Hpar2 eq_refl) in Hq. inversion Hq; subst q.
           destruct (Hback pidx p Hp) as (y & Hy & Hly).
           exists y. split; [exact Hy |].
           rewrite Hc in Hx0. inversion Hx0; subst x0. congruence.
        -- rewrite (Hpar1 Hik) in Hq. destruct (Hpok q Hq) as (cq & Hcq & Hlq).
           destruct (Hback q cq Hcq) as (y & Hy & Hly).
           exists y. split; [exact Hy |]. congruence.
      * auto.
      * intros Hlt Hlev. destruct (decide (i = k)) as [-> | Hik].
        -- rewrite (Hpar2 eq_refl). eauto.
        -- rewrite (Hpar1 Hik). apply Hsome; [lia | congruence].
  - apply Nat.ltb_ge in Elvl. inversion H; subst g'.
    split; [exact Hlen |]. split; [split; assumption |].
    intros i x Hi. destruct (Hn i x Hi) as (Hpok & Hmok & Hsome). splits; auto.
    intros Hlt Hlev. destruct (decide (i = k)) as [-> | Hik].
    + rewrite Hc in Hi. inversion Hi; subst x. lia.
    + apply Hsome; [lia | exact Hlev].
Qed.

(** The tree after the category file and the hierarchy pass. *)
Lemma prc_cat_file_hierarchy_tree (cat_file : list string) (g g' : globals A) :
  read_and_parse_cat_file zero cat_file globals_init = Done g →
  prc_cat_file_hierarchy g = Done g' →
  tree_ok (cat_list g') ∧ registry_ok g'.
Proof.
  intros H1 H2. apply read_and_parse_cat_file_registry in H1 as [Hreg Hnone].
  unfold prc_cat_file_hierarchy in H2.
  apply (for_each_seq_invariant (hierarchy_inv (length (cat_list g)))) in H2.
  - destruct H2 as (Hlen & Hreg' & Hn). split; [| exact Hreg'].
    intros i c Hi. destruct (Hn i c Hi) as (Hpok & Hmok & Hsome).
    destruct Hreg' as [Ha _]. destruct (Ha i c Hi) as [(_ & _ & Hlv & _) _].
    splits; auto; try lia.
    intros Hlev. apply Hsome; [| exact Hlev]. simpl.
    apply lookup_lt_Some in Hi. lia.
  - intros k g1 g2 _. apply hierarchy_turn_inv.
  - split; [reflexivity |]. split; [exact Hreg |]. intros i c Hi.
    rewrite Forall_lookup in Hnone. destruct (Hnone i c Hi) as [Hp Hm].
    splits; auto; [| lia].
    intros p Hpp. congruence.
Qed.

End Tree.

(** ** Sums over the categories that pass a test *)

Section Sums.

Context {A : Type}.
Variable zero : A.
Variable add : A → A → A.

Lemma sum_where_ext (P Q : nat → bool) (f : nat → A) (js : list nat) :
  (∀ j, In j js → P j = Q j) → sum_where zero add P f js = sum_where zero add Q f js.
Proof.
  unfold sum_where. intros H. f_equal. f_equal.
  induction js as [|x js IH]; [reflexivity |]. simpl.
  rewrite (H x) by now left. rewrite IH; [reflexivity |].
  intros j Hj. apply H. now right.
Qed.

Lemma sum_where_false (P : nat → bool) (f : nat → A) (js : list nat) :
  (∀ j, In j js → P j = false) → sum_where zero add P f js = zero.
Proof.
  unfold sum_where. intros H.
  induction js as [|x js IH]; [reflexivity |]. simpl.
  rewrite (H x) by now left. apply IH. intros j Hj. apply H. now right.
Qed.

Hypothesis add_assoc : ∀ x y z, add x (add y z) = add (add x y) z.
Hypothesis add_comm : ∀ x y, add x y = add y x.
Hypothesis add_zero_l : ∀ x, add zero x = x.

Lemma sum_where_or (P Q R : nat → bool) (f : nat → A) (js : list nat) :
  (∀ j, In j js → R j = P j || Q j) →
  (∀ j, In j js → P j && Q j = false) →
  sum_where zero add R f js = add (sum_where zero add P f js) (sum_where zero add Q f js).
Proof using add_assoc add_comm add_zero_l.
  unfold sum_where. intros HR Hdis.
  induction js as [|x js IH]; simpl.
  - now rewrite add_zero_l.
  - assert (IH' : sum_list zero add (map f (List.filter R js))
                  = add (sum_list zero add (map f (List.filter P js)))
                      (sum_list zero add (map f (List.filter Q js)))).
    { apply IH; intros j Hj; [apply HR | apply Hdis]; now right. }
    rewrite (HR x) by now left. specialize (Hdis x (or_introl eq_refl)).
    destruct (P x), (Q x); simpl in *; try discriminate; rewrite IH'.
    + now rewrite add_assoc.
    + rewrite !add_assoc. f_equal. apply add_comm.
    + reflexivity.
Qed.

Lemma sum_where_single (k : nat) (f : nat → A) (js : list nat) :
  NoDup js → In k js → sum_where zero add (fun j => (j =? k)%nat) f js = f k.
Proof using add_comm add_zero_l.
  unfold sum_where. intros Hnd Hin.
  induction js as [|x js IH]; [contradiction |]. simpl.
  apply NoDup_cons in Hnd as [Hx Hnd].
  destruct (x =? k)%nat eqn:E.
  - apply Nat.eqb_eq in E. subst x. simpl.
    assert (Hz : sum_list zero add (map f (List.filter (fun j => (j =? k)%nat) js)) = zero).
    { apply (sum_where_false (fun j => (j =? k)%nat)). intros j Hj.
      apply Nat.eqb_neq. intros ->. apply Hx. now apply list_elem_of_In. }
    rewrite Hz, add_comm. apply add_zero_l.
  - destruct Hin as [-> | Hin]; [apply Nat.eqb_neq in E; congruence |].
    now apply IH.
Qed.

End Sums.

(** ** Ancestors in a tree given by its parent function *)

Section Ancestors.

(** The parent and the level of each node. *)
Variable par : nat → option nat.
Variable lev : nat → nat.

Hypothesis par_lev : ∀ j p, par j = Some p → lev j = S (lev p).

Lemma reach_lev (proc : nat → bool) (fuel : nat) : ∀ i j,
  reach par proc fuel i j = true → (lev i < lev j)%nat.
Proof using par_lev.
  induction fuel as [|f IH]; intros i j H; simpl in H; [discriminate |].
  destruct (par j) as [p|] eqn:E; [| discriminate].
  apply par_lev in E.
  destruct (p =? i)%nat eqn:Ep.
  - apply Nat.eqb_eq in Ep. subst p. lia.
  - apply IH in H. lia.
Qed.

(** [reach] looks at [proc] on the children of [i] only. *)
Lemma reach_ext (proc proc' : nat → bool) (fuel : nat) (i : nat) : ∀ j,
  (∀ x, par x = Some i → proc x = proc' x) →
  reach par proc fuel i j = reach par proc' fuel i j.
Proof.
  induction fuel as [|f IH]; intros j H; simpl; [reflexivity |].
  destruct (par j) as [p|] eqn:E; [| reflexivity].
  destruct (p =? i)%nat eqn:Ep.
  - apply Nat.eqb_eq in Ep. subst p. now apply H.
  - now apply IH.
Qed.

Lemma reach_false (proc : nat → bool) (fuel : nat) (i : nat) : ∀ j,
  (∀ x, par x = Some i → proc x = false) → reach par proc fuel i j = false.
Proof.
  induction fuel as [|f IH]; intros j H; simpl; [reflexivity |].
  destruct (par j) as [p|] eqn:E; [| reflexivity].
  destruct (p =? i)%nat eqn:Ep.
  - apply Nat.eqb_eq in Ep. subst p. now apply H.
  - now apply IH.
Qed.

(** Below the child [k] of [p], the node found on the way up to [p] is [k]. *)
Lemma reach_through (proc : nat → bool) (k p : nat) :
  par k = Some p →
  ∀ fuel j, (lev j ≤ lev p + fuel)%nat →
            (j =? k)%nat || ancestor par fuel k j = true →
            reach par proc fuel p j = proc k.
Proof using par_lev.
  intros Hk. pose proof (par_lev _ _ Hk) as Hlk.
  induction fuel as [|f IH]; intros j Hlev H.
  - simpl in H. rewrite orb_false_r in H. apply Nat.eqb_eq in H. subst j. lia.
  - destruct (j =? k)%nat eqn:Ej.
    + apply Nat.eqb_eq in Ej. subst j. simpl. now rewrite Hk, Nat.eqb_refl.
    + simpl in H. unfold ancestor in H. simpl in H. simpl.
      destruct (par j) as [x|] eqn:Ex; [| discriminate].
      pose proof (par_lev _ _ Ex) as Hlx.
      destruct (x =? k)%nat eqn:Exk.
      * apply Nat.eqb_eq in Exk. subst x.
        destruct (k =? p)%nat eqn:Ekp;
          [apply Nat.eqb_eq in Ekp; rewrite Ekp in Hlk; lia |].
        apply IH; [lia |]. now rewrite Nat.eqb_refl.
      * destruct (x =? p)%nat eqn:Exp.
        -- apply Nat.eqb_eq in Exp. subst x. apply reach_lev in H. lia.
        -- apply IH; [lia |]. unfold ancestor. rewrite H. apply orb_true_r.
Qed.

(** Elsewhere, changing [proc] at [k] changes nothing. *)
Lemma reach_elsewhere (proc proc' : nat → bool) (k i : nat) :
  (∀ x, x ≠ k → proc x = proc' x) →
  ∀ fuel j, (j =? k)%nat || ancestor par fuel k j = false →
            reach par proc fuel i j = reach par proc' fuel i j.
Proof.
  intros Hext. induction fuel as [|f IH]; intros j H; simpl; [reflexivity |].
  apply orb_false_elim in H as [Hj H]. apply Nat.eqb_neq in Hj.
  unfold ancestor in H. simpl in H.
  destruct (par j) as [x|] eqn:Ex; [| reflexivity].
  destruct (x =? i)%nat; [now apply Hext |].
  apply IH. destruct (x =? k)%nat; [discriminate |]. exact H.
Qed.

End Ancestors.

(** A loop over [seq a n] all of whose turns end normally. *)
Lemma for_each_seq_total {S : Type} (I : nat → S → Prop) (body : nat → S → outcome S) :
  ∀ (n a : nat) (s : S),
  (∀ k s1, (a ≤ k < a + n)%nat → I k s1 →
           ∃ s2, body k s1 = Done s2 ∧ I (Datatypes.S k) s2) →
  I a s → ∃ s', for_each (seq a n) body s = Done s' ∧ I (a + n)%nat s'.
Proof.
  induction n as [|n IH]; intros a s Hbody Hs; simpl.
  - exists s. rewrite Nat.add_0_r. auto.
  - destruct (Hbody a s) as (s1 & H1 & HI1); [lia | exact Hs |].
    rewrite H1. simpl.
    replace (a + Datatypes.S n)%nat with (Datatypes.S a + n)%nat by lia.
    apply IH; [| exact HI1]. intros k x Hk. apply Hbody. lia.
Qed.

(** ** The roll-up, one category at a time *)

Section Rollup.

Context {A : Type}.
Variable zero : A.
Variable add : A → A → A.

(** The fields the roll-up reads and does not write. *)
Lemma direct_unchanged_of (l l' : list (CatCode.t A)) :
  Forall2 direct_unchanged l l' →
  length l' = length l
  ∧ ∀ j, parent_of l' j = parent_of l j ∧ level_of l' j = level_of l j
         ∧ ∀ b, direct_of zero b l' j = direct_of zero b l j.
Proof.
  intros H. split; [symmetry; eapply Forall2_length; eauto |].
  intros j. unfold parent_of, level_of, direct_of.
  destruct (l !! j) as [c|] eqn:E.
  - destruct (Forall2_lookup_l _ _ _ _ _ H E) as (c' & -> & (Hn & Ht & Hm & _)).
    unfold same_node in Hn. destruct Hn as (_ & _ & _ & Hl & _ & Hp & _).
    splits; auto. intros [|m]; simpl; congruence.
  - destruct (l' !! j) as [c'|] eqn:E'; [| auto].
    destruct (Forall2_lookup_r _ _ _ _ _ H E') as (c & Hc & _). congruence.
Qed.

Lemma tree_ok_direct_unchanged (l l' : list (CatCode.t A)) :
  Forall2 direct_unchanged l l' →
  (∀ j c c', l !! j = Some c → l' !! j = Some c' →
             length (CatCode.nested_monthly c') = length (CatCode.nested_monthly c)) →
  tree_ok l → tree_ok l'.
Proof.
  intros H Hlen Hok i c' Hi.
  destruct (Forall2_lookup_r _ _ _ _ _ H Hi) as (c & Hc & (Hn & Ht & Hm & _)).
  destruct Hn as (_ & _ & _ & Hl & _ & Hp & _).
  destruct (Hok i c Hc) as (H1 & H2 & H3 & H4 & H5).
  split; [rewrite Hl; exact H1 |].
  split; [rewrite Hl, Hp; exact H2 |].
  split; [| split; [congruence | rewrite (Hlen i c c' Hc Hi); exact H5]].
  intros p Hpp. rewrite Hp in Hpp. destruct (H3 p Hpp) as (cp & Hcp & Hlev).
  destruct (Forall2_lookup_l _ _ _ _ _ H Hcp)
    as (cp' & Hcp' & ((_ & _ & _ & Hl' & _) & _)).
  exists cp'. split; [exact Hcp' | congruence].
Qed.

Lemma month_turn_spec (l1 : list (CatCode.t A)) (c p1 : CatCode.t A)
    (cidx pidx k : nat) (l : list (CatCode.t A)) :
  cidx ≠ pidx → l1 !! cidx = Some c → months_ok c → (k < 12)%nat →
  months_inv zero add l1 c p1 pidx k l →
  ∃ l', month_turn add cidx pidx k l = Done l' ∧ months_inv zero add l1 c p1 pidx (S k) l'.
Proof.
  intros Hne Hc [Hcm Hcn] Hk (Hlen & Hother & p' & Hp' & Hdu & Hnt & Hl12 & Hnth).
  unfold month_turn.
  rewrite (index_lookup _ _ _ Hp'). simpl.
  destruct (lookup_lt_is_Some_2 (CatCode.nested_monthly p') k) as [old Hold]; [lia |].
  rewrite (index_lookup _ _ _ Hold). simpl.
  rewrite (index_lookup l cidx c) by (rewrite Hother; auto). simpl.
  destruct (lookup_lt_is_Some_2 (CatCode.monthly c) k) as [m Hm]; [lia |].
  destruct (lookup_lt_is_Some_2 (CatCode.nested_monthly c) k) as [nm Hnm]; [lia |].
  rewrite (index_lookup _ _ _ Hm), (index_lookup _ _ _ Hnm). simpl.
  eexists. split; [reflexivity |].
  unfold months_inv. splits.
  - now rewrite length_insert.
  - intros j Hj. rewrite list_lookup_insert_ne by auto. now apply Hother.
  - eexists. split.
    { apply list_lookup_insert_eq. eapply lookup_lt_Some; eauto. }
    simpl. splits.
    + destruct Hdu as (Hn & H1 & H2 & H3 & H4).
      unfold direct_unchanged, same_node in *. simpl.
      destruct Hn as (N1 & N2 & N3 & N4 & N5 & N6 & N7). repeat split; assumption.
    + exact Hnt.
    + now rewrite length_insert.
    + intros x. rewrite nth_lookup.
      destruct (decide (x = k)) as [-> | Hx].
      * rewrite list_lookup_insert_eq by lia. simpl.
        assert (E : (k <? S k)%nat = true) by (apply Nat.ltb_lt; lia). rewrite E.
        specialize (Hnth k).
        assert (E' : (k <? k)%nat = false) by (apply Nat.ltb_ge; lia).
        rewrite E' in Hnth. rewrite <- Hnth.
        rewrite (nth_lookup_Some _ _ _ _ Hold), (nth_lookup_Some _ _ _ _ Hm),
          (nth_lookup_Some _ _ _ _ Hnm). reflexivity.
      * rewrite list_lookup_insert_ne by auto. rewrite <- nth_lookup, Hnth.
        destruct (x <? k)%nat eqn:E1, (x <? S k)%nat eqn:E2; try reflexivity;
          apply Nat.ltb_lt in E1 || apply Nat.ltb_ge in E1;
          apply Nat.ltb_lt in E2 || apply Nat.ltb_ge in E2; lia.
Qed.

(** One turn of the roll-up on a tree. *)
Lemma rollup_turn_spec (l : list (CatCode.t A)) (lvl cidx : nat) (c : CatCode.t A) :
  tree_ok l → l !! cidx = Some c → (1 < lvl)%nat →
  ∃ l', rollup_turn add lvl cidx l = Done l'
        ∧ Forall2 direct_unchanged l l' ∧ tree_ok l'
        ∧ (CatCode.level c ≠ lvl → l' = l)
        ∧ (CatCode.level c = lvl →
           ∃ pidx, CatCode.parent c = Some pidx
                   ∧ (∀ j, j ≠ pidx → l' !! j = l !! j)
                   ∧ ∀ b, bucket_ok b →
                          ∀ j, nested_of zero b l' j
                               = if (j =? pidx)%nat
                                 then add (nested_of zero b l pidx)
                                        (add (direct_of zero b l cidx) (nested_of zero b l cidx))
                                 else nested_of zero b l j).
Proof.
  intros Hok Hc Hlvl. unfold rollup_turn.
  rewrite (index_lookup _ _ _ Hc). simpl.
  destruct (CatCode.level c =? lvl)%nat eqn:El.
  2:{ apply Nat.eqb_neq in El. exists l. splits; auto.
      - apply Forall2_refl_on, direct_unchanged_refl.
      - intros E. congruence. }
  apply Nat.eqb_eq in El.
  destruct (Hok cidx c Hc) as (Hlev & Hsome & Hpok & Hcm).
  destruct Hsome as [pidx Hpar]; [lia |]. rewrite Hpar.
  destruct (Hpok pidx Hpar) as (p & Hp & Hpl).
  assert (Hne : cidx ≠ pidx).
  { intros ->. rewrite Hc in Hp. inversion Hp; subst p. lia. }
  rewrite (index_lookup _ _ _ Hp). simpl.
  set (p1 := CatCode.set_nested_total
               (add (CatCode.nested_total p)
                  (add (CatCode.total c) (CatCode.nested_total c))) p).
  set (l1 := <[pidx:=p1]> l).
  destruct (Hok pidx p Hp) as (_ & _ & _ & Hpm).
  destruct (for_each_seq_total (months_inv zero add l1 c p1 pidx) (month_turn add cidx pidx)
              12 0 l1) as (l' & Hrun & Hinv).
  { intros k s1 Hk Hs1. apply (month_turn_spec l1 c p1 cidx pidx k s1); auto.
    - unfold l1. rewrite list_lookup_insert_ne by auto. exact Hc.
    - lia. }
  { unfold months_inv. splits; auto.
    exists p1. splits.
    - unfold l1. apply list_lookup_insert_eq. eapply lookup_lt_Some; eauto.
    - apply direct_unchanged_refl.
    - reflexivity.
    - unfold p1. simpl. apply Hpm.
    - intros m. reflexivity. }
  exists l'. split; [exact Hrun |].
  destruct Hinv as (Hlen & Hother & p' & Hp' & Hdu & Hnt & Hl12 & Hnth).
  assert (Hfr : Forall2 direct_unchanged l l').
  { apply Forall2_same_length_lookup_2.
    - unfold l1 in Hlen. rewrite length_insert in Hlen. congruence.
    - intros j x y Hx Hy. destruct (decide (j = pidx)) as [-> | Hj].
      + rewrite Hp in Hx. rewrite Hp' in Hy. inversion Hx; inversion Hy; subst x y.
        eapply direct_unchanged_trans; [| exact Hdu].
        unfold direct_unchanged, same_node, p1. simpl. repeat split.
      + rewrite (Hother j Hj) in Hy. unfold l1 in Hy.
        rewrite list_lookup_insert_ne in Hy by auto.
        rewrite Hx in Hy. inversion Hy. apply direct_unchanged_refl. }
  splits.
  - exact Hfr.
  - apply (tree_ok_direct_unchanged l l' Hfr); [| exact Hok].
    intros j x y Hx Hy. destruct (decide (j = pidx)) as [-> | Hj].
    + rewrite Hp in Hx. rewrite Hp' in Hy. inversion Hx; inversion Hy; subst x y.
      rewrite Hl12. symmetry. apply Hpm.
    + rewrite (Hother j Hj) in Hy. unfold l1 in Hy.
      rewrite list_lookup_insert_ne in Hy by auto. congruence.
  - intros E. congruence.
  - intros _. exists pidx. split; [reflexivity |].
    split.
    { intros j Hj. rewrite (Hother j Hj). unfold l1.
      now rewrite list_lookup_insert_ne by auto. }
    intros b Hb j. unfold nested_of, direct_of.
    destruct (j =? pidx)%nat eqn:Ej.
    + apply Nat.eqb_eq in Ej. subst j. rewrite Hp', Hp, Hc.
      destruct b as [|m]; simpl.
      * exact Hnt.
      * rewrite Hnth. simpl in Hb.
        assert (E : (m <? 0 + 12)%nat = true) by (apply Nat.ltb_lt; lia).
        now rewrite E.
    + apply Nat.eqb_neq in Ej. rewrite (Hother j Ej). unfold l1.
      now rewrite list_lookup_insert_ne by auto.
Qed.

End Rollup.

(** ** The roll-up as a whole *)

Section Passes.

Context {A : Type}.
Variable zero : A.
Variable add : A → A → A.

Lemma tree_par_lev (l0 : list (CatCode.t A)) :
  tree_ok l0 → ∀ j p, parent_of l0 j = Some p → level_of l0 j = S (level_of l0 p).
Proof.
  intros Hok j p. unfold parent_of, level_of.
  destruct (l0 !! j) as [c|] eqn:E; [| discriminate].
  intros Hp. destruct (Hok j c E) as (_ & _ & Hpok & _).
  destruct (Hpok p Hp) as (cp & -> & Hl). exact Hl.
Qed.

Lemma tree_parent_level (l0 : list (CatCode.t A)) :
  tree_ok l0 → ∀ j p, parent_of l0 j = Some p → (1 ≤ level_of l0 p)%nat.
Proof.
  intros Hok j p. unfold parent_of, level_of.
  destruct (l0 !! j) as [c|] eqn:E; [| discriminate].
  intros Hp. destruct (Hok j c E) as (_ & _ & Hpok & _).
  destruct (Hpok p Hp) as (cp & Hcp & Hl). rewrite Hcp.
  destruct (Hok p cp Hcp) as (H & _). lia.
Qed.

Lemma tree_level_le (l0 : list (CatCode.t A)) :
  tree_ok l0 → ∀ j, (level_of l0 j ≤ 4)%nat.
Proof.
  intros Hok j. unfold level_of. destruct (l0 !! j) as [c|] eqn:E; simpl; [| lia].
  destruct (Hok j c E) as (H & _). lia.
Qed.

Lemma strict_descendant_descends (l : list (CatCode.t A)) :
  tree_ok l → ∀ i j, strict_descendant l i j = true ↔ descends l j i.
Proof.
  intros Hok i j. unfold strict_descendant, ancestor. split.
  - generalize 4%nat as fuel. intros fuel. revert j.
    induction fuel as [|f IH]; intros j H; simpl in H; [discriminate |].
    destruct (parent_of l j) as [p|] eqn:E; [| discriminate].
    destruct (p =? i)%nat eqn:Ep.
    + apply Nat.eqb_eq in Ep. subst p. now apply descends_child.
    + eapply descends_step; eauto.
  - intros H.
    assert (Hgen : ∀ f, (level_of l j ≤ S f)%nat →
                        reach (parent_of l) (fun _ => true) f i j = true).
    { induction H as [j i Hp | j p i Hp Hd IH]; intros f Hf.
      - pose proof (tree_par_lev l Hok j i Hp).
        pose proof (tree_parent_level l Hok j i Hp).
        destruct f as [|f]; [lia |]. simpl. now rewrite Hp, Nat.eqb_refl.
      - pose proof (tree_par_lev l Hok j p Hp).
        pose proof (tree_parent_level l Hok j p Hp).
        destruct f as [|f]; [lia |].
        simpl. rewrite Hp. destruct (p =? i)%nat; [reflexivity |].
        apply IH. lia. }
    apply Hgen. pose proof (tree_level_le l Hok j). lia.
Qed.

Hypothesis add_assoc : ∀ x y z, add x (add y z) = add (add x y) z.
Hypothesis add_comm : ∀ x y, add x y = add y x.
Hypothesis add_zero_l : ∀ x, add zero x = x.

Lemma rollup_turn_inv (l0 l : list (CatCode.t A)) (lvl k : nat) :
  tree_ok l0 → (1 < lvl)%nat → (k < length l0)%nat →
  rollup_inv zero add l0 lvl k l →
  ∃ l', rollup_turn add lvl k l = Done l' ∧ rollup_inv zero add l0 lvl (S k) l'.
Proof using add_assoc add_comm add_zero_l.
  intros Hok0 Hlvl Hk (Hfr & Hok & Hsum).
  destruct (direct_unchanged_of zero l0 l Hfr) as (Hlen & Hsame).
  destruct (lookup_lt_is_Some_2 l k) as [c Hc]; [lia |].
  destruct (rollup_turn_spec zero add l lvl k c Hok Hc Hlvl)
    as (l' & Hrun & Hfr' & Hok' & Hskip & Hfold).
  exists l'. split; [exact Hrun |].
  assert (Hlev : level_of l0 k = CatCode.level c).
  { destruct (Hsame k) as (_ & <- & _). unfold level_of. now rewrite Hc. }
  pose proof (tree_par_lev l0 Hok0) as Hpl.
  pose proof (tree_level_le l0 Hok0) as Hl4.
  split; [eapply Forall2_chain; [apply direct_unchanged_trans | exact Hfr | exact Hfr'] |].
  split; [exact Hok' |].
  intros b Hb i Hi.
  destruct (Nat.eq_dec (CatCode.level c) lvl) as [El | El].
  - (* the category [k] is folded into its parent *)
    destruct (Hfold El) as (pidx & Hpar & _ & Hnested).
    assert (Hpar0 : parent_of l0 k = Some pidx).
    { destruct (Hsame k) as (<- & _). unfold parent_of. now rewrite Hc. }
    pose proof (Hpl k pidx Hpar0) as Hlk.
    assert (Hagree : ∀ x, x ≠ k → folded (level_of l0) lvl (S k) x
                                    = folded (level_of l0) lvl k x).
    { intros x Hx. unfold folded. f_equal. f_equal.
      destruct (x <? S k)%nat eqn:E1, (x <? k)%nat eqn:E2; try reflexivity;
        apply Nat.ltb_lt in E1 || apply Nat.ltb_ge in E1;
        apply Nat.ltb_lt in E2 || apply Nat.ltb_ge in E2; lia. }
    rewrite Hnested by exact Hb.
    destruct (i =? pidx)%nat eqn:Ei.
    + apply Nat.eqb_eq in Ei. subst i.
      assert (Hpk : (k < length l0)%nat) by exact Hk.
      rewrite (Hsum b Hb pidx Hi), (Hsum b Hb k Hk).
      replace (direct_of zero b l k) with (direct_of zero b l0 k)
        by (symmetry; apply Hsame).
      (* the figure of [k] is already the sum over its descendants *)
      rewrite (sum_where_ext zero add
                 (reach (parent_of l0) (folded (level_of l0) lvl k) 4 k)
                 (ancestor (parent_of l0) 4 k)).
      2:{ intros j _. unfold ancestor. apply reach_ext. intros x Hx.
          apply Hpl in Hx. unfold folded.
          assert (E : (lvl <? level_of l0 x)%nat = true)
            by (apply Nat.ltb_lt; lia).
          now rewrite E. }
      (* [k] itself and its descendants *)
      assert (Hself : add (direct_of zero b l0 k)
                        (sum_where zero add (ancestor (parent_of l0) 4 k)
                           (direct_of zero b l0) (seq 0 (length l0)))
                      = sum_where zero add
                          (fun j => (j =? k)%nat || ancestor (parent_of l0) 4 k j)
                          (direct_of zero b l0) (seq 0 (length l0))).
      { rewrite (sum_where_or zero add add_assoc add_comm add_zero_l
                   (fun j => (j =? k)%nat) (ancestor (parent_of l0) 4 k)
                   (fun j => (j =? k)%nat || ancestor (parent_of l0) 4 k j)).
        - f_equal. symmetry.
          apply (sum_where_single zero add add_comm add_zero_l);
            [apply NoDup_seq | apply in_seq; lia].
        - reflexivity.
        - intros j _. destruct (j =? k)%nat eqn:Ej; [| reflexivity].
          apply Nat.eqb_eq in Ej. subst j. simpl.
          destruct (ancestor (parent_of l0) 4 k k) eqn:Ea; [| reflexivity].
          apply (reach_lev _ _ Hpl) in Ea. lia. }
      rewrite Hself. symmetry.
      apply (sum_where_or zero add add_assoc add_comm add_zero_l).
      * intros j _.
        destruct ((j =? k)%nat || ancestor (parent_of l0) 4 k j) eqn:Eq.
        -- rewrite (reach_through _ _ Hpl _ k pidx Hpar0 4 j); [| | exact Eq].
           ++ unfold folded. rewrite Hlev, El, Nat.eqb_refl.
              assert (E : (k <? S k)%nat = true) by (apply Nat.ltb_lt; lia).
              rewrite E. now rewrite !orb_true_r.
           ++ pose proof (Hl4 j). lia.
        -- rewrite orb_false_r.
           apply (reach_elsewhere _ _ _ k); [exact Hagree | exact Eq].
      * intros j _.
        destruct ((j =? k)%nat || ancestor (parent_of l0) 4 k j) eqn:Eq;
          [| apply andb_false_r].
        rewrite (reach_through _ _ Hpl _ k pidx Hpar0 4 j); [| | exact Eq].
        -- unfold folded. rewrite Hlev, El, Nat.eqb_refl.
           assert (E1 : (lvl <? lvl)%nat = false) by (apply Nat.ltb_ge; lia).
           assert (E2 : (k <? k)%nat = false) by (apply Nat.ltb_ge; lia).
           now rewrite E1, E2.
        -- pose proof (Hl4 j). lia.
    + apply Nat.eqb_neq in Ei. rewrite (Hsum b Hb i Hi).
      apply sum_where_ext. intros j _. apply reach_ext.
      intros x Hx. symmetry. apply Hagree. intros ->. congruence.
  - (* the category [k] is not of this level *)
    rewrite (Hskip El). rewrite (Hsum b Hb i Hi).
    apply sum_where_ext. intros j _. apply reach_ext. intros x _.
    unfold folded. f_equal.
    destruct (level_of l0 x =? lvl)%nat eqn:Ex; [| reflexivity]. simpl.
    apply Nat.eqb_eq in Ex.
    destruct (x <? k)%nat eqn:E1, (x <? S k)%nat eqn:E2; try reflexivity;
      apply Nat.ltb_lt in E1 || apply Nat.ltb_ge in E1;
      apply Nat.ltb_lt in E2 || apply Nat.ltb_ge in E2; try lia.
    assert (x = k) by lia. subst x. congruence.
Qed.

Lemma rollup_level_inv (l0 l : list (CatCode.t A)) (lvl : nat) :
  tree_ok l0 → (1 < lvl)%nat → rollup_inv zero add l0 lvl 0 l →
  ∃ l', rollup_level add lvl l = Done l' ∧ rollup_inv zero add l0 lvl (length l0) l'.
Proof using add_assoc add_comm add_zero_l.
  intros Hok0 Hlvl Hinv. unfold rollup_level.
  assert (Hlen : length l = length l0).
  { destruct Hinv as (Hfr & _). symmetry. eapply Forall2_length; eauto. }
  rewrite Hlen.
  apply (for_each_seq_total (rollup_inv zero add l0 lvl) (rollup_turn add lvl) (length l0) 0 l);
    [| exact Hinv].
  intros k s1 Hk Hs1. apply rollup_turn_inv; auto. lia.
Qed.

(** When a level is done, the next one starts. *)
Lemma rollup_inv_next (l0 l : list (CatCode.t A)) (lvl : nat) :
  rollup_inv zero add l0 (S lvl) (length l0) l → rollup_inv zero add l0 lvl 0 l.
Proof.
  intros (Hfr & Hok & Hsum). split; [exact Hfr |]. split; [exact Hok |].
  intros b Hb i Hi. rewrite (Hsum b Hb i Hi).
  apply sum_where_ext. intros j _. apply reach_ext. intros x Hx.
  assert (Hxn : (x < length l0)%nat).
  { unfold parent_of in Hx. destruct (l0 !! x) eqn:E; [| discriminate].
    eapply lookup_lt_Some; eauto. }
  unfold folded.
  assert (E0 : (x <? 0)%nat = false) by reflexivity.
  assert (En : (x <? length l0)%nat = true) by (apply Nat.ltb_lt; lia).
  rewrite E0, En, andb_false_r, andb_true_r, orb_false_r.
  destruct (S lvl <? level_of l0 x)%nat eqn:E1,
           (level_of l0 x =? S lvl)%nat eqn:E2,
           (lvl <? level_of l0 x)%nat eqn:E3; try reflexivity;
    apply Nat.ltb_lt in E1 || apply Nat.ltb_ge in E1;
    apply Nat.eqb_eq in E2 || apply Nat.eqb_neq in E2;
    apply Nat.ltb_lt in E3 || apply Nat.ltb_ge in E3; lia.
Qed.

(** Before the first level nothing is folded. *)
Lemma rollup_inv_start (l0 : list (CatCode.t A)) :
  tree_ok l0 →
  (∀ b, bucket_ok b → ∀ i, nested_of zero b l0 i = zero) →
  rollup_inv zero add l0 4 0 l0.
Proof.
  intros Hok Hzero. split; [apply Forall2_refl_on, direct_unchanged_refl |].
  split; [exact Hok |].
  intros b Hb i Hi. rewrite (Hzero b Hb i). symmetry.
  apply sum_where_false. intros j _. apply reach_false. intros x _.
  unfold folded. pose proof (tree_level_le l0 Hok x).
  assert (E : (4 <? level_of l0 x)%nat = false) by (apply Nat.ltb_ge; lia).
  rewrite E. simpl. apply andb_false_r.
Qed.

Lemma reach_par_ext (par par' : nat → option nat) (proc : nat → bool) (fuel : nat) :
  (∀ x, par x = par' x) → ∀ i j, reach par proc fuel i j = reach par' proc fuel i j.
Proof.
  intros H. induction fuel as [|f IH]; intros i j; simpl; [reflexivity |].
  rewrite <- H. destruct (par j) as [p|]; [| reflexivity].
  destruct (p =? i)%nat; [reflexivity | apply IH].
Qed.

Lemma sum_where_ext_fun (P : nat → bool) (f f' : nat → A) (js : list nat) :
  (∀ j, f j = f' j) → sum_where zero add P f js = sum_where zero add P f' js.
Proof.
  intros H. unfold sum_where. f_equal. apply map_ext. intros j. apply H.
Qed.

(** After the last level every figure is the sum over the descendants. *)
Lemma rollup_inv_end (l0 l : list (CatCode.t A)) :
  tree_ok l0 → rollup_inv zero add l0 2 (length l0) l →
  ∀ b, bucket_ok b → ∀ i, (i < length l)%nat →
       nested_of zero b l i = descendants_total zero add b l i.
Proof.
  intros Hok0 (Hfr & Hok & Hsum) b Hb i Hi.
  destruct (direct_unchanged_of zero l0 l Hfr) as (Hlen & Hsame).
  rewrite Hlen in Hi. rewrite (Hsum b Hb i Hi).
  unfold descendants_total, strict_descendant, ancestor. rewrite Hlen.
  rewrite (sum_where_ext_fun _ (direct_of zero b l) (direct_of zero b l0))
    by (intros j; apply Hsame).
  apply sum_where_ext. intros j _.
  rewrite (reach_par_ext (parent_of l) (parent_of l0)) by (intros x; apply Hsame).
  apply reach_ext. intros x Hx.
  assert (Hxn : (x < length l0)%nat).
  { unfold parent_of in Hx. destruct (l0 !! x) eqn:E; [| discriminate].
    eapply lookup_lt_Some; eauto. }
  pose proof (tree_par_lev l0 Hok0 x i Hx).
  pose proof (tree_parent_level l0 Hok0 x i Hx).
  unfold folded.
  assert (En : (x <? length l0)%nat = true) by (apply Nat.ltb_lt; lia).
  rewrite En, andb_true_r.
  destruct (2 <? level_of l0 x)%nat eqn:E1; [reflexivity |].
  apply Nat.ltb_ge in E1. simpl. apply Nat.eqb_eq. lia.
Qed.

(** The roll-up of a tree whose nested figures are zero. *)
Lemma rollup_tree (g : globals A) :
  tree_ok (cat_list g) →
  (∀ b, bucket_ok b → ∀ i, nested_of zero b (cat_list g) i = zero) →
  ∃ g', rollup add g = Done g'
        ∧ Forall2 direct_unchanged (cat_list g) (cat_list g')
        ∧ tree_ok (cat_list g')
        ∧ ∀ b, bucket_ok b → ∀ i, (i < length (cat_list g'))%nat →
               nested_of zero b (cat_list g') i
               = descendants_total zero add b (cat_list g') i.
Proof using add_assoc add_comm add_zero_l.
  intros Hok Hzero. unfold rollup. simpl.
  destruct (rollup_level_inv (cat_list g) (cat_list g) 4 Hok)
    as (l4 & H4 & I4); [lia | now apply rollup_inv_start |].
  destruct (rollup_level_inv (cat_list g) l4 3 Hok)
    as (l3 & H3 & I3); [lia | now apply rollup_inv_next |].
  destruct (rollup_level_inv (cat_list g) l3 2 Hok)
    as (l2 & H2 & I2); [lia | now apply rollup_inv_next |].
  rewrite H4. simpl. rewrite H3. simpl. rewrite H2. simpl.
  eexists. split; [reflexivity |]. simpl.
  destruct I2 as (Hfr & Hok2 & Hsum). splits; auto.
  apply (rollup_inv_end (cat_list g) l2 Hok). split; auto.
Qed.

End Passes.

(** ** From the files to the roll-up *)

Lemma same_shape_refl {A : Type} (c : CatCode.t A) : same_shape c c.
Proof. unfold same_shape. repeat split. Qed.

Lemma same_shape_trans {A : Type} (a b c : CatCode.t A) :
  same_shape a b → same_shape b c → same_shape a c.
Proof.
  unfold same_shape. intros (H1 & H2 & H3 & H4) (H5 & H6 & H7 & H8).
  repeat split; congruence.
Qed.

Lemma tree_ok_same_shape {A : Type} (l l' : list (CatCode.t A)) :
  Forall2 same_shape l l' → tree_ok l → tree_ok l'.
Proof.
  intros H Hok i c' Hi.
  destruct (Forall2_lookup_r _ _ _ _ _ H Hi) as (c & Hc & (Hl & Hp & Hm & Hn)).
  destruct (Hok i c Hc) as (H1 & H2 & H3 & H4 & H5).
  split; [rewrite Hl; exact H1 |].
  split; [rewrite Hl, Hp; exact H2 |].
  split; [| split; congruence].
  intros p Hpp. rewrite Hp in Hpp. destruct (H3 p Hpp) as (cp & Hcp & Hlev).
  destruct (Forall2_lookup_l _ _ _ _ _ H Hcp) as (cp' & Hcp' & (Hl' & _)).
  exists cp'. split; [exact Hcp' | congruence].
Qed.

Section Pipeline.

Context {A : Type}.
Variable zero : A.
Variable add : A → A → A.
Variable parse_journal_line : string → Z → journal_result A.

Lemma journal_file_turn_shape (y : Z) (line_nbr : nat) (line : string)
    (g g' : globals A) (idx idx' : nat) :
  journal_file_turn add parse_journal_line y line_nbr line (g, idx) = Done (g', idx') →
  Forall2 same_shape (cat_list g) (cat_list g').
Proof.
  unfold journal_file_turn.
  destruct (parse_journal_line line y) as [|msg|date de amt ty code]; try discriminate.
  - intros H; inversion H; subst. apply Forall2_refl_on, same_shape_refl.
  - destruct (truthy code);
      [| intros H; inversion H; subst; apply Forall2_refl_on, same_shape_refl].
    destruct (cat_dict g !! code) as [cat_idx|]; [| discriminate].
    intros H.
    apply bind_Done in H as (c & Hc & H). apply index_Done in Hc.
    apply bind_Done in H as (month & Hm & H).
    apply bind_Done in H as (mon_idx & Hmi & H).
    apply bind_Done in H as (old & Hold & H).
    inversion H; subst g' idx'. simpl.
    eapply Forall2_update; [apply same_shape_refl | exact Hc |].
    unfold same_shape.
    destruct (CatCode.longest _ <? _)%nat; simpl; rewrite length_insert;
      repeat split.
Qed.

Lemma read_and_parse_journal_file_tree (journal_file : list string) (y : Z)
    (g g' : globals A) :
  read_and_parse_journal_file add parse_journal_line journal_file y g = Done g' →
  tree_ok (cat_list g) → tree_ok (cat_list g').
Proof.
  intros H. apply tree_ok_same_shape.
  unfold read_and_parse_journal_file in H.
  apply bind_Done in H as ([g1 i1] & Hloop & H). simpl in H.
  destruct (length (journal_list g1) =? 0)%nat; [discriminate |].
  inversion H; subst g'.
  apply (for_each_invariant
           (fun s => Forall2 same_shape (cat_list g) (cat_list (fst s))))
    in Hloop; auto.
  - intros [n line] [ga ia] [gb ib] _ Ha Hturn. simpl in *.
    eapply Forall2_chain; [apply same_shape_trans | exact Ha |].
    eapply journal_file_turn_shape; eauto.
  - apply Forall2_refl_on, same_shape_refl.
Qed.

Lemma main_loaded (cat_file journal_file : list string) (y : Z) (g : globals A) :
  main zero add parse_journal_line cat_file journal_file y = Done g ↔
  ∃ g3, loaded zero add parse_journal_line cat_file journal_file y g3 ∧ rollup add g3 = Done g.
Proof.
  unfold main, loaded. split.
  - intros H.
    apply bind_Done in H as (g1 & H1 & H).
    apply bind_Done in H as (g2 & H2 & H).
    apply bind_Done in H as (g3 & H3 & H).
    exists g3. split; [exists g1, g2; auto | exact H].
  - intros (g3 & (g1 & g2 & H1 & H2 & H3) & H).
    rewrite H1. simpl. rewrite H2. simpl. rewrite H3. simpl. exact H.
Qed.

Lemma nth_replicate_zero (m n : nat) : nth m (replicate n zero) zero = zero.
Proof.
  rewrite nth_lookup. destruct (replicate n zero !! m) as [x|] eqn:E; [| reflexivity].
  apply lookup_replicate in E as [-> _]. reflexivity.
Qed.

(** What the roll-up starts from. *)
Lemma loaded_tree (cat_file journal_file : list string) (y : Z) (g : globals A) :
  loaded zero add parse_journal_line cat_file journal_file y g →
  tree_ok (cat_list g)
  ∧ Forall (fun c => CatCode.nested_total c = zero
                     ∧ CatCode.nested_monthly c = replicate 12 zero) (cat_list g).
Proof.
  intros (g1 & g2 & H1 & H2 & H3).
  split.
  - eapply read_and_parse_journal_file_tree; [exact H3 |].
    eapply prc_cat_file_hierarchy_tree; eauto.
  - pose proof (read_and_parse_cat_file_zero zero cat_file globals_init g1
                  (Forall_nil_2 _) H1) as Hz1.
    pose proof (prc_cat_file_hierarchy_frame _ _ H2) as Hf2.
    pose proof (read_and_parse_journal_file_frame add parse_journal_line _ _ _ _ H3) as Hf3.
    apply Forall_lookup. intros i c3 Hi3.
    destruct (Forall2_lookup_r _ _ _ _ _ Hf3 Hi3) as (c2 & Hi2 & (_ & N1 & N2)).
    destruct (Forall2_lookup_r _ _ _ _ _ Hf2 Hi2) as (c1 & Hi1 & (_ & U2 & _ & U4)).
    rewrite Forall_lookup in Hz1. destruct (Hz1 i c1 Hi1) as (_ & Z2 & _ & Z4).
    split; congruence.
Qed.

Lemma loaded_nested_zero (cat_file journal_file : list string) (y : Z) (g : globals A) :
  loaded zero add parse_journal_line cat_file journal_file y g →
  ∀ b, bucket_ok b → ∀ i, nested_of zero b (cat_list g) i = zero.
Proof.
  intros H b Hb i. apply loaded_tree in H as [_ Hz].
  unfold nested_of. destruct (cat_list g !! i) as [c|] eqn:E; [| reflexivity].
  rewrite Forall_lookup in Hz. destruct (Hz i c E) as [Z1 Z2].
  destruct b as [|m]; simpl; [exact Z1 |]. rewrite Z2. apply nth_replicate_zero.
Qed.

(** A turn of the roll-up never writes into a category of level 4. *)
Lemma rollup_turn_deepest (lvl k : nat) (l l' : list (CatCode.t A)) :
  (1 < lvl)%nat → (k < length l)%nat → tree_ok l → deepest_zero zero l →
  rollup_turn add lvl k l = Done l' →
  length l' = length l ∧ tree_ok l' ∧ deepest_zero zero l'.
Proof.
  intros Hlvl Hk Hok Hdz Hrun.
  destruct (lookup_lt_is_Some_2 l k Hk) as [c Hc].
  destruct (rollup_turn_spec zero add l lvl k c Hok Hc Hlvl)
    as (l1 & Hrun1 & Hfr & Hok1 & Hskip & Hfold).
  rewrite Hrun in Hrun1. inversion Hrun1; subst l1. clear Hrun1.
  split; [symmetry; eapply Forall2_length; eauto |]. split; [exact Hok1 |].
  destruct (Nat.eq_dec (CatCode.level c) lvl) as [El | El].
  - destruct (Hfold El) as (pidx & Hpar & Hother & _).
    intros i x Hi Hx.
    destruct (Hok k c Hc) as (Hl4 & _ & Hpok & _).
    destruct (Hpok pidx Hpar) as (p & Hp & Hpl).
    destruct (decide (i = pidx)) as [-> | Hne].
    + destruct (Forall2_lookup_r _ _ _ _ _ Hfr Hi) as (p0 & Hp0 & ((_ & _ & _ & Hl & _) & _)).
      rewrite Hp in Hp0. inversion Hp0; subst p0. lia.
    + rewrite (Hother i Hne) in Hi. apply (Hdz i x Hi Hx).
  - rewrite (Hskip El). exact Hdz.
Qed.

Lemma rollup_level_deepest (lvl : nat) (l l' : list (CatCode.t A)) :
  (1 < lvl)%nat → tree_ok l → deepest_zero zero l →
  rollup_level add lvl l = Done l' →
  length l' = length l ∧ tree_ok l' ∧ deepest_zero zero l'.
Proof.
  intros Hlvl Hok Hdz Hrun. unfold rollup_level in Hrun.
  apply (for_each_seq_invariant
           (fun _ s => length s = length l ∧ tree_ok s ∧ deepest_zero zero s))
    in Hrun; auto.
  intros k s1 s2 Hk (Hlen & Hok1 & Hdz1) Hturn.
  destruct (rollup_turn_deepest lvl k s1 s2) as (H1 & H2 & H3); auto; try lia.
  splits; auto. congruence.
Qed.

(** C10. After the roll-up every category of level 4, the deepest level,
    still has a nested total of zero and nested monthly figures all zero:
    the roll-up writes into parents only, and no category is the parent of
    a category of level 4 or less while being itself of level 4. *)
Theorem deepest_level_nested_zero (cat_file journal_file : list string) (y : Z)
    (g : globals A) :
  main zero add parse_journal_line cat_file journal_file y = Done g →
  ∀ i c, cat_list g !! i = Some c →
         (CatCode.level c ≤ 4)%nat
         ∧ (CatCode.level c = 4%nat →
            CatCode.nested_total c = zero
            ∧ CatCode.nested_monthly c = replicate 12 zero).
Proof.
  intros H. apply main_loaded in H as (g3 & Hload & Hroll).
  destruct (loaded_tree _ _ _ _ Hload) as [Hok Hz].
  assert (Hdz : deepest_zero zero (cat_list g3)).
  { intros i c Hi _. rewrite Forall_lookup in Hz. apply (Hz i c Hi). }
  unfold rollup in Hroll. apply bind_Done in Hroll as (l & Hl & Hg).
  inversion Hg; subst g. simpl. clear Hg.
  simpl in Hl.
  apply bind_Done in Hl as (l4 & H4 & Hl).
  apply bind_Done in Hl as (l3 & H3 & Hl).
  apply bind_Done in Hl as (l2 & H2 & Hl).
  inversion Hl; subst l. clear Hl.
  destruct (rollup_level_deepest 4 _ _ ltac:(lia) Hok Hdz H4) as (_ & Hok4 & Hdz4).
  destruct (rollup_level_deepest 3 _ _ ltac:(lia) Hok4 Hdz4 H3) as (_ & Hok3 & Hdz3).
  destruct (rollup_level_deepest 2 _ _ ltac:(lia) Hok3 Hdz3 H2) as (_ & Hok2 & Hdz2).
  intros i c Hi. split.
  - destruct (Hok2 i c Hi) as (Hlev & _). lia.
  - apply (Hdz2 i c Hi).
Qed.

End Pipeline.

(** ** The nested totals *)

Section Totals.

Context {A : Type}.
Variable zero : A.
Variable add : A → A → A.
Variable parse_journal_line : string → Z → journal_result A.

Hypothesis add_assoc : ∀ x y z, add x (add y z) = add (add x y) z.
Hypothesis add_comm : ∀ x y, add x y = add y x.
Hypothesis add_zero_l : ∀ x, add zero x = x.

(** C1. When dollar values add up exactly (the addition is associative and
  commutative, and zero is neutral), the roll-up of the loaded files always
  ends, and then the nested total of every category is the sum of the
  direct totals of its strict descendants, and each of its twelve nested
  monthly figures is the sum of the direct figures of that month over the
  same descendants; the strict descendants are the categories from which
  the category is met going up from parent to parent. *)
Theorem nested_totals_sum_descendants (cat_file journal_file : list string) (y : Z) :
(∀ g3, loaded zero add parse_journal_line cat_file journal_file y g3 →
       ∃ g, main zero add parse_journal_line cat_file journal_file y = Done g)
∧ ∀ g, main zero add parse_journal_line cat_file journal_file y = Done g →
    ∀ i c, cat_list g !! i = Some c →
      CatCode.nested_total c = descendants_total zero add YTD (cat_list g) i
      ∧ (∀ m, (m < 12)%nat →
           CatCode.nested_monthly c !! m
           = Some (descendants_total zero add (Month m) (cat_list g) i))
      ∧ (∀ j, strict_descendant (cat_list g) i j = true ↔ descends (cat_list g) j i).
Proof using add_assoc add_comm add_zero_l.
assert (Hroll : ∀ g3, loaded zero add parse_journal_line cat_file journal_file y g3 →
          ∃ g, rollup add g3 = Done g ∧ tree_ok (cat_list g)
               ∧ ∀ b, bucket_ok b → ∀ i, (i < length (cat_list g))%nat →
                   nested_of zero b (cat_list g) i
                   = descendants_total zero add b (cat_list g) i).
{ intros g3 Hload.
  destruct (loaded_tree _ _ _ _ _ _ _ Hload) as [Hok _].
  destruct (rollup_tree zero add add_assoc add_comm add_zero_l g3 Hok
              (loaded_nested_zero _ _ _ _ _ _ _ Hload))
    as (g & Hr & _ & Hok' & Hsum).
  exists g. auto. }
split.
- intros g3 Hload. destruct (Hroll g3 Hload) as (g & Hr & _).
  exists g. apply main_loaded. exists g3. auto.
- intros g Hmain i c Hi.
  apply main_loaded in Hmain as (g3 & Hload & Hr).
  destruct (Hroll g3 Hload) as (g' & Hr' & Hok & Hsum).
  rewrite Hr in Hr'. inversion Hr'; subst g'. clear Hr'.
  assert (Hlt : (i < length (cat_list g))%nat) by (eapply lookup_lt_Some; eauto).
  splits.
  + rewrite <- (Hsum YTD I i Hlt). unfold nested_of. rewrite Hi. reflexivity.
  + intros m Hm. rewrite <- (Hsum (Month m) Hm i Hlt). unfold nested_of. rewrite Hi.
    simpl. destruct (Hok i c Hi) as (_ & _ & _ & _ & Hlen).
    destruct (lookup_lt_is_Some_2 (CatCode.nested_monthly c) m) as [x Hx]; [lia |].
    rewrite Hx. f_equal. symmetry. apply nth_lookup_Some with (d := zero) in Hx. exact Hx.
  + intros j. apply strict_descendant_descends. exact Hok.
Qed.

End Totals.

Lemma household_cents_run :
  main 0%Z Z.add parse_journal_file_line_cents household_cat_file household_journal_file 2015
  = Done household_cents.
Proof. vm_compute. reflexivity. Qed.

Lemma nested_totals_sum_descendants_witness :
  ∃ c, cat_list household_cents !! 2 = Some c
       ∧ CatCode.cat_str c = "2"
       ∧ CatCode.nested_total c = (-54170)%Z
       ∧ CatCode.nested_total c
         = descendants_total 0%Z Z.add YTD (cat_list household_cents) 2
       ∧ CatCode.nested_monthly c !! 3%nat
         = Some (descendants_total 0%Z Z.add (Month 3) (cat_list household_cents) 2).
Proof.
  eexists. split; [reflexivity |]. split; [reflexivity |]. split; [reflexivity |].
  pose proof (proj2 (nested_totals_sum_descendants 0%Z Z.add parse_journal_file_line_cents
                Z.add_assoc Z.add_comm Z.add_0_l
                household_cat_file household_journal_file 2015)
                household_cents household_cents_run 2%nat _ eq_refl) as H.
  split; [exact (proj1 H) | exact (proj1 (proj2 H) 3%nat ltac:(lia))].
Defined.

(** The files [branches_cat_file] and [branches_journal_file] in floats: the
    nested total of category 1 is (0.10 + 0.10) + (1.10 + 3.30), which is
    4.6000000000000005; the direct totals of its strict descendants add up to
    4.6 from left to right, from right to left, and in every other order. *)
Lemma nested_total_not_descendants_sum :
  cashflow branches_cat_file branches_journal_file 2015 = Done branches
  ∧ ∃ c, cat_list branches !! 0%nat = Some c
        ∧ CatCode.cat_str c = "1"
        ∧ CatCode.nested_total c = 4.6000000000000005%float
        ∧ descendants_total 0%float PrimFloat.add YTD (cat_list branches) 0 = 4.6%float
        ∧ CatCode.nested_total c
          ≠ descendants_total 0%float PrimFloat.add YTD (cat_list branches) 0
        ∧ forallb (fun xs => PrimFloat.eqb (sum_list 0%float PrimFloat.add xs) 4.6)
            (permutations
               (map (direct_of 0%float YTD (cat_list branches))
                  (List.filter (strict_descendant (cat_list branches) 0)
                     (seq 0 (length (cat_list branches))))))
          = true.
Proof.
  split; [vm_compute; reflexivity |].
  eexists. split; [reflexivity |]. split; [reflexivity |].
  split; [vm_compute; reflexivity |]. split; [vm_compute; reflexivity |].
  split; [| vm_compute; reflexivity].
  intros H. apply (f_equal (fun x => PrimFloat.eqb x 4.6)) in H.
  vm_compute in H. discriminate.
Qed.

(** ** Parents and children in the category file *)

(** C2. The hierarchy pass looks the parent code up once the whole file has
    been read: a child that comes before its parent in the file is accepted,
    and gets that parent; only a parent that is in no line of the file ends
    the run. *)
Theorem child_before_parent_accepted :
  (∃ g1 g, read_and_parse_cat_file 0%float child_first_cat_file globals_init = Done g1
           ∧ prc_cat_file_hierarchy g1 = Done g
           ∧ (CatCode.cat_str <$> cat_list g !! 1%nat) = Some "3.2.6"
           ∧ (CatCode.line_nbr <$> cat_list g !! 1%nat) = Some 2%nat
           ∧ (CatCode.parent <$> cat_list g !! 1%nat) = Some (Some 2%nat)
           ∧ (CatCode.cat_str <$> cat_list g !! 2%nat) = Some "3.2"
           ∧ (CatCode.line_nbr <$> cat_list g !! 2%nat) = Some 3%nat
           ∧ (CatCode.children <$> cat_list g !! 2%nat) = Some [1%nat])
  ∧ (∃ g1, read_and_parse_cat_file 0%float orphan_cat_file globals_init = Done g1
           ∧ prc_cat_file_hierarchy g1 = Exit (MissingParent "3.2" "3.2.6")).
Proof.
  split.
  - eexists. eexists. split; [vm_compute; reflexivity |].
    split; [vm_compute; reflexivity |]. repeat split.
  - eexists. split; [vm_compute; reflexivity |]. vm_compute. reflexivity.
Qed.

(** ** Level 4 *)

Lemma household_run :
  main 0%float PrimFloat.add parse_journal_file_line
    household_cat_file household_journal_file 2015 = Done household.
Proof. vm_compute. reflexivity. Qed.

Lemma deepest_level_nested_zero_witness :
  ∃ c, cat_list household !! 5%nat = Some c
       ∧ CatCode.cat_str c = "2.1.1.1"
       ∧ CatCode.level c = 4%nat
       ∧ CatCode.nested_total c = 0%float
       ∧ CatCode.nested_monthly c = replicate 12 0%float.
Proof.
  eexists. split; [reflexivity |]. split; [reflexivity |]. split; [reflexivity |].
  exact (proj2 (deepest_level_nested_zero 0%float PrimFloat.add parse_journal_file_line
                  household_cat_file household_journal_file 2015 household
                  household_run 5%nat _ eq_refl) eq_refl).
Defined.

(** ** The accumulators of the household files *)

Lemma household_passes :
  read_and_parse_cat_file 0%float household_cat_file globals_init = Done household_registry
  ∧ prc_cat_file_hierarchy household_registry = Done household_tree
  ∧ read_and_parse_journal_file PrimFloat.add parse_journal_file_line
      household_journal_file 2015 household_tree = Done household_loaded
  ∧ rollup PrimFloat.add household_loaded = Done household.
Proof. repeat split; vm_compute; reflexivity. Qed.

Lemma accumulator_frames_witness :
  Forall (accumulators_zero 0%float) (cat_list household_tree)
  ∧ Forall2 nested_unchanged (cat_list household_tree) (cat_list household_loaded)
  ∧ Forall2 direct_unchanged (cat_list household_loaded) (cat_list household).
Proof.
  pose proof (accumulator_frames 0%float PrimFloat.add parse_journal_file_line)
    as (_ & H2 & H3 & H4).
  destruct household_passes as (P1 & P2 & P3 & P4).
  split; [exact (H2 _ _ _ P1 P2) |]. split; [exact (H3 _ _ _ _ P3) | exact (H4 _ _ P4)].
Defined.

(** ** Rounding in binary64 *)

Lemma digits2_pos_log2 (p : positive) : Zpos (digits2_pos p) = (Z.log2 (Zpos p) + 1)%Z.
Proof.
  assert (H : digits2_pos p = Pos.size p).
  { induction p as [p IH | p IH |]; simpl; congruence. }
  rewrite H. destruct p; simpl; lia.
Qed.

Lemma shr_1_spec (m : Z) (r s : bool) :
  (0 <= m)%Z →
  shr_1 {| shr_m := m; shr_r := r; shr_s := s |}
  = {| shr_m := (m / 2)%Z; shr_r := Z.odd m; shr_s := r || s |}.
Proof.
  intros Hm. destruct m as [|p|p]; [reflexivity | | lia].
  destruct p as [p|p|]; cbn [shr_1 Z.odd]; f_equal.
  - apply Z.div_unique with (r := 1%Z); lia.
  - apply Z.div_unique with (r := 0%Z); lia.
Qed.

Lemma iter_pos_nat {X : Type} (f : X → X) (p : positive) : ∀ x,
  SpecFloat.iter_pos f p x = Nat.iter (Pos.to_nat p) f x.
Proof.
  induction p as [p IH | p IH |]; intros x; cbn [SpecFloat.iter_pos].
  - rewrite !IH, Pos2Nat.inj_xI.
    replace (S (2 * Pos.to_nat p)) with (Pos.to_nat p + S (Pos.to_nat p))%nat by lia.
    rewrite PeanoNat.Nat.iter_add. f_equal. symmetry. apply PeanoNat.Nat.iter_succ_r.
  - rewrite !IH, Pos2Nat.inj_xO.
    replace (2 * Pos.to_nat p)%nat with (Pos.to_nat p + Pos.to_nat p)%nat by lia.
    now rewrite PeanoNat.Nat.iter_add.
  - reflexivity.
Qed.

Lemma pow2_pos (n : Z) : (0 < 2 ^ n)%Z ∨ (n < 0)%Z.
Proof. destruct (Z_lt_le_dec n 0); [right; lia | left; apply Z.pow_pos_nonneg; lia]. Qed.

Lemma mod_pow2_succ (m k : Z) :
  (0 <= k)%Z →
  (m mod 2 ^ (k + 1) = m mod 2 ^ k + 2 ^ k * (if Z.odd (m / 2 ^ k) then 1 else 0))%Z.
Proof.
  intros Hk. rewrite Z.pow_add_r, Z.pow_1_r by lia.
  rewrite Z.rem_mul_r by (try apply Z.pow_nonzero; lia).
  now rewrite Zmod_odd.
Qed.

Lemma shr_iter (m : Z) : (0 <= m)%Z → ∀ k : nat,
  Nat.iter (S k) shr_1 {| shr_m := m; shr_r := false; shr_s := false |}
  = {| shr_m := (m / 2 ^ Z.of_nat (S k))%Z;
       shr_r := Z.odd (m / 2 ^ Z.of_nat k);
       shr_s := negb (m mod 2 ^ Z.of_nat k =? 0)%Z |}.
Proof.
  intros Hm. induction k as [|k IH].
  - cbn [Nat.iter nat_rect]. rewrite shr_1_spec by exact Hm.
    change (2 ^ Z.of_nat 1)%Z with 2%Z. change (2 ^ Z.of_nat 0)%Z with 1%Z.
    now rewrite Z.div_1_r, Z.mod_1_r.
  - change (Nat.iter (S (S k)) shr_1 ?x) with (shr_1 (Nat.iter (S k) shr_1 x)).
    rewrite IH, shr_1_spec by (apply Z.div_pos; [lia | apply Z.pow_pos_nonneg; lia]).
    f_equal.
    + rewrite Z.div_div by (try apply Z.pow_pos_nonneg; lia).
      f_equal. rewrite (Nat2Z.inj_succ (S k)), Z.pow_succ_r by lia. lia.
    + rewrite (Nat2Z.inj_succ k). unfold Z.succ.
      rewrite mod_pow2_succ by lia.
      assert (H0 : (0 <= m mod 2 ^ Z.of_nat k)%Z)
        by (apply Z.mod_pos_bound, Z.pow_pos_nonneg; lia).
      assert (H1 : (0 < 2 ^ Z.of_nat k)%Z) by (apply Z.pow_pos_nonneg; lia).
      destruct (Z.odd (m / 2 ^ Z.of_nat k)); simpl.
      * symmetry. apply negb_true_iff, Z.eqb_neq. lia.
      * f_equal. f_equal. lia.
Qed.

Lemma rhe_0 (m : Z) : rhe m 0 = m.
Proof. unfold rhe, round_half_even. simpl. lia. Qed.

Lemma rhe_unfold (m n : Z) :
  (0 < n)%Z →
  rhe m n = match (2 * (m mod 2 ^ n) ?= 2 ^ n)%Z with
            | Lt => (m / 2 ^ n)%Z
            | Gt => (m / 2 ^ n + 1)%Z
            | Eq => if Z.even (m / 2 ^ n) then (m / 2 ^ n)%Z else (m / 2 ^ n + 1)%Z
            end.
Proof.
  intros Hn. unfold rhe, round_half_even.
  destruct (0 <=? - n)%Z eqn:E; [apply Z.leb_le in E; lia |].
  now rewrite Z.opp_involutive.
Qed.

Lemma rhe_bounds (m n : Z) :
  (0 <= n)%Z → (m / 2 ^ n <= rhe m n <= m / 2 ^ n + 1)%Z.
Proof.
  intros Hn. destruct (Z.eq_dec n 0%Z) as [-> | Hne].
  - rewrite rhe_0. change (2 ^ 0)%Z with 1%Z. rewrite Z.div_1_r. lia.
  - rewrite rhe_unfold by lia.
    destruct (2 * (m mod 2 ^ n) ?= 2 ^ n)%Z; [destruct (Z.even _) | |]; lia.
Qed.

(** The rounding bit and the sticky bit give the nearest integer. *)
Lemma round_nearest_even_rhe (m n : Z) :
  (0 <= m)%Z → (0 < n)%Z →
  round_nearest_even (m / 2 ^ n)
    (loc_of_shr_record
       {| shr_m := (m / 2 ^ n)%Z;
          shr_r := Z.odd (m / 2 ^ (n - 1));
          shr_s := negb (m mod 2 ^ (n - 1) =? 0)%Z |})
  = rhe m n.
Proof.
  intros Hm Hn. rewrite rhe_unfold by exact Hn.
  assert (E1 : (m mod 2 ^ n
                = m mod 2 ^ (n - 1)
                  + 2 ^ (n - 1) * (if Z.odd (m / 2 ^ (n - 1)) then 1 else 0))%Z).
  { rewrite <- mod_pow2_succ by lia. do 2 f_equal. lia. }
  assert (E2 : (2 ^ n = 2 ^ (n - 1) * 2)%Z).
  { rewrite <- (Z.pow_1_r 2) at 3. rewrite <- Z.pow_add_r by lia. f_equal. lia. }
  remember (m / 2 ^ n)%Z as q eqn:Eq. rewrite E1, E2. clear E1 E2 Eq.
  assert (H0 : (0 <= m mod 2 ^ (n - 1) < 2 ^ (n - 1))%Z)
    by (apply Z.mod_pos_bound, Z.pow_pos_nonneg; lia).
  destruct (Z.odd (m / 2 ^ (n - 1))); cbn [loc_of_shr_record].
  - destruct (m mod 2 ^ (n - 1) =? 0)%Z eqn:E; cbn [negb round_nearest_even].
    + apply Z.eqb_eq in E. rewrite E.
      replace (2 * (0 + 2 ^ (n - 1) * 1) ?= 2 ^ (n - 1) * 2)%Z with Eq
        by (symmetry; apply Z.compare_eq_iff; lia).
      reflexivity.
    + apply Z.eqb_neq in E.
      replace (2 * (m mod 2 ^ (n - 1) + 2 ^ (n - 1) * 1) ?= 2 ^ (n - 1) * 2)%Z with Gt
        by (symmetry; apply Z.compare_gt_iff; lia).
      reflexivity.
  - replace (2 * (m mod 2 ^ (n - 1) + 2 ^ (n - 1) * 0) ?= 2 ^ (n - 1) * 2)%Z with Lt
      by (symmetry; apply Z.compare_lt_iff; lia).
    destruct (negb _); reflexivity.
Qed.

(** A multiple of [2^n] is its own rounding; it goes through a sum when it
    is even. *)
Lemma rhe_exact (a n : Z) : (0 <= n)%Z → rhe (a * 2 ^ n) n = a.
Proof.
  intros Hn. destruct (Z.eq_dec n 0%Z) as [-> | Hne].
  - rewrite rhe_0. change (2 ^ 0)%Z with 1%Z. lia.
  - assert (Hp : (0 < 2 ^ n)%Z) by (apply Z.pow_pos_nonneg; lia).
    rewrite rhe_unfold by lia.
    rewrite Z.mod_mul, Z.div_mul by lia.
    replace (2 * 0 ?= 2 ^ n)%Z with Lt by (symmetry; apply Z.compare_lt_iff; lia).
    reflexivity.
Qed.

Lemma rhe_add (a b n : Z) :
  (0 < n)%Z → Z.even a = true → rhe (a * 2 ^ n + b) n = (a + rhe b n)%Z.
Proof.
  intros Hn Ha.
  assert (Hp : (0 < 2 ^ n)%Z) by (apply Z.pow_pos_nonneg; lia).
  rewrite !rhe_unfold by lia.
  rewrite (Z.add_comm (a * 2 ^ n)), Z.mod_add, Z.div_add by lia.
  rewrite Z.even_add, Ha.
  destruct (2 * (b mod 2 ^ n) ?= 2 ^ n)%Z; [| lia | lia].
  destruct (Z.even (b / 2 ^ n)); simpl; lia.
Qed.

Lemma log2_bounds (m k : Z) : (0 <= k)%Z → (2 ^ k <= m < 2 ^ (k + 1))%Z → Z.log2 m = k.
Proof. intros Hk H. apply Z.log2_unique; [lia | exact H]. Qed.

Lemma fexp_normal (e : Z) : (-1074 <= e - 53)%Z → fexp prec emax e = (e - 53)%Z.
Proof. intros H. unfold fexp, SpecFloat.emin, prec, emax. lia. Qed.

(** Rounding a mantissa of at least 53 bits, away from the subnormal
    numbers and from the overflow. *)
Lemma binary_round_aux_normal (mx : positive) (ex : Z) :
  let n := (Z.log2 (Zpos mx) + 1 - 53)%Z in
  (0 <= n)%Z → (-1074 <= ex + n <= 971)%Z →
  (rhe (Zpos mx) n < 2 ^ 53)%Z →
  binary_round_aux prec emax false (Zpos mx) ex loc_Exact
  = S754_finite false (Z.to_pos (rhe (Zpos mx) n)) (ex + n).
Proof.
  intros n Hn He Hm.
  assert (Hlog := Z.log2_spec (Zpos mx) ltac:(lia)).
  assert (Hlow : (2 ^ 52 <= rhe (Zpos mx) n)%Z).
  { pose proof (rhe_bounds (Zpos mx) n Hn) as [Hb _].
    assert (Hp : (0 < 2 ^ n)%Z) by (apply Z.pow_pos_nonneg; lia).
    assert (2 ^ 52 <= Zpos mx / 2 ^ n)%Z; [| lia].
    apply Z.div_le_lower_bound; [lia |].
    rewrite Z.mul_comm, <- Z.pow_add_r by lia.
    replace (52 + n)%Z with (Z.log2 (Zpos mx)) by (unfold n; lia). lia. }
  unfold binary_round_aux, shr_fexp.
  cbn [Zdigits2]. rewrite digits2_pos_log2.
  rewrite fexp_normal by (unfold n in *; lia).
  replace (Z.log2 (Zpos mx) + 1 + ex - 53 - ex)%Z with n by (unfold n; lia).
  assert (Hstep2 : ∀ e', e' = (ex + n)%Z →
            (let '(mrs'', e'') := shr (shr_record_of_loc (rhe (Zpos mx) n) loc_Exact) e'
                                    (fexp prec emax (Zdigits2 (rhe (Zpos mx) n) + e') - e') in
             match shr_m mrs'' with
             | 0%Z => S754_zero false
             | Zpos m => if (e'' <=? emax - prec)%Z then S754_finite false m e''
                         else S754_infinity false
             | Zneg _ => S754_nan
             end)
            = S754_finite false (Z.to_pos (rhe (Zpos mx) n)) (ex + n)).
  { intros e' ->.
    destruct (rhe (Zpos mx) n) as [|p|p] eqn:Ep; [lia | | lia].
    cbn [Zdigits2]. rewrite digits2_pos_log2.
    rewrite (log2_bounds (Zpos p) 52) by (change (52 + 1)%Z with 53%Z; lia).
    rewrite fexp_normal by lia.
    replace (52 + 1 + (ex + n) - 53 - (ex + n))%Z with 0%Z by lia.
    cbn [shr shr_record_of_loc shr_m].
    replace (ex + n <=? emax - prec)%Z with true
      by (symmetry; apply Z.leb_le; unfold emax, prec; lia).
    reflexivity. }
  destruct n as [|p|p] eqn:En; [| | lia].
  - cbn [shr shr_record_of_loc shr_m loc_of_shr_record round_nearest_even].
    rewrite rhe_0 in Hstep2. rewrite rhe_0. rewrite Z.add_0_r in *.
    apply (Hstep2 ex). lia.
  - cbn [shr]. rewrite iter_pos_nat.
    destruct (Pos.to_nat p) as [|k] eqn:Ek; [lia |].
    cbn [shr_record_of_loc]. rewrite shr_iter by lia.
    replace (Z.of_nat (S k)) with (Zpos p) by lia.
    replace (Z.of_nat k) with (Zpos p - 1)%Z by lia.
    cbn [shr_m]. rewrite round_nearest_even_rhe by lia.
    apply Hstep2. reflexivity.
Qed.

Lemma iter_xO (m d : positive) : Zpos (Pos.iter xO m d) = (Zpos m * 2 ^ Zpos d)%Z.
Proof.
  induction d as [|d IH] using Pos.peano_ind.
  - simpl. lia.
  - rewrite Pos.iter_succ, Pos2Z.inj_succ, Z.pow_succ_r by lia.
    rewrite Pos2Z.inj_xO, IH. lia.
Qed.

Lemma shl_align_fst (mx : positive) (ex ez : Z) :
  (ez <= ex)%Z → Zpos (fst (shl_align mx ex ez)) = (Zpos mx * 2 ^ (ex - ez))%Z.
Proof.
  intros H. unfold shl_align. destruct (ez - ex)%Z as [|d|d] eqn:E.
  - replace (ex - ez)%Z with 0%Z by lia. simpl. lia.
  - lia.
  - cbn [fst]. rewrite iter_xO. f_equal. f_equal. lia.
Qed.

Lemma shl_align_keep (mx : positive) (ex e' : Z) :
  (ex <= e')%Z → shl_align mx ex e' = (mx, ex).
Proof.
  intros H. unfold shl_align. destruct (e' - ex)%Z as [|d|d] eqn:E; try reflexivity. lia.
Qed.

(** The sum of two positive binary64 numbers, the second one with the
    smaller exponent. *)
Lemma SFadd_aligned (mx my : positive) (ex ey : Z) :
  let M := (Zpos mx * 2 ^ (ex - ey) + Zpos my)%Z in
  let n := (Z.log2 M + 1 - 53)%Z in
  (ey <= ex)%Z → (0 <= n)%Z → (-1074 <= ey + n <= 971)%Z → (rhe M n < 2 ^ 53)%Z →
  SF64add (S754_finite false mx ex) (S754_finite false my ey)
  = S754_finite false (Z.to_pos (rhe M n)) (ey + n).
Proof.
  intros M n Hle Hn He Hm.
  unfold SF64add, SFadd. rewrite Z.min_r by exact Hle.
  cbn [cond_Zopp].
  assert (Hx := shl_align_fst mx ex ey Hle).
  assert (Hy := shl_align_fst my ey ey ltac:(lia)).
  rewrite Z.sub_diag in Hy. change (2 ^ 0)%Z with 1%Z in Hy. rewrite Z.mul_1_r in Hy.
  remember (fst (shl_align mx ex ey)) as px eqn:Epx.
  remember (fst (shl_align my ey ey)) as py eqn:Epy.
  change (Zpos px + Zpos py)%Z with (Zpos (px + py)).
  assert (HM : Zpos (px + py) = M) by (unfold M; lia).
  cbn [binary_normalize]. unfold binary_round.
  rewrite digits2_pos_log2, HM.
  rewrite fexp_normal by (unfold n in *; lia).
  rewrite shl_align_keep by (unfold n in *; lia).
  rewrite binary_round_aux_normal; rewrite HM; fold n; auto.
Qed.

(** ** Natural numbers in binary64 *)

Lemma scaled_bounds (d k : Z) :
  (0 <= k <= 52)%Z → (2 ^ k <= d < 2 ^ (k + 1))%Z →
  (2 ^ 52 <= d * 2 ^ (52 - k) < 2 ^ 53)%Z.
Proof.
  intros Hk Hd.
  assert (Hp : (0 < 2 ^ (52 - k))%Z) by (apply Z.pow_pos_nonneg; lia).
  assert (E1 : (2 ^ 52 = 2 ^ k * 2 ^ (52 - k))%Z)
    by (rewrite <- Z.pow_add_r by lia; f_equal; lia).
  assert (E2 : (2 ^ 53 = 2 ^ (k + 1) * 2 ^ (52 - k))%Z)
    by (rewrite <- Z.pow_add_r by lia; f_equal; lia).
  rewrite E1, E2. split.
  - apply Z.mul_le_mono_nonneg_r; lia.
  - apply Z.mul_lt_mono_pos_r; lia.
Qed.

Lemma float_int_pos (d : Z) :
  (1 <= d < 2 ^ 53)%Z →
  let k := Z.log2 d in
  (0 <= k <= 52)%Z ∧ (2 ^ k <= d < 2 ^ (k + 1))%Z
  ∧ float_int d = S754_finite false (Z.to_pos (d * 2 ^ (52 - k))) (k - 52)
  ∧ Zpos (Z.to_pos (d * 2 ^ (52 - k))) = (d * 2 ^ (52 - k))%Z.
Proof.
  intros Hd k.
  assert (Hk0 : (0 <= k)%Z) by apply Z.log2_nonneg.
  assert (Hk : (k < 53)%Z) by (apply Z.log2_lt_pow2; lia).
  assert (Hs := Z.log2_spec d ltac:(lia)). fold k in Hs. unfold Z.succ in Hs.
  splits; try lia.
  unfold float_int. destruct (d =? 0)%Z eqn:E; [apply Z.eqb_eq in E; lia | reflexivity].
Qed.

Lemma mul_int (x y : Z) :
  (1 <= x)%Z → (1 <= y)%Z → (x * y < 2 ^ 53)%Z →
  SF64mul (float_int x) (float_int y) = float_int (x * y).
Proof.
  intros Hx Hy Hxy.
  assert (Hx' : (x < 2 ^ 53)%Z) by nia.
  assert (Hy' : (y < 2 ^ 53)%Z) by nia.
  destruct (float_int_pos x ltac:(lia)) as (Hkx & Hbx & -> & Epx).
  destruct (float_int_pos y ltac:(lia)) as (Hky & Hby & -> & Epy).
  destruct (float_int_pos (x * y) ltac:(nia)) as (Hks & Hbs & -> & Eps).
  set (kx := Z.log2 x) in *. set (ky := Z.log2 y) in *. set (ks := Z.log2 (x * y)) in *.
  assert (Hsum : (kx + ky <= ks)%Z) by (apply Z.log2_mul_below; lia).
  unfold SF64mul, SFmul. cbn [xorb].
  set (p := (Z.to_pos (x * 2 ^ (52 - kx)) * Z.to_pos (y * 2 ^ (52 - ky)))%positive).
  assert (Hp : Zpos p = (x * y * 2 ^ (52 - ks) * 2 ^ (ks + 52 - kx - ky))%Z).
  { unfold p. rewrite Pos2Z.inj_mul, Epx, Epy.
    assert (E : (2 ^ (52 - ks) * 2 ^ (ks + 52 - kx - ky)
                 = 2 ^ (52 - kx) * 2 ^ (52 - ky))%Z)
      by (rewrite <- !Z.pow_add_r by lia; f_equal; lia).
    rewrite <- (Z.mul_assoc (x * y)), E. ring. }
  assert (Hlog : Z.log2 (Zpos p) = (ks + 104 - kx - ky)%Z).
  { rewrite Hp, <- Z.mul_assoc, <- Z.pow_add_r by lia.
    rewrite Z.log2_mul_pow2 by lia. fold ks. lia. }
  rewrite binary_round_aux_normal; rewrite Hlog.
  - replace (ks + 104 - kx - ky + 1 - 53)%Z with (ks + 52 - kx - ky)%Z by lia.
    rewrite Hp, rhe_exact by lia. f_equal. lia.
  - lia.
  - lia.
  - replace (ks + 104 - kx - ky + 1 - 53)%Z with (ks + 52 - kx - ky)%Z by lia.
    rewrite Hp, rhe_exact by lia. apply scaled_bounds; lia.
Qed.

Lemma add_int (x y : Z) :
  (1 <= y <= x)%Z → (x + y < 2 ^ 53)%Z →
  SF64add (float_int x) (float_int y) = float_int (x + y).
Proof.
  intros Hyx Hxy.
  destruct (float_int_pos x ltac:(lia)) as (Hkx & Hbx & -> & Epx).
  destruct (float_int_pos y ltac:(lia)) as (Hky & Hby & -> & Epy).
  destruct (float_int_pos (x + y) ltac:(lia)) as (Hks & Hbs & -> & Eps).
  set (kx := Z.log2 x) in *. set (ky := Z.log2 y) in *. set (ks := Z.log2 (x + y)) in *.
  assert (Hyx' : (ky <= kx)%Z) by (apply Z.log2_le_mono; lia).
  assert (Hxs : (kx <= ks)%Z) by (apply Z.log2_le_mono; lia).
  assert (HM : (Zpos (Z.to_pos (x * 2 ^ (52 - kx))) * 2 ^ (kx - 52 - (ky - 52))
                + Zpos (Z.to_pos (y * 2 ^ (52 - ky)))
                = (x + y) * 2 ^ (52 - ks) * 2 ^ (ks - ky))%Z).
  { rewrite Epx, Epy.
    assert (E1 : (2 ^ (52 - kx) * 2 ^ (kx - 52 - (ky - 52)) = 2 ^ (52 - ky))%Z)
      by (rewrite <- Z.pow_add_r by lia; f_equal; lia).
    assert (E2 : (2 ^ (52 - ks) * 2 ^ (ks - ky) = 2 ^ (52 - ky))%Z)
      by (rewrite <- Z.pow_add_r by lia; f_equal; lia).
    rewrite <- !Z.mul_assoc, E1, E2. ring. }
  assert (Hlog : Z.log2 ((x + y) * 2 ^ (52 - ks) * 2 ^ (ks - ky)) = (52 + (ks - ky))%Z).
  { rewrite <- Z.mul_assoc, <- Z.pow_add_r by lia.
    rewrite Z.log2_mul_pow2 by lia. fold ks. lia. }
  rewrite SFadd_aligned; rewrite ?HM, ?Hlog.
  - replace (52 + (ks - ky) + 1 - 53)%Z with (ks - ky)%Z by lia.
    rewrite rhe_exact by lia. f_equal. lia.
  - lia.
  - lia.
  - lia.
  - replace (52 + (ks - ky) + 1 - 53)%Z with (ks - ky)%Z by lia.
    rewrite rhe_exact by lia. apply scaled_bounds; lia.
Qed.

Lemma float_of_char_int (c : ascii) :
  isdigit c = true →
  Prim2SF (float_of_char c) = float_int (int_of_char c) ∧ (0 <= int_of_char c <= 9)%Z.
Proof.
  destruct c as [[] [] [] [] [] [] [] []]; intros H; vm_compute in H;
    try discriminate H; vm_compute; repeat split; discriminate.
Qed.

Lemma float_ten : Prim2SF 10%float = float_int 10.
Proof. vm_compute. reflexivity. Qed.

Lemma decimal_from_ge (s : string) : ∀ a,
  (0 <= a)%Z → all_chars isdigit s = true → (a <= decimal_from a s)%Z.
Proof.
  induction s as [|c s IH]; intros a Ha Hs; simpl; [lia |].
  simpl in Hs. apply andb_prop in Hs as [Hc Hs].
  destruct (float_of_char_int c Hc) as [_ Hn].
  specialize (IH (a * 10 + int_of_char c)%Z ltac:(lia) Hs). lia.
Qed.

(** The dollars digits add up to the binary64 number of the dollars: nothing
    is rounded below 2^53. *)
Lemma float_of_digits_from_int (s : string) : ∀ (acc : float) (a : Z),
  (0 <= a)%Z → Prim2SF acc = float_int a → all_chars isdigit s = true →
  (decimal_from a s < 2 ^ 53)%Z →
  Prim2SF (float_of_digits_from acc s) = float_int (decimal_from a s).
Proof.
  induction s as [|c s IH]; intros acc a Ha Hacc Hs Hlt; simpl; [exact Hacc |].
  simpl in Hs. apply andb_prop in Hs as [Hc Hs]. simpl in Hlt.
  destruct (float_of_char_int c Hc) as [Hf Hn].
  set (n := int_of_char c) in *.
  assert (Hge := decimal_from_ge s (a * 10 + n)%Z ltac:(lia) Hs).
  apply IH; [lia | | exact Hs | exact Hlt].
  rewrite add_spec, mul_spec, Hacc, Hf, float_ten.
  destruct (Z.eq_dec a 0%Z) as [-> | Hne].
  - change (SF64mul (float_int 0) (float_int 10)) with (S754_zero false).
    replace (0 * 10 + n)%Z with n by lia.
    unfold float_int. destruct (n =? 0)%Z; reflexivity.
  - rewrite mul_int by lia.
    destruct (Z.eq_dec n 0%Z) as [-> | Hn0].
    + replace (a * 10 + 0)%Z with (a * 10)%Z by lia.
      change (float_int 0) with (S754_zero false).
      unfold float_int. destruct (a * 10 =? 0)%Z eqn:E; [apply Z.eqb_eq in E; lia |].
      reflexivity.
    + apply add_int; lia.
Qed.

Lemma float_of_digits_int (ds : string) :
  all_chars isdigit ds = true → (decimal ds < 2 ^ 53)%Z →
  Prim2SF (float_of_digits ds) = float_int (decimal ds).
Proof.
  intros Hs Hlt. unfold float_of_digits, decimal.
  apply float_of_digits_from_int; [lia | vm_compute; reflexivity | exact Hs | exact Hlt].
Qed.

(** ** The cents *)

Lemma isdigit_digits (c : ascii) : isdigit c = true → In c digits.
Proof. ascii_cases c; unfold digits; simpl; tauto. Qed.

Lemma cents_table_ok :
  forallb (fun k => forallb (fun c1 => forallb (fun c2 =>
     cents_ok (Z.of_nat k) c1 c2) digits) digits) (seq 0 46) = true.
Proof. vm_compute. reflexivity. Qed.

Lemma cents_ok_holds (k : Z) (c1 c2 : ascii) :
  (0 <= k <= 45)%Z → isdigit c1 = true → isdigit c2 = true → cents_ok k c1 c2 = true.
Proof.
  intros Hk H1 H2. pose proof cents_table_ok as H.
  rewrite forallb_forall in H.
  assert (Hin : In (Z.to_nat k) (seq 0 46)) by (apply in_seq; lia).
  specialize (H (Z.to_nat k) Hin). rewrite forallb_forall in H.
  specialize (H c1 (isdigit_digits c1 H1)). rewrite forallb_forall in H.
  specialize (H c2 (isdigit_digits c2 H2)).
  rewrite Z2Nat.id in H by lia. exact H.
Qed.

Lemma round_half_even_rhe (m e : Z) : round_half_even m e = rhe m (- e).
Proof. unfold rhe. now rewrite Z.opp_involutive. Qed.

(** Dollars below 2^46 plus cents: the binary64 sum. *)
Lemma dollars_plus_cents (x : float) (d : Z) (c1 c2 : ascii) :
  Prim2SF x = float_int d → (1 <= d < 2 ^ 46)%Z →
  isdigit c1 = true → isdigit c2 = true →
  ∃ r, (0 <= r)%Z
       ∧ Prim2SF (x + cents_float c1 c2)
         = S754_finite false (Z.to_pos (d * 2 ^ (52 - Z.log2 d) + r)) (Z.log2 d - 52)
       ∧ round_half_even (100 * r) (Z.log2 d - 52)
         = (int_of_char c1 * 10 + int_of_char c2)%Z.
Proof.
  intros Hx Hd H1 H2.
  assert (Hk : (Z.log2 d < 46)%Z) by (apply Z.log2_lt_pow2; lia).
  destruct (float_int_pos d ltac:(lia)) as (Hk0 & Hb & Hf & Ep).
  set (k := Z.log2 d) in *.
  pose proof (cents_ok_holds k c1 c2 ltac:(lia) H1 H2) as Hok.
  unfold cents_ok in Hok. rewrite add_spec, Hx, Hf.
  destruct (Prim2SF (cents_float c1 c2)) as [[] | s | | [] my ey]; try discriminate Hok.
  - apply Z.eqb_eq in Hok. exists 0%Z. split; [lia |]. split.
    + rewrite Z.add_0_r. reflexivity.
    + rewrite Hok, round_half_even_rhe. change (100 * 0)%Z with (0 * 2 ^ (- (k - 52)))%Z.
      apply rhe_exact. lia.
  - cbv zeta in Hok.
    apply andb_prop in Hok as [Hok H4]. apply andb_prop in Hok as [Hok H3].
    apply andb_prop in Hok as [Hey Hmy].
    apply Z.leb_le in Hey. apply Z.ltb_lt in Hmy. apply Z.ltb_lt in H3.
    apply Z.eqb_eq in H4.
    set (n := (k - 52 - ey)%Z) in *.
    set (P := (2 ^ (52 - k))%Z) in *. set (N := (2 ^ n)%Z).
    assert (HP : (0 < P)%Z) by (apply Z.pow_pos_nonneg; lia).
    assert (HN : (0 < N)%Z) by (apply Z.pow_pos_nonneg; unfold n; lia).
    assert (E1 : (2 ^ (k + 1) * P = 2 ^ 53)%Z)
      by (unfold P; rewrite <- Z.pow_add_r by lia; f_equal; lia).
    assert (E2 : (P * N = 2 ^ (- ey))%Z)
      by (unfold P, N, n; rewrite <- Z.pow_add_r by lia; f_equal; lia).
    assert (E3 : (2 ^ 52 * N = 2 ^ (k - ey))%Z)
      by (unfold N, n; rewrite <- Z.pow_add_r by lia; f_equal; lia).
    assert (E4 : (2 ^ 53 * N = 2 ^ (k - ey + 1))%Z)
      by (unfold N, n; rewrite <- Z.pow_add_r by lia; f_equal; lia).
    pose proof (scaled_bounds d k ltac:(lia) Hb) as Hs. fold P in Hs.
    assert (HA : (d * P + P <= 2 ^ 53)%Z) by nia.
    assert (HM : (Zpos (Z.to_pos (d * P)) * 2 ^ (k - 52 - ey) + Zpos my
                  = d * P * N + Zpos my)%Z) by (rewrite Ep; reflexivity).
    assert (Hlog : Z.log2 (d * P * N + Zpos my) = (k - ey)%Z).
    { apply log2_bounds; [lia |]. rewrite <- E3, <- E4. nia. }
    assert (Hr := rhe_bounds (Zpos my) n ltac:(unfold n; lia)).
    assert (Hq : (0 <= Zpos my / N)%Z) by (apply Z.div_pos; lia).
    exists (rhe (Zpos my) n). split; [fold N in Hr; lia |]. split; [| exact H4].
    assert (Heven : Z.even (d * P) = true).
    { rewrite Z.even_mul. unfold P. rewrite Z.even_pow by lia. apply orb_true_r. }
    rewrite SFadd_aligned; rewrite ?HM, ?Hlog.
    + replace (k - ey + 1 - 53)%Z with n by (unfold n; lia).
      unfold N. rewrite rhe_add by (auto; unfold n; lia).
      f_equal. unfold n. lia.
    + lia.
    + lia.
    + lia.
    + replace (k - ey + 1 - 53)%Z with n by (unfold n; lia).
      unfold N. rewrite rhe_add by (auto; unfold n; lia). lia.
Qed.

(** ** The digits of a number *)

Lemma digit_char_int (c : ascii) :
  isdigit c = true → digit_char (int_of_char c) = c ∧ (0 <= int_of_char c <= 9)%Z.
Proof.
  destruct c as [[] [] [] [] [] [] [] []]; intros H; vm_compute in H;
    try discriminate H; vm_compute; repeat split; discriminate.
Qed.

Lemma nonzero_digit (c : ascii) :
  isdigit c = true → Ascii.eqb c "0" = false → (1 <= int_of_char c)%Z.
Proof.
  destruct c as [[] [] [] [] [] [] [] []]; intros H H0; vm_compute in H, H0;
    try discriminate H; try discriminate H0; vm_compute; discriminate.
Qed.

Lemma no_leading_zero_first (a : ascii) (r : string) :
  Ascii.eqb a "0" = false → no_leading_zero (String a r) = true.
Proof.
  destruct a as [[] [] [] [] [] [] [] []]; intros H; try reflexivity.
  vm_compute in H. discriminate H.
Qed.

Lemma format_0d_cents (c1 c2 : ascii) :
  isdigit c1 = true → isdigit c2 = true →
  format_0d 2 (int_of_char c1 * 10 + int_of_char c2) = String c1 (String c2 "").
Proof.
  intros H1 H2.
  destruct (digit_char_int c1 H1) as [E1 B1]. destruct (digit_char_int c2 H2) as [E2 B2].
  rewrite format_0d_two by lia. unfold two_digits.
  rewrite Z.div_add_l, (Z.div_small (int_of_char c2)), Z.add_0_r by lia.
  rewrite Z.add_comm, Z.mod_add, Z.mod_small by lia.
  now rewrite E1, E2.
Qed.

Lemma string_snoc (s : string) : s ≠ "" → ∃ s' c, s = s' +:+ String c "".
Proof.
  induction s as [|a s IH]; [congruence |]. intros _.
  destruct s as [|b r].
  - exists "", a. reflexivity.
  - destruct IH as (s' & c & E); [discriminate |].
    exists (String a s'), c. rewrite append_cons. now rewrite <- E.
Qed.

Lemma decimal_from_snoc (s : string) (c : ascii) : ∀ a,
  decimal_from a (s +:+ String c "") = (decimal_from a s * 10 + int_of_char c)%Z.
Proof.
  induction s as [|x s IH]; intros a.
  - rewrite append_nil_l. reflexivity.
  - rewrite append_cons. simpl. apply IH.
Qed.

Lemma decimal_from_pow2 (s : string) : ∀ a,
  (1 <= a)%Z → all_chars isdigit s = true →
  (a * 2 ^ Z.of_nat (String.length s) <= decimal_from a s)%Z.
Proof.
  induction s as [|c s IH]; intros a Ha Hs.
  - simpl. change (2 ^ Z.of_nat 0)%Z with 1%Z. lia.
  - simpl in Hs. apply andb_prop in Hs as [Hc Hs].
    destruct (digit_char_int c Hc) as [_ Hn].
    cbn [String.length decimal_from].
    specialize (IH (a * 10 + int_of_char c)%Z ltac:(lia) Hs).
    rewrite Nat2Z.inj_succ, Z.pow_succ_r by lia.
    assert (Hp : (0 < 2 ^ Z.of_nat (String.length s))%Z) by (apply Z.pow_pos_nonneg; lia).
    nia.
Qed.

Lemma str_of_Z_fuel_decimal (fuel : nat) : ∀ (s acc : string),
  s ≠ "" → all_chars isdigit s = true → no_leading_zero s = true →
  (String.length s <= fuel)%nat →
  str_of_Z_fuel fuel (decimal s) acc = s +:+ acc.
Proof.
  induction fuel as [|f IH]; intros s acc Hne Hs Hnz Hlen.
  - destruct s; [congruence | simpl in Hlen; lia].
  - destruct (string_snoc s Hne) as (s' & c & ->).
    rewrite all_chars_append in Hs. apply andb_prop in Hs as [Hs' Hc].
    simpl in Hc. rewrite andb_true_r in Hc.
    destruct (digit_char_int c Hc) as [Ec Bc].
    unfold decimal. rewrite decimal_from_snoc. fold (decimal s').
    cbn [str_of_Z_fuel].
    destruct s' as [|a r].
    + change (decimal "") with 0%Z. rewrite Z.mul_0_l, Z.add_0_l.
      rewrite Z.mod_small by lia.
      replace (int_of_char c <? 10)%Z with true by (symmetry; apply Z.ltb_lt; lia).
      rewrite Ec. reflexivity.
    + simpl in Hs'. apply andb_prop in Hs' as [Ha Hr].
      assert (Ea : Ascii.eqb a "0" = false).
      { destruct (Ascii.eqb a "0") eqn:E; [| reflexivity].
        apply Ascii.eqb_eq in E. subst a. rewrite append_cons in Hnz.
        destruct r; [rewrite append_nil_l in Hnz | rewrite append_cons in Hnz];
          discriminate Hnz. }
      assert (Hd : (1 <= decimal (String a r))%Z).
      { pose proof (nonzero_digit a Ha Ea).
        pose proof (decimal_from_ge r (0 * 10 + int_of_char a)%Z ltac:(lia) Hr).
        unfold decimal. cbn [decimal_from]. lia. }
      replace (decimal (String a r) * 10 + int_of_char c <? 10)%Z with false
        by (symmetry; apply Z.ltb_ge; lia).
      rewrite Z.div_add_l, (Z.div_small (int_of_char c)), Z.add_0_r by lia.
      rewrite Z.add_comm, Z.mod_add, Z.mod_small by lia.
      rewrite Ec, IH.
      * rewrite append_assoc. reflexivity.
      * discriminate.
      * simpl. now rewrite Ha, Hr.
      * now apply no_leading_zero_first.
      * rewrite length_append in Hlen. simpl in *. lia.
Qed.

(** [str] of the value of a decimal numeral without leading zeros is the
    numeral. *)
Lemma str_of_Z_decimal (s : string) :
  s ≠ "" → all_chars isdigit s = true → no_leading_zero s = true →
  str_of_Z (decimal s) = s.
Proof.
  intros Hne Hs Hnz. unfold str_of_Z.
  rewrite str_of_Z_fuel_decimal; auto; [apply append_nil_r |].
  destruct s as [|a r]; [congruence |].
  destruct (Ascii.eqb a "0") eqn:Ea.
  - apply Ascii.eqb_eq in Ea. subst a. destruct r; [simpl; lia | discriminate Hnz].
  - simpl in Hs. apply andb_prop in Hs as [Ha Hr].
    pose proof (nonzero_digit a Ha Ea) as H1.
    pose proof (decimal_from_pow2 r (0 * 10 + int_of_char a)%Z ltac:(lia) Hr) as H2.
    assert (Hp : (0 < 2 ^ Z.of_nat (String.length r))%Z) by (apply Z.pow_pos_nonneg; lia).
    assert (H3 : (Z.of_nat (String.length r) <= Z.log2 (decimal (String a r)))%Z).
    { apply Z.log2_le_pow2; unfold decimal; cbn [decimal_from]; nia. }
    cbn [String.length]. lia.
Qed.

(** ** Amounts and their two decimals *)

Lemma all_chars_impl (p q : ascii → bool) (s : string) :
  (∀ c, p c = true → q c = true) → all_chars p s = true → all_chars q s = true.
Proof.
  intros H. induction s as [|c s IH]; simpl; [auto |].
  intros Hs. apply andb_prop in Hs as [Hc Hs]. now rewrite (H c Hc), IH.
Qed.

Lemma amount_text_field (neg : bool) (ds : string) (c1 c2 : ascii) :
  ds ≠ "" → all_chars isdigit ds = true → isdigit c1 = true → isdigit c2 = true →
  no_comma (amount_text neg ds c1 c2) = true
  ∧ starts_field (amount_text neg ds c1 c2) = true.
Proof.
  intros Hne Hd H1 H2.
  assert (Hnc : ∀ c, isdigit c = true → negb (Ascii.eqb c ",") = true)
    by (intros c Hc; now rewrite isdigit_not_comma).
  split.
  - unfold no_comma, amount_text. rewrite !all_chars_append.
    rewrite (all_chars_impl _ _ ds Hnc Hd). simpl.
    rewrite (Hnc c1 H1), (Hnc c2 H2). destruct neg; reflexivity.
  - unfold amount_text. destruct neg; [reflexivity |].
    rewrite append_nil_l. destruct ds as [|a ds]; [congruence |].
    simpl in Hd. apply andb_prop in Hd as [Ha _].
    rewrite append_cons. simpl. unfold not_space. now rewrite isdigit_not_space.
Qed.

(** The amount a line returns when its amount field is [amount_text]. *)
Lemma accepted_amount_text (line : string) (y : Z) (idx n : nat) (v0 : TJ.vars)
    (neg : bool) (ds : string) (c1 c2 : ascii) (rest : string)
    (jd de : string) (a : float) (t c : string) :
  TJ.parse_state v0 = TJ.START_AMT → TJ.sign_flag v0 = false →
  ds ≠ "" → all_chars isdigit ds = true → isdigit c1 = true → isdigit c2 = true →
  journal_loop line y idx ((spaces n +:+ amount_text neg ds c1 c2 +:+ ",") +:+ rest) v0
  = inr (JLine jd de a t c) →
  a = amount_value neg ds c1 c2.
Proof.
  intros Hst Hsign Hne Hd H1 H2 H.
  destruct (amount_text_field neg ds c1 c2 Hne Hd H1 H2) as [Hnc Hsf].
  rewrite journal_loop_app, amount_field, amount_parse_complete in H by assumption.
  apply journal_loop_past_amount in H; [| simpl; unfold past_amount; tauto].
  rewrite H. simpl. rewrite Hsign, orb_false_r. reflexivity.
Qed.

Lemma format_2f_finite (x : float) (s : bool) (d k r c : Z) :
  Prim2SF x = S754_finite s (Z.to_pos (d * 2 ^ (52 - k) + r)) (k - 52) →
  (1 <= d)%Z → (0 <= k <= 51)%Z → (0 <= r)%Z → (0 <= c < 100)%Z →
  round_half_even (100 * r) (k - 52) = c →
  format_2f x = (if s then "-" else "") +:+ str_of_Z d +:+ "." +:+ format_0d 2 c.
Proof.
  intros Hx Hd Hk Hr Hc Hround. unfold format_2f. rewrite Hx. cbv zeta.
  assert (Hp : (0 < 2 ^ (52 - k))%Z) by (apply Z.pow_pos_nonneg; lia).
  rewrite Z2Pos.id by nia.
  assert (E : round_half_even ((d * 2 ^ (52 - k) + r) * 100) (k - 52) = (100 * d + c)%Z).
  { rewrite round_half_even_rhe in *.
    replace (- (k - 52))%Z with (52 - k)%Z in * by lia.
    replace ((d * 2 ^ (52 - k) + r) * 100)%Z with (100 * d * 2 ^ (52 - k) + 100 * r)%Z
      by ring.
    rewrite rhe_add by (try lia; rewrite Z.even_mul; reflexivity).
    now rewrite Hround. }
  rewrite E.
  rewrite (Z.mul_comm 100 d), Z.div_add_l, (Z.div_small c), Z.add_0_r by lia.
  rewrite Z.add_comm, Z.mod_add, Z.mod_small by lia.
  reflexivity.
Qed.

Lemma zero_dollars_table :
  forallb (fun c1 => forallb (fun c2 => forallb (fun neg =>
     String.eqb (format_2f (amount_value neg "0" c1 c2)) (amount_text neg "0" c1 c2))
     [false; true]) digits) digits = true.
Proof. vm_compute. reflexivity. Qed.

(** Dollars below 2^46, written without leading zeros, and two cents digits:
    the amount formatted with two decimals is the amount as written. *)
Lemma format_amount_value (neg : bool) (ds : string) (c1 c2 : ascii) :
  ds ≠ "" → all_chars isdigit ds = true → isdigit c1 = true → isdigit c2 = true →
  no_leading_zero ds = true → (decimal ds < 2 ^ 46)%Z →
  format_2f (amount_value neg ds c1 c2) = amount_text neg ds c1 c2.
Proof.
  intros Hne Hd H1 H2 Hnz Hlt.
  pose proof (decimal_from_ge ds 0%Z ltac:(lia) Hd) as Hge. fold (decimal ds) in Hge.
  destruct (Z.eq_dec (decimal ds) 0%Z) as [E0 | Hpos].
  - assert (Eds : ds = "0").
    { destruct ds as [|a r]; [congruence |].
      simpl in Hd. apply andb_prop in Hd as [Ha Hr].
      destruct (Ascii.eqb a "0") eqn:Ea.
      - apply Ascii.eqb_eq in Ea. subst a. destruct r; [reflexivity | discriminate Hnz].
      - pose proof (nonzero_digit a Ha Ea).
        pose proof (decimal_from_ge r (0 * 10 + int_of_char a)%Z ltac:(lia) Hr).
        unfold decimal in E0. cbn [decimal_from] in E0. lia. }
    subst ds. pose proof zero_dollars_table as T.
    rewrite forallb_forall in T. specialize (T c1 (isdigit_digits c1 H1)).
    rewrite forallb_forall in T. specialize (T c2 (isdigit_digits c2 H2)).
    rewrite forallb_forall in T. apply String.eqb_eq. apply T.
    destruct neg; simpl; tauto.
  - assert (Hx := float_of_digits_int ds Hd ltac:(lia)).
    destruct (dollars_plus_cents (float_of_digits ds) (decimal ds) c1 c2 Hx ltac:(lia) H1 H2)
      as (r & Hr & Hsum & Hround).
    assert (Hk : (Z.log2 (decimal ds) < 46)%Z) by (apply Z.log2_lt_pow2; lia).
    pose proof (Z.log2_nonneg (decimal ds)) as Hk0.
    destruct (digit_char_int c1 H1) as [_ B1]. destruct (digit_char_int c2 H2) as [_ B2].
    assert (Hfmt : ∀ (x : float) (s : bool),
              Prim2SF x = S754_finite s
                            (Z.to_pos (decimal ds * 2 ^ (52 - Z.log2 (decimal ds)) + r))
                            (Z.log2 (decimal ds) - 52) →
              format_2f x = (if s then "-" else "") +:+ ds +:+ "."
                            +:+ String c1 (String c2 "")).
    { intros x s Ex.
      rewrite (format_2f_finite x s (decimal ds) (Z.log2 (decimal ds)) r
                 (int_of_char c1 * 10 + int_of_char c2)) by (auto; lia).
      now rewrite str_of_Z_decimal, format_0d_cents. }
    unfold amount_text, amount_value.
    change (float_of_digits (String c1 (String c2 "")) / 100)%float
      with (cents_float c1 c2).
    destruct neg.
    + apply (Hfmt _ true). rewrite opp_spec, Hsum. reflexivity.
    + apply (Hfmt _ false). exact Hsum.
Qed.

(** C8. A line accepted by the journal parser stores the amount
    sign × (dollars + cents/100), computed in binary64; when the dollars are
    written without leading zeros and are below 2^46, this amount formatted
    with two decimals is the amount as it is written in the line. *)
Theorem amount_round_trips (line : string) (y : Z) (pre : string) (v0 : TJ.vars)
    (n : nat) (neg : bool) (ds : string) (c1 c2 : ascii) (rest : string)
    (jd de : string) (a : float) (t c : string) :
  line = pre +:+ (spaces n +:+ amount_text neg ds c1 c2 +:+ ",") +:+ rest →
  journal_loop line y 0 pre TJ.init = inl v0 →
  TJ.parse_state v0 = TJ.START_AMT →
  ds ≠ "" → all_chars isdigit ds = true → isdigit c1 = true → isdigit c2 = true →
  parse_journal_file_line line y = JLine jd de a t c →
  no_leading_zero ds = true → (decimal ds < 2 ^ 46)%Z →
  a = amount_value neg ds c1 c2 ∧ format_2f a = amount_text neg ds c1 c2.
Proof.
  intros Hline Hpre Hst Hne Hd H1 H2 Hparse Hnz Hlt.
  assert (Ha : a = amount_value neg ds c1 c2).
  { assert (Hsign : TJ.sign_flag v0 = false).
    { eapply journal_loop_sign_flag; [| exact Hpre | exact Hst]. discriminate. }
    unfold parse_journal_file_line in Hparse.
    replace (journal_loop line y 0 line TJ.init)
      with (journal_loop line y 0
              (pre +:+ (spaces n +:+ amount_text neg ds c1 c2 +:+ ",") +:+ rest) TJ.init)
      in Hparse by (rewrite <- Hline; reflexivity).
    rewrite journal_loop_app, Hpre in Hparse.
    destruct (journal_loop line y _ _ v0) as [v | r] eqn:Hrun.
    - unfold journal_after_loop in Hparse. destruct (TJ.parse_state v); discriminate.
    - subst r. eapply accepted_amount_text; eauto. }
  split; [exact Ha |]. rewrite Ha. now apply format_amount_value.
Qed.

Lemma amount_round_trips_witness :
  parse_journal_file_line
    (ln "3/9, Rappahannock Electric (Union chk), 292.03, xfr, 2.2.1") 2015
  = JLine "03/09/2015" "Rappahannock Electric (Union chk)" 292.03%float "xfr" "2.2.1"
  ∧ 292.03%float = amount_value false "292" "0" "3"
  ∧ format_2f 292.03%float = "292.03".
Proof.
  split; [vm_compute; reflexivity |].
  exact (amount_round_trips
           (ln "3/9, Rappahannock Electric (Union chk), 292.03, xfr, 2.2.1") 2015
           "3/9, Rappahannock Electric (Union chk),"
           (TJ.mk TJ.START_AMT 3 1 9 "03/09/2015" 5 "Rappahannock Electric (Union chk)"
              false 0 0 0 0 "" 0)
           1 false "292" "0" "3" (" xfr, 2.2.1" +:+ String newline "")
           "03/09/2015" "Rappahannock Electric (Union chk)" 292.03%float "xfr" "2.2.1"
           eq_refl eq_refl eq_refl ltac:(discriminate) eq_refl eq_refl eq_refl
           eq_refl eq_refl eq_refl).
Defined.

(** An amount of 70368744177664.01 dollars, where 70368744177664 is 2^46, is
    accepted, and it comes back as 70368744177664.02. *)
Lemma large_amount_changes :
  decimal "70368744177664" = (2 ^ 46)%Z
  ∧ ∃ a, parse_journal_file_line (ln "3/9, Bond, 70368744177664.01, dep, 1.1") 2015
         = JLine "03/09/2015" "Bond" a "dep" "1.1"
         ∧ a = amount_value false "70368744177664" "0" "1"
         ∧ format_2f a = "70368744177664.02".
Proof.
  split; [vm_compute; reflexivity |].
  exists (amount_value false "70368744177664" "0" "1").
  split; [vm_compute; reflexivity |]. split; [reflexivity | vm_compute; reflexivity].
Qed.

(** ** Loops that exit *)

Lemma for_each_app {X S : Type} (body : X → S → outcome S) (xs ys : list X) (s : S) :
  for_each (xs ++ ys) body s = (s' ← for_each xs body s; for_each ys body s').
Proof.
  revert s. induction xs as [|x xs IH]; intros s; simpl; [reflexivity |].
  destruct (body x s) as [s1| |]; simpl; auto.
Qed.

Lemma cat_records_app {A : Type} (zero : A) (a b : list string) : ∀ n,
  cat_records zero n (a ++ b)
  = (cat_records zero n a ++ cat_records zero (n + length a) b)%list.
Proof.
  induction a as [|x a IH]; intros n; simpl.
  - now rewrite Nat.add_0_r.
  - rewrite IH. replace (S n + length a)%nat with (n + S (length a))%nat by lia.
    destruct (cat_record zero n x); reflexivity.
Qed.

(** The codes do not depend on the type of the dollar values. *)
Lemma cat_records_codes {A : Type} (zero : A) (lines : list string) : ∀ n,
  map CatCode.cat_str (cat_records zero n lines)
  = map CatCode.cat_str (cat_records tt n lines).
Proof.
  induction lines as [|x lines IH]; intros n; simpl; [reflexivity |].
  unfold cat_record. destruct (parse_cat_file_line x); simpl; rewrite ?IH; reflexivity.
Qed.

Section CategoryFile.

Context {A : Type}.
Variable zero : A.

Lemma dict_ok_codes (g : globals A) (code : string) (i : nat) :
dict_ok g → cat_dict g !! code = Some i → In code (map CatCode.cat_str (cat_list g)).
Proof.
intros Hd Hi. apply Hd in Hi.
destruct (cat_list g !! i) as [c|] eqn:E; [| discriminate]. inversion Hi; subst code.
apply in_map. apply list_elem_of_In. eapply list_elem_of_lookup_2; eauto.
Qed.

Lemma dict_ok_insert (g : globals A) (c : CatCode.t A) :
dict_ok g → cat_dict g !! CatCode.cat_str c = None →
dict_ok (mk_globals (cat_list g ++ [c])
           (<[CatCode.cat_str c := length (cat_list g)]> (cat_dict g))
           (journal_list g)).
Proof.
intros Hd Hnone code i. simpl.
destruct (decide (CatCode.cat_str c = code)) as [<- | Hne].
- rewrite lookup_insert_eq. split.
  + intros H; inversion H; subst i.
    rewrite lookup_app_r by lia. now rewrite Nat.sub_diag.
  + intros H. destruct (decide (i < length (cat_list g))%nat) as [Hlt | Hge].
    * rewrite lookup_app_l in H by exact Hlt. apply Hd in H. congruence.
    * rewrite lookup_app_r in H by lia.
      destruct (i - length (cat_list g))%nat as [|k] eqn:Ek; [f_equal; lia |].
      destruct k; discriminate.
- rewrite lookup_insert_ne by exact Hne. split.
  + intros H. apply Hd in H.
    destruct (cat_list g !! i) as [x|] eqn:E; [| discriminate].
    now rewrite (lookup_app_l_Some _ _ _ _ E).
  + intros H. apply Hd.
    destruct (decide (i < length (cat_list g))%nat) as [Hlt | Hge].
    * now rewrite lookup_app_l in H by exact Hlt.
    * rewrite lookup_app_r in H by lia.
      destruct (i - length (cat_list g))%nat as [|k] eqn:Ek;
        [inversion H; congruence | destruct k; discriminate].
Qed.

(** The loop of [read_and_parse_cat_file] over the lines, whatever its
  outcome. *)
Lemma cat_file_loop (lines : list string) : ∀ (n : nat) (g : globals A),
dict_ok g →
match for_each (enumerate_from n lines)
        (fun '(line_nbr, line) s => cat_file_turn zero line_nbr line s)
        (g, length (cat_list g)) with
| Done (g', idx') =>
    cat_list g' = (cat_list g ++ cat_records zero n lines)%list
    ∧ idx' = length (cat_list g') ∧ dict_ok g'
    ∧ journal_list g' = journal_list g ∧ Forall cat_line_ok lines
| Exit why => cat_exit_reason n (map CatCode.cat_str (cat_list g)) lines why
| Raise _ => False
end.
Proof.
induction lines as [|line lines IH]; intros n g Hd.
- simpl. rewrite app_nil_r. auto.
- change (for_each (enumerate_from n (line :: lines))
            (fun '(line_nbr, line) s => cat_file_turn zero line_nbr line s)
            (g, length (cat_list g)))
    with (s' ← cat_file_turn zero n line (g, length (cat_list g));
          for_each (enumerate_from (S n) lines)
            (fun '(line_nbr, line) s => cat_file_turn zero line_nbr line s) s').
  remember (cat_file_turn zero n line (g, length (cat_list g))) as t eqn:Et.
  unfold cat_file_turn in Et.
  cbn [cat_records]. unfold cat_record.
  destruct (parse_cat_file_line line) as [|msg|code d cm l] eqn:Eparse.
  + subst t. simpl. specialize (IH (S n) g Hd).
    destruct (for_each _ _ _) as [[g' idx']|why|e]; [| | exact IH].
    * destruct IH as (H1 & H2 & H3 & H4 & H5). splits; auto.
      constructor; [| exact H5]. intros msg. congruence.
    * destruct why; simpl in *; try exact IH.
      -- destruct IH as (pre & x & post & -> & -> & Hx & Hpre).
         exists (line :: pre), x, post.
         splits; [reflexivity | simpl; lia | exact Hx |].
         constructor; [intros m; congruence | exact Hpre].
      -- destruct IH as (pre & x & post & c & d & cm & l & -> & -> & Hx & Hin & Hpre).
         exists (line :: pre), x, post, c, d, cm, l.
         splits; [reflexivity | simpl; lia | exact Hx | |].
         ++ simpl. unfold cat_record. now rewrite Eparse.
         ++ constructor; [intros m; congruence | exact Hpre].
  + subst t. simpl. exists [], line, lines.
    splits; [reflexivity | simpl; lia | exact Eparse | constructor].
  + assert (Htruthy : truthy code = true).
    { apply parse_cat_file_line_sound in Eparse as (k & more & _ & Hok).
      destruct Hok as (_ & _ & _ & _ & Hne). unfold truthy.
      destruct code; [congruence | reflexivity]. }
    rewrite Htruthy in Et.
    destruct (cat_dict g !! code) as [j|] eqn:Edict.
    * subst t. simpl. exists [], line, lines, code, d, cm, l.
      splits; [reflexivity | simpl; lia | exact Eparse | | constructor].
      simpl. rewrite app_nil_r. eapply dict_ok_codes; eauto.
    * subst t. simpl.
      set (c := CatCode.new zero code d cm l n).
      pose proof (dict_ok_insert g c Hd Edict) as Hd'.
      specialize (IH (S n) _ Hd'). cbn [cat_list] in IH.
      rewrite length_app in IH. cbn [length] in IH.
      change (CatCode.cat_str c) with code in *.
      destruct (for_each _ _ _) as [[g' idx']|why|e]; [| | exact IH].
      -- destruct IH as (H1 & H2 & H3 & H4 & H5). splits; auto.
         ++ rewrite H1, <- app_assoc. reflexivity.
         ++ constructor; [intros m; congruence | exact H5].
      -- destruct why; simpl in *; try exact IH.
         ++ destruct IH as (pre & x & post & -> & -> & Hx & Hpre).
            exists (line :: pre), x, post.
            splits; [reflexivity | simpl; lia | exact Hx |].
            constructor; [intros m; congruence | exact Hpre].
         ++ destruct IH as (pre & x & post & c' & d' & cm' & l' & -> & -> & Hx & Hin & Hpre).
            exists (line :: pre), x, post, c', d', cm', l'.
            splits; [reflexivity | simpl; lia | exact Hx | |].
            ** simpl. unfold cat_record. rewrite Eparse. simpl.
               rewrite map_app in Hin. simpl in Hin.
               rewrite <- app_assoc in Hin. exact Hin.
            ** constructor; [intros m; congruence | exact Hpre].
Qed.

End CategoryFile.

Lemma cat_records_nil {A : Type} (zero : A) (lines : list string) : ∀ n,
  cat_records zero n lines = [] → Forall cat_line_ok lines →
  Forall (fun line => parse_cat_file_line line = CatSkip) lines.
Proof.
  induction lines as [|x lines IH]; intros n H Hok; [constructor |].
  inversion Hok as [|? ? Hx Hrest]; subst. simpl in H. unfold cat_record in H.
  destruct (parse_cat_file_line x) as [|msg|code d cm l] eqn:E.
  - constructor; [exact E | eapply IH; eauto].
  - exfalso. now apply (Hx msg).
  - discriminate.
Qed.

Lemma dict_ok_init {A : Type} : dict_ok (@globals_init A).
Proof.
  intros code i. simpl. split; intros H.
  - first [discriminate H | rewrite lookup_empty in H; discriminate H].
  - first [discriminate H | rewrite lookup_nil in H; discriminate H].
Qed.

Lemma dict_ok_NoDup {A : Type} (g : globals A) :
  dict_ok g → NoDup (map CatCode.cat_str (cat_list g)).
Proof.
  intros Hd. apply NoDup_alt. intros i j code Hi Hj.
  rewrite list_lookup_fmap in Hi, Hj.
  apply Hd in Hi, Hj. congruence.
Qed.

Section CategoryFileOutcome.

Context {A : Type}.
Variable zero : A.

(** The category file is read: the list holds the categories the lines
  define, in the order of the file and with their line numbers; there is
  at least one; their codes differ from one another; the dictionary maps a
  code to an index exactly when the category at this index has the code;
  and no line of the file is one the parser refuses.  A file with no
  refused line, codes that differ and at least one category is read. *)
Theorem category_file_loaded (cat_file : list string) :
(∀ g, read_and_parse_cat_file zero cat_file globals_init = Done g →
      cat_list g = cat_records zero 1 cat_file
      ∧ cat_list g ≠ []
      ∧ NoDup (map CatCode.cat_str (cat_list g))
      ∧ (∀ code i, cat_dict g !! code = Some i
                   ↔ (CatCode.cat_str <$> cat_list g !! i) = Some code)
      ∧ journal_list g = []
      ∧ Forall cat_line_ok cat_file)
∧ (Forall cat_line_ok cat_file →
   NoDup (map CatCode.cat_str (cat_records zero 1 cat_file)) →
   cat_records zero 1 cat_file ≠ [] →
   ∃ g, read_and_parse_cat_file zero cat_file globals_init = Done g).
Proof.
unfold read_and_parse_cat_file.
pose proof (cat_file_loop zero cat_file 1 globals_init dict_ok_init) as L.
change (length (cat_list (@globals_init A))) with 0%nat in L.
destruct (for_each _ _ _) as [[g' idx']|why|e]; simpl; [| | contradiction].
- destruct L as (H1 & H2 & H3 & H4 & H5). simpl in H1. split.
  + intros g H.
    destruct (length (cat_list g') =? 0)%nat eqn:E; [discriminate H |].
    inversion H; subst g'. apply Nat.eqb_neq in E.
    splits; auto.
    * intros Hnil. rewrite Hnil in E. simpl in E. lia.
    * now apply dict_ok_NoDup.
  + intros _ _ Hne. rewrite <- H1 in Hne.
    destruct (cat_list g') eqn:El; [congruence |]. simpl. eauto.
- split; [discriminate |]. intros Hok Hnd Hne. exfalso.
  destruct why; simpl in L; try contradiction.
  + destruct L as (pre & line & post & -> & _ & Hx & _).
    apply Forall_app in Hok as [_ Hok]. inversion Hok as [|? ? Hl _]; subst.
    now apply (Hl error_msg).
  + destruct L as (pre & line & post & code & d & cm & l & -> & _ & Hx & Hin & _).
    rewrite cat_records_app in Hnd. cbn [cat_records] in Hnd.
    unfold cat_record in Hnd. rewrite Hx in Hnd.
    rewrite map_app in Hnd. cbn [map] in Hnd.
    apply NoDup_app in Hnd as (_ & Hdis & _).
    rewrite <- (cat_records_codes zero) in Hin.
    apply (Hdis code); [now apply list_elem_of_In | simpl; left].
Qed.

(** The category file is not read: the error is that of the first line the
  parser refuses, with the number of this line; or a category code that an
  earlier line has defined, with the number of the line that repeats it; or
  a file where no line defines a category.  The loader raises no
  exception. *)
Theorem category_file_exits (cat_file : list string) :
(∀ why, read_and_parse_cat_file zero cat_file globals_init = Exit why →
        cat_file_exit cat_file why)
∧ (∀ e, read_and_parse_cat_file zero cat_file globals_init ≠ Raise e).
Proof.
unfold read_and_parse_cat_file.
pose proof (cat_file_loop zero cat_file 1 globals_init dict_ok_init) as L.
change (length (cat_list (@globals_init A))) with 0%nat in L.
destruct (for_each _ _ _) as [[g' idx']|why|e]; simpl.
- destruct L as (H1 & H2 & H3 & H4 & H5).
  destruct (length (cat_list g') =? 0)%nat eqn:E; split; try discriminate.
  intros why H. inversion H; subst why. simpl.
  apply Nat.eqb_eq in E. apply (cat_records_nil zero cat_file 1); [| exact H5].
  rewrite H1 in E. simpl in E. now destruct (cat_records zero 1 cat_file).
- split; [| discriminate]. intros w H. inversion H; subst w.
  destruct why; simpl in *; try contradiction; exact L.
- contradiction.
Qed.

End CategoryFileOutcome.

Lemma category_file_loaded_witness :
  cat_list household_registry = cat_records 0%float 1 household_cat_file
  ∧ NoDup (map CatCode.cat_str (cat_list household_registry))
  ∧ cat_dict household_registry !! "2.1.1" = Some 4%nat.
Proof.
  pose proof (proj1 (category_file_loaded 0%float household_cat_file) household_registry
                (proj1 household_passes)) as (H1 & _ & H3 & H4 & _).
  split; [exact H1 |]. split; [exact H3 |]. apply H4. reflexivity.
Defined.

Lemma category_file_exits_witness :
  read_and_parse_cat_file 0%float twice_cat_file globals_init
  = Exit (DuplicateCategory 4)
  ∧ cat_file_exit twice_cat_file (DuplicateCategory 4)
  ∧ read_and_parse_cat_file 0%float broken_cat_file globals_init
    = Exit (CategoryFileError cat_format_error 3)
  ∧ cat_file_exit broken_cat_file (CategoryFileError cat_format_error 3).
Proof.
  assert (E1 : read_and_parse_cat_file 0%float twice_cat_file globals_init
               = Exit (DuplicateCategory 4)) by (vm_compute; reflexivity).
  assert (E2 : read_and_parse_cat_file 0%float broken_cat_file globals_init
               = Exit (CategoryFileError cat_format_error 3)) by (vm_compute; reflexivity).
  split; [exact E1 |].
  split; [exact (proj1 (category_file_exits 0%float twice_cat_file) _ E1) |].
  split; [exact E2 |].
  exact (proj1 (category_file_exits 0%float broken_cat_file) _ E2).
Defined.

(** ** The hierarchy pass in closed form *)

Lemma bind_Done_l {X Y : Type} (x : X) (k : X → outcome Y) : (Done x ≫= k) = k x.
Proof. reflexivity. Qed.

Lemma kids_S {A : Type} (g : globals A) (k i : nat) :
  kids g (S k) i = (kids g k i ++ (if is_child g i k then [k] else []))%list.
Proof.
  unfold kids. rewrite seq_S, List.filter_app. simpl.
  destruct (is_child g i k); reflexivity.
Qed.

Lemma unlinked_eta {A : Type} (c : CatCode.t A) :
  unlinked c → CatCode.set_children [] (CatCode.set_parent None c) = c.
Proof. destruct c; unfold unlinked; simpl. intros [-> ->]. reflexivity. Qed.

Lemma cat_records_unlinked {A : Type} (zero : A) (lines : list string) : ∀ n,
  Forall unlinked (cat_records zero n lines).
Proof.
  induction lines as [|x lines IH]; intros n; simpl; [constructor |].
  unfold cat_record. destruct (parse_cat_file_line x); auto.
  constructor; [split; reflexivity | apply IH].
Qed.

Section Hierarchy.

Context {A : Type}.
Variable zero : A.

Lemma links_upto_start (g : globals A) :
Forall unlinked (cat_list g) → links_upto g 0 g.
Proof.
intros Hu. unfold links_upto. splits; auto.
intros i c Hi. rewrite Hi. f_equal. unfold linked_upto, kids. simpl.
symmetry. apply unlinked_eta. rewrite Forall_lookup in Hu. eauto.
Qed.

(** One turn of the loop. *)
Lemma hierarchy_turn_links (g gk : globals A) (k : nat) (c : CatCode.t A) :
dict_ok g → links_upto g k gk → cat_list g !! k = Some c →
match hierarchy_turn k gk with
| Done g' => links_upto g (S k) g' ∧ has_parent g c
| Exit why =>
    why = MissingParent (parent_code (CatCode.cat_str c)) (CatCode.cat_str c)
    ∧ (1 < CatCode.level c)%nat
    ∧ cat_dict g !! parent_code (CatCode.cat_str c) = None
| Raise _ => False
end.
Proof.
intros Hd (Hdict & Hj & Hlen & Hl) Hc. unfold hierarchy_turn.
rewrite (index_lookup _ _ _ (Hl k c Hc)), bind_Done_l.
cbn [linked_upto CatCode.level CatCode.cat_str CatCode.set_children CatCode.set_parent].
fold (parent_code (CatCode.cat_str c)). rewrite Hdict.
assert (Hkids : ∀ i, is_child g i k = false → kids g (S k) i = kids g k i).
{ intros i E. rewrite kids_S, E. apply app_nil_r. }
destruct (1 <? CatCode.level c)%nat eqn:Elvl.
- destruct (cat_dict g !! parent_code (CatCode.cat_str c)) as [pidx|] eqn:Ep.
  + assert (Hpar : parent_index g c = Some pidx).
    { unfold parent_index. now rewrite Elvl. }
    assert (Hch : ∀ i, is_child g i k = (pidx =? i)%nat).
    { intros i. unfold is_child. now rewrite Hc, Hpar. }
    pose proof (proj1 (Hd _ _) Ep) as Hp.
    destruct (cat_list g !! pidx) as [p|] eqn:Epl; [| discriminate Hp].
    rewrite (index_lookup _ _ _ (Hl pidx p Epl)), bind_Done_l.
    assert (Hk : (k < length (cat_list gk))%nat).
    { rewrite Hlen. eapply lookup_lt_Some; eauto. }
    assert (Hpl : (pidx < length (cat_list gk))%nat).
    { rewrite Hlen. eapply lookup_lt_Some; eauto. }
    unfold index.
    destruct (decide (pidx = k)) as [-> | Hne].
    * rewrite list_lookup_insert_eq by exact Hk. simpl.
      rewrite list_insert_insert_eq.
      split; [| intros _; eauto].
      unfold links_upto. simpl. rewrite length_insert. splits; auto.
      intros i x Hi. destruct (decide (i = k)) as [-> | Hik].
      -- rewrite list_lookup_insert_eq by exact Hk.
         rewrite Hc in Hi, Epl. inversion Hi; subst x. inversion Epl; subst p.
         f_equal. unfold linked_upto. simpl.
         rewrite kids_S, Hch, Nat.eqb_refl, Hpar.
         replace (k <? S k)%nat with true by (symmetry; apply Nat.ltb_lt; lia).
         reflexivity.
      -- rewrite list_lookup_insert_ne by auto. rewrite (Hl i x Hi). f_equal.
         unfold linked_upto. rewrite Hkids.
         ++ replace (i <? S k)%nat with (i <? k)%nat; [reflexivity |].
            destruct (i <? k)%nat eqn:E1; symmetry;
              [apply Nat.ltb_lt in E1; apply Nat.ltb_lt; lia
              | apply Nat.ltb_ge in E1; apply Nat.ltb_ge; lia].
         ++ rewrite Hch. apply Nat.eqb_neq. auto.
    * rewrite list_lookup_insert_ne by exact Hne. rewrite (Hl k c Hc). simpl.
      split; [| intros _; eauto].
      unfold links_upto. simpl. rewrite !length_insert. splits; auto.
      intros i x Hi. destruct (decide (i = k)) as [-> | Hik].
      -- rewrite list_lookup_insert_eq by (rewrite length_insert; exact Hk).
         rewrite Hc in Hi. inversion Hi; subst x.
         f_equal. unfold linked_upto. simpl.
         rewrite Hkids by (rewrite Hch; apply Nat.eqb_neq; auto). rewrite Hpar.
         replace (k <? S k)%nat with true by (symmetry; apply Nat.ltb_lt; lia).
         reflexivity.
      -- rewrite list_lookup_insert_ne by auto.
         destruct (decide (i = pidx)) as [-> | Hip].
         ++ rewrite list_lookup_insert_eq by exact Hpl.
            rewrite Epl in Hi. inversion Hi; subst x.
            f_equal. unfold linked_upto. simpl.
            rewrite kids_S, Hch, Nat.eqb_refl.
            replace (pidx <? S k)%nat with (pidx <? k)%nat; [reflexivity |].
            destruct (pidx <? k)%nat eqn:E1; symmetry;
              [apply Nat.ltb_lt in E1; apply Nat.ltb_lt; lia
              | apply Nat.ltb_ge in E1; apply Nat.ltb_ge; lia].
         ++ rewrite list_lookup_insert_ne by auto. rewrite (Hl i x Hi). f_equal.
            unfold linked_upto. rewrite Hkids.
            ** replace (i <? S k)%nat with (i <? k)%nat; [reflexivity |].
               destruct (i <? k)%nat eqn:E1; symmetry;
                 [apply Nat.ltb_lt in E1; apply Nat.ltb_lt; lia
                 | apply Nat.ltb_ge in E1; apply Nat.ltb_ge; lia].
            ** rewrite Hch. apply Nat.eqb_neq. auto.
  + splits; auto. now apply Nat.ltb_lt.
- assert (Hpar : parent_index g c = None).
  { unfold parent_index. now rewrite Elvl. }
  split; [| intros H; apply Nat.ltb_ge in Elvl; lia].
  unfold links_upto. splits; auto.
  intros i x Hi. rewrite (Hl i x Hi). f_equal. unfold linked_upto.
  rewrite Hkids by (unfold is_child; now rewrite Hc, Hpar).
  destruct (decide (i = k)) as [-> | Hik].
  + rewrite Hc in Hi. inversion Hi; subst x. rewrite Hpar.
    now destruct (k <? S k)%nat, (k <? k)%nat.
  + replace (i <? S k)%nat with (i <? k)%nat; [reflexivity |].
    destruct (i <? k)%nat eqn:E1; symmetry;
      [apply Nat.ltb_lt in E1; apply Nat.ltb_lt; lia
      | apply Nat.ltb_ge in E1; apply Nat.ltb_ge; lia].
Qed.

(** The loop over the categories [rest] that follow the first [k]. *)
Lemma hierarchy_loop (g : globals A) : ∀ (rest done : list (CatCode.t A)) (gk : globals A),
dict_ok g → cat_list g = (done ++ rest)%list → links_upto g (length done) gk →
match for_each (seq (length done) (length rest)) hierarchy_turn gk with
| Done g' => links_upto g (length (cat_list g)) g' ∧ Forall (has_parent g) rest
| Exit why =>
    ∃ pre c post, rest = (pre ++ c :: post)%list
      ∧ why = MissingParent (parent_code (CatCode.cat_str c)) (CatCode.cat_str c)
      ∧ (1 < CatCode.level c)%nat
      ∧ cat_dict g !! parent_code (CatCode.cat_str c) = None
      ∧ Forall (has_parent g) pre
| Raise _ => False
end.
Proof.
induction rest as [|c rest IH]; intros done gk Hd Hg Hk.
- simpl. rewrite Hg, app_nil_r. auto.
- cbn [length seq for_each].
  assert (Hc : cat_list g !! length done = Some c).
  { rewrite Hg. rewrite lookup_app_r by lia. now rewrite Nat.sub_diag. }
  pose proof (hierarchy_turn_links g gk (length done) c Hd Hk Hc) as T.
  destruct (hierarchy_turn (length done) gk) as [g1|why|e]; simpl; [| | exact T].
  + destruct T as [T1 T2].
    specialize (IH (done ++ [c])%list g1 Hd).
    rewrite length_app in IH. cbn [length] in IH.
    rewrite Nat.add_1_r in IH. rewrite <- app_assoc in IH.
    specialize (IH Hg T1).
    destruct (for_each _ _ _) as [g'|why|e]; [| | exact IH].
    * destruct IH as [I1 I2]. split; [exact I1 | constructor; assumption].
    * destruct IH as (pre & x & post & -> & I2 & I3 & I4 & I5).
      exists (c :: pre), x, post. splits; auto.
  + destruct T as (T1 & T2 & T3). exists [], c, rest. splits; auto.
Qed.

Lemma hierarchy_pass (g : globals A) :
dict_ok g → Forall unlinked (cat_list g) →
match prc_cat_file_hierarchy g with
| Done g' => links_upto g (length (cat_list g)) g' ∧ Forall (has_parent g) (cat_list g)
| Exit why =>
    ∃ pre c post, cat_list g = (pre ++ c :: post)%list
      ∧ why = MissingParent (parent_code (CatCode.cat_str c)) (CatCode.cat_str c)
      ∧ (1 < CatCode.level c)%nat
      ∧ cat_dict g !! parent_code (CatCode.cat_str c) = None
      ∧ Forall (has_parent g) pre
| Raise _ => False
end.
Proof.
intros Hd Hu. unfold prc_cat_file_hierarchy.
exact (hierarchy_loop g (cat_list g) [] g Hd eq_refl (links_upto_start g Hu)).
Qed.

Lemma read_and_parse_cat_file_fresh (cat_file : list string) (g : globals A) :
read_and_parse_cat_file zero cat_file globals_init = Done g →
dict_ok g ∧ Forall unlinked (cat_list g) ∧ journal_list g = [].
Proof.
unfold read_and_parse_cat_file. intros H.
pose proof (cat_file_loop zero cat_file 1 globals_init dict_ok_init) as L.
change (length (cat_list (@globals_init A))) with 0%nat in L.
destruct (for_each _ _ _) as [[g' idx']|why|e]; simpl in H; try discriminate H.
destruct L as (H1 & H2 & H3 & H4 & H5).
destruct (length (cat_list g') =? 0)%nat; [discriminate H |].
inversion H; subst g'. splits; auto.
rewrite H1. simpl. apply cat_records_unlinked.
Qed.

(** After the category file and the hierarchy pass, every category keeps its
  fields but two: its parent is the index the dictionary holds for its code
  without the last segment (none at level 1), and its children are the
  indices of the categories that name it as their parent, in the order of
  the file.  The dictionary is the same and there is no transaction yet. *)
Theorem hierarchy_links_parents_and_children (cat_file : list string) (g g' : globals A) :
read_and_parse_cat_file zero cat_file globals_init = Done g →
prc_cat_file_hierarchy g = Done g' →
cat_list g' = imap (linked g) (cat_list g)
∧ cat_dict g' = cat_dict g
∧ journal_list g' = [].
Proof.
intros H1 H2. apply read_and_parse_cat_file_fresh in H1 as (Hd & Hu & Hj).
pose proof (hierarchy_pass g Hd Hu) as P. rewrite H2 in P.
destruct P as [(P1 & P2 & P3 & P4) _].
split; [| split; [exact P1 | congruence]].
apply list_eq. intros i. rewrite list_lookup_imap.
destruct (cat_list g !! i) as [c|] eqn:E; simpl.
- rewrite (P4 i c E). f_equal. unfold linked_upto, linked.
  apply lookup_lt_Some in E. apply Nat.ltb_lt in E. now rewrite E.
- apply lookup_ge_None. rewrite P3. now apply lookup_ge_None.
Qed.

(** The hierarchy pass after the category file succeeds exactly when every
  category below level 1 finds its parent code in the dictionary, wherever
  in the file the parent is; otherwise it exits with the parent code and
  the code of the first category of the file that finds none.  It raises no
  exception. *)
Theorem hierarchy_succeeds_iff_parents_defined (cat_file : list string) (g : globals A) :
read_and_parse_cat_file zero cat_file globals_init = Done g →
((∃ g', prc_cat_file_hierarchy g = Done g') ↔ Forall (has_parent g) (cat_list g))
∧ (∀ why, prc_cat_file_hierarchy g = Exit why →
          ∃ pre c post, cat_list g = (pre ++ c :: post)%list
            ∧ why = MissingParent (parent_code (CatCode.cat_str c)) (CatCode.cat_str c)
            ∧ (1 < CatCode.level c)%nat
            ∧ cat_dict g !! parent_code (CatCode.cat_str c) = None
            ∧ Forall (has_parent g) pre)
∧ (∀ e, prc_cat_file_hierarchy g ≠ Raise e).
Proof.
intros H1. apply read_and_parse_cat_file_fresh in H1 as (Hd & Hu & Hj).
pose proof (hierarchy_pass g Hd Hu) as P.
destruct (prc_cat_file_hierarchy g) as [g'|why|e]; [| | contradiction].
- destruct P as [_ P]. splits; try discriminate. split; eauto.
- splits; try discriminate.
  + split; [intros [g' H]; discriminate H |]. intros Hall. exfalso.
    destruct P as (pre & c & post & E & _ & Hl & Hn & _). rewrite E in Hall.
    apply Forall_app in Hall as [_ Hall]. inversion Hall as [|? ? Hc _]; subst.
    destruct (Hc Hl) as [x Hx]. congruence.
  + intros w H. inversion H; subst w. exact P.
Qed.

(** After the category file and the hierarchy pass, the parent of a category
  is the category whose code is the code of the child without its last
  segment: the code of the child is the code of the parent, a point and a
  segment without point, and the child is one level below the parent. *)
Theorem parent_code_is_prefix (cat_file : list string) (g g' : globals A)
  (i p : nat) (c : CatCode.t A) :
read_and_parse_cat_file zero cat_file globals_init = Done g →
prc_cat_file_hierarchy g = Done g' →
cat_list g' !! i = Some c → CatCode.parent c = Some p →
∃ cp seg, cat_list g' !! p = Some cp
          ∧ CatCode.cat_str c = CatCode.cat_str cp +:+ "." +:+ seg
          ∧ no_dot seg = true
          ∧ CatCode.level c = S (CatCode.level cp)
          ∧ In i (CatCode.children cp).
Proof.
intros H1 H2 Hi Hp.
pose proof (read_and_parse_cat_file_registry zero cat_file g H1) as [[Ha _] _].
apply read_and_parse_cat_file_fresh in H1 as (Hd & Hu & Hj).
pose proof (hierarchy_pass g Hd Hu) as P. rewrite H2 in P.
destruct P as [(P1 & P2 & P3 & P4) _].
destruct (cat_list g !! i) as [c0|] eqn:E0.
2:{ apply lookup_ge_None in E0. apply lookup_lt_Some in Hi. lia. }
pose proof (P4 i c0 E0) as Hi'. rewrite Hi in Hi'. inversion Hi'; subst c. clear Hi'.
pose proof (lookup_lt_Some _ _ _ E0) as Hlt. apply Nat.ltb_lt in Hlt.
unfold linked_upto in Hp. simpl in Hp. rewrite Hlt in Hp.
unfold parent_index in Hp.
destruct (1 <? CatCode.level c0)%nat eqn:Elvl; [| discriminate Hp].
apply Nat.ltb_lt in Elvl.
pose proof (proj1 (Hd _ _) Hp) as Hcp.
destruct (cat_list g !! p) as [cp|] eqn:Ep; [| discriminate Hcp].
simpl in Hcp. inversion Hcp as [Hcode]. clear Hcp.
destruct (Ha i c0 E0) as [(_ & Hseg & _) _].
destruct (Ha p cp Ep) as [(_ & Hsegp & _) _].
unfold segments in Hseg.
destruct (split_on "." (CatCode.cat_str c0)) as [|a segs] eqn:Es;
  [simpl in Hseg; lia |].
destruct (exists_last (l := a :: segs)) as (segs' & lst & E'); [discriminate |].
rewrite E' in Es.
destruct (split_on_last _ segs' lst Es) as (pc & Hfull & Hpc & Hl).
{ intros ->. rewrite E' in Hseg. simpl in Hseg. lia. }
assert (Hparent : parent_code (CatCode.cat_str c0) = pc).
{ unfold parent_code. rewrite Hfull.
  rewrite rfind_last_dot, slice_to_prefix by exact Hl. reflexivity. }
exists (linked_upto g (length (cat_list g)) p cp), lst.
splits.
- apply P4. exact Ep.
- simpl. rewrite Hcode, Hparent. exact Hfull.
- exact Hl.
- simpl. rewrite <- Hsegp, <- Hseg, Hcode, Hparent. unfold segments. rewrite Hpc.
  rewrite E', length_app. simpl. lia.
- simpl. unfold kids. apply filter_In. split.
  + apply in_seq. apply Nat.ltb_lt in Hlt. lia.
  + unfold is_child. rewrite E0. unfold parent_index.
    replace (1 <? CatCode.level c0)%nat with true by (symmetry; now apply Nat.ltb_lt).
    rewrite Hp. apply Nat.eqb_refl.
Qed.

End Hierarchy.

Lemma hierarchy_links_parents_and_children_witness :
  cat_list household_tree = imap (linked household_registry) (cat_list household_registry)
  ∧ cat_dict household_tree = cat_dict household_registry
  ∧ journal_list household_tree = [].
Proof.
  destruct household_passes as (P1 & P2 & _).
  exact (hierarchy_links_parents_and_children 0%float household_cat_file
           household_registry household_tree P1 P2).
Defined.

Lemma hierarchy_succeeds_iff_parents_defined_witness :
  (((∃ g', prc_cat_file_hierarchy orphan_registry = Done g')
    ↔ Forall (has_parent orphan_registry) (cat_list orphan_registry))
   ∧ prc_cat_file_hierarchy orphan_registry = Exit (MissingParent "3.2" "3.2.6"))
  ∧ ((∃ g', prc_cat_file_hierarchy child_first_registry = Done g')
     ↔ Forall (has_parent child_first_registry) (cat_list child_first_registry)).
Proof.
  assert (E1 : read_and_parse_cat_file 0%float orphan_cat_file globals_init
               = Done orphan_registry) by (vm_compute; reflexivity).
  assert (E2 : read_and_parse_cat_file 0%float child_first_cat_file globals_init
               = Done child_first_registry) by (vm_compute; reflexivity).
  split; [split |].
  - exact (proj1 (hierarchy_succeeds_iff_parents_defined 0%float orphan_cat_file
                    orphan_registry E1)).
  - vm_compute. reflexivity.
  - exact (proj1 (hierarchy_succeeds_iff_parents_defined 0%float child_first_cat_file
                    child_first_registry E2)).
Defined.

Lemma parent_code_is_prefix_witness :
  ∃ c cp seg, cat_list household_tree !! 5%nat = Some c
    ∧ cat_list household_tree !! 4%nat = Some cp
    ∧ CatCode.cat_str c = CatCode.cat_str cp +:+ "." +:+ seg
    ∧ no_dot seg = true
    ∧ CatCode.level c = S (CatCode.level cp)
    ∧ In 5%nat (CatCode.children cp).
Proof.
  destruct household_passes as (P1 & P2 & _).
  destruct (cat_list household_tree !! 5%nat) as [c|] eqn:E; [| discriminate E].
  assert (Hp : CatCode.parent c = Some 4%nat).
  { vm_compute in E. inversion E. reflexivity. }
  destruct (parent_code_is_prefix 0%float household_cat_file household_registry
              household_tree 5 4 c P1 P2 E Hp) as (cp & seg & H1 & H2 & H3 & H4 & H5).
  exists c, cp, seg. auto 10.
Defined.

Arguments isdigit : simpl never.
Arguments in_str : simpl never.

(** ** Blanks and commas *)

Lemma blanks_inv (line : string) (y : Z) :
  ∀ (s : string) (idx : nat) (v : TJ.vars) (r : journal_result float),
  skips_blanks (TJ.parse_state v) →
  journal_loop line y idx s v = inr r →
  ∃ n c s', s = spaces n +:+ String c s' ∧ Ascii.eqb c " " = false
            ∧ journal_loop line y (idx + n) (String c s') v = inr r.
Proof.
  induction s as [|x s IH]; intros idx v r Hst H; [discriminate H |].
  destruct (Ascii.eqb x " ") eqn:E.
  - apply Ascii.eqb_eq in E. subst x.
    assert (Hstep : journal_step line y idx " " v = inl v).
    { unfold journal_step. destruct Hst as [E | [E | [E | [E | E]]]]; now rewrite E. }
    simpl in H. rewrite Hstep in H.
    destruct (IH (S idx) v r Hst H) as (n & c & s' & -> & Hc & Hl).
    exists (S n), c, s'. splits; auto.
    now replace (idx + S n)%nat with (S idx + n)%nat by lia.
  - exists 0%nat, x, s. splits; auto. now rewrite Nat.add_0_r.
Qed.

Lemma before_cat_step (line : string) (y : Z) (idx : nat) (x : ascii) (v : TJ.vars) :
  before_cat (TJ.parse_state v) → Ascii.eqb x "," = false →
  match journal_step line y idx x v with
  | inl v' => before_cat (TJ.parse_state v')
  | inr (JLine _ _ _ _ _) => False
  | inr _ => True
  end.
Proof.
  intros [H1 H2] Hx. unfold journal_step.
  destruct (TJ.parse_state v) eqn:E; try congruence; rewrite ?Hx; simpl;
    repeat match goal with
           | |- context [if ?b then _ else _] => destruct b; simpl
           end;
    try exact I; rewrite ?E; unfold before_cat; split; discriminate.
Qed.

Lemma first_comma_inv (line : string) (y : Z) :
  ∀ (s : string) (idx : nat) (v : TJ.vars) jd de a t c,
  before_cat (TJ.parse_state v) →
  journal_loop line y idx s v = inr (JLine jd de a t c) →
  ∃ w s', s = w +:+ "," +:+ s' ∧ no_comma w = true.
Proof.
  induction s as [|x s IH]; intros idx v jd de a t c Hst H; [discriminate H |].
  destruct (Ascii.eqb x ",") eqn:E.
  - apply Ascii.eqb_eq in E. subst x. exists "", s. split; reflexivity.
  - simpl in H. pose proof (before_cat_step line y idx x v Hst E) as Hs.
    destruct (journal_step line y idx x v) as [v'|r].
    + destruct (IH _ _ _ _ _ _ _ Hs H) as (w & s' & -> & Hw).
      exists (String x w), s'. split; [reflexivity |].
      unfold no_comma in *. simpl. now rewrite E, Hw.
    + inversion H; subst r. contradiction.
Qed.

(** A line accepted from a state that waits for a field holds the field:
    blanks, a text without comma that starts with no blank, and a comma. *)
Lemma field_inv (line : string) (y : Z) (s : string) (idx : nat) (v : TJ.vars)
    jd de a t c :
  skips_blanks (TJ.parse_state v) → before_cat (TJ.parse_state v) →
  journal_loop line y idx s v = inr (JLine jd de a t c) →
  ∃ n w s', s = spaces n +:+ w +:+ "," +:+ s' ∧ no_comma w = true
            ∧ starts_field w = true.
Proof.
  intros Hsk Hbc H.
  destruct (blanks_inv line y s idx v _ Hsk H) as (n & x & s1 & -> & Hx & H1).
  destruct (first_comma_inv line y _ _ _ _ _ _ _ _ Hbc H1) as (w & s' & Hw & Hnc).
  exists n, w, s'. rewrite Hw. splits; auto.
  destruct w as [|x' w]; [reflexivity |].
  inversion Hw; subst x'. simpl. unfold not_space. now rewrite Hx.
Qed.

(** ** The description and the type *)

Lemma end_descr_run (line : string) (y : Z) :
  ∀ (w : string) (idx : nat) (v : TJ.vars),
  TJ.parse_state v = TJ.END_DESCR → no_comma w = true →
  journal_loop line y idx (w +:+ ",") v
  = inl (TJ.set_parse_state TJ.START_AMT
           (TJ.set_sign_flag false
              (TJ.set_jdescr
                 (rstrip (slice line (TJ.descr_start v) (idx + String.length w))) v))).
Proof.
  induction w as [|x w IH]; intros idx v Hst Hnc.
  - rewrite append_nil_l. simpl. unfold journal_step. rewrite Hst. simpl.
    now rewrite Nat.add_0_r.
  - rewrite append_cons. unfold no_comma in Hnc. simpl in Hnc.
    apply andb_prop in Hnc as [Hx Hnc]. apply negb_true_iff in Hx.
    simpl. unfold journal_step at 1. rewrite Hst, Hx.
    rewrite IH by assumption. simpl.
    now replace (idx + S (String.length w))%nat with (S (idx + String.length w)) by lia.
Qed.

Lemma end_type_run (line : string) (y : Z) :
  ∀ (w : string) (idx : nat) (v : TJ.vars),
  TJ.parse_state v = TJ.END_TYPE → no_comma w = true →
  journal_loop line y idx (w +:+ ",") v
  = inl (TJ.set_parse_state TJ.START_CAT
           (TJ.set_jtype
              (rstrip (slice line (TJ.type_start v) (idx + String.length w))) v)).
Proof.
  induction w as [|x w IH]; intros idx v Hst Hnc.
  - rewrite append_nil_l. simpl. unfold journal_step. rewrite Hst. simpl.
    now rewrite Nat.add_0_r.
  - rewrite append_cons. unfold no_comma in Hnc. simpl in Hnc.
    apply andb_prop in Hnc as [Hx Hnc]. apply negb_true_iff in Hx.
    simpl. unfold journal_step at 1. rewrite Hst, Hx.
    rewrite IH by assumption. simpl.
    now replace (idx + S (String.length w))%nat with (S (idx + String.length w)) by lia.
Qed.

Lemma slice_at (line pre w post : string) (i j : nat) :
  line = pre +:+ w +:+ post → i = String.length pre →
  j = (String.length pre + String.length w)%nat → slice line i j = w.
Proof. intros -> -> ->. apply slice_mid. Qed.

(** The description field, read in a line that holds it after [pre]. *)
Lemma descr_field (line : string) (y : Z) (pre : string) (n : nat) (w post : string)
    (v : TJ.vars) :
  line = pre +:+ spaces n +:+ w +:+ "," +:+ post →
  TJ.parse_state v = TJ.START_DESCR → no_comma w = true → starts_field w = true →
  journal_loop line y (String.length pre) (spaces n +:+ w +:+ "," +:+ post) v
  = if text_field w
    then journal_loop line y (String.length (pre +:+ spaces n +:+ w +:+ ",")) post
           (descr_done v (String.length pre + n) (rstrip w))
    else inr (JError descr_error).
Proof.
  intros Hline Hst Hnc Hsf.
  rewrite journal_loop_app, journal_loop_spaces by tauto.
  rewrite length_spaces.
  destruct w as [|x w].
  - rewrite append_nil_l. change ("," +:+ post) with (String "," post).
    simpl. unfold journal_step. rewrite Hst. reflexivity.
  - change (String x w +:+ "," +:+ post) with (String x (w +:+ "," +:+ post)).
    simpl in Hsf. unfold not_space in Hsf. apply negb_true_iff in Hsf.
    unfold no_comma in Hnc. simpl in Hnc. apply andb_prop in Hnc as [Hx Hnc].
    simpl journal_loop. unfold journal_step at 1. rewrite Hst, Hsf.
    unfold text_field. rewrite Hsf. simpl negb at 1. rewrite andb_true_l.
    destruct (negb (in_str x comma_or_newline)) eqn:E; [| reflexivity].
    rewrite <- (append_assoc w "," post), journal_loop_app.
    rewrite end_descr_run by (auto; reflexivity).
    fold (no_comma w). unfold no_comma at 1. rewrite Hnc. simpl andb. cbv iota.
    assert (Hs : slice line (String.length pre + n)
                   (S (String.length pre + n) + String.length w) = String x w).
    { apply (slice_at line (pre +:+ spaces n) (String x w) ("," +:+ post)).
      - now rewrite Hline, append_assoc.
      - now rewrite length_append, length_spaces.
      - rewrite length_append, length_spaces. simpl. lia. }
    cbn [TJ.descr_start TJ.set_parse_state TJ.set_descr_start]. rewrite Hs.
    f_equal. rewrite !length_append, length_spaces. simpl. lia.
Qed.

(** The type field. *)
Lemma type_field (line : string) (y : Z) (pre : string) (n : nat) (w post : string)
    (v : TJ.vars) :
  line = pre +:+ spaces n +:+ w +:+ "," +:+ post →
  TJ.parse_state v = TJ.START_TYPE → no_comma w = true → starts_field w = true →
  journal_loop line y (String.length pre) (spaces n +:+ w +:+ "," +:+ post) v
  = if text_field w
    then journal_loop line y (String.length (pre +:+ spaces n +:+ w +:+ ",")) post
           (type_done v (String.length pre + n) (rstrip w))
    else inr (JError type_error).
Proof.
  intros Hline Hst Hnc Hsf.
  rewrite journal_loop_app, journal_loop_spaces by tauto.
  rewrite length_spaces.
  destruct w as [|x w].
  - rewrite append_nil_l. change ("," +:+ post) with (String "," post).
    simpl. unfold journal_step. rewrite Hst. reflexivity.
  - change (String x w +:+ "," +:+ post) with (String x (w +:+ "," +:+ post)).
    simpl in Hsf. unfold not_space in Hsf. apply negb_true_iff in Hsf.
    unfold no_comma in Hnc. simpl in Hnc. apply andb_prop in Hnc as [Hx Hnc].
    simpl journal_loop. unfold journal_step at 1. rewrite Hst, Hsf.
    unfold text_field. rewrite Hsf. simpl negb at 1. rewrite andb_true_l.
    destruct (negb (in_str x comma_or_newline)) eqn:E; [| reflexivity].
    rewrite <- (append_assoc w "," post), journal_loop_app.
    rewrite end_type_run by (auto; reflexivity).
    fold (no_comma w). unfold no_comma at 1. rewrite Hnc. simpl andb. cbv iota.
    assert (Hs : slice line (String.length pre + n)
                   (S (String.length pre + n) + String.length w) = String x w).
    { apply (slice_at line (pre +:+ spaces n) (String x w) ("," +:+ post)).
      - now rewrite Hline, append_assoc.
      - now rewrite length_append, length_spaces.
      - rewrite length_append, length_spaces. simpl. lia. }
    cbn [TJ.type_start TJ.set_parse_state TJ.set_type_start]. rewrite Hs.
    f_equal. rewrite !length_append, length_spaces. simpl. lia.
Qed.

(** ** The category code *)

Lemma space_or_newline_ends (c : ascii) :
  in_str c space_or_newline = true →
  isdigit c || Ascii.eqb c "." = false ∧ Ascii.eqb c " " || Ascii.eqb c newline = true.
Proof.
  unfold space_or_newline, in_str. rewrite orb_false_r. intros H.
  split; [| exact H].
  apply orb_prop in H as [H | H]; apply Ascii.eqb_eq in H; subst c; reflexivity.
Qed.

Lemma cat_field (line : string) (y : Z) (pre : string) (n : nat) (code : string)
    (term : ascii) (post : string) (v : TJ.vars) :
  line = pre +:+ spaces n +:+ code +:+ String term post →
  TJ.parse_state v = TJ.START_CAT → code_chars code = true →
  in_str term space_or_newline = true →
  journal_loop line y (String.length pre) (spaces n +:+ code +:+ String term post) v
  = inr (JLine (TJ.jdate v) (TJ.jdescr v) (TJ.jamt v) (TJ.jtype v) code).
Proof.
  intros Hline Hst Hcode Hterm.
  rewrite journal_loop_app, journal_loop_spaces by tauto.
  rewrite length_spaces.
  destruct code as [|x code]; [discriminate Hcode |].
  simpl in Hcode. apply andb_prop in Hcode as [Hx Hcode].
  change (String x code +:+ String term post) with (String x (code +:+ String term post)).
  simpl journal_loop. unfold journal_step at 1.
  rewrite Hst, (isdigit_not_space x Hx), Hx.
  rewrite journal_loop_app, journal_loop_end_cat by (auto; reflexivity).
  simpl journal_loop. unfold journal_step. cbn [TJ.parse_state TJ.set_parse_state].
  destruct (space_or_newline_ends term Hterm) as [H1 _].
  rewrite H1, Hterm.
  cbn [TJ.jdate TJ.jdescr TJ.jamt TJ.jtype TJ.cat_start TJ.set_parse_state
         TJ.set_cat_start].
  do 2 f_equal.
  apply (slice_at line (pre +:+ spaces n) (String x code) (String term post)).
  - now rewrite Hline, append_assoc.
  - now rewrite length_append, length_spaces.
  - rewrite length_append, length_spaces. simpl. lia.
Qed.

Lemma end_cat_inv (line : string) (y : Z) :
  ∀ (s : string) (idx : nat) (v : TJ.vars) jd de a t c,
  TJ.parse_state v = TJ.END_CAT →
  journal_loop line y idx s v = inr (JLine jd de a t c) →
  ∃ k term s', s = k +:+ String term s'
               ∧ all_chars (fun x => isdigit x || Ascii.eqb x ".") k = true
               ∧ in_str term space_or_newline = true.
Proof.
  induction s as [|x s IH]; intros idx v jd de a t c Hst H; [discriminate H |].
  simpl in H. unfold journal_step in H. rewrite Hst in H.
  destruct (isdigit x || Ascii.eqb x ".") eqn:E.
  - destruct (IH _ _ _ _ _ _ _ Hst H) as (k & term & s' & -> & Hk & Ht).
    exists (String x k), term, s'. splits; auto. simpl. now rewrite E, Hk.
  - destruct (in_str x space_or_newline) eqn:E2; [| discriminate H].
    exists "", x, s. splits; auto.
Qed.

Lemma cat_inv_start (line : string) (y : Z) (s : string) (idx : nat) (v : TJ.vars)
    jd de a t c :
  TJ.parse_state v = TJ.START_CAT →
  journal_loop line y idx s v = inr (JLine jd de a t c) →
  ∃ n code term s', s = spaces n +:+ code +:+ String term s'
                    ∧ code_chars code = true ∧ in_str term space_or_newline = true.
Proof.
  intros Hst H.
  destruct (blanks_inv line y s idx v _ ltac:(unfold skips_blanks; tauto) H)
    as (n & x & s1 & -> & Hx & H1).
  simpl in H1. unfold journal_step in H1. rewrite Hst, Hx in H1.
  destruct (isdigit x) eqn:Ed; [| discriminate H1].
  apply end_cat_inv in H1 as (k & term & s' & -> & Hk & Ht); [| reflexivity].
  exists n, (String x k), term, s'. splits; auto.
  simpl. now rewrite Ed, Hk.
Qed.

(** ** The date *)

Lemma month_inv (line : string) (y : Z) :
  ∀ (s : string) (idx : nat) (v : TJ.vars) jd de a t c,
  TJ.parse_state v = TJ.MONTH → (TJ.digit_ctr v ≤ 2)%nat →
  journal_loop line y idx s v = inr (JLine jd de a t c) →
  ∃ ks s', s = ks +:+ String "/" s' ∧ all_chars isdigit ks = true
           ∧ (TJ.digit_ctr v + String.length ks ≤ 2)%nat
           ∧ ∃ idx' v', TJ.parse_state v' = TJ.DATE ∧ TJ.digit_ctr v' = 0%nat
                        ∧ journal_loop line y idx' s' v' = inr (JLine jd de a t c).
Proof.
  induction s as [|x s IH]; intros idx v jd de a t c Hst Hc H; [discriminate H |].
  simpl in H. unfold journal_step in H. rewrite Hst in H.
  destruct (isdigit x) eqn:Ed.
  - cbn [TJ.digit_ctr TJ.set_digit_ctr TJ.set_month_value] in H.
    destruct (TJ.digit_ctr v + 1 <=? 2)%nat eqn:E; [| discriminate H].
    apply Nat.leb_le in E.
    apply IH in H as (ks & s' & -> & Hk & Hlen & Hrest); [| exact Hst | simpl; lia].
    cbn [TJ.digit_ctr TJ.set_digit_ctr TJ.set_month_value] in Hlen.
    exists (String x ks), s'. splits; auto.
    + simpl. now rewrite Ed, Hk.
    + simpl. lia.
  - destruct (Ascii.eqb x "/" && _) eqn:E; [| discriminate H].
    apply andb_prop in E as [E _]. apply Ascii.eqb_eq in E. subst x.
    exists "", s. splits; auto; [simpl; lia |].
    eexists _, _. split; [| split; [| exact H]]; reflexivity.
Qed.

Lemma day_inv (line : string) (y : Z) :
  ∀ (s : string) (idx : nat) (v : TJ.vars) jd de a t c,
  TJ.parse_state v = TJ.DATE → (TJ.digit_ctr v ≤ 2)%nat →
  journal_loop line y idx s v = inr (JLine jd de a t c) →
  ∃ ks s', s = ks +:+ String "," s' ∧ all_chars isdigit ks = true
           ∧ (TJ.digit_ctr v + String.length ks ≤ 2)%nat.
Proof.
  induction s as [|x s IH]; intros idx v jd de a t c Hst Hc H; [discriminate H |].
  simpl in H. unfold journal_step in H. rewrite Hst in H.
  destruct (isdigit x) eqn:Ed.
  - cbn [TJ.digit_ctr TJ.set_digit_ctr TJ.set_date_value] in H.
    destruct (TJ.digit_ctr v + 1 <=? 2)%nat eqn:E; [| discriminate H].
    apply Nat.leb_le in E.
    apply IH in H as (ks & s' & -> & Hk & Hlen); [| exact Hst | simpl; lia].
    cbn [TJ.digit_ctr TJ.set_digit_ctr TJ.set_date_value] in Hlen.
    exists (String x ks), s'. splits; auto.
    + simpl. now rewrite Ed, Hk.
    + simpl. lia.
  - destruct (Ascii.eqb x "," && _) eqn:E; [| discriminate H].
    apply andb_prop in E as [E _]. apply Ascii.eqb_eq in E. subst x.
    exists "", s. splits; auto. simpl. lia.
Qed.

Lemma date_inv (line : string) (y : Z) (s : string) (idx : nat) (v : TJ.vars)
    jd de a t c :
  TJ.parse_state v = TJ.START →
  journal_loop line y idx s v = inr (JLine jd de a t c) →
  ∃ n ms ds s', s = spaces n +:+ ms +:+ "/" +:+ ds +:+ "," +:+ s'
                ∧ all_chars isdigit ms = true ∧ (1 ≤ String.length ms ≤ 2)%nat
                ∧ all_chars isdigit ds = true ∧ (String.length ds ≤ 2)%nat.
Proof.
  intros Hst H.
  destruct (blanks_inv line y s idx v _ ltac:(unfold skips_blanks; tauto) H)
    as (n & x & s1 & -> & Hx & H1).
  simpl in H1. unfold journal_step in H1. rewrite Hst, Hx in H1.
  destruct (in_str x hash_or_newline); [discriminate H1 |].
  destruct (isdigit x) eqn:Ed; [| discriminate H1].
  apply month_inv in H1 as (ks & s2 & -> & Hk & Hlen & idx' & v' & Hst' & Hctr & H2);
    [| reflexivity | simpl; lia].
  cbn [TJ.digit_ctr TJ.set_digit_ctr TJ.set_month_value TJ.set_parse_state] in Hlen.
  apply day_inv in H2 as (kd & s3 & -> & Hkd & Hlend); [| exact Hst' | lia].
  rewrite Hctr in Hlend.
  exists n, (String x ks), kd, s3.
  splits; [reflexivity | simpl; now rewrite Ed, Hk | simpl; lia | simpl; lia
          | exact Hkd | lia].
Qed.

(** ** The fields one after the other *)

Lemma date_stage (line : string) (y : Z) (n : nat) (ms ds post : string) :
  all_chars isdigit ms = true → (1 ≤ String.length ms ≤ 2)%nat →
  all_chars isdigit ds = true → (String.length ds ≤ 2)%nat →
  journal_loop line y 0 (spaces n +:+ ms +:+ "/" +:+ ds +:+ "," +:+ post) TJ.init
  = if ((1 <=? decimal ms)%Z && (decimal ms <=? 12)%Z)
    then
      if ((1 <=? decimal ds)%Z
          && (decimal ds <=? nth (Z.to_nat (decimal ms)) MAX_DATE 0)%Z)
      then
        if ((decimal ms =? 2)%Z && (decimal ds =? 29)%Z) && negb (isleap y)
        then inr (JError leap_error)
        else journal_loop line y
               (String.length (spaces n +:+ ms +:+ "/" +:+ ds +:+ ",")) post
               (after_date y (decimal ms) (decimal ds) (String.length ds))
      else inr (JError date_error)
    else inr (JError month_error).
Proof.
  intros Hm Hml Hd Hdl.
  replace (spaces n +:+ ms +:+ "/" +:+ ds +:+ "," +:+ post)
    with ((spaces n +:+ ms +:+ "/" +:+ ds +:+ ",") +:+ post)
    by (now rewrite !append_assoc).
  rewrite journal_loop_app, date_field by assumption.
  destruct ((1 <=? decimal ms)%Z && (decimal ms <=? 12)%Z); [| reflexivity].
  destruct ((1 <=? decimal ds)%Z
            && (decimal ds <=? nth (Z.to_nat (decimal ms)) MAX_DATE 0)%Z);
    [| reflexivity].
  destruct (((decimal ms =? 2)%Z && (decimal ds =? 29)%Z) && negb (isleap y));
    reflexivity.
Qed.

Lemma amount_stage (line : string) (y : Z) (pre : string) (n : nat) (w post : string)
    (v : TJ.vars) :
  TJ.parse_state v = TJ.START_AMT → no_comma w = true → starts_field w = true →
  journal_loop line y (String.length pre) (spaces n +:+ w +:+ "," +:+ post) v
  = match amount_parse w with
    | Some (neg, dollars, cents) =>
        journal_loop line y (String.length (pre +:+ spaces n +:+ w +:+ ",")) post
          (after_amount_field v neg dollars cents)
    | None => inr (JError amount_error)
    end.
Proof.
  intros Hst Hnc Hsf.
  replace (spaces n +:+ w +:+ "," +:+ post) with ((spaces n +:+ w +:+ ",") +:+ post)
    by (now rewrite !append_assoc).
  rewrite journal_loop_app, amount_field by assumption.
  destruct (amount_parse w) as [[[neg d] c]|]; [| reflexivity].
  now rewrite (length_append pre).
Qed.

(** An accepted line starts with a transaction text and returns its fields. *)
Lemma journal_line_sound (line : string) (y : Z) (jd de : string) (a : float)
    (t c : string) :
  parse_journal_file_line line y = JLine jd de a t c →
  ∃ x rest, line = journal_text_str x +:+ rest ∧ journal_text_ok y x
            ∧ journal_text_value y x = JLine jd de a t c.
Proof.
  unfold parse_journal_file_line. intros H.
  destruct (journal_loop line y 0 line TJ.init) as [v|r] eqn:Hloop;
    [unfold journal_after_loop in H; destruct (TJ.parse_state v); discriminate H |].
  subst r. remember line as L eqn:HL. rewrite HL in Hloop at 2.
  (* the date *)
  destruct (date_inv L y line 0 TJ.init _ _ _ _ _ eq_refl Hloop)
    as (n0 & ms & ds & s1 & -> & Hm & Hml & Hd & Hdl).
  rewrite date_stage in Hloop by assumption.
  destruct ((1 <=? decimal ms)%Z && (decimal ms <=? 12)%Z) eqn:E1;
    [| discriminate Hloop].
  destruct ((1 <=? decimal ds)%Z
            && (decimal ds <=? nth (Z.to_nat (decimal ms)) MAX_DATE 0)%Z) eqn:E2;
    [| discriminate Hloop].
  destruct (((decimal ms =? 2)%Z && (decimal ds =? 29)%Z) && negb (isleap y)) eqn:E3;
    [discriminate Hloop |].
  assert (Hvalid : valid_date y (decimal ms) (decimal ds))
    by (apply valid_date_dec; auto).
  (* the description *)
  pose proof Hloop as Hf.
  apply field_inv in Hf as (n1 & D & s2 & -> & HDc & HDs);
    [| unfold skips_blanks; simpl; tauto
     | unfold before_cat; simpl; split; discriminate].
  rewrite (descr_field L) in Hloop;
    [| rewrite HL, !append_assoc; reflexivity | reflexivity | exact HDc | exact HDs].
  destruct (text_field D) eqn:ED; [| discriminate Hloop].
  (* the amount *)
  pose proof Hloop as Hf.
  apply field_inv in Hf as (n2 & W & s3 & -> & HWc & HWs);
    [| unfold skips_blanks; simpl; tauto
     | unfold before_cat; simpl; split; discriminate].
  rewrite amount_stage in Hloop by (auto; reflexivity).
  destruct (amount_parse W) as [[[neg dl] cs]|] eqn:EW; [| discriminate Hloop].
  apply amount_parse_sound in EW
    as (dd & c1 & c2 & -> & Hne & Hdd & Hc1 & Hc2 & -> & ->).
  (* the type *)
  pose proof Hloop as Hf.
  apply field_inv in Hf as (n3 & T & s4 & -> & HTc & HTs);
    [| unfold skips_blanks; simpl; tauto
     | unfold before_cat; simpl; split; discriminate].
  rewrite (type_field L) in Hloop;
    [| rewrite HL, !append_assoc; reflexivity | reflexivity | exact HTc | exact HTs].
  destruct (text_field T) eqn:ET; [| discriminate Hloop].
  (* the category code *)
  pose proof Hloop as Hf.
  apply cat_inv_start in Hf as (n4 & code & term & s5 & -> & Hcode & Hterm);
    [| reflexivity].
  rewrite (cat_field L) in Hloop;
    [| rewrite HL, !append_assoc; reflexivity | reflexivity | exact Hcode | exact Hterm].
  inversion Hloop; subst jd de a t c. clear Hloop.
  exists (mk_journal_text n0 ms ds n1 D n2 neg dd c1 c2 n3 T n4 code term), s5.
  unfold journal_text_str, journal_text_ok, journal_text_value. simpl.
  splits; auto; try lia.
  + now rewrite !append_assoc.
  + unfold amount_value, signed. rewrite orb_false_r. reflexivity.
Qed.

(** A line that starts with a transaction text is accepted. *)
Lemma journal_line_complete (y : Z) (x : journal_text) (rest : string) :
  journal_text_ok y x →
  parse_journal_file_line (journal_text_str x +:+ rest) y = journal_text_value y x.
Proof.
  intros Hok. remember (journal_text_str x +:+ rest) as line eqn:Hline.
  remember (journal_text_value y x) as val eqn:Hval. symmetry in Hval.
  destruct val as [|msg|jd de a t c]; try discriminate Hval.
  revert Hline Hok Hval. destruct x as [n0 ms ds n1 D n2 neg dd c1 c2 n3 T n4 code term].
  intros Hline Hok Hval. unfold parse_journal_file_line.
  unfold journal_text_str, journal_text_ok, journal_text_value in *. simpl in *.
  destruct Hok as (Hm & Hml & Hd & Hdl & Hvalid & ED & Hne & Hdd & Hc1 & Hc2 & ET
                   & Hcode & Hterm).
  rewrite !append_assoc in Hline.
  change (String term "" +:+ rest) with (String term rest) in Hline.
  enough (HG : ∀ L, L = line →
               match journal_loop L y 0 line TJ.init with
               | inl v => journal_after_loop v
               | inr r => r
               end = JLine jd de a t c) by (apply HG; reflexivity).
  intros L HL. rewrite Hline. rewrite Hline in HL. clear Hline line.
  apply valid_date_dec in Hvalid as (E1 & E2 & E3).
  rewrite date_stage by assumption. rewrite E1, E2, E3.
  assert (HD : no_comma D = true ∧ starts_field D = true).
  { destruct D as [|x D]; [discriminate ED |]. simpl in ED.
    apply andb_prop in ED as [ED HDc]. apply andb_prop in ED as [Hx1 Hx2].
    unfold no_comma, starts_field, not_space in *. simpl. rewrite Hx1, HDc.
    split; [| reflexivity]. rewrite andb_true_r.
    unfold comma_or_newline, in_str in Hx2.
    apply negb_true_iff in Hx2. apply orb_false_elim in Hx2 as [Hx2 _].
    now rewrite Hx2. }
  assert (HT : no_comma T = true ∧ starts_field T = true).
  { destruct T as [|x T]; [discriminate ET |]. simpl in ET.
    apply andb_prop in ET as [ET HTc]. apply andb_prop in ET as [Hx1 Hx2].
    unfold no_comma, starts_field, not_space in *. simpl. rewrite Hx1, HTc.
    split; [| reflexivity]. rewrite andb_true_r.
    unfold comma_or_newline, in_str in Hx2.
    apply negb_true_iff in Hx2. apply orb_false_elim in Hx2 as [Hx2 _].
    now rewrite Hx2. }
  assert (HW : no_comma (amount_text neg dd c1 c2) = true
               ∧ starts_field (amount_text neg dd c1 c2) = true).
  { unfold amount_text, no_comma. rewrite !all_chars_append.
    assert (Hdc : all_chars (fun c => negb (Ascii.eqb c ",")) dd = true).
    { clear - Hdd. induction dd as [|x dd IH]; [reflexivity |].
      simpl in *. apply andb_prop in Hdd as [Hx Hdd].
      now rewrite (isdigit_not_comma x Hx), IH. }
    rewrite Hdc. simpl. rewrite (isdigit_not_comma c1 Hc1), (isdigit_not_comma c2 Hc2).
    split; [destruct neg; reflexivity |].
    destruct neg; [reflexivity |]. rewrite append_nil_l.
    destruct dd as [|x dd]; [congruence |]. simpl in Hdd.
    apply andb_prop in Hdd as [Hx _]. simpl. unfold not_space.
    now rewrite (isdigit_not_space x Hx). }
  rewrite (descr_field L);
    [| rewrite HL, !append_assoc; reflexivity | reflexivity | tauto | tauto].
  rewrite ED.
  rewrite amount_stage by (try tauto; reflexivity).
  rewrite amount_parse_complete by assumption.
  rewrite (type_field L);
    [| rewrite HL, !append_assoc; reflexivity | reflexivity | tauto | tauto].
  rewrite ET.
  rewrite (cat_field L);
    [| rewrite HL, !append_assoc; reflexivity | reflexivity | exact Hcode | exact Hterm].
  rewrite <- Hval. simpl. do 2 f_equal.
  unfold amount_value, signed. rewrite orb_false_r. reflexivity.
Qed.

(** Of the lines of ASCII characters the journal parser accepts exactly
    those that start with a transaction text: blanks, one or two month
    digits, '/', the day digits and a comma; blanks, a description and a
    comma; blanks, an amount and a comma; blanks, a type and a comma; blanks,
    a category code (a digit, then digits and points) and a blank or a
    newline; whatever follows is not read.  The date must be one of the year.
    The fields returned are the date as MM/DD/YYYY, the description and the
    type without the white space at their end, the amount and the code. *)
Theorem journal_line_grammar (line : string) (y : Z) (jd de : string) (a : float)
    (t c : string) :
  ascii_text line = true →
  (parse_journal_file_line line y = JLine jd de a t c ↔
   ∃ x rest, line = journal_text_str x +:+ rest ∧ journal_text_ok y x
             ∧ journal_text_value y x = JLine jd de a t c).
Proof.
  intros _. split.
  - apply journal_line_sound.
  - intros (x & rest & -> & Hok & <-). now apply journal_line_complete.
Qed.

Lemma journal_line_grammar_witness :
  ∃ x rest, ln "3/9, Paycheck, 1000.00, dep, 1.1" = journal_text_str x +:+ rest
            ∧ journal_text_ok 2015 x
            ∧ journal_text_value 2015 x
              = JLine "03/09/2015" "Paycheck" 1000%float "dep" "1.1".
Proof.
  refine (proj1 (journal_line_grammar (ln "3/9, Paycheck, 1000.00, dep, 1.1") 2015
                   _ _ _ _ _ eq_refl) _).
  vm_compute. reflexivity.
Defined.

Arguments isdigit : simpl never.
Arguments in_str : simpl never.

(** ** The code *)

Lemma split_on_dotted (s : string) : ∀ (seg : string) (segs : list string),
  split_on "." s = seg :: segs → s = seg +:+ dotted segs.
Proof.
  induction s as [|x s IH]; intros seg segs H; simpl in H.
  - inversion H; subst. reflexivity.
  - destruct (Ascii.eqb x ".") eqn:E.
    + apply Ascii.eqb_eq in E. subst x. inversion H; subst seg segs.
      destruct (split_on "." s) as [|h t] eqn:Es;
        [now destruct (split_on_nonempty "." s) |].
      rewrite (IH h t eq_refl). reflexivity.
    + destruct (split_on "." s) as [|h t] eqn:Es;
        [now destruct (split_on_nonempty "." s) |].
      inversion H; subst seg segs. rewrite (IH h t eq_refl). reflexivity.
Qed.

(** A segment after a point. *)
Lemma seg_run (line : string) (seg rest : string) (idx : nat) (v : CS.vars) :
  CS.parse_state v = CS.LEVEL234A → deeper_segment_ok seg = true →
  cat_loop line idx (seg +:+ rest) v
  = cat_loop line (idx + String.length seg) rest
      (CS.set_digit_count (String.length seg) (CS.set_parse_state CS.LEVEL234B v)).
Proof.
  intros Hst Hseg. destruct seg as [|a [|b [|c seg]]]; simpl in Hseg; try discriminate.
  - rewrite append_cons, append_nil_l. simpl. unfold cat_step. rewrite Hst.
    change (in_str a "123456789") with (digit19 a). rewrite Hseg.
    now rewrite Nat.add_1_r.
  - apply andb_prop in Hseg as [Ha Hb].
    change (String a (String b "") +:+ rest) with (String a (String b rest)).
    assert (E1 : cat_step line idx a v
                 = inl (CS.set_digit_count 1 (CS.set_parse_state CS.LEVEL234B v))).
    { unfold cat_step. rewrite Hst.
      change (in_str a "123456789") with (digit19 a). now rewrite Ha. }
    assert (E2 : cat_step line (S idx) b
                   (CS.set_digit_count 1 (CS.set_parse_state CS.LEVEL234B v))
                 = inl (CS.set_digit_count 2 (CS.set_parse_state CS.LEVEL234B v))).
    { unfold cat_step. cbn [CS.parse_state CS.set_digit_count CS.set_parse_state].
      rewrite Hb. cbn [CS.digit_count CS.set_digit_count]. simpl Nat.leb. cbv iota.
      reflexivity. }
    cbn [cat_loop]. rewrite E1, E2. simpl String.length.
    now replace (idx + 2)%nat with (S (S idx)) by lia.
Qed.

(** The segments after the first one. *)
Lemma tail_run (line : string) : ∀ (segs : list string) (idx : nat) (v : CS.vars),
  CS.parse_state v = CS.LEVEL234B →
  forallb deeper_segment_ok segs = true → (CS.level v + length segs ≤ 4)%nat →
  ∃ v', cat_loop line idx (dotted segs) v = inl v'
        ∧ CS.parse_state v' = CS.LEVEL234B
        ∧ CS.start_idx v' = CS.start_idx v
        ∧ CS.level v' = (CS.level v + length segs)%nat
        ∧ CS.digit_count v'
          = match segs with
            | [] => CS.digit_count v
            | _ => String.length (List.last segs "")
            end.
Proof.
  induction segs as [|seg segs IH]; intros idx v Hst Hok Hlvl.
  - simpl. exists v. rewrite Nat.add_0_r. auto.
  - simpl in Hok. apply andb_prop in Hok as [Hseg Hok]. simpl in Hlvl.
    simpl dotted.
    change ("." +:+ seg +:+ dotted segs) with (String "." (seg +:+ dotted segs)).
    cbn [cat_loop]. unfold cat_step at 1. rewrite Hst.
    change (isdigit ".") with false. cbv iota. rewrite Ascii.eqb_refl.
    cbn [CS.level CS.set_level].
    replace (CS.level v + 1 <=? 4)%nat with true by (symmetry; apply Nat.leb_le; lia).
    rewrite seg_run by (auto; reflexivity).
    match goal with |- context [cat_loop line ?i _ ?w] =>
      destruct (IH i w) as (v' & H1 & H2 & H3 & H4 & H5);
        [reflexivity | exact Hok | simpl; lia |]
    end.
    exists v'. split; [exact H1 |]. split; [exact H2 |].
    split; [rewrite H3; reflexivity |].
    split; [rewrite H4; simpl; lia |].
    rewrite H5. destruct segs; reflexivity.
Qed.

(** The code, read from [START]. *)
Lemma code_prefix_run (line : string) (idx : nat) (code : string) (v : CS.vars) :
  CS.parse_state v = CS.START → cat_code_ok code = true →
  ∃ v', cat_loop line idx code v = inl v'
        ∧ CS.start_idx v' = idx
        ∧ CS.level v' = length (segments code)
        ∧ ((CS.parse_state v' = CS.LEVEL1 ∧ length (segments code) = 1%nat)
           ∨ (CS.parse_state v' = CS.LEVEL234B ∧ (2 ≤ length (segments code))%nat
              ∧ CS.digit_count v' = String.length (List.last (segments code) ""))).
Proof.
  intros Hst Hok. unfold cat_code_ok, segments in *.
  destruct (split_on "." code) as [|seg segs] eqn:Es; [discriminate Hok |].
  apply andb_prop in Hok as [Hok Hlen]. apply andb_prop in Hok as [Hseg Hsegs].
  apply Nat.leb_le in Hlen.
  rewrite (split_on_dotted code seg segs Es).
  destruct seg as [|a [|b seg]]; simpl in Hseg; try discriminate.
  rewrite append_cons, append_nil_l.
  cbn [cat_loop]. unfold cat_step at 1. rewrite Hst.
  rewrite (digit19_not_space a Hseg), (digit19_not_hash_newline a Hseg).
  change (in_str a "123456789") with (digit19 a). rewrite Hseg.
  destruct segs as [|s1 segs].
  - simpl. eexists. split; [reflexivity |]. simpl. auto.
  - simpl in Hsegs. apply andb_prop in Hsegs as [Hs1 Hsegs]. simpl in Hlen.
    simpl dotted.
    change ("." +:+ s1 +:+ dotted segs) with (String "." (s1 +:+ dotted segs)).
    cbn [cat_loop]. unfold cat_step at 1.
    cbn [CS.parse_state CS.set_parse_state]. rewrite Ascii.eqb_refl.
    rewrite seg_run by (auto; reflexivity).
    match goal with |- context [cat_loop line ?i _ ?w] =>
      destruct (tail_run line segs i w) as (v' & H1 & H2 & H3 & H4 & H5);
        [reflexivity | exact Hsegs | simpl; lia |]
    end.
    exists v'. split; [exact H1 |].
    split; [rewrite H3; reflexivity |].
    split; [rewrite H4; simpl; lia |].
    right. split; [exact H2 |]. split; [simpl; lia |].
    rewrite H5. destruct segs; reflexivity.
Qed.

(** The code and the blank that ends it. *)
Lemma code_run (line : string) (idx : nat) (code : string) (v : CS.vars) :
  CS.parse_state v = CS.START → cat_code_ok code = true →
  ∃ v', cat_loop line idx (code +:+ " ") v = inl v'
        ∧ CS.parse_state v' = CS.START_DESCR
        ∧ CS.cat_code v' = slice line idx (idx + String.length code)
        ∧ CS.level v' = length (segments code).
Proof.
  intros Hst Hok.
  destruct (code_prefix_run line idx code v Hst Hok) as (v1 & H1 & H2 & H3 & H4).
  rewrite cat_loop_app, H1. simpl. unfold cat_step.
  destruct H4 as [[E _] | [E _]]; rewrite E; simpl;
    (eexists; split; [reflexivity |]); simpl; rewrite H2, H3; auto.
Qed.

(** ** The description and the comment *)

Lemma cat_loop_blanks (line : string) (n idx : nat) (v : CS.vars) :
  CS.parse_state v = CS.START_DESCR → cat_loop line idx (spaces n) v = inl v.
Proof.
  intros Hst. revert idx. induction n as [|n IH]; intros idx; simpl; [reflexivity |].
  unfold cat_step. rewrite Hst. simpl. apply IH.
Qed.

Lemma cat_blanks_inv (line : string) :
  ∀ (s : string) (idx : nat) (v : CS.vars) (r : cat_result),
  CS.parse_state v = CS.START_DESCR →
  cat_loop line idx s v = inr r →
  ∃ n c s', s = spaces n +:+ String c s' ∧ Ascii.eqb c " " = false
            ∧ cat_loop line (idx + n) (String c s') v = inr r.
Proof.
  induction s as [|x s IH]; intros idx v r Hst H; [discriminate H |].
  destruct (Ascii.eqb x " ") eqn:E.
  - apply Ascii.eqb_eq in E. subst x.
    simpl in H. unfold cat_step in H. rewrite Hst in H. simpl in H.
    destruct (IH (S idx) v r Hst H) as (n & c & s' & -> & Hc & Hl).
    exists (S n), c, s'. splits; auto.
    now replace (idx + S n)%nat with (S idx + n)%nat by lia.
  - exists 0%nat, x, s. splits; auto. now rewrite Nat.add_0_r.
Qed.

Lemma cat_end_descr_run (line : string) :
  ∀ (w : string) (idx : nat) (v : CS.vars) (x : ascii) (post : string),
  CS.parse_state v = CS.END_DESCR → no_hash_newline w = true →
  in_str x hash_or_newline = true →
  cat_loop line idx (w +:+ String x post) v
  = if Ascii.eqb x newline
    then inr (CatLine (CS.cat_code v)
                (rstrip (slice line (CS.descr_start v) (idx + String.length w)))
                "" (CS.level v))
    else cat_loop line (S (idx + String.length w)) post
           (CS.set_parse_state CS.END_COMMENT
              (CS.set_comment_start (idx + String.length w)
                 (CS.set_descr
                    (rstrip (slice line (CS.descr_start v) (idx + String.length w)))
                    v))).
Proof.
  induction w as [|c w IH]; intros idx v x post Hst Hw Hx.
  - rewrite append_nil_l. simpl. unfold cat_step. rewrite Hst, Hx. simpl.
    rewrite Nat.add_0_r. destruct (Ascii.eqb x newline); reflexivity.
  - rewrite append_cons. unfold no_hash_newline in Hw. simpl in Hw.
    apply andb_prop in Hw as [Hc Hw]. apply negb_true_iff in Hc.
    simpl cat_loop. unfold cat_step at 1. rewrite Hst, Hc.
    rewrite IH by assumption. simpl String.length.
    replace (idx + S (String.length w))%nat with (S idx + String.length w)%nat by lia.
    reflexivity.
Qed.

Lemma cat_end_comment_run (line : string) :
  ∀ (C : string) (idx : nat) (v : CS.vars) (post : string),
  CS.parse_state v = CS.END_COMMENT → no_newline C = true →
  cat_loop line idx (C +:+ String newline post) v
  = inr (CatLine (CS.cat_code v) (CS.descr v)
           (rstrip (slice line (CS.comment_start v) (idx + String.length C)))
           (CS.level v)).
Proof.
  induction C as [|c C IH]; intros idx v post Hst HC.
  - rewrite append_nil_l. simpl. unfold cat_step. rewrite Hst. simpl.
    now rewrite Nat.add_0_r.
  - rewrite append_cons. unfold no_newline in HC. simpl in HC.
    apply andb_prop in HC as [Hc HC]. apply negb_true_iff in Hc.
    simpl cat_loop. unfold cat_step at 1. rewrite Hst, Hc.
    rewrite IH by assumption. simpl String.length.
    replace (idx + S (String.length C))%nat with (S idx + String.length C)%nat by lia.
    reflexivity.
Qed.

Lemma cat_end_descr_inv (line : string) :
  ∀ (s : string) (idx : nat) (v : CS.vars) code d cm l,
  CS.parse_state v = CS.END_DESCR →
  cat_loop line idx s v = inr (CatLine code d cm l) →
  ∃ w x s', s = w +:+ String x s' ∧ no_hash_newline w = true
            ∧ in_str x hash_or_newline = true.
Proof.
  induction s as [|c s IH]; intros idx v code d cm l Hst H; [discriminate H |].
  destruct (in_str c hash_or_newline) eqn:E.
  - exists "", c, s. splits; auto.
  - simpl in H. unfold cat_step in H. rewrite Hst, E in H.
    destruct (IH _ _ _ _ _ _ Hst H) as (w & x & s' & -> & Hw & Hx).
    exists (String c w), x, s'. splits; auto.
    unfold no_hash_newline in *. simpl. now rewrite E, Hw.
Qed.

Lemma cat_end_comment_inv (line : string) :
  ∀ (s : string) (idx : nat) (v : CS.vars) code d cm l,
  CS.parse_state v = CS.END_COMMENT →
  cat_loop line idx s v = inr (CatLine code d cm l) →
  ∃ C s', s = C +:+ String newline s' ∧ no_newline C = true.
Proof.
  induction s as [|c s IH]; intros idx v code d cm l Hst H; [discriminate H |].
  destruct (Ascii.eqb c newline) eqn:E.
  - apply Ascii.eqb_eq in E. subst c. exists "", s. splits; auto.
  - simpl in H. unfold cat_step in H. rewrite Hst, E in H.
    destruct (IH _ _ _ _ _ _ Hst H) as (C & s' & -> & HC).
    exists (String c C), s'. splits; auto.
    unfold no_newline in *. simpl. now rewrite E, HC.
Qed.

(** The description, read in a line that holds it after [pre], up to the
    character [x] that ends it. *)
Lemma cat_descr_field (line : string) (pre : string) (k : nat) (D : string)
    (x : ascii) (post : string) (v : CS.vars) :
  line = pre +:+ spaces k +:+ D +:+ String x post →
  CS.parse_state v = CS.START_DESCR → cat_text D = true →
  in_str x hash_or_newline = true →
  cat_loop line (String.length pre) (spaces k +:+ D +:+ String x post) v
  = if Ascii.eqb x newline
    then inr (CatLine (CS.cat_code v) (rstrip D) "" (CS.level v))
    else cat_loop line (S (String.length (pre +:+ spaces k +:+ D))) post
           (comment_state v (String.length pre + k) (rstrip D)
              (String.length (pre +:+ spaces k +:+ D))).
Proof.
  intros Hline Hst HD Hx.
  rewrite cat_loop_app, cat_loop_blanks by exact Hst. rewrite length_spaces.
  destruct D as [|c D]; [discriminate HD |]. simpl in HD.
  apply andb_prop in HD as [HD HDs]. apply andb_prop in HD as [Hc1 Hc2].
  apply negb_true_iff in Hc1, Hc2.
  change (String c D +:+ String x post) with (String c (D +:+ String x post)).
  simpl cat_loop. unfold cat_step at 1. rewrite Hst, Hc1, Hc2.
  rewrite cat_end_descr_run by (auto; reflexivity).
  cbn [CS.descr_start CS.set_parse_state CS.set_descr_start CS.cat_code CS.level].
  assert (Hs : slice line (String.length pre + k)
                 (S (String.length pre + k) + String.length D) = String c D).
  { apply (slice_at line (pre +:+ spaces k) (String c D) (String x post)).
    - now rewrite Hline, append_assoc.
    - now rewrite length_append, length_spaces.
    - rewrite length_append, length_spaces. simpl. lia. }
  rewrite Hs.
  assert (Hl : (S (String.length pre + k) + String.length D)%nat
               = String.length (pre +:+ spaces k +:+ String c D)).
  { rewrite !length_append, length_spaces. simpl. lia. }
  rewrite Hl.
  destruct (Ascii.eqb x newline); reflexivity.
Qed.

(** The comment, read after its '#'. *)
Lemma cat_comment_field (line : string) (pre C post : string) (v : CS.vars) :
  line = pre +:+ "#" +:+ C +:+ String newline post →
  CS.parse_state v = CS.END_COMMENT → CS.comment_start v = String.length pre →
  no_newline C = true →
  cat_loop line (S (String.length pre)) (C +:+ String newline post) v
  = inr (CatLine (CS.cat_code v) (CS.descr v) (rstrip ("#" +:+ C)) (CS.level v)).
Proof.
  intros Hline Hst Hcs HC.
  rewrite cat_end_comment_run by assumption. rewrite Hcs.
  do 3 f_equal.
  apply (slice_at line pre ("#" +:+ C) (String newline post)).
  - now rewrite Hline, !append_assoc.
  - reflexivity.
  - rewrite length_append. simpl. lia.
Qed.

(** The end of an accepted line after the description: the character that
    ends the description is a newline, or the '#' of a comment that a newline
    ends. *)
Lemma hash_or_newline_cases (x : ascii) :
  in_str x hash_or_newline = true → Ascii.eqb x newline = false → x = "#"%char.
Proof.
  unfold hash_or_newline, in_str. rewrite orb_false_r. intros H E. rewrite E in H.
  rewrite orb_false_r in H. now apply Ascii.eqb_eq in H.
Qed.

(** Of the lines of ASCII characters the category parser accepts exactly
    those that start with blanks, a category code, a blank, blanks, a
    description and then a newline, or a comment from its '#' to a newline;
    whatever follows the newline is not read.  It returns the code, the
    number of its segments as the level, the description without the white
    space at its end and the comment, from its '#' on and without the white
    space at its end (the empty text when there is none). *)
Theorem category_line_grammar (line code d cm : string) (l : nat) :
  ascii_text line = true →
  (parse_cat_file_line line = CatLine code d cm l ↔
   ∃ n k D tail,
     line = spaces n +:+ code +:+ " " +:+ spaces k +:+ D +:+ tail
     ∧ cat_code_ok code = true ∧ l = length (segments code)
     ∧ cat_text D = true ∧ d = rstrip D
     ∧ ((∃ rest, tail = String newline rest ∧ cm = "")
        ∨ (∃ C rest, tail = "#" +:+ C +:+ String newline rest
                     ∧ no_newline C = true ∧ cm = rstrip ("#" +:+ C)))).
Proof.
  intros _. split.
  - intros H.
    destruct (parse_cat_file_line_sound _ _ _ _ _ H) as (n & more & Hline & Hok).
    destruct Hok as (Hcok & Hlen & _).
    unfold parse_cat_file_line in H.
    destruct (cat_loop line 0 line CS.init) as [v|r] eqn:Hloop;
      [unfold cat_after_loop in H; destruct (CS.parse_state v); discriminate H |].
    subst r.
    set (L := line) in Hloop at 1. assert (HL : L = line) by reflexivity.
    clearbody L. subst line.
    replace (spaces n +:+ code +:+ String " " more)
      with (spaces n +:+ (code +:+ " ") +:+ more) in Hloop
      by (now rewrite !append_assoc).
    rewrite cat_loop_app, cat_loop_spaces in Hloop by reflexivity.
    rewrite length_spaces in Hloop. simpl Nat.add in Hloop.
    rewrite cat_loop_app in Hloop.
    destruct (code_run L n code CS.init eq_refl Hcok) as (v' & E & Hst & Hcode & Hlvl).
    rewrite E in Hloop.
    assert (Hidx : (n + String.length (code +:+ " "))%nat
                   = String.length (spaces n +:+ code +:+ " "))
      by (now rewrite !length_append, length_spaces).
    rewrite Hidx in Hloop.
    (* the description *)
    pose proof Hloop as Hf.
    apply cat_blanks_inv in Hf as (k & c & s1 & -> & Hc & Hf); [| exact Hst].
    simpl in Hf. unfold cat_step in Hf. rewrite Hst, Hc in Hf.
    destruct (in_str c hash_or_newline) eqn:Ec; [discriminate Hf |].
    apply cat_end_descr_inv in Hf as (w & x & s2 & -> & Hw & Hx); [| reflexivity].
    assert (HD : cat_text (String c w) = true).
    { simpl. now rewrite Hc, Ec, Hw. }
    change (String c (w +:+ String x s2)) with (String c w +:+ String x s2) in *.
    rewrite (cat_descr_field L) in Hloop;
      [| rewrite HL, !append_assoc; reflexivity | exact Hst | exact HD | exact Hx].
    exists n, k, (String c w), (String x s2).
    destruct (Ascii.eqb x newline) eqn:En.
    + apply Ascii.eqb_eq in En. subst x.
      inversion Hloop; subst.
      splits; auto. left. exists s2. auto.
    + apply hash_or_newline_cases in Hx; [| exact En]. subst x.
      pose proof Hloop as Hf.
      apply cat_end_comment_inv in Hf as (C & s3 & -> & HC); [| reflexivity].
      rewrite (cat_comment_field L) in Hloop;
        [| rewrite HL, !append_assoc; reflexivity | reflexivity | reflexivity | exact HC].
      inversion Hloop; subst.
      splits; auto. right. exists C, s3. auto.
  - intros (n & k & D & tail & Hline & Hcok & Hl & HD & Hd & Htail).
    unfold parse_cat_file_line.
    enough (HG : ∀ L, L = line →
                 match cat_loop L 0 line CS.init with
                 | inl v => cat_after_loop v
                 | inr r => r
                 end = CatLine code d cm l) by (apply HG; reflexivity).
    intros L HL. rewrite Hline. rewrite Hline in HL. clear Hline line.
    replace (spaces n +:+ code +:+ " " +:+ spaces k +:+ D +:+ tail)
      with (spaces n +:+ (code +:+ " ") +:+ spaces k +:+ D +:+ tail)
      by (now rewrite !append_assoc).
    rewrite cat_loop_app, cat_loop_spaces by reflexivity.
    rewrite length_spaces. simpl Nat.add.
    rewrite cat_loop_app.
    destruct (code_run L n code CS.init eq_refl Hcok) as (v' & E & Hst & Hcode & Hlvl).
    rewrite E.
    assert (Hidx : (n + String.length (code +:+ " "))%nat
                   = String.length (spaces n +:+ code +:+ " "))
      by (now rewrite !length_append, length_spaces).
    rewrite Hidx.
    assert (Hc : CS.cat_code v' = code).
    { rewrite Hcode.
      apply (slice_at L (spaces n) code (" " +:+ spaces k +:+ D +:+ tail)).
      - exact HL.
      - now rewrite length_spaces.
      - now rewrite length_spaces. }
    destruct Htail as [(rest & -> & ->) | (C & rest & -> & HC & ->)].
    + rewrite (cat_descr_field L);
        [| rewrite HL, !append_assoc; reflexivity | exact Hst | exact HD | reflexivity].
      rewrite Ascii.eqb_refl. now rewrite Hc, Hlvl, Hl, Hd.
    + change ("#" +:+ C +:+ String newline rest)
        with (String "#" (C +:+ String newline rest)).
      rewrite (cat_descr_field L);
        [| rewrite HL, !append_assoc; reflexivity | exact Hst | exact HD | reflexivity].
      change (Ascii.eqb "#" newline) with false. cbv iota.
      rewrite (cat_comment_field L);
        [| rewrite HL, !append_assoc; reflexivity | reflexivity | reflexivity | exact HC].
      cbn [comment_state CS.cat_code CS.descr CS.level CS.set_parse_state
             CS.set_comment_start CS.set_descr CS.set_descr_start].
      now rewrite Hc, Hlvl, Hl, Hd.
Qed.

Lemma category_line_grammar_witness :
  ∃ n k D tail,
    ln "1.1 Salary # paychecks" = spaces n +:+ "1.1" +:+ " " +:+ spaces k +:+ D +:+ tail
    ∧ cat_code_ok "1.1" = true ∧ 2%nat = length (segments "1.1")
    ∧ cat_text D = true ∧ "Salary" = rstrip D
    ∧ ((∃ rest, tail = String newline rest ∧ "# paychecks" = "")
       ∨ (∃ C rest, tail = "#" +:+ C +:+ String newline rest
                    ∧ no_newline C = true ∧ "# paychecks" = rstrip ("#" +:+ C))).
Proof.
  refine (proj1 (category_line_grammar (ln "1.1 Salary # paychecks") "1.1" "Salary"
                   "# paychecks" 2 eq_refl) _).
  vm_compute. reflexivity.
Defined.

Lemma parse_cat_file_line_eq (line : string) (r : cat_result) :
  (∀ L, cat_loop L 0 line CS.init = inr r) → parse_cat_file_line line = r.
Proof. intros H. unfold parse_cat_file_line. now rewrite H. Qed.

(** After a category code the parser answers: "missing description" when
    only blanks lie between the code and a '#' or the newline; "too many
    digits" when a segment of two digits is followed by one more digit;
    "level nested too deeply" when a point follows the fourth segment. *)
Theorem category_line_errors (n : nat) (code : string) :
  cat_code_ok code = true →
  (∀ k x rest, in_str x hash_or_newline = true →
     parse_cat_file_line (spaces n +:+ code +:+ " " +:+ spaces k +:+ String x rest)
     = CatError "Error, invalid category file format, missing description")
  ∧ (∀ x rest, (2 ≤ length (segments code))%nat →
       String.length (List.last (segments code) "") = 2%nat → isdigit x = true →
       parse_cat_file_line (spaces n +:+ code +:+ String x rest)
       = CatError "Error, invalid category code, too many digits")
  ∧ (∀ rest, length (segments code) = 4%nat →
       parse_cat_file_line (spaces n +:+ code +:+ String "." rest)
       = CatError "Error, invalid category code, level nested too deeply").
Proof.
  intros Hcok. splits.
  - intros k x rest Hx. apply parse_cat_file_line_eq. intros L.
    replace (spaces n +:+ code +:+ " " +:+ spaces k +:+ String x rest)
      with (spaces n +:+ (code +:+ " ") +:+ spaces k +:+ String x rest)
      by (now rewrite !append_assoc).
    rewrite cat_loop_app, cat_loop_spaces by reflexivity.
    rewrite cat_loop_app.
    destruct (code_run L (0 + String.length (spaces n)) code CS.init eq_refl Hcok)
      as (v' & E & Hst & _).
    rewrite E, cat_loop_app, cat_loop_blanks by exact Hst.
    assert (Hsp : Ascii.eqb x " " = false).
    { unfold hash_or_newline, in_str in Hx. rewrite orb_false_r in Hx.
      apply orb_prop in Hx as [Hx | Hx]; apply Ascii.eqb_eq in Hx; subst x; reflexivity. }
    simpl. unfold cat_step. now rewrite Hst, Hx, Hsp.
  - intros x rest H2 Hlast Hx. apply parse_cat_file_line_eq. intros L.
    rewrite cat_loop_app, cat_loop_spaces by reflexivity.
    rewrite cat_loop_app.
    destruct (code_prefix_run L (0 + String.length (spaces n)) code CS.init eq_refl Hcok)
      as (v' & E & _ & _ & [[_ H1] | (Hst & _ & Hdc)]); [lia |].
    rewrite E. simpl. unfold cat_step. rewrite Hst, Hx.
    cbn [CS.digit_count CS.set_digit_count]. rewrite Hdc, Hlast. reflexivity.
  - intros rest H4. apply parse_cat_file_line_eq. intros L.
    rewrite cat_loop_app, cat_loop_spaces by reflexivity.
    rewrite cat_loop_app.
    destruct (code_prefix_run L (0 + String.length (spaces n)) code CS.init eq_refl Hcok)
      as (v' & E & _ & Hlvl & [[_ H1] | (Hst & _ & _)]); [lia |].
    rewrite E. simpl. unfold cat_step. rewrite Hst.
    change (isdigit ".") with false. cbv iota. rewrite Ascii.eqb_refl.
    cbn [CS.level CS.set_level]. rewrite Hlvl, H4. reflexivity.
Qed.

Lemma category_line_errors_witness :
  parse_cat_file_line (spaces 1 +:+ "2.10" +:+ " " +:+ spaces 2 +:+ String "#" " tools")
  = CatError "Error, invalid category file format, missing description"
  ∧ parse_cat_file_line (spaces 1 +:+ "2.10" +:+ String "5" " Tools")
    = CatError "Error, invalid category code, too many digits".
Proof.
  destruct (category_line_errors 1 "2.10" eq_refl) as (H1 & H2 & _).
  split.
  - apply H1. reflexivity.
  - apply H2; [simpl; lia | reflexivity | reflexivity].
Defined.

(** ** The fields of a credited category *)

Lemma position_length {X Y : Type} (l : list X) (l' : list Y) (z : Z) :
  length l = length l' → position l z = position l' z.
Proof. intros H. unfold position. now rewrite H. Qed.

Lemma position_lt {X : Type} (l : list X) (z : Z) (k : nat) :
  position l z = Done k → (k < length l)%nat.
Proof.
  unfold position.
  destruct ((0 <=? z)%Z && (z <? Z.of_nat (length l))%Z) eqn:E1.
  - intros H; inversion H; subst k. apply andb_prop in E1 as [H1 H2].
    apply Z.leb_le in H1. apply Z.ltb_lt in H2. lia.
  - destruct ((z <? 0)%Z && (- Z.of_nat (length l) <=? z)%Z) eqn:E2; [| discriminate].
    intros H; inversion H; subst k. apply andb_prop in E2 as [H1 H2].
    apply Z.ltb_lt in H1. apply Z.leb_le in H2. lia.
Qed.

Lemma month_slot_lt (date : string) (k : nat) : month_slot date = Done k → (k < 12)%nat.
Proof.
  unfold month_slot. destruct (int (slice date 0 2)) as [m| |]; simpl; try discriminate.
  intros H. now apply position_lt in H.
Qed.

Section Credits.

Context {A : Type}.
Variable add : A → A → A.

Lemma credit_other (i idx : nat) (j : Journal.t A) (c : CatCode.t A) :
owned_by i j = false → credit add i idx j c = c.
Proof. intros H. unfold credit. now rewrite H. Qed.

Lemma credit_monthly_length (i idx : nat) (j : Journal.t A) (c : CatCode.t A) :
length (CatCode.monthly (credit add i idx j c)) = length (CatCode.monthly c).
Proof.
unfold credit. destruct (owned_by i j); [| reflexivity]. simpl.
destruct (month_slot (Journal.date j)) as [k| |]; simpl; try reflexivity.
destruct (CatCode.monthly c !! k); simpl; [apply length_insert | reflexivity].
Qed.

Lemma credits_monthly_length (i : nat) (js : list (Journal.t A)) :
∀ idx c, length (CatCode.monthly (credits add i idx js c)) = length (CatCode.monthly c).
Proof.
induction js as [|j js IH]; intros idx c; simpl; [reflexivity |].
now rewrite IH, credit_monthly_length.
Qed.

Lemma credits_app (i : nat) (js ks : list (Journal.t A)) : ∀ idx c,
credits add i idx (js ++ ks) c
= credits add i (idx + length js) ks (credits add i idx js c).
Proof.
induction js as [|j js IH]; intros idx c; simpl.
- now rewrite Nat.add_0_r.
- rewrite IH. now replace (S idx + length js)%nat with (idx + S (length js))%nat by lia.
Qed.

Lemma credits_journal (i : nat) (js : list (Journal.t A)) : ∀ idx c,
CatCode.journal (credits add i idx js c)
= (CatCode.journal c ++ owned_from i idx js)%list.
Proof.
induction js as [|j js IH]; intros idx c; simpl; [now rewrite app_nil_r |].
rewrite IH. unfold credit. destruct (owned_by i j); [| reflexivity]. simpl.
destruct (month_slot (Journal.date j)) as [k| |]; simpl;
  try (now rewrite <- app_assoc).
destruct (CatCode.monthly c !! k); simpl; now rewrite <- app_assoc.
Qed.

Lemma credits_total (i : nat) (js : list (Journal.t A)) : ∀ idx c,
CatCode.total (credits add i idx js c)
= fold_left add (map Journal.amt (List.filter (owned_by i) js)) (CatCode.total c).
Proof.
induction js as [|j js IH]; intros idx c; simpl; [reflexivity |].
rewrite IH. unfold credit. destruct (owned_by i j); [| reflexivity]. simpl.
destruct (month_slot (Journal.date j)) as [k| |]; simpl; try reflexivity.
destruct (CatCode.monthly c !! k); reflexivity.
Qed.

Lemma credits_longest (i : nat) (js : list (Journal.t A)) : ∀ idx c,
CatCode.longest (credits add i idx js c)
= fold_left Nat.max
    (map (fun j => String.length (Journal.descr j)) (List.filter (owned_by i) js))
    (CatCode.longest c).
Proof.
induction js as [|j js IH]; intros idx c; simpl; [reflexivity |].
rewrite IH. unfold credit. destruct (owned_by i j); [| reflexivity]. simpl.
destruct (month_slot (Journal.date j)) as [k| |]; simpl; try reflexivity.
destruct (CatCode.monthly c !! k); reflexivity.
Qed.

Lemma credits_monthly (i : nat) (js : list (Journal.t A)) : ∀ idx c m x,
length (CatCode.monthly c) = 12%nat →
CatCode.monthly c !! m = Some x →
CatCode.monthly (credits add i idx js c) !! m
= Some (fold_left add
          (map Journal.amt (List.filter (in_slot m) (List.filter (owned_by i) js))) x).
Proof.
induction js as [|j js IH]; intros idx c m x Hlen Hm; simpl; [exact Hm |].
destruct (owned_by i j) eqn:Eo.
- simpl. unfold in_slot at 1.
  assert (Hc : ∀ y, CatCode.monthly (credit add i idx j c) !! m = Some y →
               CatCode.monthly (credits add i (S idx) js (credit add i idx j c)) !! m
               = Some (fold_left add
                         (map Journal.amt
                            (List.filter (in_slot m) (List.filter (owned_by i) js))) y)).
  { intros y Hy. apply IH; [| exact Hy]. now rewrite credit_monthly_length. }
  unfold credit in *. rewrite Eo in *. simpl in *.
  destruct (month_slot (Journal.date j)) as [k| |] eqn:Ek; simpl in *; auto.
  destruct (CatCode.monthly c !! k) as [old|] eqn:Eold; simpl in *.
  + destruct (k =? m)%nat eqn:Ekm.
    * apply Nat.eqb_eq in Ekm. subst k. simpl.
      apply Hc. rewrite list_lookup_insert_eq by (eapply lookup_lt_Some; eauto).
      congruence.
    * apply Nat.eqb_neq in Ekm. apply Hc.
      now rewrite list_lookup_insert_ne by exact Ekm.
  + apply month_slot_lt in Ek. apply lookup_ge_None in Eold. lia.
- rewrite (credit_other i idx j c Eo). now apply IH.
Qed.

Lemma credits_frame (i : nat) (js : list (Journal.t A)) : ∀ idx c,
CatCode.cat_str (credits add i idx js c) = CatCode.cat_str c
∧ CatCode.level (credits add i idx js c) = CatCode.level c
∧ CatCode.parent (credits add i idx js c) = CatCode.parent c
∧ CatCode.children (credits add i idx js c) = CatCode.children c.
Proof.
induction js as [|j js IH]; intros idx c; simpl; [auto |].
destruct (IH (S idx) (credit add i idx j c)) as (H1 & H2 & H3 & H4).
rewrite H1, H2, H3, H4. unfold credit. destruct (owned_by i j); [| auto]. simpl.
destruct (month_slot (Journal.date j)) as [k| |]; simpl; auto.
destruct (CatCode.monthly c !! k); simpl; auto.
Qed.

End Credits.

Lemma owned_from_filter {A : Type} (i : nat) (js : list (Journal.t A)) : ∀ idx,
  owned_from i idx js
  = List.filter (fun k => match js !! (k - idx)%nat with
                          | Some j => owned_by i j
                          | None => false
                          end) (seq idx (length js)).
Proof.
  induction js as [|j js IH]; intros idx; simpl; [reflexivity |].
  rewrite Nat.sub_diag. simpl.
  assert (E : List.filter (fun k => match (j :: js) !! (k - idx)%nat with
                                    | Some j0 => owned_by i j0
                                    | None => false
                                    end) (seq (S idx) (length js))
              = owned_from i (S idx) js).
  { rewrite IH. apply filter_ext_in. intros k Hk. apply in_seq in Hk.
    replace (k - idx)%nat with (S (k - S idx)) by lia. reflexivity. }
  rewrite E. destruct (owned_by i j); reflexivity.
Qed.

Lemma journal_records_app {A : Type} (parse_journal_line : string → Z → journal_result A)
    (dict : gmap string nat) (y : Z) (a b : list string) : ∀ n,
  journal_records parse_journal_line dict y n (a ++ b)
  = (journal_records parse_journal_line dict y n a
     ++ journal_records parse_journal_line dict y (n + length a) b)%list.
Proof.
  induction a as [|x a IH]; intros n; simpl.
  - now rewrite Nat.add_0_r.
  - rewrite IH. replace (S n + length a)%nat with (n + S (length a))%nat by lia.
    destruct (journal_record parse_journal_line dict y n x); reflexivity.
Qed.

(** ** The loop of the journal loader *)

Lemma longest_update {A : Type} (c : CatCode.t A) (n : nat) :
  (if (CatCode.longest c <? n)%nat then CatCode.set_longest n c else c)
  = CatCode.set_longest (Nat.max (CatCode.longest c) n) c.
Proof.
  destruct (CatCode.longest c <? n)%nat eqn:E.
  - apply Nat.ltb_lt in E. now rewrite Nat.max_r by lia.
  - apply Nat.ltb_ge in E. rewrite Nat.max_l by lia. destruct c; reflexivity.
Qed.

Section JournalFile.

Context {A : Type}.
Variable add : A → A → A.
Variable parse_journal_line : string → Z → journal_result A.
Variable y : Z.

(** The dates the parser returns start with a month. *)
Hypothesis dates_ok : ∀ line date de a t c,
parse_journal_line line y = JLine date de a t c → ∃ k, month_slot date = Done k.

Lemma journal_file_turn_spec (n : nat) (line : string) (g : globals A) (idx : nat) :
ledger_ok g →
match journal_file_turn add parse_journal_line y n line (g, idx) with
| Done (g', idx') =>
    cat_dict g' = cat_dict g ∧ ledger_ok g'
    ∧ journal_line_ok parse_journal_line (cat_dict g) y line
    ∧ match journal_record parse_journal_line (cat_dict g) y n line with
      | Some j =>
          journal_list g' = (journal_list g ++ [j])%list ∧ idx' = S idx
          ∧ length (cat_list g') = length (cat_list g)
          ∧ ∀ i c, cat_list g !! i = Some c →
                   cat_list g' !! i = Some (credit add i idx j c)
      | None => g' = g ∧ idx' = idx
      end
| Exit why => journal_exit_reason parse_journal_line (cat_dict g) y n [line] why
| Raise _ => False
end.
Proof using dates_ok.
intros [Hr Hm]. unfold journal_file_turn, journal_record, journal_line_ok.
destruct (parse_journal_line line y) as [|msg|date de amt ty code] eqn:Ep.
- splits; auto. split; assumption.
- simpl. exists [], line, []. splits; auto; simpl; lia.
- destruct (truthy code) eqn:Et.
  2:{ splits; auto; [split; assumption | intros; congruence]. }
  destruct (cat_dict g !! code) as [cat_idx|] eqn:Ed.
  2:{ simpl. exists [], line, [], date, de, amt, ty, code.
      splits; auto; try (simpl; lia). intros ->. discriminate Et. }
  pose proof (Hr _ _ Ed) as Hlt.
  destruct (lookup_lt_is_Some_2 _ _ Hlt) as [c Hc].
  rewrite (index_lookup _ _ _ Hc), bind_Done_l.
  cbn [Journal.date CatCode.monthly CatCode.set_total CatCode.set_journal].
  destruct (dates_ok _ _ _ _ _ _ Ep) as [k Hk].
  pose proof (month_slot_lt _ _ Hk) as Hk12.
  unfold month_slot in Hk.
  destruct (int (slice date 0 2)) as [month| |] eqn:Ei;
    [| simpl in Hk; discriminate Hk | simpl in Hk; discriminate Hk].
  change (position (replicate 12 ()) (month - 1) = Done k) in Hk.
  rewrite bind_Done_l.
  assert (Hlen : length (CatCode.monthly c) = 12%nat).
  { rewrite Forall_lookup in Hm. exact (Hm _ _ Hc). }
  rewrite (position_length (CatCode.monthly c) (replicate 12 ())), Hk, bind_Done_l
    by (now rewrite Hlen).
  destruct (lookup_lt_is_Some_2 (CatCode.monthly c) k) as [old Hold]; [lia |].
  rewrite (index_lookup _ _ _ Hold), bind_Done_l.
  cbn [CatCode.longest CatCode.set_monthly CatCode.set_total CatCode.set_journal].
  match goal with |- context [if (?a <? ?b)%nat then CatCode.set_longest ?b ?x else ?x] =>
    change a with (CatCode.longest x); rewrite (longest_update x b)
  end.
  set (j := Journal.mk date de amt ty code cat_idx n).
  assert (Hcredit : ∀ c', c' = c →
            CatCode.set_longest
              (Nat.max (CatCode.longest c') (String.length de))
              (CatCode.set_monthly (<[k:=add old amt]> (CatCode.monthly c'))
                 (CatCode.set_total (add (CatCode.total c') amt)
                    (CatCode.set_journal (CatCode.journal c' ++ [idx]) c')))
            = credit add cat_idx idx j c).
  { intros c' ->. unfold credit, owned_by, j.
    cbn [Journal.cat_idx Journal.date Journal.amt Journal.descr].
    rewrite Nat.eqb_refl. unfold month_slot. rewrite Ei, bind_Done_l, Hk.
    cbn [CatCode.monthly CatCode.set_total CatCode.set_journal].
    rewrite Hold. reflexivity. }
  cbn [CatCode.longest CatCode.set_monthly CatCode.set_total CatCode.set_journal
         CatCode.monthly CatCode.total CatCode.journal].
  split; [reflexivity |].
  split.
  { split; simpl.
    - intros code' i Hi. rewrite length_insert. eapply Hr; eauto.
    - apply Forall_insert; [exact Hm |]. simpl. rewrite length_insert. exact Hlen. }
  split; [intros _; eauto |].
  split; [reflexivity |].
  split; [lia |].
  split; [simpl; apply length_insert |].
  intros i x Hi. simpl. destruct (decide (i = cat_idx)) as [-> | Hne].
  + rewrite list_lookup_insert_eq by exact Hlt. rewrite Hc in Hi.
    inversion Hi; subst x. f_equal. exact (Hcredit c eq_refl).
  + rewrite list_lookup_insert_ne by auto. rewrite Hi. f_equal.
    symmetry. apply credit_other. unfold owned_by. simpl.
    apply Nat.eqb_neq. auto.
Qed.

(** The loop over the lines, whatever its outcome. *)
Lemma journal_file_loop (lines : list string) : ∀ (n : nat) (g : globals A) (idx : nat),
ledger_ok g →
match for_each (enumerate_from n lines)
        (fun '(line_nbr, line) s =>
           journal_file_turn add parse_journal_line y line_nbr line s) (g, idx) with
| Done (g', idx') =>
    cat_dict g' = cat_dict g ∧ ledger_ok g'
    ∧ journal_list g'
      = (journal_list g ++ journal_records parse_journal_line (cat_dict g) y n lines)%list
    ∧ length (cat_list g') = length (cat_list g)
    ∧ (∀ i c, cat_list g !! i = Some c →
              cat_list g' !! i
              = Some (credits add i idx
                        (journal_records parse_journal_line (cat_dict g) y n lines) c))
    ∧ Forall (journal_line_ok parse_journal_line (cat_dict g) y) lines
| Exit why => journal_exit_reason parse_journal_line (cat_dict g) y n lines why
| Raise _ => False
end.
Proof using dates_ok.
induction lines as [|line lines IH]; intros n g idx Hg.
- simpl. rewrite app_nil_r. splits; auto.
- change (for_each (enumerate_from n (line :: lines))
            (fun '(line_nbr, line) s =>
               journal_file_turn add parse_journal_line y line_nbr line s) (g, idx))
    with (s' ← journal_file_turn add parse_journal_line y n line (g, idx);
          for_each (enumerate_from (S n) lines)
            (fun '(line_nbr, line) s =>
               journal_file_turn add parse_journal_line y line_nbr line s) s').
  pose proof (journal_file_turn_spec n line g idx Hg) as T.
  destruct (journal_file_turn add parse_journal_line y n line (g, idx))
    as [[g1 idx1]|why|e]; [| | exact T].
  + destruct T as (Td & Tg & Tok & T). rewrite bind_Done_l.
    specialize (IH (S n) g1 idx1 Tg). rewrite Td in IH.
    cbn [journal_records].
    destruct (for_each _ _ (g1, idx1)) as [[g' idx']|why|e]; [| | exact IH].
    * destruct IH as (I1 & I2 & I3 & I4 & I5 & I6).
      destruct (journal_record parse_journal_line (cat_dict g) y n line) as [j|].
      -- destruct T as (T1 & T2 & T3 & T4). subst idx1.
         splits; auto; try congruence.
         ++ rewrite I3, T1, <- app_assoc. reflexivity.
         ++ intros i c Hi. simpl. apply I5. now apply T4.
      -- destruct T as [-> ->]. splits; auto.
    * destruct why; simpl in *; try exact IH.
      -- destruct IH as (pre & x & post & -> & -> & Hx & Hpre).
         exists (line :: pre), x, post. splits; auto; simpl; lia.
      -- destruct IH as (pre & x & post & d & de & a & t & c & -> & -> & Hx & Hne
                         & Hno & Hpre).
         exists (line :: pre), x, post, d, de, a, t, c. splits; auto; simpl; lia.
  + simpl. destruct why; simpl in *; try exact T.
    * destruct T as (pre & x & post & E & -> & Hx & Hpre).
      destruct pre as [|p pre]; [| destruct pre; discriminate E].
      inversion E; subst x post. exists [], line, lines. splits; auto.
    * destruct T as (pre & x & post & d & de & a & t & c & E & -> & Hx & Hne & Hno & Hpre).
      destruct pre as [|p pre]; [| destruct pre; discriminate E].
      inversion E; subst x post. exists [], line, lines, d, de, a, t, c. splits; auto.
Qed.

End JournalFile.

(** ** The dates of the journal *)

Lemma month_cases (mo : Z) :
  (1 ≤ mo ≤ 12)%Z →
  mo = 1%Z ∨ mo = 2%Z ∨ mo = 3%Z ∨ mo = 4%Z ∨ mo = 5%Z ∨ mo = 6%Z ∨ mo = 7%Z
  ∨ mo = 8%Z ∨ mo = 9%Z ∨ mo = 10%Z ∨ mo = 11%Z ∨ mo = 12%Z.
Proof. lia. Qed.

Lemma expand_date_month (mo d y : Z) :
  (1 ≤ mo ≤ 12)%Z → slice (expand_date mo d y) 0 2 = two_digits mo.
Proof.
  intros Hmo. unfold expand_date. rewrite format_0d_two by lia.
  unfold slice. apply (substring_take (two_digits mo)).
Qed.

Lemma month_slot_expand_date (mo d y : Z) :
  (1 ≤ mo ≤ 12)%Z → month_slot (expand_date mo d y) = Done (Z.to_nat (mo - 1)).
Proof.
  intros Hmo. unfold month_slot. rewrite expand_date_month by exact Hmo.
  destruct (month_cases mo Hmo)
    as [-> | [-> | [-> | [-> | [-> | [-> | [-> | [-> | [-> | [-> | [-> | ->]]]]]]]]]]];
    reflexivity.
Qed.

Lemma decimal_expand_date (mo d y : Z) :
  (1 ≤ mo ≤ 12)%Z → decimal (slice (expand_date mo d y) 0 2) = mo.
Proof.
  intros Hmo. rewrite expand_date_month by exact Hmo.
  destruct (month_cases mo Hmo)
    as [-> | [-> | [-> | [-> | [-> | [-> | [-> | [-> | [-> | [-> | [-> | ->]]]]]]]]]]];
    reflexivity.
Qed.

(** The date of an accepted line. *)
Lemma parse_journal_file_line_date (line : string) (y : Z) (date de : string)
    (a : float) (t c : string) :
  parse_journal_file_line line y = JLine date de a t c →
  ∃ mo d, valid_date y mo d ∧ date = expand_date mo d y.
Proof.
  intros H. apply journal_line_sound in H as (x & rest & _ & Hok & Hval).
  destruct Hok as (_ & _ & _ & _ & Hvalid & _).
  unfold journal_text_value in Hval. inversion Hval; subst.
  eauto.
Qed.

Lemma parse_journal_file_line_code (line : string) (y : Z) (date de : string)
    (a : float) (t c : string) :
  parse_journal_file_line line y = JLine date de a t c → code_chars c = true.
Proof.
  intros H. apply journal_line_sound in H as (x & rest & _ & Hok & Hval).
  destruct Hok as (_ & _ & _ & _ & _ & _ & _ & _ & _ & _ & _ & Hcode & _).
  unfold journal_text_value in Hval. inversion Hval; subst. exact Hcode.
Qed.

Lemma parse_journal_file_line_slot (y : Z) (line date de : string) (a : float)
    (t c : string) :
  parse_journal_file_line line y = JLine date de a t c → ∃ k, month_slot date = Done k.
Proof.
  intros H. apply parse_journal_file_line_date in H as (mo & d & (Hmo & _) & ->).
  rewrite month_slot_expand_date by exact Hmo. eauto.
Qed.

Lemma in_slot_in_month (y : Z) (m : nat) (j : Journal.t float) :
  (∃ mo d, valid_date y mo d ∧ Journal.date j = expand_date mo d y) →
  in_slot m j = in_month (m + 1) j.
Proof.
  intros (mo & d & (Hmo & _) & Hd). unfold in_slot, in_month. rewrite Hd.
  rewrite month_slot_expand_date, decimal_expand_date by exact Hmo.
  destruct (Z.to_nat (mo - 1) =? m)%nat eqn:E.
  - apply Nat.eqb_eq in E. symmetry. apply Z.eqb_eq. lia.
  - apply Nat.eqb_neq in E. symmetry. apply Z.eqb_neq. lia.
Qed.

(** ** The transactions of the journal *)

Lemma journal_records_lookup {A : Type}
    (parse_journal_line : string → Z → journal_result A) (dict : gmap string nat)
    (y : Z) (lines : list string) : ∀ (n k : nat) (j : Journal.t A),
  journal_records parse_journal_line dict y n lines !! k = Some j →
  ∃ line_nbr line, (n ≤ line_nbr)%nat ∧ lines !! (line_nbr - n)%nat = Some line
                   ∧ journal_record parse_journal_line dict y line_nbr line = Some j.
Proof.
  induction lines as [|line lines IH]; intros n k j H; [discriminate H |].
  simpl in H.
  destruct (journal_record parse_journal_line dict y n line) as [j0|] eqn:E.
  - destruct k as [|k].
    + inversion H; subst j0. exists n, line. rewrite Nat.sub_diag. auto.
    + simpl in H. destruct (IH _ _ _ H) as (ln & l & Hle & Hl & Hr).
      exists ln, l. splits; [lia | | exact Hr].
      replace (ln - n)%nat with (S (ln - S n)) by lia. exact Hl.
  - destruct (IH _ _ _ H) as (ln & l & Hle & Hl & Hr).
    exists ln, l. splits; [lia | | exact Hr].
    replace (ln - n)%nat with (S (ln - S n)) by lia. exact Hl.
Qed.

Lemma journal_record_fields {A : Type}
    (parse_journal_line : string → Z → journal_result A) (dict : gmap string nat)
    (y : Z) (n : nat) (line : string) (j : Journal.t A) :
  journal_record parse_journal_line dict y n line = Some j →
  parse_journal_line line y
  = JLine (Journal.date j) (Journal.descr j) (Journal.amt j) (Journal.type j)
      (Journal.cat_code j)
  ∧ dict !! Journal.cat_code j = Some (Journal.cat_idx j)
  ∧ Journal.line_nbr j = n.
Proof.
  unfold journal_record.
  destruct (parse_journal_line line y) as [|msg|date de a t c]; try discriminate.
  destruct (truthy c); [| discriminate].
  destruct (dict !! c) as [i|] eqn:E; [| discriminate].
  intros H. inversion H; subst j. simpl. auto.
Qed.

(** ** The categories before the journal *)

Lemma cat_records_no_credit {A : Type} (zero : A) (lines : list string) : ∀ n,
  Forall (no_credit zero) (cat_records zero n lines).
Proof.
  induction lines as [|x lines IH]; intros n; simpl; [constructor |].
  unfold cat_record. destruct (parse_cat_file_line x); auto.
  constructor; [repeat split | apply IH].
Qed.

Section Ledger.

Context {A : Type}.
Variable zero : A.

Lemma read_and_parse_cat_file_records (cat_file : list string) (g : globals A) :
read_and_parse_cat_file zero cat_file globals_init = Done g →
cat_list g = cat_records zero 1 cat_file.
Proof.
unfold read_and_parse_cat_file. intros H.
pose proof (cat_file_loop zero cat_file 1 globals_init dict_ok_init) as L.
change (length (cat_list (@globals_init A))) with 0%nat in L.
destruct (for_each _ _ _) as [[g' idx']|why|e]; simpl in H; try discriminate H.
destruct L as (H1 & _).
destruct (length (cat_list g') =? 0)%nat; [discriminate H |].
inversion H; subst g'. exact H1.
Qed.

(** The categories when the journal loader starts. *)
Lemma hierarchy_ledger (cat_file : list string) (g1 g2 : globals A) :
read_and_parse_cat_file zero cat_file globals_init = Done g1 →
prc_cat_file_hierarchy g1 = Done g2 →
ledger_ok g2 ∧ Forall (no_credit zero) (cat_list g2) ∧ journal_list g2 = []
∧ ∀ code i, cat_dict g2 !! code = Some i →
            ∃ c, cat_list g2 !! i = Some c ∧ CatCode.cat_str c = code.
Proof.
intros H1 H2.
pose proof (read_and_parse_cat_file_records cat_file g1 H1) as Hrec.
apply (read_and_parse_cat_file_fresh zero) in H1 as (Hd & Hu & Hj).
pose proof (hierarchy_pass g1 Hd Hu) as P. rewrite H2 in P.
destruct P as [(P1 & P2 & P3 & P4) _].
assert (Hback : ∀ i c2, cat_list g2 !! i = Some c2 →
          ∃ c1, cat_list g1 !! i = Some c1
                ∧ c2 = linked_upto g1 (length (cat_list g1)) i c1).
{ intros i c2 Hi. destruct (cat_list g1 !! i) as [c1|] eqn:E1.
  - exists c1. split; [reflexivity |]. rewrite (P4 i c1 E1) in Hi. congruence.
  - apply lookup_ge_None in E1. apply lookup_lt_Some in Hi. lia. }
assert (Hnc : Forall (no_credit zero) (cat_list g2)).
{ apply Forall_lookup. intros i c2 Hi. destruct (Hback i c2 Hi) as (c1 & Hc1 & ->).
  pose proof (cat_records_no_credit zero cat_file 1) as Hz. rewrite <- Hrec in Hz.
  rewrite Forall_lookup in Hz. exact (Hz i c1 Hc1). }
assert (Hlook : ∀ code i, cat_dict g2 !! code = Some i →
          ∃ c, cat_list g2 !! i = Some c ∧ CatCode.cat_str c = code).
{ intros code i Hi. rewrite P1 in Hi. apply Hd in Hi.
  destruct (cat_list g1 !! i) as [c1|] eqn:E1; [| discriminate Hi].
  inversion Hi. exists (linked_upto g1 (length (cat_list g1)) i c1).
  split; [apply P4; exact E1 | reflexivity]. }
splits; auto; [| congruence].
split.
- intros code i Hi. destruct (Hlook code i Hi) as (c & Hc & _).
  eapply lookup_lt_Some; eauto.
- eapply Forall_impl; [exact Hnc |]. intros c (_ & Hm & _). rewrite Hm. reflexivity.
Qed.

End Ledger.

(** ** The journal loader of the program *)

Lemma journal_file_outcome (journal_file : list string) (y : Z) (g2 : globals float) :
  ledger_ok g2 → journal_list g2 = [] →
  match read_and_parse_journal_file PrimFloat.add parse_journal_file_line
          journal_file y g2 with
  | Done g =>
      cat_dict g = cat_dict g2
      ∧ journal_list g = journal_records parse_journal_file_line (cat_dict g2) y 1 journal_file
      ∧ journal_list g ≠ []
      ∧ length (cat_list g) = length (cat_list g2)
      ∧ (∀ i c, cat_list g2 !! i = Some c →
                cat_list g !! i = Some (credits PrimFloat.add i 0 (journal_list g) c))
      ∧ Forall (journal_line_ok parse_journal_file_line (cat_dict g2) y) journal_file
  | Exit why => journal_file_exit parse_journal_file_line (cat_dict g2) y journal_file why
  | Raise _ => False
  end.
Proof.
  intros Hg Hj. unfold read_and_parse_journal_file.
  pose proof (journal_file_loop PrimFloat.add parse_journal_file_line y
                (parse_journal_file_line_slot y) journal_file 1 g2 0 Hg) as L.
  destruct (for_each _ _ _) as [[g' idx']|why|e]; [| | exact L].
  - destruct L as (L1 & L2 & L3 & L4 & L5 & L6). rewrite Hj in L3. simpl in L3.
    rewrite bind_Done_l. cbn [fst].
    destruct (length (journal_list g') =? 0)%nat eqn:E.
    + apply Nat.eqb_eq in E. simpl. split; [| exact L6].
      rewrite <- L3. now destruct (journal_list g').
    + apply Nat.eqb_neq in E. splits; auto.
      * intros Hnil. rewrite Hnil in E. simpl in E. lia.
      * intros i c Hi. rewrite L3. now apply L5.
  - simpl. destruct why; simpl in *; try contradiction; exact L.
Qed.

(** For files of ASCII characters: when the three passes before the roll-up
    have ended, the journal list
    holds the transactions of the lines of the journal, in the order of the
    file, and there is at least one; every transaction has a date of the year
    and the index of the category that has its code; and every category
    holds the indices of its transactions in the order of the file, as total
    the sum of their amounts added one after the other to 0.0 in this order,
    as figure of each month the same sum over its transactions of that month,
    and as longest description length the greatest one of its transactions. *)
Theorem journal_file_loaded (cat_file journal_file : list string) (y : Z)
    (g : globals float) :
  ascii_file cat_file = true → ascii_file journal_file = true →
  loaded 0%float PrimFloat.add parse_journal_file_line cat_file journal_file y g →
  journal_list g = journal_records parse_journal_file_line (cat_dict g) y 1 journal_file
  ∧ journal_list g ≠ []
  ∧ (∀ k j, journal_list g !! k = Some j →
       (∃ mo d, valid_date y mo d ∧ Journal.date j = expand_date mo d y)
       ∧ ∃ c, cat_list g !! Journal.cat_idx j = Some c
              ∧ CatCode.cat_str c = Journal.cat_code j)
  ∧ ∀ i c, cat_list g !! i = Some c →
      CatCode.journal c
      = List.filter (fun k => match journal_list g !! k with
                              | Some j => owned_by i j
                              | None => false
                              end) (seq 0 (length (journal_list g)))
      ∧ CatCode.total c
        = fold_left PrimFloat.add
            (map Journal.amt (List.filter (owned_by i) (journal_list g))) 0%float
      ∧ (∀ m, (m < 12)%nat →
           CatCode.monthly c !! m
           = Some (fold_left PrimFloat.add
                     (map Journal.amt
                        (List.filter (in_month (m + 1))
                           (List.filter (owned_by i) (journal_list g)))) 0%float))
      ∧ CatCode.longest c
        = fold_left Nat.max
            (map (fun j => String.length (Journal.descr j))
               (List.filter (owned_by i) (journal_list g))) 0%nat.
Proof.
  intros _ _ (g1 & g2 & H1 & H2 & H3).
  destruct (hierarchy_ledger 0%float cat_file g1 g2 H1 H2) as (Hg & Hnc & Hj & Hlook).
  pose proof (journal_file_outcome journal_file y g2 Hg Hj) as O. rewrite H3 in O.
  destruct O as (O1 & O2 & O3 & O4 & O5 & O6).
  assert (Hrec : ∀ k j, journal_list g !! k = Some j →
            (∃ mo d, valid_date y mo d ∧ Journal.date j = expand_date mo d y)
            ∧ cat_dict g2 !! Journal.cat_code j = Some (Journal.cat_idx j)).
  { intros k j Hk. rewrite O2 in Hk.
    apply journal_records_lookup in Hk as (ln & line & _ & _ & Hr).
    apply journal_record_fields in Hr as (Hp & Hd & _).
    split; [| exact Hd]. eapply parse_journal_file_line_date; eauto. }
  splits.
  - now rewrite O1.
  - exact O3.
  - intros k j Hk. destruct (Hrec k j Hk) as [Hdate Hd]. split; [exact Hdate |].
    destruct (Hlook _ _ Hd) as (c2 & Hc2 & Hs).
    exists (credits PrimFloat.add (Journal.cat_idx j) 0 (journal_list g) c2).
    split; [now apply O5 |].
    destruct (credits_frame PrimFloat.add (Journal.cat_idx j) (journal_list g) 0 c2)
      as (F1 & _).
    now rewrite F1.
  - intros i c Hi.
    destruct (cat_list g2 !! i) as [c2|] eqn:E2.
    2:{ apply lookup_ge_None in E2. apply lookup_lt_Some in Hi. lia. }
    rewrite (O5 i c2 E2) in Hi. inversion Hi; subst c. clear Hi.
    rewrite Forall_lookup in Hnc. destruct (Hnc i c2 E2) as (Z1 & Z2 & Z3 & Z4).
    splits.
    + rewrite credits_journal, Z3, owned_from_filter. simpl.
      apply filter_ext. intros k. now rewrite Nat.sub_0_r.
    + now rewrite credits_total, Z1.
    + intros m Hm.
      rewrite (credits_monthly PrimFloat.add i (journal_list g) 0 c2 m 0%float).
      * do 3 f_equal. apply filter_ext_in. intros j Hin.
        apply filter_In in Hin as [Hin _].
        apply list_elem_of_In, list_elem_of_lookup in Hin as [k Hk].
        destruct (Hrec k j Hk) as [Hdate _].
        exact (in_slot_in_month y m j Hdate).
      * rewrite Z2. apply length_replicate.
      * rewrite Z2. now apply lookup_replicate_2.
    + now rewrite credits_longest, Z4.
Qed.

(** For files of ASCII characters: after the category file and the
    hierarchy pass, when the journal loader
    exits, the reason is the parser's message for the first line it refuses,
    with the number of this line; or the first line whose category code is
    in no line of the category file, with its number; or a journal where no
    line is a transaction.  The loader raises no exception. *)
Theorem journal_file_exits (cat_file journal_file : list string) (y : Z)
    (g1 g2 : globals float) :
  ascii_file cat_file = true → ascii_file journal_file = true →
  read_and_parse_cat_file 0%float cat_file globals_init = Done g1 →
  prc_cat_file_hierarchy g1 = Done g2 →
  (∀ why, read_and_parse_journal_file PrimFloat.add parse_journal_file_line
            journal_file y g2 = Exit why →
          journal_file_exit parse_journal_file_line (cat_dict g2) y journal_file why)
  ∧ (∀ e, read_and_parse_journal_file PrimFloat.add parse_journal_file_line
            journal_file y g2 ≠ Raise e).
Proof.
  intros _ _ H1 H2.
  destruct (hierarchy_ledger 0%float cat_file g1 g2 H1 H2) as (Hg & Hnc & Hj & Hlook).
  pose proof (journal_file_outcome journal_file y g2 Hg Hj) as O.
  destruct (read_and_parse_journal_file _ _ _ _ _) as [g|why|e].
  - split; discriminate.
  - split; [| discriminate]. intros w H. inversion H; subst w. exact O.
  - contradiction.
Qed.

(** ** The roll-up always ends *)

Section RollupEnds.

Context {A : Type}.
Variable zero : A.
Variable add : A → A → A.

Lemma rollup_level_ends (lvl : nat) (l : list (CatCode.t A)) :
tree_ok l → (1 < lvl)%nat →
∃ l', rollup_level add lvl l = Done l' ∧ tree_ok l'.
Proof using zero.
intros Hok Hlvl. unfold rollup_level.
destruct (for_each_seq_total (fun _ s => tree_ok s ∧ length s = length l)
            (rollup_turn add lvl) (length l) 0 l) as (l' & H1 & H2 & _).
- intros k s1 Hk [Hs Hlen].
  destruct (lookup_lt_is_Some_2 s1 k) as [c Hc]; [lia |].
  destruct (rollup_turn_spec zero add s1 lvl k c Hs Hc Hlvl) as (s2 & E & Hfr & Hs2 & _).
  exists s2. split; [exact E |]. split; [exact Hs2 |].
  rewrite <- Hlen. symmetry. eapply Forall2_length; eauto.
- auto.
- eauto.
Qed.

Lemma rollup_ends (g : globals A) :
tree_ok (cat_list g) → ∃ g', rollup add g = Done g'.
Proof using zero.
intros Hok. unfold rollup. simpl.
destruct (rollup_level_ends 4 (cat_list g) Hok) as (l4 & E4 & H4); [lia |].
destruct (rollup_level_ends 3 l4 H4) as (l3 & E3 & H3); [lia |].
destruct (rollup_level_ends 2 l3 H3) as (l2 & E2 & H2); [lia |].
rewrite E4. simpl. rewrite E3. simpl. rewrite E2. simpl. eauto.
Qed.

End RollupEnds.

Lemma main_never_raises (cat_file journal_file : list string) (y : Z) (e : string) :
  cashflow cat_file journal_file y ≠ Raise e.
Proof.
  unfold cashflow, main.
  destruct (read_and_parse_cat_file 0%float cat_file globals_init) as [g1|w1|e1] eqn:H1.
  2:{ discriminate. }
  2:{ exfalso. unfold read_and_parse_cat_file in H1.
      pose proof (cat_file_loop 0%float cat_file 1 globals_init dict_ok_init) as L.
      change (length (cat_list (@globals_init float))) with 0%nat in L.
      destruct (for_each _ _ _) as [[g' idx']|why|e']; simpl in H1.
      - destruct (length (cat_list g') =? 0)%nat; discriminate H1.
      - discriminate H1.
      - exact L. }
  rewrite bind_Done_l.
  destruct (prc_cat_file_hierarchy g1) as [g2|w2|e2] eqn:H2.
  2:{ discriminate. }
  2:{ exfalso.
      pose proof (read_and_parse_cat_file_fresh 0%float cat_file g1 H1) as (Hd & Hu & _).
      pose proof (hierarchy_pass g1 Hd Hu) as P. now rewrite H2 in P. }
  rewrite bind_Done_l.
  destruct (hierarchy_ledger 0%float cat_file g1 g2 H1 H2) as (Hg & Hnc & Hj & Hlook).
  pose proof (journal_file_outcome journal_file y g2 Hg Hj) as O.
  destruct (read_and_parse_journal_file PrimFloat.add parse_journal_file_line
              journal_file y g2) as [g3|w3|e3] eqn:H3; [| discriminate | contradiction].
  rewrite bind_Done_l.
  assert (Hok : tree_ok (cat_list g3)).
  { eapply read_and_parse_journal_file_tree; [exact H3 |].
    eapply prc_cat_file_hierarchy_tree; eauto. }
  destruct (rollup_ends 0%float PrimFloat.add g3 Hok) as (g4 & E). rewrite E. discriminate.
Qed.

(** From the two files to the totals rolled up into the parents, the program
    raises no exception, whatever files of ASCII characters it reads: it ends
    with the categories and the transactions, or it exits with one of its
    error messages. *)
Theorem cashflow_raises_no_exception (cat_file journal_file : list string) (y : Z) :
  ascii_file cat_file = true → ascii_file journal_file = true →
  (∃ g, cashflow cat_file journal_file y = Done g)
  ∨ (∃ why, cashflow cat_file journal_file y = Exit why).
Proof.
  intros _ _.
  pose proof (main_never_raises cat_file journal_file y) as H.
  destruct (cashflow cat_file journal_file y) as [g|why|e]; eauto.
  now destruct (H e).
Qed.

(** ** Example journals *)

Lemma journal_file_loaded_witness :
  journal_list household_loaded
  = journal_records parse_journal_file_line (cat_dict household_loaded) 2015 1
      household_journal_file
  ∧ journal_list household_loaded ≠ [].
Proof.
  destruct (journal_file_loaded household_cat_file household_journal_file 2015
              household_loaded eq_refl eq_refl) as (H1 & H2 & _).
  - destruct household_passes as (P1 & P2 & P3 & _).
    exists household_registry, household_tree. auto.
  - split; assumption.
Defined.

Lemma journal_file_exits_witness :
  read_and_parse_journal_file PrimFloat.add parse_journal_file_line
    undefined_journal_file 2015 household_tree = Exit (UndefinedCategory 2)
  ∧ journal_file_exit parse_journal_file_line (cat_dict household_tree) 2015
      undefined_journal_file (UndefinedCategory 2)
  ∧ read_and_parse_journal_file PrimFloat.add parse_journal_file_line
      bad_month_journal_file 2015 household_tree
    = Exit (JournalFileError month_error 2)
  ∧ journal_file_exit parse_journal_file_line (cat_dict household_tree) 2015
      bad_month_journal_file (JournalFileError month_error 2).
Proof.
  destruct household_passes as (P1 & P2 & _).
  assert (E1 : read_and_parse_journal_file PrimFloat.add parse_journal_file_line
                 undefined_journal_file 2015 household_tree = Exit (UndefinedCategory 2))
    by (vm_compute; reflexivity).
  assert (E2 : read_and_parse_journal_file PrimFloat.add parse_journal_file_line
                 bad_month_journal_file 2015 household_tree
               = Exit (JournalFileError month_error 2))
    by (vm_compute; reflexivity).
  split; [exact E1 |].
  split; [exact (proj1 (journal_file_exits household_cat_file undefined_journal_file 2015
                          household_registry household_tree eq_refl eq_refl P1 P2)
                   _ E1) |].
  split; [exact E2 |].
  exact (proj1 (journal_file_exits household_cat_file bad_month_journal_file 2015
                  household_registry household_tree eq_refl eq_refl P1 P2) _ E2).
Defined.

Lemma cashflow_raises_no_exception_witness :
  (∃ g, cashflow household_cat_file household_journal_file 2015 = Done g)
  ∨ (∃ why, cashflow household_cat_file household_journal_file 2015 = Exit why).
Proof.
  exact (cashflow_raises_no_exception household_cat_file household_journal_file 2015
           eq_refl eq_refl).
Defined.

(** ** Loops that write lines *)

Lemma for_each_flat_map {X Y : Type} (xs : list X)
    (body : X → list Y → outcome (list Y)) (f : X → list Y) :
  (∀ x out, In x xs → body x out = Done (out ++ f x)%list) →
  ∀ out, for_each xs body out = Done (out ++ flat_map f xs)%list.
Proof.
  induction xs as [|x xs IH]; intros Hbody out; simpl.
  - now rewrite app_nil_r.
  - rewrite (Hbody x out) by now left. rewrite bind_Done_l.
    rewrite IH by (intros; apply Hbody; now right).
    now rewrite app_assoc.
Qed.

Lemma flat_map_ext_on {X Y : Type} (f g : X → list Y) (l : list X) :
  (∀ x, In x l → f x = g x) → flat_map f l = flat_map g l.
Proof.
  induction l as [|x l IH]; intros H; simpl; [reflexivity |].
  rewrite (H x) by now left. rewrite IH; [reflexivity |]. intros; apply H; now right.
Qed.

Lemma flat_map_seq_lookup {X Y : Type} (f : X → list Y) (l : list X) :
  flat_map (fun i => match l !! i with Some x => f x | None => [] end)
    (seq 0 (length l))
  = flat_map f l.
Proof.
  induction l as [|x l IH] using rev_ind; [reflexivity |].
  rewrite length_app. simpl. rewrite seq_app, !flat_map_app. simpl.
  rewrite lookup_app_r, Nat.sub_diag by lia. simpl. rewrite !app_nil_r.
  f_equal. rewrite <- IH. apply flat_map_ext_on. intros i Hi. apply in_seq in Hi.
  now rewrite lookup_app_l by lia.
Qed.

Lemma flat_map_filter_map {X Y : Type} (p : X → bool) (f : X → Y) (l : list X) :
  flat_map (fun x => if p x then [f x] else []) l = map f (List.filter p l).
Proof.
  induction l as [|x l IH]; simpl; [reflexivity |].
  destruct (p x); simpl; now rewrite IH.
Qed.

Lemma flat_map_filter {X Y : Type} (p : X → bool) (f : X → list Y) (l : list X) :
  flat_map (fun x => if p x then f x else []) l = flat_map f (List.filter p l).
Proof.
  induction l as [|x l IH]; simpl; [reflexivity |].
  destruct (p x); simpl; now rewrite IH.
Qed.

(** A loop over the indices of [l] whose turn writes the lines [f x] of the
    item [x] it reads. *)
Lemma for_each_index_lines {X Y : Type} (l : list X)
    (body : nat → list Y → outcome (list Y)) (f : X → list Y) :
  (∀ i x out, l !! i = Some x → body i out = Done (out ++ f x)%list) →
  ∀ out, for_each (seq 0 (length l)) body out = Done (out ++ flat_map f l)%list.
Proof.
  intros Hbody out.
  rewrite (for_each_flat_map _ body
             (fun i => match l !! i with Some x => f x | None => [] end)).
  - now rewrite flat_map_seq_lookup.
  - intros i out' Hi. apply in_seq in Hi.
    destruct (lookup_lt_is_Some_2 l i) as [x Hx]; [lia |].
    rewrite Hx. now apply Hbody.
Qed.

(** ** The year-to-date summary *)

Lemma year_loop (l : list (CatCode.t float)) (out : list string) :
  for_each (seq 0 (length l)) (year_turn l) out
  = Done (out ++ map (fun c => summary_line c (CatCode.total c) (CatCode.nested_total c))
                   (List.filter in_summary l))%list.
Proof.
  rewrite <- flat_map_filter_map. apply for_each_index_lines.
  intros i c out' Hi. unfold year_turn. rewrite (index_lookup _ _ _ Hi), bind_Done_l.
  unfold in_summary. destruct (nonzero _); [reflexivity | now rewrite app_nil_r].
Qed.

(** ** The months to print *)

Lemma nth_lookup_Some {X : Type} (l : list X) (i : nat) (d : X) :
  (i < length l)%nat → l !! i = Some (nth i l d).
Proof.
  intros H. destruct (lookup_lt_is_Some_2 l i H) as [x Hx]. rewrite Hx. f_equal.
  symmetry. now apply nth_lookup_Some with (d := d) in Hx.
Qed.

Lemma todo_turn_spec (c : CatCode.t float) (month : nat) (todo : list bool) :
  months_ok c → length todo = 12%nat → (month < 12)%nat →
  todo_turn c month todo
  = Done (if nonzero (figure c month) then <[month := true]> todo else todo).
Proof.
  intros [H1 H2] Hlen Hm. unfold todo_turn, figure.
  assert (E1 : (month < length (CatCode.monthly c))%nat) by lia.
  assert (E2 : (month < length (CatCode.nested_monthly c))%nat) by lia.
  rewrite (index_lookup _ _ _ (nth_lookup_Some _ _ 0%float E1)), bind_Done_l.
  rewrite (index_lookup _ _ _ (nth_lookup_Some _ _ 0%float E2)), bind_Done_l.
  destruct (nonzero _); [| reflexivity].
  unfold assign. rewrite Hlen.
  destruct (Nat.ltb_spec month 12); [reflexivity | lia].
Qed.

Lemma todo_category (c : CatCode.t float) (todo : list bool) :
  months_ok c → length todo = 12%nat →
  ∃ todo', for_each (seq 0 12) (todo_turn c) todo = Done todo'
           ∧ length todo' = 12%nat
           ∧ ∀ m, (m < 12)%nat →
                  todo' !! m = (fun t => t || nonzero (figure c m)) <$> todo !! m.
Proof.
  intros Hc Hlen.
  destruct (for_each_seq_total
              (fun k t => length t = 12%nat
                          ∧ ∀ m, (m < 12)%nat →
                                 t !! m = (fun b => if (m <? k)%nat
                                                    then b || nonzero (figure c m)
                                                    else b) <$> todo !! m)
              (todo_turn c) 12 0 todo) as (t & E & Ht & Hm).
  - intros k t Hk [Ht Hm]. rewrite todo_turn_spec by (auto; lia).
    eexists. split; [reflexivity |].
    split; [destruct (nonzero _); now rewrite ?length_insert |].
    intros m Hlt. specialize (Hm m Hlt).
    destruct (todo !! m) as [b|] eqn:Eb;
      [| apply lookup_ge_None in Eb; lia].
    simpl in *.
    destruct (Nat.eq_dec m k) as [-> | Hne].
    + rewrite Nat.ltb_irrefl in Hm.
      destruct (Nat.ltb_spec k (S k)); [| lia].
      destruct (nonzero (figure c k)).
      * rewrite list_lookup_insert_eq by lia. now rewrite orb_true_r.
      * now rewrite Hm, orb_false_r.
    + assert (Hsame : (m <? S k)%nat = (m <? k)%nat).
      { destruct (Nat.ltb_spec m (S k)), (Nat.ltb_spec m k); auto; lia. }
      rewrite Hsame.
      destruct (nonzero (figure c k)); [rewrite list_lookup_insert_ne by lia |];
        exact Hm.
  - split; [exact Hlen |]. intros m Hlt.
    destruct (todo !! m); reflexivity.
  - exists t. splits; auto. intros m Hlt. rewrite (Hm m Hlt).
    change (0 + 12)%nat with 12%nat.
    destruct (Nat.ltb_spec m 12); [reflexivity | lia].
Qed.

Lemma existsb_snoc {X : Type} (p : X → bool) (l : list X) (x : X) :
  existsb p (l ++ [x]) = existsb p l || p x.
Proof. rewrite existsb_app. simpl. now rewrite orb_false_r. Qed.

Lemma todo_of_spec (l : list (CatCode.t float)) :
  Forall months_ok l → todo_of l = Done (map (active l) (seq 0 12)).
Proof.
  intros Hok. unfold todo_of.
  destruct (for_each_seq_total
              (fun k t => length t = 12%nat
                          ∧ ∀ m, (m < 12)%nat → t !! m = Some (active (take k l) m))
              (fun cidx todo => c ← index l cidx; for_each (seq 0 12) (todo_turn c) todo)
              (length l) 0 (replicate 12 false)) as (t & E & Ht & Hm).
  - intros k t Hk [Ht Hm].
    destruct (lookup_lt_is_Some_2 l k) as [c Hc]; [lia |].
    rewrite (index_lookup _ _ _ Hc), bind_Done_l.
    destruct (todo_category c t) as (t' & E' & Ht' & Hm'); auto.
    { rewrite Forall_lookup in Hok. eauto. }
    exists t'. split; [exact E' |]. split; [exact Ht' |].
    intros m Hlt. rewrite (Hm' m Hlt), (Hm m Hlt). simpl.
    rewrite (take_S_r _ _ _ Hc). unfold active. now rewrite existsb_snoc.
  - split; [reflexivity |]. intros m Hlt. rewrite take_0.
    now apply lookup_replicate_2.
  - rewrite E. f_equal. simpl in Hm. rewrite firstn_all in Hm.
    apply list_eq. intros m.
    destruct (Nat.lt_ge_cases m 12) as [Hlt | Hge].
    + rewrite (Hm m Hlt). rewrite list_lookup_fmap.
      rewrite lookup_seq_lt by exact Hlt. reflexivity.
    + rewrite (lookup_ge_None_2 t m) by lia.
      symmetry. apply lookup_ge_None_2. rewrite length_map, length_seq. lia.
Qed.

Lemma count_true_map {X : Type} (p : X → bool) (xs : list X) :
  count_true (map p xs) = length (List.filter p xs).
Proof.
  unfold count_true. induction xs as [|x xs IH]; [reflexivity |].
  cbn [map List.filter]. unfold id at 1. destruct (p x); cbn [length]; now rewrite IH.
Qed.

Lemma count_true_active (l : list (CatCode.t float)) :
  count_true (map (active l) (seq 0 12)) = length (months_of l).
Proof. apply count_true_map. Qed.

(** ** The summaries of the months *)

Lemma month_line_loop (l : list (CatCode.t float)) (month : nat) (out : list string) :
  Forall months_ok l → (month < 12)%nat →
  for_each (seq 0 (length l)) (month_line_turn l month) out
  = Done (out ++ map (fun c => summary_line c (nth month (CatCode.monthly c) 0%float)
                                 (nth month (CatCode.nested_monthly c) 0%float))
                   (List.filter (fun c => nonzero (figure c month)) l))%list.
Proof.
  intros Hok Hm. rewrite <- flat_map_filter_map. apply for_each_index_lines.
  intros i c out' Hi. unfold month_line_turn.
  rewrite (index_lookup _ _ _ Hi), bind_Done_l.
  rewrite Forall_lookup in Hok. destruct (Hok i c Hi) as [H1 H2].
  assert (E1 : (month < length (CatCode.monthly c))%nat) by lia.
  assert (E2 : (month < length (CatCode.nested_monthly c))%nat) by lia.
  rewrite (index_lookup _ _ _ (nth_lookup_Some _ _ 0%float E1)), bind_Done_l.
  rewrite (index_lookup _ _ _ (nth_lookup_Some _ _ 0%float E2)), bind_Done_l.
  unfold figure. destruct (nonzero _); [reflexivity | now rewrite app_nil_r].
Qed.

Lemma month_summary_loop (l : list (CatCode.t float)) (out : list string) :
  Forall months_ok l →
  for_each (seq 0 12) (month_summary_turn l (map (active l) (seq 0 12))) out
  = Done (out ++ flat_map (month_text l) (months_of l))%list.
Proof.
  intros Hok. unfold months_of. rewrite <- flat_map_filter.
  apply for_each_flat_map. intros m out' Hm. apply in_seq in Hm.
  unfold month_summary_turn.
  assert (Et : map (active l) (seq 0 12) !! m = Some (active l m)).
  { rewrite list_lookup_fmap, lookup_seq_lt by lia. reflexivity. }
  rewrite (index_lookup _ _ _ Et), bind_Done_l.
  destruct (active l m); [| now rewrite app_nil_r].
  assert (En : (m + 1 < length month_name)%nat) by (simpl; lia).
  rewrite (index_lookup _ _ _ (nth_lookup_Some _ _ "" En)), bind_Done_l.
  rewrite month_line_loop by (auto; lia).
  unfold month_text. now rewrite app_assoc.
Qed.

(** ** The monthly average *)

Lemma average_loop (l : list (CatCode.t float)) (months : nat) (out : list string) :
  months ≠ 0%nat →
  for_each (seq 0 (length l)) (average_turn l months) out
  = Done (out ++ map (fun c => average_line c
                                 ((CatCode.total c + CatCode.nested_total c)
                                  / PrimFloat.of_uint63 (Uint63.of_Z (Z.of_nat months)))%float)
                   (List.filter in_summary l))%list.
Proof.
  intros Hm. rewrite <- flat_map_filter_map. apply for_each_index_lines.
  intros i c out' Hi. unfold average_turn.
  rewrite (index_lookup _ _ _ Hi), bind_Done_l.
  unfold in_summary. destruct (nonzero _); [| now rewrite app_nil_r].
  unfold truediv. destruct (Nat.eqb_spec months 0); [contradiction |].
  reflexivity.
Qed.

Lemma for_each_raise_from {X S : Type} (p : X → bool) (e : string)
    (body : nat → S → outcome S) (suf : list X) : ∀ (pre : list X) (s : S),
  (∀ i x s, (pre ++ suf)%list !! i = Some x →
            body i s = if p x then Raise e else Done s) →
  for_each (seq (length pre) (length suf)) body s
  = if existsb p suf then Raise e else Done s.
Proof.
  induction suf as [|x suf IH]; intros pre s Hbody; [reflexivity |].
  cbn [length seq for_each existsb].
  rewrite (Hbody (length pre) x s) by (rewrite lookup_app_r, Nat.sub_diag; [reflexivity|lia]).
  destruct (p x); [reflexivity |].
  rewrite bind_Done_l. cbn [orb].
  specialize (IH (pre ++ [x])%list s). rewrite length_app in IH. simpl in IH.
  rewrite Nat.add_1_r in IH. apply IH.
  intros i y s' Hi. apply Hbody. now rewrite <- app_assoc in Hi.
Qed.

Lemma average_loop_zero (l : list (CatCode.t float)) (out : list string) :
  for_each (seq 0 (length l)) (average_turn l 0) out
  = if existsb in_summary l then Raise "ZeroDivisionError" else Done out.
Proof.
  apply (for_each_raise_from in_summary "ZeroDivisionError" (average_turn l 0) l []).
  intros i c s Hi. simpl in Hi. unfold average_turn.
  rewrite (index_lookup _ _ _ Hi), bind_Done_l.
  unfold in_summary. destruct (nonzero _); reflexivity.
Qed.

(** ** The sort by date *)

Lemma insert_by_key_perm {X : Type} (x : string * X) (l : list (string * X)) :
  Permutation (insert_by_key x l) (x :: l).
Proof.
  induction l as [|y l IH]; simpl; [reflexivity |].
  destruct (String.ltb (fst x) (fst y)); [reflexivity |].
  rewrite IH. apply perm_swap.
Qed.

Lemma sort_by_key_perm {X : Type} (l : list (string * X)) :
  Permutation (sort_by_key l) l.
Proof.
  unfold sort_by_key.
  enough (H : ∀ acc, Permutation (fold_left (fun sorted x => insert_by_key x sorted) l acc)
                       (acc ++ l)) by apply (H []).
  induction l as [|x l IH]; intros acc; simpl; [now rewrite app_nil_r |].
  rewrite IH, insert_by_key_perm.
  change (x :: acc ++ l)%list with ((x :: acc) ++ l)%list.
  rewrite (Permutation_middle acc l x). reflexivity.
Qed.

Lemma by_date_perm (jl : list (Journal.t float)) (ks : list nat) :
  Permutation (by_date jl ks) ks.
Proof.
  unfold by_date. rewrite sort_by_key_perm, map_map. simpl. now rewrite map_id.
Qed.

Lemma map_each_date_key (jl : list (Journal.t float)) (ks : list nat) :
  Forall (fun k => (k < length jl)%nat) ks →
  map_each (date_key jl) ks = Done (map (fun k => (date_of jl k, k)) ks).
Proof.
  induction 1 as [|k ks Hk _ IH]; [reflexivity |].
  cbn [map_each map]. rewrite IH.
  destruct (lookup_lt_is_Some_2 jl k Hk) as [j Hj].
  unfold date_key, date_of.
  rewrite (index_lookup _ _ _ Hj), Hj, !bind_Done_l. reflexivity.
Qed.

(** ** The detailed part *)

Lemma transaction_loop (jl : list (Journal.t float)) (ks : list nat) (w : nat)
    (out : list string) :
  Forall (fun k => (k < length jl)%nat) ks →
  for_each (seq 0 (length ks)) (transaction_turn jl ks w) out
  = Done (out ++ flat_map (fun k => match jl !! k with
                                    | Some j => [transaction_line w j]
                                    | None => []
                                    end) ks)%list.
Proof.
  intros Hks. apply for_each_index_lines.
  intros i k out' Hi. unfold transaction_turn.
  rewrite (index_lookup _ _ _ Hi), bind_Done_l.
  rewrite Forall_lookup in Hks. specialize (Hks i k Hi).
  destruct (lookup_lt_is_Some_2 jl k Hks) as [j Hj].
  now rewrite (index_lookup _ _ _ Hj), bind_Done_l, Hj.
Qed.

Lemma detail_turn_spec (g : globals float) (out : list string) (cidx : nat)
    (c : CatCode.t float) :
  cat_list g !! cidx = Some c →
  Forall (fun k => (k < length (journal_list g))%nat) (CatCode.journal c) →
  detail_turn cidx (g, out)
  = Done (mk_globals (<[cidx := sorted_category (journal_list g) c]> (cat_list g))
            (cat_dict g) (journal_list g),
          (out ++ detail_block (journal_list g) (sorted_category (journal_list g) c))%list).
Proof.
  intros Hc Hks. unfold detail_turn.
  rewrite (index_lookup _ _ _ Hc), bind_Done_l.
  rewrite (map_each_date_key _ _ Hks), bind_Done_l.
  fold (by_date (journal_list g) (CatCode.journal c)).
  fold (sorted_category (journal_list g) c).
  cbn [journal_list cat_list cat_dict].
  assert (Hlen : length (CatCode.journal (sorted_category (journal_list g) c))
                 = length (CatCode.journal c)).
  { unfold sorted_category. simpl. apply Permutation_length, by_date_perm. }
  rewrite transaction_loop.
  - rewrite bind_Done_l. do 2 f_equal. unfold detail_block, transaction_lines.
    rewrite Hlen.
    destruct (0 <? length (CatCode.journal c))%nat; simpl;
      rewrite <- ?app_assoc; reflexivity.
  - unfold sorted_category. simpl.
    eapply Permutation_Forall; [symmetry; apply by_date_perm | exact Hks].
Qed.

Lemma detail_loop (g : globals float) (out : list string) :
  journals_ok (journal_list g) (cat_list g) →
  for_each (seq 0 (length (cat_list g))) detail_turn (g, out)
  = Done (sorted_globals g,
          (out ++ flat_map (detail_block (journal_list g))
                    (cat_list (sorted_globals g)))%list).
Proof.
  intros Hok.
  set (jl := journal_list g). set (l := cat_list g).
  destruct (for_each_seq_total
              (fun k (s : globals float * list string) =>
                 s = (mk_globals (map (sorted_category jl) (take k l) ++ drop k l)
                        (cat_dict g) jl,
                      (out ++ flat_map (detail_block jl)
                                (map (sorted_category jl) (take k l)))%list))
              detail_turn (length l) 0 (g, out)) as (s & E & Hs).
  - intros k s Hk ->.
    destruct (lookup_lt_is_Some_2 l k) as [c Hc]; [lia |].
    assert (Hlk : length (map (sorted_category jl) (take k l)) = k).
    { rewrite length_map, length_take. lia. }
    rewrite (detail_turn_spec _ _ k c).
    + eexists. split; [reflexivity |]. cbn [cat_list cat_dict journal_list].
      rewrite (take_S_r _ _ _ Hc), map_app, flat_map_app. simpl.
      rewrite app_nil_r, <- !app_assoc. f_equal. f_equal.
      rewrite insert_app_r_alt by lia. rewrite Hlk, Nat.sub_diag.
      rewrite (drop_S _ _ _ Hc). reflexivity.
    + cbn [cat_list]. rewrite lookup_app_r by lia. rewrite Hlk, Nat.sub_diag.
      rewrite (drop_S _ _ _ Hc). reflexivity.
    + cbn [journal_list]. unfold journals_ok in Hok. rewrite Forall_lookup in Hok.
      exact (Hok k c Hc).
  - rewrite take_0, drop_0. simpl. rewrite app_nil_r. now destruct g.
  - rewrite E, Hs. simpl. rewrite firstn_all, drop_all, app_nil_r. reflexivity.
Qed.

(** ** The report as a whole *)

Lemma sorted_category_months_ok (jl : list (Journal.t float)) (c : CatCode.t float) :
  months_ok c → months_ok (sorted_category jl c).
Proof. intros H. exact H. Qed.

Lemma sorted_globals_months_ok (g : globals float) :
  Forall months_ok (cat_list g) → Forall months_ok (cat_list (sorted_globals g)).
Proof.
  intros H. unfold sorted_globals. simpl. apply Forall_map.
  eapply Forall_impl; [exact H |]. intros c Hc. exact Hc.
Qed.

Lemma existsb_false_filter {X : Type} (p : X → bool) (l : list X) :
  existsb p l = false → List.filter p l = [].
Proof.
  induction l as [|x l IH]; simpl; [reflexivity |].
  destruct (p x); simpl; [discriminate | exact IH].
Qed.

Lemma report_after_rollup_eq (env : report_env) (g : globals float) :
  Forall months_ok (cat_list g) → journals_ok (journal_list g) (cat_list g) →
  report_after_rollup env g
  = if (length (months_of (cat_list (sorted_globals g))) =? 0)%nat
       && existsb in_summary (cat_list (sorted_globals g))
    then Raise "ZeroDivisionError"
    else Done (sorted_globals g,
               report_text env (journal_list g) (cat_list (sorted_globals g))).
Proof.
  intros Hm Hj. unfold report_after_rollup.
  rewrite (detail_loop g _ Hj), bind_Done_l.
  pose proof (sorted_globals_months_ok g Hm) as Hm'.
  set (l := cat_list (sorted_globals g)) in *.
  cbv zeta. rewrite year_loop, bind_Done_l.
  rewrite (todo_of_spec l Hm'), bind_Done_l.
  rewrite (month_summary_loop l _ Hm'), bind_Done_l.
  rewrite count_true_active.
  destruct (length (months_of l)) as [|n] eqn:En.
  - rewrite average_loop_zero. cbn [Nat.eqb andb].
    destruct (existsb in_summary l) eqn:Ex; [reflexivity |].
    rewrite bind_Done_l. do 2 f_equal.
    unfold report_text, year_text, average_text.
    rewrite En, (existsb_false_filter _ _ Ex). simpl map.
    rewrite <- !app_assoc. reflexivity.
  - rewrite average_loop by discriminate. rewrite bind_Done_l.
    cbn [Nat.eqb andb]. do 2 f_equal.
    unfold report_text, year_text, average_text. rewrite En.
    rewrite <- !app_assoc. reflexivity.
Qed.

(** ** From the files to the report *)

Lemma cashflow_report_cashflow (env : report_env) (cat_file journal_file : list string)
    (y : Z) :
  cashflow_report env cat_file journal_file y
  = (g ← cashflow cat_file journal_file y; report_after_rollup env g).
Proof.
  unfold cashflow_report, cashflow, main, generate_cashflow_report.
  destruct (read_and_parse_cat_file 0%float cat_file globals_init) as [g1| |];
    [| reflexivity | reflexivity].
  rewrite !bind_Done_l.
  destruct (prc_cat_file_hierarchy g1) as [g2| |]; [| reflexivity | reflexivity].
  rewrite !bind_Done_l.
  destruct (read_and_parse_journal_file _ _ _ _ _) as [g3| |];
    [| reflexivity | reflexivity].
  rewrite !bind_Done_l. reflexivity.
Qed.

Section RollupTree.

Context {A : Type}.
Variable zero : A.
Variable add : A → A → A.

Lemma rollup_tree_ok (g g' : globals A) :
tree_ok (cat_list g) → rollup add g = Done g' → tree_ok (cat_list g').
Proof using zero.
intros Hok. unfold rollup. simpl.
destruct (rollup_level_ends zero add 4 (cat_list g) Hok) as (l4 & E4 & H4); [lia |].
destruct (rollup_level_ends zero add 3 l4 H4) as (l3 & E3 & H3); [lia |].
destruct (rollup_level_ends zero add 2 l3 H3) as (l2 & E2 & H2); [lia |].
rewrite E4. simpl. rewrite E3. simpl. rewrite E2. simpl.
intros H. inversion H; subst g'. exact H2.
Qed.

End RollupTree.

Lemma cashflow_ready (cat_file journal_file : list string) (y : Z) (g : globals float) :
  cashflow cat_file journal_file y = Done g → report_ready y g.
Proof.
  unfold cashflow, main. intros H.
  apply bind_Done in H as (g1 & H1 & H). apply bind_Done in H as (g2 & H2 & H).
  apply bind_Done in H as (g3 & H3 & H4).
  destruct (hierarchy_ledger 0%float cat_file g1 g2 H1 H2) as (Hg & Hnc & Hj & Hlook).
  pose proof (journal_file_outcome journal_file y g2 Hg Hj) as O. rewrite H3 in O.
  destruct O as (O1 & O2 & O3 & O4 & O5 & O6).
  assert (Hok3 : tree_ok (cat_list g3)).
  { eapply read_and_parse_journal_file_tree; [exact H3 |].
    eapply prc_cat_file_hierarchy_tree; eauto. }
  pose proof (rollup_tree_ok 0%float PrimFloat.add g3 g Hok3 H4) as Hok.
  pose proof (rollup_frame PrimFloat.add g3 g H4) as Hfr.
  assert (Hjl : journal_list g = journal_list g3).
  { unfold rollup in H4. apply bind_Done in H4 as (l & _ & H4). now inversion H4. }
  unfold report_ready. splits.
  - apply Forall_lookup. intros i c Hi. now destruct (Hok i c Hi) as (_ & _ & _ & ?).
  - intros k j Hk. rewrite Hjl, O2 in Hk.
    apply journal_records_lookup in Hk as (ln & line & _ & _ & Hr).
    apply journal_record_fields in Hr as (Hp & Hd & _).
    split; [eapply parse_journal_file_line_date; eauto |].
    destruct (Hlook _ _ Hd) as (c2 & Hc2 & _). apply lookup_lt_Some in Hc2.
    rewrite <- (Forall2_length _ _ _ Hfr), O4. exact Hc2.
  - intros i c Hi. rewrite Hjl.
    destruct (Forall2_lookup_r _ _ _ _ _ Hfr Hi) as (c3 & Hc3 & (_ & _ & _ & Hjc & _)).
    rewrite Hjc.
    destruct (cat_list g2 !! i) as [c2|] eqn:E2.
    2:{ apply lookup_ge_None in E2. apply lookup_lt_Some in Hc3. lia. }
    rewrite (O5 i c2 E2) in Hc3. inversion Hc3; subst c3. clear Hc3.
    rewrite Forall_lookup in Hnc. destruct (Hnc i c2 E2) as (Z1 & Z2 & Z3 & Z4).
    rewrite credits_journal, Z3, owned_from_filter. simpl.
    apply filter_ext. intros k. now rewrite Nat.sub_0_r.
Qed.

Lemma report_ready_journals (y : Z) (g : globals float) :
  report_ready y g → journals_ok (journal_list g) (cat_list g).
Proof.
  intros (_ & _ & H). apply Forall_lookup. intros i c Hi.
  rewrite (H i c Hi). apply Forall_forall. intros k Hk.
  apply list_elem_of_In, filter_In in Hk as [Hk _]. apply in_seq in Hk. lia.
Qed.

(** ** The order of the dates *)

Lemma digit_compare (a b : Z) :
  (0 ≤ a < 10)%Z → (0 ≤ b < 10)%Z →
  Ascii.compare (digit_char a) (digit_char b) = (a ?= b)%Z.
Proof.
  intros Ha Hb.
  assert (H : (match Ascii.compare (digit_char a) (digit_char b), (a ?= b)%Z with
               | Eq, Eq | Lt, Lt | Gt, Gt => true
               | _, _ => false
               end) = true).
  { apply (Zrange_forallb
             (fun a => forallb (fun b =>
                match Ascii.compare (digit_char a) (digit_char b), (a ?= b)%Z with
                | Eq, Eq | Lt, Lt | Gt, Gt => true
                | _, _ => false
                end) (map Z.of_nat (seq 0 10))) 10) in Ha; [| vm_compute; reflexivity].
    rewrite forallb_forall in Ha. apply Ha. apply in_map_iff.
    exists (Z.to_nat b). split; [lia |]. apply in_seq. lia. }
  destruct (Ascii.compare _ _), (a ?= b)%Z; congruence.
Qed.

Lemma two_digits_compare (m1 m2 : Z) (s t : string) :
  (0 ≤ m1 < 100)%Z → (0 ≤ m2 < 100)%Z →
  String.compare (two_digits m1 +:+ s) (two_digits m2 +:+ t)
  = match (m1 ?= m2)%Z with
    | Eq => String.compare s t
    | Lt => Lt
    | Gt => Gt
    end.
Proof.
  intros H1 H2. unfold two_digits.
  change (String.compare (String (digit_char (m1 / 10)) (String (digit_char (m1 mod 10)) s))
            (String (digit_char (m2 / 10)) (String (digit_char (m2 mod 10)) t))
          = match (m1 ?= m2)%Z with
            | Eq => String.compare s t | Lt => Lt | Gt => Gt end).
  cbn [String.compare].
  rewrite !digit_compare
    by (try apply Z.mod_pos_bound; try (split; [apply Z.div_pos | apply Z.div_lt_upper_bound]); lia).
  pose proof (Z.div_mod m1 10 ltac:(lia)) as E1.
  pose proof (Z.div_mod m2 10 ltac:(lia)) as E2.
  pose proof (Z.mod_pos_bound m1 10 ltac:(lia)) as B1.
  pose proof (Z.mod_pos_bound m2 10 ltac:(lia)) as B2.
  destruct (Z.compare_spec (m1 / 10) (m2 / 10)) as [Hq | Hq | Hq];
    destruct (Z.compare_spec (m1 mod 10) (m2 mod 10)) as [Hr | Hr | Hr];
    destruct (Z.compare_spec m1 m2) as [Hm | Hm | Hm]; try reflexivity; exfalso; lia.
Qed.

Lemma string_compare_refl (s : string) : String.compare s s = Eq.
Proof.
  induction s as [|c s IH]; simpl; [reflexivity |].
  unfold Ascii.compare. now rewrite N.compare_refl.
Qed.

Lemma expand_date_compare (mo1 d1 mo2 d2 y : Z) :
  (0 ≤ mo1 < 100)%Z → (0 ≤ d1 < 100)%Z → (0 ≤ mo2 < 100)%Z → (0 ≤ d2 < 100)%Z →
  String.compare (expand_date mo1 d1 y) (expand_date mo2 d2 y)
  = (day_number mo1 d1 ?= day_number mo2 d2)%Z.
Proof.
  intros M1 D1 M2 D2. unfold expand_date, day_number.
  rewrite !format_0d_two by assumption.
  rewrite two_digits_compare by assumption.
  change (String.compare ("/" +:+ two_digits d1 +:+ "/" +:+ format_0d 4 y)
            ("/" +:+ two_digits d2 +:+ "/" +:+ format_0d 4 y))
    with (String.compare (two_digits d1 +:+ "/" +:+ format_0d 4 y)
            (two_digits d2 +:+ "/" +:+ format_0d 4 y)).
  rewrite two_digits_compare by assumption.
  rewrite string_compare_refl.
  destruct (Z.compare_spec mo1 mo2) as [Hq | Hq | Hq];
    destruct (Z.compare_spec d1 d2) as [Hr | Hr | Hr];
    destruct (Z.compare_spec (mo1 * 100 + d1) (mo2 * 100 + d2)) as [Hm | Hm | Hm];
    try reflexivity; exfalso; lia.
Qed.

Lemma string_compare_trans (s1 : string) : ∀ s2 s3,
  String.compare s1 s2 = Lt → String.compare s2 s3 = Lt → String.compare s1 s3 = Lt.
Proof.
  induction s1 as [|a s1 IH]; intros [|b s2] [|c s3]; simpl; try discriminate; auto.
  unfold Ascii.compare.
  destruct (N.compare_spec (N_of_ascii a) (N_of_ascii b)) as [Hab | Hab | Hab];
    destruct (N.compare_spec (N_of_ascii b) (N_of_ascii c)) as [Hbc | Hbc | Hbc];
    try discriminate; intros H1 H2.
  - rewrite Hab, Hbc, N.compare_refl. eapply IH; eauto.
  - rewrite Hab. now apply N.compare_lt_iff in Hbc as ->.
  - rewrite <- Hbc. now apply N.compare_lt_iff in Hab as ->.
  - assert (Hac : (N_of_ascii a < N_of_ascii c)%N) by lia.
    now apply N.compare_lt_iff in Hac as ->.
Qed.

(** ** The sort is stable *)

Lemma key_before_trans (x y z : string * nat) :
  key_before x y → key_before y z → key_before x z.
Proof.
  intros [H1 | [H1 H1']] [H2 | [H2 H2']].
  - left. eapply string_compare_trans; eauto.
  - left. now rewrite <- H2.
  - left. now rewrite H1.
  - right. split; [congruence | lia].
Qed.

Lemma insert_by_key_HdRel (y x : string * nat) (l : list (string * nat)) :
  HdRel key_before y l → key_before y x → HdRel key_before y (insert_by_key x l).
Proof.
  intros Hl Hx. destruct l as [|z l]; simpl; [now constructor |].
  destruct (String.ltb (fst x) (fst z)); constructor; auto.
  now inversion Hl.
Qed.

Lemma insert_by_key_sorted (x : string * nat) (l : list (string * nat)) :
  Sorted key_before l → Forall (fun z => (snd z < snd x)%nat) l →
  Sorted key_before (insert_by_key x l).
Proof.
  induction 1 as [|y l Hs IH Hd]; intros Hlt; simpl.
  - repeat constructor.
  - inversion Hlt as [|? ? Hy Hl]; subst.
    unfold String.ltb.
    destruct (String.compare (fst x) (fst y)) eqn:E.
    + constructor; [now apply IH |]. apply insert_by_key_HdRel; [exact Hd |].
      right. apply String.compare_eq_iff in E. split; [congruence | exact Hy].
    + constructor; [now constructor |]. constructor. now left.
    + constructor; [now apply IH |]. apply insert_by_key_HdRel; [exact Hd |].
      left. rewrite String.compare_antisym, E. reflexivity.
Qed.

Lemma sort_by_key_sorted (l : list (string * nat)) :
  StronglySorted (fun x y => (snd x < snd y)%nat) l → Sorted key_before (sort_by_key l).
Proof.
  unfold sort_by_key.
  enough (H : ∀ acc, Sorted key_before acc →
                     Forall (fun z => Forall (fun x => (snd z < snd x)%nat) l) acc →
                     StronglySorted (fun x y => (snd x < snd y)%nat) l →
                     Sorted key_before
                       (fold_left (fun sorted x => insert_by_key x sorted) l acc)).
  { intros Hl. apply H; [constructor | constructor | exact Hl]. }
  induction l as [|x l IH]; intros acc Hacc Hlt Hl; simpl; [exact Hacc |].
  inversion Hl as [|? ? Hl' Hx]; subst.
  apply IH; [| | exact Hl'].
  - apply insert_by_key_sorted; [exact Hacc |].
    eapply Forall_impl; [exact Hlt |]. intros z Hz. now inversion Hz.
  - eapply Permutation_Forall; [symmetry; apply insert_by_key_perm |].
    constructor; [exact Hx |].
    eapply Forall_impl; [exact Hlt |]. intros z Hz. now inversion Hz.
Qed.

Lemma StronglySorted_lookup {X : Type} (R : X → X → Prop) (l : list X) :
  StronglySorted R l →
  ∀ p q x y, (p < q)%nat → l !! p = Some x → l !! q = Some y → R x y.
Proof.
  induction 1 as [|z l Hs IH Hz]; intros p q x y Hpq Hp Hq; [discriminate Hp |].
  destruct q as [|q]; [lia |]. simpl in Hq.
  destruct p as [|p].
  - inversion Hp; subst z. rewrite Forall_forall in Hz. apply Hz.
    eapply list_elem_of_lookup_2; eauto.
  - simpl in Hp. apply (IH p q); auto. lia.
Qed.

Lemma filter_seq_increasing (p : nat → bool) (a n : nat) :
  StronglySorted lt (List.filter p (seq a n)).
Proof.
  revert a. induction n as [|n IH]; intros a; simpl; [constructor |].
  destruct (p a); [| apply IH].
  constructor; [apply IH |].
  apply Forall_forall. intros k Hk.
  apply list_elem_of_In, filter_In in Hk as [Hk _]. apply in_seq in Hk. lia.
Qed.

Lemma StronglySorted_map {X Y : Type} (R : Y → Y → Prop) (f : X → Y) (l : list X) :
  StronglySorted (fun a b => R (f a) (f b)) l → StronglySorted R (map f l).
Proof.
  induction 1 as [|x l Hs IH Hx]; simpl; constructor; auto.
  apply Forall_map. exact Hx.
Qed.

(** The indices sorted by date: one after the other in the order of the
    keys, and every one with its own date. *)
Lemma by_date_sorted (jl : list (Journal.t float)) (ks : list nat) :
  StronglySorted lt ks →
  ∀ p q a b, (p < q)%nat → by_date jl ks !! p = Some a → by_date jl ks !! q = Some b →
             key_before (date_of jl a, a) (date_of jl b, b).
Proof.
  intros Hks p q a b Hpq Hp Hq. unfold by_date in *.
  set (f := fun k : nat => (date_of jl k, k)) in *.
  assert (Hs : StronglySorted key_before (sort_by_key (map f ks))).
  { apply Sorted_StronglySorted; [exact key_before_trans |].
    apply sort_by_key_sorted. apply StronglySorted_map. exact Hks. }
  assert (Hf : Forall (fun z => z = f (snd z)) (sort_by_key (map f ks))).
  { eapply Permutation_Forall; [symmetry; apply sort_by_key_perm |].
    apply Forall_map. apply Forall_forall. intros; reflexivity. }
  rewrite list_lookup_fmap in Hp, Hq.
  destruct (sort_by_key (map f ks) !! p) as [x|] eqn:Ex; [| discriminate].
  destruct (sort_by_key (map f ks) !! q) as [z|] eqn:Ez; [| discriminate].
  simpl in Hp, Hq. inversion Hp; inversion Hq; subst a b.
  rewrite Forall_lookup in Hf.
  pose proof (Hf p x Ex) as Fx. pose proof (Hf q z Ez) as Fz.
  unfold f in Fx, Fz. rewrite <- Fx, <- Fz.
  eapply StronglySorted_lookup; eauto.
Qed.

(** ** Every transaction in one category *)

Lemma flat_map_nil {X Y : Type} (l : list X) : flat_map (fun _ : X => @nil Y) l = [].
Proof. induction l; simpl; auto. Qed.

Lemma Permutation_flat_map {X Y : Type} (f h : X → list Y) (l : list X) :
  (∀ x, In x l → Permutation (f x) (h x)) → Permutation (flat_map f l) (flat_map h l).
Proof.
  induction l as [|x l IH]; intros H; simpl; [reflexivity |].
  apply Permutation_app; [apply H; now left | apply IH; intros; apply H; now right].
Qed.

Lemma flat_map_one_more {Y : Type} (F : nat → list Y) (x : Y) (c : nat) (ixs : list nat) :
  NoDup ixs → In c ixs →
  Permutation (flat_map (fun i => if (c =? i)%nat then x :: F i else F i) ixs)
    (x :: flat_map F ixs).
Proof.
  induction 1 as [|i ixs Hi Hnd IH]; intros Hc; [destruct Hc |].
  simpl. destruct (Nat.eqb_spec c i) as [-> | Hne].
  - simpl. constructor. apply Permutation_app; [reflexivity |].
    apply Permutation_flat_map. intros k Hk.
    destruct (Nat.eqb_spec i k) as [-> | _]; [| reflexivity].
    exfalso. apply Hi. now apply list_elem_of_In.
  - destruct Hc as [Hc | Hc]; [congruence |].
    rewrite (IH Hc). symmetry. apply Permutation_middle.
Qed.

Lemma filter_classes_perm (cls : nat → nat) (m : nat) (xs : list nat) :
  Forall (fun x => (cls x < m)%nat) xs →
  Permutation (flat_map (fun i => List.filter (fun x => (cls x =? i)%nat) xs) (seq 0 m)) xs.
Proof.
  induction 1 as [|x xs Hx _ IH]; simpl.
  - now rewrite flat_map_nil.
  - etransitivity; [| apply perm_skip; exact IH].
    rewrite <- (flat_map_one_more
                  (fun i => List.filter (fun x => (cls x =? i)%nat) xs) x (cls x) (seq 0 m)).
    + apply Permutation_flat_map. intros i _.
      destruct (cls x =? i)%nat; reflexivity.
    + apply NoDup_seq.
    + apply in_seq. lia.
Qed.

Lemma owned_filter_classes (jl : list (Journal.t float)) (i : nat) :
  List.filter (fun k => match jl !! k with
                        | Some j => owned_by i j
                        | None => false
                        end) (seq 0 (length jl))
  = List.filter (fun k => (cat_idx_of jl k =? i)%nat) (seq 0 (length jl)).
Proof.
  apply filter_ext_in. intros k Hk. apply in_seq in Hk. unfold cat_idx_of.
  destruct (lookup_lt_is_Some_2 jl k) as [j Hj]; [lia |]. now rewrite Hj.
Qed.

Lemma sorted_journals_perm (y : Z) (g : globals float) :
  report_ready y g →
  Permutation (flat_map CatCode.journal (cat_list (sorted_globals g)))
    (seq 0 (length (journal_list g))).
Proof.
  intros (_ & Hj & Hc).
  rewrite <- (filter_classes_perm (cat_idx_of (journal_list g)) (length (cat_list g))
                (seq 0 (length (journal_list g)))).
  - rewrite <- (flat_map_seq_lookup CatCode.journal (cat_list (sorted_globals g))).
    unfold sorted_globals. cbn [cat_list]. rewrite length_map.
    apply Permutation_flat_map. intros i Hi. apply in_seq in Hi.
    destruct (lookup_lt_is_Some_2 (cat_list g) i) as [c Hi']; [lia |].
    rewrite list_lookup_fmap, Hi'. simpl.
    rewrite by_date_perm, (Hc i c Hi'). now rewrite owned_filter_classes.
  - apply Forall_forall. intros k Hk. apply list_elem_of_In, in_seq in Hk.
    unfold cat_idx_of.
    destruct (lookup_lt_is_Some_2 (journal_list g) k) as [j Hkj]; [lia |].
    rewrite Hkj. now destruct (Hj k j Hkj).
Qed.

(** ** The order of the detailed part *)

Lemma key_before_printed_before (y : Z) (jl : list (Journal.t float)) (a b : nat) :
  (∀ k j, jl !! k = Some j →
          ∃ mo d, valid_date y mo d ∧ Journal.date j = expand_date mo d y) →
  (a < length jl)%nat → (b < length jl)%nat →
  key_before (date_of jl a, a) (date_of jl b, b) → printed_before y jl a b.
Proof.
  intros Hd Ha Hb Hk.
  destruct (lookup_lt_is_Some_2 jl a Ha) as [ja Hja].
  destruct (lookup_lt_is_Some_2 jl b Hb) as [jb Hjb].
  destruct (Hd a ja Hja) as (mo1 & d1 & V1 & E1).
  destruct (Hd b jb Hjb) as (mo2 & d2 & V2 & E2).
  exists ja, jb, mo1, d1, mo2, d2. splits; auto.
  unfold date_of in Hk. rewrite Hja, Hjb, E1, E2 in Hk.
  unfold key_before in Hk. cbn [fst snd] in Hk.
  pose proof V1 as (M1 & D1 & _). pose proof V2 as (M2 & D2 & _).
  pose proof (days_in_month_bounds mo1). pose proof (days_in_month_bounds mo2).
  pose proof (expand_date_compare mo1 d1 mo2 d2 y
                ltac:(lia) ltac:(lia) ltac:(lia) ltac:(lia)) as C.
  unfold day_number in C.
  destruct Hk as [Hlt | [Heq Hab]].
  - rewrite Hlt in C. symmetry in C.
    pose proof (proj1 (Z.compare_lt_iff _ _) C) as C'. lia.
  - rewrite Heq, string_compare_refl in C. symmetry in C. apply Z.compare_eq in C.
    right. right. splits; [lia | lia | exact Hab].
Qed.

Lemma sorted_globals_order (y : Z) (g : globals float) :
  report_ready y g →
  ∀ i c' p q a b,
    cat_list (sorted_globals g) !! i = Some c' → (p < q)%nat →
    CatCode.journal c' !! p = Some a → CatCode.journal c' !! q = Some b →
    printed_before y (journal_list g) a b.
Proof.
  intros Hr i c' p q a b Hi Hpq Hp Hq.
  pose proof (report_ready_journals y g Hr) as Hjs.
  destruct Hr as (_ & Hj & Hc).
  unfold sorted_globals in Hi. cbn [cat_list] in Hi. rewrite list_lookup_fmap in Hi.
  destruct (cat_list g !! i) as [c|] eqn:Ec; [| discriminate]. simpl in Hi.
  inversion Hi; subst c'. clear Hi. unfold sorted_category in Hp, Hq. simpl in Hp, Hq.
  assert (Hin : ∀ k, k ∈ by_date (journal_list g) (CatCode.journal c) →
                     (k < length (journal_list g))%nat).
  { intros k Hk. rewrite by_date_perm in Hk.
    unfold journals_ok in Hjs. rewrite Forall_lookup in Hjs.
    specialize (Hjs i c Ec). rewrite Forall_forall in Hjs. auto. }
  apply key_before_printed_before.
  - intros k j Hk. now destruct (Hj k j Hk).
  - apply Hin. eapply list_elem_of_lookup_2; eauto.
  - apply Hin. eapply list_elem_of_lookup_2; eauto.
  - eapply by_date_sorted; eauto. rewrite (Hc i c Ec). apply filter_seq_increasing.
Qed.

Lemma existsb_map {X Y : Type} (p : Y → bool) (f : X → Y) (l : list X) :
  existsb p (map f l) = existsb (fun x => p (f x)) l.
Proof. induction l as [|x l IH]; simpl; [reflexivity | now rewrite IH]. Qed.

Lemma sorted_globals_summary (g : globals float) :
  months_of (cat_list (sorted_globals g)) = months_of (cat_list g)
  ∧ existsb in_summary (cat_list (sorted_globals g)) = existsb in_summary (cat_list g).
Proof.
  unfold sorted_globals. cbn [cat_list]. split.
  - unfold months_of. apply filter_ext. intros m. unfold active. now rewrite existsb_map.
  - now rewrite existsb_map.
Qed.

(** What the report does with the global variables that [cashflow] leaves. *)
Lemma cashflow_report_outcome (env : report_env) (cat_file journal_file : list string)
    (y : Z) (g : globals float) :
  cashflow cat_file journal_file y = Done g →
  report_ready y g
  ∧ cashflow_report env cat_file journal_file y
    = if (length (months_of (cat_list g)) =? 0)%nat && existsb in_summary (cat_list g)
      then Raise "ZeroDivisionError"
      else Done (sorted_globals g,
                 report_text env (journal_list g) (cat_list (sorted_globals g))).
Proof.
  intros H. pose proof (cashflow_ready _ _ _ _ H) as Hr. split; [exact Hr |].
  rewrite cashflow_report_cashflow, H, bind_Done_l.
  rewrite report_after_rollup_eq.
  - destruct (sorted_globals_summary g) as [-> ->]. reflexivity.
  - now destruct Hr.
  - eapply report_ready_journals; eauto.
Qed.

(** ** Example reports *)

Lemma household_report_run :
  cashflow_report example_env household_cat_file household_journal_file 2015
  = Done household_report.
Proof. vm_compute. reflexivity. Qed.

Lemma unsorted_report_run :
  cashflow_report example_env household_cat_file unsorted_journal_file 2015
  = Done unsorted_report.
Proof. vm_compute. reflexivity. Qed.

Lemma refund_run :
  cashflow refund_cat_file refund_journal_file 2015 = Done refund_globals.
Proof. vm_compute. reflexivity. Qed.

(** For files of ASCII characters the report raises one exception only, the
    division by zero of the monthly average, and it does so exactly when no
    month has activity although some category has a total that is not zero;
    it exits only where the passes before it exit.  The journal where two
    payments of two months are taken back is such a case: the figures of both
    months are 0.0, the total is not. *)
Theorem report_division_by_zero (env : report_env) (cat_file journal_file : list string)
    (y : Z) :
  ascii_file cat_file = true → ascii_file journal_file = true →
  (cashflow_report env cat_file journal_file y = Raise "ZeroDivisionError"
   ↔ ∃ g, cashflow cat_file journal_file y = Done g
          ∧ months_of (cat_list g) = []
          ∧ existsb in_summary (cat_list g) = true)
  ∧ (∀ e, cashflow_report env cat_file journal_file y = Raise e
          → e = "ZeroDivisionError")
  ∧ (∀ why, cashflow_report env cat_file journal_file y = Exit why
            ↔ cashflow cat_file journal_file y = Exit why)
  ∧ cashflow_report env refund_cat_file refund_journal_file 2015
    = Raise "ZeroDivisionError".
Proof.
  intros _ _.
  assert (Hrefund : cashflow_report env refund_cat_file refund_journal_file 2015
                    = Raise "ZeroDivisionError").
  { destruct (cashflow_report_outcome env _ _ _ _ refund_run) as [_ E].
    rewrite E. reflexivity. }
  destruct (cashflow cat_file journal_file y) as [g|why|e] eqn:H.
  - destruct (cashflow_report_outcome env _ _ _ _ H) as [_ E]. rewrite E.
    split; [| split; [| split; [| exact Hrefund]]].
    + destruct (length (months_of (cat_list g))) as [|n] eqn:En;
        destruct (existsb in_summary (cat_list g)) eqn:Ex; cbn [Nat.eqb andb].
      * split; [| reflexivity]. intros _. exists g.
        split; [reflexivity |]. split; [| assumption || reflexivity].
        now destruct (months_of (cat_list g)).
      * split; [discriminate |]. intros (g0 & Hg & _ & Hx).
        inversion Hg; subst g0. congruence.
      * split; [discriminate |]. intros (g0 & Hg & Hm & _).
        inversion Hg; subst g0. rewrite Hm in En. discriminate.
      * split; [discriminate |]. intros (g0 & Hg & Hm & _).
        inversion Hg; subst g0. rewrite Hm in En. discriminate.
    + intros e. destruct (_ && _); [| discriminate].
      intros X. now inversion X.
    + intros why. destruct (_ && _); split; discriminate.
  - rewrite cashflow_report_cashflow, H. simpl.
    split; [| split; [| split; [| exact Hrefund]]].
    + split; [discriminate |]. intros (g0 & Hg & _). discriminate.
    + discriminate.
    + intros w. split; intros E; inversion E; reflexivity.
  - exfalso. exact (main_never_raises cat_file journal_file y e H).
Qed.

Lemma report_division_by_zero_witness :
  cashflow_report example_env refund_cat_file refund_journal_file 2015
  = Raise "ZeroDivisionError"
  ∧ cashflow refund_cat_file refund_journal_file 2015 = Done refund_globals
  ∧ months_of (cat_list refund_globals) = []
  ∧ existsb in_summary (cat_list refund_globals) = true.
Proof.
  assert (Hm : months_of (cat_list refund_globals) = []) by (vm_compute; reflexivity).
  assert (Hx : existsb in_summary (cat_list refund_globals) = true)
    by (vm_compute; reflexivity).
  split; [| split; [exact refund_run | split; [exact Hm | exact Hx]]].
  apply (proj2 (proj1 (report_division_by_zero example_env refund_cat_file
                         refund_journal_file 2015 eq_refl eq_refl))).
  exists refund_globals. split; [exact refund_run | split; [exact Hm | exact Hx]].
Defined.

(** For files of ASCII characters: when the report is written, its text is
    the head, then for every
    category its line, an empty line when it has transactions and the lines
    of its transactions; the year-to-date summary with the categories whose
    total with the nested total is not zero; for every month with activity
    the summary of the categories whose figure of the month is not zero; and
    the monthly average of the categories of the year-to-date summary, the
    divisor being the number of months with activity.  The global variables
    are those the roll-up left, the transactions of every category sorted. *)
Theorem report_text_written (env : report_env) (cat_file journal_file : list string)
    (y : Z) (g' : globals float) (out : list string) :
  ascii_file cat_file = true → ascii_file journal_file = true →
  cashflow_report env cat_file journal_file y = Done (g', out) →
  out = report_text env (journal_list g') (cat_list g')
  ∧ (months_of (cat_list g') ≠ [] ∨ existsb in_summary (cat_list g') = false)
  ∧ ∃ g, cashflow cat_file journal_file y = Done g ∧ g' = sorted_globals g.
Proof.
  intros _ _ H.
  destruct (cashflow cat_file journal_file y) as [g|why|e] eqn:Hc.
  - destruct (cashflow_report_outcome env _ _ _ _ Hc) as [_ E]. rewrite E in H.
    destruct (sorted_globals_summary g) as [Sm Sx].
    destruct (length (months_of (cat_list g))) as [|n] eqn:En;
      destruct (existsb in_summary (cat_list g)) eqn:Ex; cbn [Nat.eqb andb] in H;
      try discriminate H; inversion H; subst g' out; rewrite Sm, Sx;
      (split; [reflexivity |]; split; [| exists g; split; reflexivity]);
      first [ right; reflexivity
            | left; intros Hm; rewrite Hm in En; discriminate En ].
  - rewrite cashflow_report_cashflow, Hc in H. discriminate H.
  - rewrite cashflow_report_cashflow, Hc in H. discriminate H.
Qed.

Lemma report_text_written_witness :
  ∃ g' out,
    cashflow_report example_env household_cat_file household_journal_file 2015
    = Done (g', out)
    ∧ out = report_text example_env (journal_list g') (cat_list g')
    ∧ length out = 58%nat.
Proof.
  exists (fst household_report), (snd household_report).
  split; [exact household_report_run |].
  split; [| reflexivity].
  exact (proj1 (report_text_written example_env household_cat_file
                  household_journal_file 2015 _ _ eq_refl eq_refl
                  household_report_run)).
Defined.

(** When the report is written, the transactions of every category stand in
    the order of their dates, those of one date in the order of the journal;
    every transaction of the journal stands in the list of exactly one
    category, the one its code names; and the report has changed nothing
    else in the global variables. *)
Theorem transactions_in_date_order (env : report_env)
    (cat_file journal_file : list string) (y : Z) (g' : globals float)
    (out : list string) :
  cashflow_report env cat_file journal_file y = Done (g', out) →
  (∀ i c' p q a b,
     cat_list g' !! i = Some c' → (p < q)%nat →
     CatCode.journal c' !! p = Some a → CatCode.journal c' !! q = Some b →
     printed_before y (journal_list g') a b)
  ∧ Permutation (flat_map CatCode.journal (cat_list g'))
      (seq 0 (length (journal_list g')))
  ∧ (∀ i c' a, cat_list g' !! i = Some c' → a ∈ CatCode.journal c' →
               ∃ j, journal_list g' !! a = Some j ∧ Journal.cat_idx j = i)
  ∧ ∃ g, cashflow cat_file journal_file y = Done g
         ∧ journal_list g' = journal_list g ∧ cat_dict g' = cat_dict g
         ∧ Forall2 (fun c c' => c' = CatCode.set_journal (CatCode.journal c') c
                                ∧ Permutation (CatCode.journal c') (CatCode.journal c))
             (cat_list g) (cat_list g').
Proof.
  intros H.
  destruct (cashflow cat_file journal_file y) as [g|why|e] eqn:Hc;
    [| rewrite cashflow_report_cashflow, Hc in H; discriminate H
     | rewrite cashflow_report_cashflow, Hc in H; discriminate H].
  destruct (cashflow_report_outcome env _ _ _ _ Hc) as [Hr E]. rewrite E in H.
  destruct ((length (months_of (cat_list g)) =? 0)%nat
            && existsb in_summary (cat_list g)); [discriminate H |].
  inversion H; subst g' out. clear H E.
  splits.
  - exact (sorted_globals_order y g Hr).
  - exact (sorted_journals_perm y g Hr).
  - intros i c' a Hi Ha. destruct Hr as (_ & _ & Hown).
    unfold sorted_globals in Hi. cbn [cat_list] in Hi. rewrite list_lookup_fmap in Hi.
    destruct (cat_list g !! i) as [c|] eqn:Ec; [| discriminate]. simpl in Hi.
    inversion Hi; subst c'. unfold sorted_category in Ha. simpl in Ha.
    rewrite by_date_perm, (Hown i c Ec) in Ha.
    apply list_elem_of_In, filter_In in Ha as [_ Ha]. cbn [journal_list sorted_globals].
    destruct (journal_list g !! a) as [j|]; [| discriminate].
    exists j. split; [reflexivity |]. unfold owned_by in Ha.
    now apply Nat.eqb_eq in Ha.
  - exists g. splits; auto. unfold sorted_globals. cbn [cat_list].
    apply Forall2_fmap_r, Forall_Forall2_diag, Forall_forall. intros c _.
    unfold sorted_category. simpl. split; [reflexivity | apply by_date_perm].
Qed.

Lemma transactions_in_date_order_witness :
  ∃ g' out c',
    cashflow_report example_env household_cat_file unsorted_journal_file 2015
    = Done (g', out)
    ∧ cat_list g' !! 7%nat = Some c'
    ∧ CatCode.cat_str c' = "2.2"
    ∧ CatCode.journal c' = [1; 0; 2]%nat
    ∧ printed_before 2015 (journal_list g') 1 0
    ∧ printed_before 2015 (journal_list g') 0 2.
Proof.
  pose proof (proj1 (transactions_in_date_order example_env household_cat_file
                       unsorted_journal_file 2015 _ _ unsorted_report_run)) as H.
  eexists _, _, _.
  split; [exact unsorted_report_run |].
  split; [reflexivity |].
  split; [reflexivity |].
  split; [reflexivity |].
  split.
  - apply (H 7%nat _ 0%nat 1%nat 1%nat 0%nat eq_refl); [lia | reflexivity | reflexivity].
  - apply (H 7%nat _ 1%nat 2%nat 0%nat 2%nat eq_refl); [lia | reflexivity | reflexivity].
Defined.

(** ** The lines that are passed over *)

Lemma leading_spaces (s : string) :
  ∃ n rest, s = spaces n +:+ rest
            ∧ (rest = "" ∨ ∃ x r, rest = String x r ∧ Ascii.eqb x " " = false).
Proof.
  induction s as [|c s (n & rest & -> & H)].
  - exists 0%nat, "". auto.
  - destruct (Ascii.eqb c " ") eqn:E.
    + apply Ascii.eqb_eq in E. subst c. exists (S n), rest. auto.
    + exists 0%nat, (String c (spaces n +:+ rest)). split; [reflexivity |].
      right. eauto.
Qed.

Lemma cat_step_begun (line : string) (idx : nat) (x : ascii) (v : CS.vars) :
  CS.parse_state v ≠ CS.START →
  match cat_step line idx x v with
  | inl v' => CS.parse_state v' ≠ CS.START
  | inr r => r ≠ CatSkip
  end.
Proof.
  intros H. unfold cat_step.
  destruct (CS.parse_state v) eqn:E; try congruence;
    repeat match goal with
           | |- context [if ?b then _ else _] => destruct b; cbn [CS.parse_state]
           end;
    simpl; rewrite ?E; discriminate.
Qed.

Lemma cat_loop_begun (line : string) : ∀ (s : string) (idx : nat) (v : CS.vars),
  CS.parse_state v ≠ CS.START →
  match cat_loop line idx s v with
  | inl v' => CS.parse_state v' ≠ CS.START
  | inr r => r ≠ CatSkip
  end.
Proof.
  induction s as [|x s IH]; intros idx v H; simpl; [exact H |].
  pose proof (cat_step_begun line idx x v H) as Hs.
  destruct (cat_step line idx x v) as [v'|r]; [now apply IH | exact Hs].
Qed.

Lemma journal_step_begun (line : string) (y : Z) (idx : nat) (x : ascii) (v : TJ.vars) :
  TJ.parse_state v ≠ TJ.START →
  match journal_step line y idx x v with
  | inl v' => TJ.parse_state v' ≠ TJ.START
  | inr r => r ≠ JSkip
  end.
Proof.
  intros H. unfold journal_step.
  destruct (TJ.parse_state v) eqn:E; try congruence;
    repeat match goal with
           | |- context [if ?b then _ else _] => destruct b; cbn [TJ.parse_state]
           end;
    simpl; rewrite ?E; discriminate.
Qed.

Lemma journal_loop_begun (line : string) (y : Z) :
  ∀ (s : string) (idx : nat) (v : TJ.vars),
  TJ.parse_state v ≠ TJ.START →
  match journal_loop line y idx s v with
  | inl v' => TJ.parse_state v' ≠ TJ.START
  | inr r => r ≠ JSkip
  end.
Proof.
  induction s as [|x s IH]; intros idx v H; simpl; [exact H |].
  pose proof (journal_step_begun line y idx x v H) as Hs.
  destruct (journal_step line y idx x v) as [v'|r]; [now apply IH | exact Hs].
Qed.

Lemma parse_cat_file_line_skip_iff (line : string) :
  parse_cat_file_line line = CatSkip ↔ blank_or_comment line.
Proof.
  split.
  - intros H. destruct (leading_spaces line) as (n & rest & Hl & Hrest).
    exists n, rest. split; [exact Hl |].
    destruct Hrest as [-> | (x & r & -> & Hx)]; [now left |]. right.
    exists x, r. split; [reflexivity |].
    unfold parse_cat_file_line in H. set (L := line) in H at 1. clearbody L.
    rewrite Hl, cat_loop_app, cat_loop_spaces in H by reflexivity.
    cbn [cat_loop] in H. unfold cat_step in H at 1. cbn [CS.parse_state CS.init] in H.
    rewrite Hx in H.
    destruct (in_str x hash_or_newline); [reflexivity | exfalso].
    destruct (in_str x "123456789"); [| discriminate H].
    match type of H with
    | context [cat_loop ?l ?i r ?v] =>
        pose proof (cat_loop_begun l r i v ltac:(discriminate)) as Hs;
        destruct (cat_loop l i r v) as [v'|res]
    end.
    + unfold cat_after_loop in H. destruct (CS.parse_state v'); congruence.
    + congruence.
  - intros (n & rest & -> & Hrest). unfold parse_cat_file_line.
    generalize (spaces n +:+ rest) at 1. intros L.
    rewrite cat_loop_app, cat_loop_spaces by reflexivity.
    destruct Hrest as [-> | (x & r & -> & Hx)]; [reflexivity |].
    cbn [cat_loop]. unfold cat_step at 1. cbn [CS.parse_state CS.init].
    rewrite Hx.
    destruct (Ascii.eqb x " ") eqn:E; [| reflexivity].
    apply Ascii.eqb_eq in E. subst x. discriminate Hx.
Qed.

Lemma parse_journal_file_line_skip_iff (line : string) (y : Z) :
  parse_journal_file_line line y = JSkip ↔ blank_or_comment line.
Proof.
  split.
  - intros H. destruct (leading_spaces line) as (n & rest & Hl & Hrest).
    exists n, rest. split; [exact Hl |].
    destruct Hrest as [-> | (x & r & -> & Hx)]; [now left |]. right.
    exists x, r. split; [reflexivity |].
    unfold parse_journal_file_line in H. set (L := line) in H at 1. clearbody L.
    rewrite Hl, journal_loop_app, journal_loop_spaces in H by (left; reflexivity).
    cbn [journal_loop] in H. unfold journal_step in H at 1.
    cbn [TJ.parse_state TJ.init] in H. rewrite Hx in H.
    destruct (in_str x hash_or_newline); [reflexivity | exfalso].
    destruct (isdigit x); [| discriminate H].
    match type of H with
    | context [journal_loop ?l ?yy ?i r ?v] =>
        pose proof (journal_loop_begun l yy r i v ltac:(discriminate)) as Hs;
        destruct (journal_loop l yy i r v) as [v'|res]
    end.
    + unfold journal_after_loop in H. destruct (TJ.parse_state v'); congruence.
    + congruence.
  - intros (n & rest & -> & Hrest). unfold parse_journal_file_line.
    generalize (spaces n +:+ rest) at 1. intros L.
    rewrite journal_loop_app, journal_loop_spaces by (left; reflexivity).
    destruct Hrest as [-> | (x & r & -> & Hx)]; [reflexivity |].
    cbn [journal_loop]. unfold journal_step at 1. cbn [TJ.parse_state TJ.init].
    rewrite Hx.
    destruct (Ascii.eqb x " ") eqn:E; [| reflexivity].
    apply Ascii.eqb_eq in E. subst x. discriminate Hx.
Qed.

(** Both parsers pass over exactly the lines that hold blanks only, or
    blanks and then a '#' or a newline; whatever follows the '#' or the
    newline is not looked at. *)
Theorem lines_passed_over (line : string) (y : Z) :
  (parse_cat_file_line line = CatSkip ↔ blank_or_comment line)
  ∧ (parse_journal_file_line line y = JSkip ↔ blank_or_comment line).
Proof.
  split; [apply parse_cat_file_line_skip_iff | apply parse_journal_file_line_skip_iff].
Qed.

(** ** The messages for a wrong date *)

Lemma parse_journal_file_line_eq (line : string) (y : Z) (r : journal_result float) :
  (∀ L, journal_loop L y 0 line TJ.init = inr r) → parse_journal_file_line line y = r.
Proof. intros H. unfold parse_journal_file_line. now rewrite H. Qed.

(** A line that starts with one or two month digits, '/', up to two day
    digits and a comma is refused with "invalid month" when the month is not
    1 to 12, with "invalid date" when the month is one and the day is not 1
    to the number of days of the month (29 for February), and with "invalid
    leap year date" for the 29th of February of a year that is no leap year.
    When the date is one of the year and only blanks stand between its comma
    and the next comma or a newline, the message is "invalid description". *)
Theorem journal_date_errors (y : Z) (n : nat) (ms ds rest : string) :
  all_chars isdigit ms = true → (1 ≤ String.length ms ≤ 2)%nat →
  all_chars isdigit ds = true → (String.length ds ≤ 2)%nat →
  let m := decimal ms in
  let d := decimal ds in
  let date := spaces n +:+ ms +:+ "/" +:+ ds +:+ "," in
  (¬ (1 ≤ m ≤ 12)%Z → parse_journal_file_line (date +:+ rest) y = JError month_error)
  ∧ ((1 ≤ m ≤ 12)%Z → ¬ (1 ≤ d ≤ days_in_month m)%Z →
     parse_journal_file_line (date +:+ rest) y = JError date_error)
  ∧ (m = 2%Z → d = 29%Z → ¬ leap_year y →
     parse_journal_file_line (date +:+ rest) y = JError leap_error)
  ∧ (valid_date y m d →
     ∀ k x, in_str x comma_or_newline = true →
            parse_journal_file_line (date +:+ spaces k +:+ String x rest) y
            = JError descr_error).
Proof.
  intros Hm Hml Hd Hdl m d date.
  assert (Hrun : ∀ L post,
            journal_loop L y 0 (date +:+ post) TJ.init
            = if ((1 <=? m)%Z && (m <=? 12)%Z)
              then
                if ((1 <=? d)%Z && (d <=? nth (Z.to_nat m) MAX_DATE 0)%Z)
                then
                  if ((m =? 2)%Z && (d =? 29)%Z) && negb (isleap y)
                  then inr (JError leap_error)
                  else journal_loop L y (String.length date) post
                         (after_date y m d (String.length ds))
                else inr (JError date_error)
              else inr (JError month_error)).
  { intros L post. unfold date. rewrite !append_assoc.
    rewrite (date_stage L y n ms ds post Hm Hml Hd Hdl). fold m d.
    reflexivity. }
  split; [| split; [| split]].
  - intros Hbad. apply parse_journal_file_line_eq. intros L. rewrite Hrun.
    destruct ((1 <=? m)%Z && (m <=? 12)%Z) eqn:E; [| reflexivity].
    apply andb_prop in E as [E1 E2]. apply Z.leb_le in E1, E2. lia.
  - intros Hmo Hbad. apply parse_journal_file_line_eq. intros L. rewrite Hrun.
    destruct ((1 <=? m)%Z && (m <=? 12)%Z) eqn:E.
    2:{ apply andb_false_iff in E as [E | E]; apply Z.leb_gt in E; lia. }
    rewrite MAX_DATE_days_in_month by exact Hmo.
    destruct ((1 <=? d)%Z && (d <=? days_in_month m)%Z) eqn:E'; [| reflexivity].
    apply andb_prop in E' as [E1 E2]. apply Z.leb_le in E1, E2. lia.
  - intros Hm2 Hd29 Hleap. apply parse_journal_file_line_eq. intros L. rewrite Hrun.
    rewrite Hm2, Hd29. simpl.
    destruct (isleap y) eqn:E; [| reflexivity].
    exfalso. apply Hleap. now apply isleap_leap_year.
  - intros Hv k x Hx. apply parse_journal_file_line_eq. intros L. rewrite Hrun.
    apply valid_date_dec in Hv as (E1 & E2 & E3). rewrite E1, E2, E3.
    rewrite journal_loop_app, journal_loop_spaces by (right; left; reflexivity).
    cbn [journal_loop]. unfold journal_step.
    cbn [TJ.parse_state after_date]. rewrite Hx.
    destruct (Ascii.eqb x " ") eqn:E; [| reflexivity].
    apply Ascii.eqb_eq in E. subst x. discriminate Hx.
Qed.

Lemma journal_date_errors_witness :
  parse_journal_file_line (ln "13/1, Nothing, 1.00, chk, 1.1") 2015 = JError month_error
  ∧ parse_journal_file_line (ln "4/31, Nothing, 1.00, chk, 1.1") 2015 = JError date_error
  ∧ parse_journal_file_line (ln "2/29, Nothing, 1.00, chk, 1.1") 2015 = JError leap_error
  ∧ parse_journal_file_line (ln "2/28,  , 1.00, chk, 1.1") 2015 = JError descr_error.
Proof.
  split; [| split; [| split]].
  - refine (proj1 (journal_date_errors 2015 0 "13" "1" (ln " Nothing, 1.00, chk, 1.1")
                     eq_refl _ eq_refl _) _);
      [simpl; lia | simpl; lia | vm_compute; intros [_ H]; now apply H].
  - refine (proj1 (proj2 (journal_date_errors 2015 0 "4" "31"
                            (ln " Nothing, 1.00, chk, 1.1") eq_refl _ eq_refl _)) _ _);
      [simpl; lia | simpl; lia | vm_compute; split; discriminate
      | vm_compute; intros [_ H]; now apply H].
  - refine (proj1 (proj2 (proj2 (journal_date_errors 2015 0 "2" "29"
                                   (ln " Nothing, 1.00, chk, 1.1")
                                   eq_refl _ eq_refl _))) eq_refl eq_refl _);
      [simpl; lia | simpl; lia | intros [[k Hk] _]; lia].
  - refine (proj2 (proj2 (proj2 (journal_date_errors 2015 0 "2" "28"
                                   (ln " 1.00, chk, 1.1") eq_refl _ eq_refl _)))
              _ 2%nat ","%char eq_refl);
      [simpl; lia | simpl; lia | apply valid_date_dec; vm_compute; auto].
Defined.
